(** * Lindblad eigenstates of an open polymer: a Rocq model of
      [ufss/vibronic_eigenstates/Lindblad_eigenstates.py]

    The development embeds the operator algebra of the classes [OpenPolymer]
    and [OpenPolymerVibrations]: the Kronecker-product builders, the
    electronic Hamiltonian, the manifold masks, the Lindblad instruction
    builders, the Liouvillian assembler, the post-processing of the
    eigensolver and the string keys of the per-manifold dictionaries.

    Numerical model.  numpy's [float64] and [complex128] scalars are
    idealised as the real numbers [R] of the Standard Library and as pairs of
    reals [C]: every arithmetic operation is exact, so the theorems are the
    algebraic content of the code and say nothing about rounding or
    overflow.  Where the type of an array decides what the code does (the
    addition in place of a complex number to a [float64] array raises) the
    type is part of the model, and so is a division by zero in [eigfun],
    which leaves an array that is not finite.  Integer valued arrays
    (occupation numbers, index masks) are lists of [Z] and [nat].  A
    two-dimensional array is the list of its rows; the LAPACK routines
    ([eig], [eigh], [pinv] on finite arrays) and [np.round] are parameters
    of the functions that call them. *)

From Stdlib Require Import Reals Lra Lia ZArith List String Ascii.
From stdpp Require Import base strings gmap list.
Import ListNotations.

Local Open Scope nat_scope.

(** ** Complex scalars *)

Definition C : Type := (R * R)%type.

Definition RtoC (x : R) : C := (x, 0%R).
Definition Ci : C := (0%R, 1%R).
Definition Cplus (x y : C) : C := (fst x + fst y, snd x + snd y)%R.
Definition Copp (x : C) : C := (- fst x, - snd x)%R.
Definition Cminus (x y : C) : C := Cplus x (Copp y).
Definition Cmult (x y : C) : C :=
  (fst x * fst y - snd x * snd y, fst x * snd y + snd x * fst y)%R.
(** [np.conjugate] *)
Definition Cconj (x : C) : C := (fst x, (- snd x)%R).
(** division of a complex number by a real one, as in [x / 2] *)
Definition Cdivr (x : C) (r : R) : C := (fst x / r, snd x / r)%R.
Definition Re (x : C) : R := fst x.
Definition Im (x : C) : R := snd x.

Declare Scope C_scope.
Delimit Scope C_scope with C.
Bind Scope C_scope with C.
Notation "0" := (RtoC 0) : C_scope.
Notation "1" := (RtoC 1) : C_scope.
Infix "+" := Cplus : C_scope.
Infix "*" := Cmult : C_scope.
Infix "-" := Cminus : C_scope.
Notation "- x" := (Copp x) : C_scope.

Lemma C_eq (x y : C) : fst x = fst y -> snd x = snd y -> x = y.
Proof. destruct x, y; simpl; intros; subst; reflexivity. Qed.

Ltac lca := apply C_eq; simpl; lra.
Ltac cring := apply C_eq; simpl; ring.

Lemma C_ring_theory : ring_theory 0%C 1%C Cplus Cmult Cminus Copp eq.
Proof.
  constructor; intros; try reflexivity; cring.
Qed.

Add Ring C_ring : C_ring_theory.

Lemma Cdivr_2_double (x : C) : (Cdivr x 2 + Cdivr x 2)%C = x.
Proof. destruct x; apply C_eq; simpl; lra. Qed.

Lemma Cmult_Cdivr_r (x y : C) (r : R) : (x * Cdivr y r)%C = Cdivr (x * y)%C r.
Proof. destruct x, y; unfold Cdivr, Cmult; simpl; apply C_eq; simpl; unfold Rdiv; ring. Qed.

Lemma Cmult_Cdivr_l (x y : C) (r : R) : (Cdivr x r * y)%C = Cdivr (x * y)%C r.
Proof. destruct x, y; unfold Cdivr, Cmult; simpl; apply C_eq; simpl; unfold Rdiv; ring. Qed.

Lemma Copp_Cdivr (x : C) (r : R) : (- Cdivr x r)%C = Cdivr (- x)%C r.
Proof. destruct x; unfold Cdivr, Copp; simpl; apply C_eq; simpl; unfold Rdiv; ring. Qed.

Lemma Cplus_Cdivr (x y : C) (r : R) : (Cdivr x r + Cdivr y r)%C = Cdivr (x + y)%C r.
Proof. destruct x, y; unfold Cdivr, Cplus; simpl; apply C_eq; simpl; unfold Rdiv; ring. Qed.

Lemma C1_neq_C0 : 1%C <> 0%C.
Proof. intros H. apply (f_equal fst) in H. simpl in H. lra. Qed.

(** ** Finite sums of scalars *)

(** [Csum f n] is the sum of [f 0], ..., [f (n-1)]. *)
Fixpoint Csum (f : nat -> C) (n : nat) : C :=
  match n with
  | O => 0%C
  | S n' => (Csum f n' + f n')%C
  end.

Lemma Csum_ext (f g : nat -> C) (n : nat) :
  (forall i, i < n -> f i = g i) -> Csum f n = Csum g n.
Proof.
  induction n as [|n IH]; intros H; simpl; [reflexivity|].
  rewrite IH by (intros; apply H; lia). rewrite H by lia. reflexivity.
Qed.

Lemma Csum_zero (n : nat) : Csum (fun _ => 0%C) n = 0%C.
Proof. induction n as [|n IH]; simpl; [reflexivity|]. rewrite IH. ring. Qed.

Lemma Csum_plus (f g : nat -> C) (n : nat) :
  Csum (fun i => (f i + g i)%C) n = (Csum f n + Csum g n)%C.
Proof. induction n as [|n IH]; simpl; [ring|]. rewrite IH. ring. Qed.

Lemma Csum_scale_l (c : C) (f : nat -> C) (n : nat) :
  Csum (fun i => (c * f i)%C) n = (c * Csum f n)%C.
Proof. induction n as [|n IH]; simpl; [ring|]. rewrite IH. ring. Qed.

Lemma Csum_scale_r (c : C) (f : nat -> C) (n : nat) :
  Csum (fun i => (f i * c)%C) n = (Csum f n * c)%C.
Proof. induction n as [|n IH]; simpl; [ring|]. rewrite IH. ring. Qed.

Lemma Csum_opp (f : nat -> C) (n : nat) :
  Csum (fun i => (- f i)%C) n = (- Csum f n)%C.
Proof. induction n as [|n IH]; simpl; [ring|]. rewrite IH. ring. Qed.

Lemma Csum_divr (f : nat -> C) (r : R) (n : nat) :
  Csum (fun i => Cdivr (f i) r) n = Cdivr (Csum f n) r.
Proof.
  induction n as [|n IH]; simpl.
  - apply C_eq; simpl; unfold Rdiv; ring.
  - rewrite IH. apply Cplus_Cdivr.
Qed.

(** Exchange of two finite sums. *)
Lemma Csum_swap (f : nat -> nat -> C) (n m : nat) :
  Csum (fun i => Csum (fun j => f i j) m) n =
  Csum (fun j => Csum (fun i => f i j) n) m.
Proof.
  induction n as [|n IH]; simpl.
  - symmetry. apply Csum_zero.
  - rewrite IH. symmetry. apply Csum_plus.
Qed.

(** A sum over [a + b] indices splits after the first [a]. *)
Lemma Csum_app (f : nat -> C) (a b : nat) :
  Csum f (a + b) = (Csum f a + Csum (fun j => f (a + j)%nat) b)%C.
Proof.
  induction b as [|b IH]; simpl.
  - rewrite Nat.add_0_r. ring.
  - replace (a + S b) with (S (a + b)) by lia. simpl. rewrite IH. ring.
Qed.

(** A sum over [n * m] indices is a double sum over quotient and remainder. *)
Lemma Csum_product (f : nat -> C) (n m : nat) :
  Csum f (n * m) = Csum (fun i => Csum (fun j => f (i * m + j)%nat) m) n.
Proof.
  induction n as [|n IH]; simpl; [reflexivity|].
  rewrite <- IH. replace (m + n * m) with (n * m + m) by lia.
  apply Csum_app.
Qed.

(** Only one index contributes. *)
Lemma Csum_single (f : nat -> C) (n k : nat) :
  k < n -> (forall i, i < n -> i <> k -> f i = 0%C) -> Csum f n = f k.
Proof.
  induction n as [|n IH]; intros Hk H; [lia|]. simpl.
  destruct (decide (k = n)) as [->|Hne].
  - rewrite (Csum_ext f (fun _ => 0%C)) by (intros; apply H; lia).
    rewrite Csum_zero. ring.
  - rewrite IH by (try lia; intros; apply H; lia).
    rewrite (H n) by lia. ring.
Qed.

(** ** Arrays

    A one-dimensional array is a list of scalars, a two-dimensional array the
    list of its rows.  [entry] reads out of range as [0]; the shape of an
    array is kept by [wf_mat]. *)

Abbreviation Vec := (list C).
Abbreviation Mat := (list (list C)).

Definition nrows (M : Mat) : nat := length M.
Definition ncols (M : Mat) : nat := length (hd [] M).
Definition entry (M : Mat) (i j : nat) : C := nth j (nth i M []) 0%C.

Definition wf_mat (r c : nat) (M : Mat) : Prop :=
  length M = r /\ Forall (fun row => length row = c) M.

(** [np.sum] of a vector and the inner product of two vectors *)
Definition vsum (v : Vec) : C := fold_right Cplus 0%C v.
Definition vdot (u v : Vec) : C := vsum (zip_with Cmult u v).

(** [np.eye(n)], [np.zeros((r,c))], [np.diag(e)] *)
Definition eye (n : nat) : Mat :=
  map (fun i => map (fun j => if Nat.eqb i j then 1%C else 0%C) (seq 0 n)) (seq 0 n).
Definition zeros (r c : nat) : Mat := repeat (repeat 0%C c) r.
Definition diag (e : Vec) : Mat :=
  map (fun i => map (fun j => if Nat.eqb i j then nth i e 0%C else 0%C)
                    (seq 0 (length e))) (seq 0 (length e)).

(** [M.T], [np.conjugate(M)], [c * M], [M / r], [-M], [A + B] *)
Definition mat_T (M : Mat) : Mat :=
  map (fun j => map (fun row => nth j row 0%C) M) (seq 0 (ncols M)).
Definition mat_conj (M : Mat) : Mat := map (map Cconj) M.
Definition mat_scale (c : C) (M : Mat) : Mat := map (map (Cmult c)) M.
Definition mat_divr (M : Mat) (r : R) : Mat := map (map (fun x => Cdivr x r)) M.
Definition mat_neg (M : Mat) : Mat := map (map Copp) M.
Definition mat_add (A B : Mat) : Mat := zip_with (zip_with Cplus) A B.
Definition mat_sub (A B : Mat) : Mat := zip_with (zip_with Cminus) A B.

(** [np.dot(A,B)] for two-dimensional arrays and [L.dot(v)] for a vector *)
Definition mat_dot (A B : Mat) : Mat :=
  map (fun row => map (fun col => vdot row col) (mat_T B)) A.
Definition mat_vec (L : Mat) (v : Vec) : Vec := map (fun row => vdot row v) L.

(** [np.kron] of two vectors and of two matrices *)
Definition vkron (u v : Vec) : Vec := flat_map (fun a => map (Cmult a) v) u.
Definition kron (A B : Mat) : Mat :=
  flat_map (fun ra => map (fun rb => vkron ra rb) B) A.

(** [M.flatten()] (row-major), [v.reshape(r,c)], [M.trace()] *)
Definition flatten (M : Mat) : Vec := concat M.
Definition reshape (r c : nat) (v : Vec) : option Mat :=
  if Nat.eqb (length v) (r * c)
  then Some (map (fun i => firstn c (skipn (i * c) v)) (seq 0 r))
  else None.
Definition trace (M : Mat) : C :=
  vsum (map (fun i => entry M i i) (seq 0 (Nat.min (nrows M) (ncols M)))).

(** column [j] of a matrix, [M[:,j]] *)
Definition column (M : Mat) (j : nat) : Vec := map (fun row => nth j row 0%C) M.

(** *** Entries of the array operations *)

Lemma fold_right_Cplus_acc (l : Vec) (a : C) :
  fold_right Cplus a l = (fold_right Cplus 0%C l + a)%C.
Proof. induction l as [|z l IHl]; simpl; [ring|]. rewrite IHl. ring. Qed.

Lemma vsum_app (u v : Vec) : vsum (u ++ v) = (vsum u + vsum v)%C.
Proof. unfold vsum. rewrite fold_right_app, fold_right_Cplus_acc. ring. Qed.

Lemma vsum_Csum (v : Vec) : vsum v = Csum (fun i => nth i v 0%C) (length v).
Proof.
  induction v as [|x v IH] using rev_ind; [reflexivity|].
  rewrite vsum_app, length_app, Nat.add_comm. simpl.
  rewrite app_nth2, Nat.sub_diag by lia. simpl.
  rewrite (Csum_ext _ (fun i => nth i v 0%C))
    by (intros i Hi; now rewrite app_nth1 by lia).
  rewrite <- IH. unfold vsum; simpl. ring.
Qed.

Lemma vsum_map_seq (f : nat -> C) (n : nat) : vsum (map f (seq 0 n)) = Csum f n.
Proof.
  induction n as [|n IH]; [reflexivity|].
  rewrite seq_S, map_app, vsum_app, IH. simpl. unfold vsum; simpl. ring.
Qed.

Lemma nth_map_lt {A B : Type} (f : A -> B) (l : list A) (i : nat) (d : B) (d' : A) :
  i < length l -> nth i (map f l) d = f (nth i l d').
Proof.
  intros Hi. rewrite (nth_indep _ d (f d')) by now rewrite length_map.
  apply map_nth.
Qed.

Lemma nth_map_seq {A : Type} (f : nat -> A) (n i : nat) (d : A) :
  i < n -> nth i (map f (seq 0 n)) d = f i.
Proof.
  intros Hi. rewrite (nth_map_lt f _ i d 0) by now rewrite length_seq.
  now rewrite seq_nth.
Qed.

Lemma nth_zip_with_lt {A : Type} (f : A -> A -> A) (u v : list A) (i : nat) (d : A) :
  i < length u -> i < length v ->
  nth i (zip_with f u v) d = f (nth i u d) (nth i v d).
Proof.
  revert v i. induction u as [|x u IH]; intros [|y v] [|i]; simpl; intros; try lia.
  - reflexivity.
  - apply IH; lia.
Qed.

Lemma vdot_Csum (u v : Vec) (n : nat) :
  length u = n -> length v = n ->
  vdot u v = Csum (fun i => (nth i u 0 * nth i v 0)%C) n.
Proof.
  intros Hu Hv. unfold vdot. rewrite vsum_Csum, length_zip_with, Hu, Hv, Nat.min_id.
  apply Csum_ext. intros i Hi. apply nth_zip_with_lt; lia.
Qed.

Lemma length_flat_map_uniform {A B : Type} (f : A -> list B) (l : list A) (m : nat) :
  Forall (fun x => length (f x) = m) l -> length (flat_map f l) = length l * m.
Proof.
  induction 1 as [|x l Hx _ IH]; simpl; [reflexivity|].
  rewrite length_app, IH, Hx. reflexivity.
Qed.

Lemma nth_flat_map_uniform {A B : Type} (f : A -> list B) (l : list A)
      (m i k : nat) (d : B) (da : A) :
  Forall (fun x => length (f x) = m) l -> i < length l -> k < m ->
  nth (i * m + k) (flat_map f l) d = nth k (f (nth i l da)) d.
Proof.
  intros H. revert i. induction H as [|x l Hx _ IH]; intros i Hi Hk; simpl in *; [lia|].
  destruct i as [|i]; simpl.
  - rewrite app_nth1 by lia. reflexivity.
  - rewrite app_nth2 by lia. rewrite Hx.
    replace (m + i * m + k - m) with (i * m + k) by lia. apply IH; lia.
Qed.

(** shapes *)

Lemma wf_mat_row (r c : nat) (M : Mat) (i : nat) :
  wf_mat r c M -> i < r -> length (nth i M []) = c.
Proof.
  intros [Hr Hc] Hi. rewrite List.Forall_forall in Hc. apply Hc.
  apply nth_In. lia.
Qed.

Lemma wf_mat_ncols (r c : nat) (M : Mat) : wf_mat r c M -> 0 < r -> ncols M = c.
Proof.
  intros H Hr. unfold ncols. rewrite <- (wf_mat_row r c M 0 H Hr).
  destruct M; reflexivity.
Qed.

Lemma entry_overflow (r c : nat) (M : Mat) (i j : nat) :
  wf_mat r c M -> r <= i \/ c <= j -> entry M i j = 0%C.
Proof.
  intros H Hij. unfold entry.
  destruct (Nat.lt_ge_cases i r) as [Hi|Hi].
  - apply nth_overflow. rewrite (wf_mat_row r c M i H Hi). lia.
  - rewrite (nth_overflow M) by (destruct H; lia). now destruct j.
Qed.

Lemma wf_eye (n : nat) : wf_mat n n (eye n).
Proof.
  split; unfold eye; [now rewrite length_map, length_seq|].
  apply List.Forall_forall. intros row Hrow. apply in_map_iff in Hrow as (i & <- & _).
  now rewrite length_map, length_seq.
Qed.

Lemma entry_eye (n i j : nat) :
  i < n -> j < n -> entry (eye n) i j = if Nat.eqb i j then 1%C else 0%C.
Proof.
  intros Hi Hj. unfold entry, eye.
  rewrite (nth_map_seq _ n i) by lia. now rewrite nth_map_seq by lia.
Qed.

Lemma wf_map_map (f : C -> C) (r c : nat) (M : Mat) :
  wf_mat r c M -> wf_mat r c (map (map f) M).
Proof.
  intros [Hr Hc]. split; [now rewrite length_map|].
  apply List.Forall_forall. intros row Hrow. apply in_map_iff in Hrow as (x & <- & Hx).
  rewrite length_map. rewrite List.Forall_forall in Hc. now apply Hc.
Qed.

Lemma entry_map_map (f : C -> C) (M : Mat) (i j : nat) :
  f 0%C = 0%C -> entry (map (map f) M) i j = f (entry M i j).
Proof.
  intros Hf. unfold entry.
  change (@nil C) with (map f []) at 1. rewrite map_nth.
  rewrite <- Hf at 1. apply map_nth.
Qed.

Lemma entry_scale (c : C) (M : Mat) (i j : nat) :
  entry (mat_scale c M) i j = (c * entry M i j)%C.
Proof. apply (entry_map_map (Cmult c)). ring. Qed.

Lemma entry_conj (M : Mat) (i j : nat) :
  entry (mat_conj M) i j = Cconj (entry M i j).
Proof. apply (entry_map_map Cconj). lca. Qed.

Lemma entry_neg (M : Mat) (i j : nat) : entry (mat_neg M) i j = (- entry M i j)%C.
Proof. apply (entry_map_map Copp). ring. Qed.

Lemma entry_divr (M : Mat) (r : R) (i j : nat) :
  entry (mat_divr M r) i j = Cdivr (entry M i j) r.
Proof.
  apply (entry_map_map (fun x => Cdivr x r)).
  apply C_eq; simpl; unfold Rdiv; ring.
Qed.

Lemma wf_mat_add (r c : nat) (A B : Mat) :
  wf_mat r c A -> wf_mat r c B -> wf_mat r c (mat_add A B).
Proof.
  intros [HA1 HA2] [HB1 HB2]. split.
  - unfold mat_add. rewrite length_zip_with. lia.
  - clear HA1 HB1. revert B HB2. induction HA2 as [|x A Hx _ IH]; intros B HB2.
    + constructor.
    + destruct HB2 as [|y B Hy HB]; simpl; constructor.
      * rewrite length_zip_with. lia.
      * now apply IH.
Qed.

Lemma entry_add (r c : nat) (A B : Mat) (i j : nat) :
  wf_mat r c A -> wf_mat r c B -> i < r -> j < c ->
  entry (mat_add A B) i j = (entry A i j + entry B i j)%C.
Proof.
  intros HA HB Hi Hj. unfold entry, mat_add.
  rewrite nth_zip_with_lt by (destruct HA, HB; lia).
  apply nth_zip_with_lt.
  - now rewrite (wf_mat_row r c A i HA Hi).
  - now rewrite (wf_mat_row r c B i HB Hi).
Qed.

Lemma wf_mat_T (r c : nat) (M : Mat) : wf_mat r c M -> 0 < r -> wf_mat c r (mat_T M).
Proof.
  intros H Hr. unfold mat_T. rewrite (wf_mat_ncols r c M H Hr). split.
  - now rewrite length_map, length_seq.
  - apply List.Forall_forall. intros row Hrow. apply in_map_iff in Hrow as (j & <- & _).
    rewrite length_map. now destruct H.
Qed.

Lemma entry_T (r c : nat) (M : Mat) (i j : nat) :
  wf_mat r c M -> entry (mat_T M) i j = entry M j i.
Proof.
  intros H. unfold mat_T.
  destruct (Nat.lt_ge_cases j r) as [Hj|Hj];
    [|rewrite (entry_overflow r c M j i H) by lia].
  - rewrite (wf_mat_ncols r c M H) by lia.
    destruct (Nat.lt_ge_cases i c) as [Hi|Hi].
    + unfold entry. rewrite (nth_map_seq _ c i) by lia.
      rewrite (nth_map_lt _ M j 0%C []) by (destruct H; lia). reflexivity.
    + rewrite (entry_overflow r c M j i H) by lia. unfold entry.
      rewrite (nth_overflow (map _ (seq 0 c))) by (now rewrite length_map, length_seq).
      now destruct j.
  - unfold entry.
    destruct (Nat.lt_ge_cases i (ncols M)) as [Hi|Hi].
    + rewrite (nth_map_seq _ _ i) by lia. apply nth_overflow.
      rewrite length_map. destruct H; lia.
    + rewrite (nth_overflow (map _ (seq 0 _))) by (now rewrite length_map, length_seq).
      now destruct j.
Qed.

Lemma column_mat_T (r c : nat) (M : Mat) (j : nat) :
  wf_mat r c M -> j < c -> 0 < r -> nth j (mat_T M) [] = column M j.
Proof.
  intros H Hj Hr. unfold mat_T. rewrite (wf_mat_ncols r c M H Hr).
  now rewrite nth_map_seq.
Qed.

Lemma entry_dot (r k c : nat) (A B : Mat) (i j : nat) :
  wf_mat r k A -> wf_mat k c B -> i < r -> j < c ->
  entry (mat_dot A B) i j = Csum (fun l => (entry A i l * entry B l j)%C) k.
Proof.
  intros HA HB Hi Hj. unfold mat_dot, entry at 1.
  rewrite (nth_map_lt _ A i [] []) by (destruct HA; lia).
  destruct (Nat.eq_dec k 0) as [->|Hk].
  - destruct HB as [HB _]. apply length_zero_iff_nil in HB. subst B. simpl.
    now destruct j.
  - assert (HT := wf_mat_T k c B HB ltac:(lia)).
    rewrite (nth_map_lt _ (mat_T B) j 0%C []) by (destruct HT; lia).
    rewrite (vdot_Csum _ _ k).
    + apply Csum_ext. intros l Hl. f_equal.
      change (nth l (nth j (mat_T B) []) 0%C) with (entry (mat_T B) j l).
      apply (entry_T k c B j l HB).
    + apply (wf_mat_row r k A i HA Hi).
    + apply (wf_mat_row c k (mat_T B) j HT Hj).
Qed.

Lemma wf_mat_dot (r k c : nat) (A B : Mat) :
  wf_mat r k A -> wf_mat k c B -> 0 < k -> wf_mat r c (mat_dot A B).
Proof.
  intros HA HB Hk. unfold mat_dot. split.
  - rewrite length_map. now destruct HA.
  - apply List.Forall_forall. intros row Hrow. apply in_map_iff in Hrow as (x & <- & _).
    rewrite length_map. now destruct (wf_mat_T k c B HB Hk).
Qed.

Lemma length_vkron (u v : Vec) : length (vkron u v) = length u * length v.
Proof.
  unfold vkron. apply length_flat_map_uniform.
  apply List.Forall_forall. intros a _. now rewrite length_map.
Qed.

Lemma nth_vkron (u v : Vec) (i j : nat) :
  i < length u -> j < length v ->
  nth (i * length v + j) (vkron u v) 0%C = (nth i u 0 * nth j v 0)%C.
Proof.
  intros Hi Hj. unfold vkron.
  rewrite (nth_flat_map_uniform _ u (length v) i j 0%C 0%C); try lia.
  - now rewrite (nth_map_lt _ v j 0%C 0%C).
  - apply List.Forall_forall. intros a _. now rewrite length_map.
Qed.

Lemma wf_kron (r1 c1 r2 c2 : nat) (A B : Mat) :
  wf_mat r1 c1 A -> wf_mat r2 c2 B -> wf_mat (r1 * r2) (c1 * c2) (kron A B).
Proof.
  intros [HA1 HA2] [HB1 HB2]. unfold kron. split.
  - rewrite (length_flat_map_uniform _ A r2); [now rewrite HA1|].
    apply List.Forall_forall. intros ra _. now rewrite length_map.
  - apply List.Forall_forall. intros row Hrow.
    apply in_flat_map in Hrow as (ra & Hra & Hrow).
    apply in_map_iff in Hrow as (rb & <- & Hrb).
    rewrite length_vkron.
    rewrite List.Forall_forall in HA2, HB2. now rewrite (HA2 ra Hra), (HB2 rb Hrb).
Qed.

(** The entry of a Kronecker product is the product of the entries of its
    factors at the quotients and remainders of the indices. *)
Lemma entry_kron (r1 c1 r2 c2 : nat) (A B : Mat) (i1 j1 i2 j2 : nat) :
  wf_mat r1 c1 A -> wf_mat r2 c2 B ->
  i1 < r1 -> j1 < c1 -> i2 < r2 -> j2 < c2 ->
  entry (kron A B) (i1 * r2 + i2) (j1 * c2 + j2) = (entry A i1 j1 * entry B i2 j2)%C.
Proof.
  intros HA HB Hi1 Hj1 Hi2 Hj2. unfold entry at 1, kron.
  rewrite (nth_flat_map_uniform _ A r2 i1 i2 [] []).
  - rewrite (nth_map_lt _ B i2 [] []) by (destruct HB; lia).
    rewrite <- (wf_mat_row r2 c2 B i2 HB Hi2) at 1.
    apply nth_vkron.
    + now rewrite (wf_mat_row r1 c1 A i1 HA Hi1).
    + now rewrite (wf_mat_row r2 c2 B i2 HB Hi2).
  - apply List.Forall_forall. intros ra _. rewrite length_map. now destruct HB.
  - destruct HA; lia.
  - lia.
Qed.

Lemma nth_mat_vec (L : Mat) (v : Vec) (i : nat) :
  i < length L -> nth i (mat_vec L v) 0%C = vdot (nth i L []) v.
Proof. intros Hi. unfold mat_vec. now rewrite (nth_map_lt _ L i 0%C []). Qed.

Lemma length_mat_vec (L : Mat) (v : Vec) : length (mat_vec L v) = length L.
Proof. unfold mat_vec. apply length_map. Qed.

Lemma length_flatten (r c : nat) (M : Mat) : wf_mat r c M -> length (flatten M) = r * c.
Proof.
  intros [Hr Hc]. unfold flatten.
  replace (concat M) with (flat_map (fun x : Vec => x) M)
    by (now rewrite flat_map_concat_map, map_id).
  rewrite (length_flat_map_uniform _ M c) by exact Hc. now rewrite Hr.
Qed.

Lemma nth_flatten (r c : nat) (M : Mat) (i j : nat) :
  wf_mat r c M -> i < r -> j < c -> nth (i * c + j) (flatten M) 0%C = entry M i j.
Proof.
  intros [Hr Hc] Hi Hj. unfold flatten.
  replace (concat M) with (flat_map (fun x : Vec => x) M)
    by (now rewrite flat_map_concat_map, map_id).
  rewrite (nth_flat_map_uniform _ M c i j 0%C []); try lia; [reflexivity|exact Hc].
Qed.

Lemma reshape_Some (r c : nat) (v : Vec) :
  length v = r * c -> exists M, reshape r c v = Some M /\ wf_mat r c M /\
    forall i j, i < r -> j < c -> entry M i j = nth (i * c + j) v 0%C.
Proof.
  intros Hv. unfold reshape. rewrite Hv, Nat.eqb_refl.
  eexists; split; [reflexivity|]. split; [split|].
  - now rewrite length_map, length_seq.
  - apply List.Forall_forall. intros row Hrow. apply in_map_iff in Hrow as (i & <- & Hi).
    apply in_seq in Hi. rewrite length_firstn, length_skipn. nia.
  - intros i j Hi Hj. unfold entry. rewrite nth_map_seq by lia.
    rewrite nth_firstn. destruct (Nat.ltb_spec j c); [|lia]. now rewrite nth_skipn.
Qed.

Lemma trace_Csum (n : nat) (M : Mat) :
  wf_mat n n M -> trace M = Csum (fun i => entry M i i) n.
Proof.
  intros H. unfold trace. rewrite vsum_map_seq.
  destruct n as [|n].
  - destruct H as [H _]. unfold nrows. now rewrite H.
  - unfold nrows. rewrite (wf_mat_ncols (S n) (S n) M H) by lia.
    destruct H as [H _]. now rewrite H, Nat.min_id.
Qed.

(** Two arrays of one shape with the same entries are equal. *)
Lemma mat_ext (r c : nat) (A B : Mat) :
  wf_mat r c A -> wf_mat r c B ->
  (forall i j, i < r -> j < c -> entry A i j = entry B i j) -> A = B.
Proof.
  intros HA HB H.
  apply (nth_ext A B [] []); [destruct HA, HB; lia|].
  intros i Hi. assert (Hi' : i < r) by (destruct HA; lia).
  apply (nth_ext _ _ 0%C 0%C).
  - now rewrite (wf_mat_row r c A i HA Hi'), (wf_mat_row r c B i HB Hi').
  - intros j Hj. rewrite (wf_mat_row r c A i HA Hi') in Hj. now apply H.
Qed.

(** The vectorisation identity: [kron(A, B.T)] applied to the row-major
    [vec(rho)] is [vec(A rho B)], entry by entry. *)
Lemma nth_kron_vec (n : nat) (A B rho : Mat) (i k : nat) :
  wf_mat n n A -> wf_mat n n B -> wf_mat n n rho -> i < n -> k < n ->
  nth (i * n + k) (mat_vec (kron A (mat_T B)) (flatten rho)) 0%C =
  Csum (fun j => Csum (fun l => (entry A i j * entry rho j l * entry B l k)%C) n) n.
Proof.
  intros HA HB Hrho Hi Hk.
  assert (Hn : 0 < n) by lia.
  assert (HT := wf_mat_T n n B HB Hn).
  assert (HK := wf_kron n n n n A (mat_T B) HA HT).
  rewrite nth_mat_vec by (destruct HK; nia).
  rewrite (vdot_Csum _ _ (n * n));
    [|apply (wf_mat_row (n * n) (n * n) _ _ HK); nia|apply (length_flatten n n rho Hrho)].
  rewrite Csum_product. apply Csum_ext; intros j Hj. apply Csum_ext; intros l Hl.
  change (nth (j * n + l) (nth (i * n + k) (kron A (mat_T B)) []) 0%C)
    with (entry (kron A (mat_T B)) (i * n + k) (j * n + l)).
  rewrite (entry_kron n n n n) by assumption.
  rewrite (entry_T n n B) by assumption.
  rewrite (nth_flatten n n) by assumption. ring.
Qed.

Lemma nth_mat_vec_add (r c : nat) (L1 L2 : Mat) (v : Vec) (i : nat) :
  wf_mat r c L1 -> wf_mat r c L2 -> length v = c -> i < r ->
  nth i (mat_vec (mat_add L1 L2) v) 0%C =
  (nth i (mat_vec L1 v) 0 + nth i (mat_vec L2 v) 0)%C.
Proof.
  intros H1 H2 Hv Hi. assert (H12 := wf_mat_add r c L1 L2 H1 H2).
  rewrite !nth_mat_vec by (destruct H1, H2, H12; lia).
  rewrite (vdot_Csum _ _ c), (vdot_Csum (nth i L1 []) _ c), (vdot_Csum (nth i L2 []) _ c);
    try assumption; try (eapply wf_mat_row; eassumption).
  rewrite <- Csum_plus. apply Csum_ext. intros l Hl.
  change (nth l (nth i (mat_add L1 L2) []) 0%C) with (entry (mat_add L1 L2) i l).
  rewrite (entry_add r c) by assumption. unfold entry. ring.
Qed.

(** ** Python results

    A call either returns a value or raises; an exception is kept by the name
    of its class and its message. *)

Record py_exception : Type := PyExc { exc_class : string; exc_msg : string }.

Inductive result (A : Type) : Type :=
| Ok (a : A)
| Raise (e : py_exception).
Arguments Ok {A} a.
Arguments Raise {A} e.

Definition IndexError : py_exception := PyExc "IndexError" "list index out of range".

#[global] Instance result_bind : MBind result :=
  fun A B f x => match x with Ok a => f a | Raise e => Raise e end.
#[global] Instance result_ret : MRet result := @Ok.

(** [l[i]] for a non-negative index *)
Definition py_getitem {A : Type} (l : list A) (i : nat) : result A :=
  match l !! i with
  | Some x => Ok x
  | None => Raise IndexError
  end.

(** [l[pos] = x] for a Python integer index: a negative index counts from
    the end, an index out of range raises. *)
Definition py_setitem {A : Type} (l : list A) (pos : Z) (x : A) : result (list A) :=
  let n := Z.of_nat (length l) in
  if ((0 <=? pos) && (pos <? n))%Z then Ok (<[Z.to_nat pos := x]> l)
  else if ((- n <=? pos) && (pos <? 0))%Z then Ok (<[Z.to_nat (pos + n) := x]> l)
  else Raise (PyExc "IndexError" "list assignment index out of range").

(** a [for] loop that appends [f x] for every [x], stopping at the first
    exception *)
Fixpoint for_each {A B : Type} (f : A -> result B) (l : list A) : result (list B) :=
  match l with
  | [] => Ok []
  | x :: xs => y ← f x; ys ← for_each f xs; Ok (y :: ys)
  end.

(** [itertools.combinations(l, r)]: the [r]-element subsequences of [l] in
    lexicographic order of their positions *)
Fixpoint combinations {A : Type} (l : list A) (r : nat) {struct l} : list (list A) :=
  match r with
  | O => [[]]
  | S r' =>
      match l with
      | [] => []
      | x :: xs => map (cons x) (combinations xs r') ++ combinations xs (S r')
      end
  end.

(** ** The dissipator library and the Liouvillian assembler *)

(** A Lindblad instruction is a pair (Left, Right). *)
Abbreviation instruction := (Mat * Mat)%type.

(** [make_Lindblad_instructions(gamma,O)]:
    [II = np.eye(O.shape[0])], [Od = np.conjugate(O.T)],
    [leftright = gamma * (-np.dot(Od,O)/2)]. *)
Definition make_Lindblad_instructions (gamma : C) (O : Mat) : list instruction :=
  let II := eye (nrows O) in
  let Od := mat_conj (mat_T O) in
  let leftright := mat_scale gamma (mat_divr (mat_neg (mat_dot Od O)) 2) in
  [(mat_scale gamma O, Od); (leftright, II); (II, leftright)].

(** [make_commutator_instructions(O)] *)
Definition make_commutator_instructions (O : Mat) : list instruction :=
  let II := eye (nrows O) in
  [(O, II); (II, mat_neg O)].

(** [make_Liouvillian(instruction_list)]: the sum of [np.kron(left, right.T)]
    over the list; [instruction_list[0]] raises on an empty list. *)
Definition make_Liouvillian (instruction_list : list instruction) : result Mat :=
  match instruction_list with
  | [] => Raise IndexError
  | (left_, right_) :: rest =>
      Ok (fold_left (fun L '(left_, right_) => mat_add L (kron left_ (mat_T right_)))
                    rest (kron left_ (mat_T right_)))
  end.

(** *** The trace of a dissipator *)

Section LindbladSums.
Variable n : nat.
Variable g : C.
Variables o od r : nat -> nat -> C.

Let delta (a b : nat) : C := if Nat.eqb a b then 1%C else 0%C.
Let m (a b : nat) : C := (g * Cdivr (- Csum (fun k => od a k * o k b) n) 2)%C.
Let X : C := Csum (fun i => Csum (fun j => Csum (fun k => (od i k * o k j * r j i)%C) n) n) n.

Lemma lindblad_decay_sum :
  Csum (fun i => Csum (fun j => Csum (fun l => (g * o i j * r j l * od l i)%C) n) n) n
  = (g * X)%C.
Proof.
  unfold X. rewrite <- Csum_scale_l.
  rewrite Csum_swap.
  rewrite (Csum_ext _ (fun j => Csum (fun l => Csum (fun i =>
             (g * o i j * r j l * od l i)%C) n) n))
    by (intros j _; apply Csum_swap).
  rewrite Csum_swap.
  apply Csum_ext; intros l _. rewrite <- Csum_scale_l.
  apply Csum_ext; intros j _. rewrite <- Csum_scale_l.
  apply Csum_ext; intros i _. ring.
Qed.

Lemma m_times (a b : nat) (x : C) :
  (m a b * x)%C = Cdivr (- (g * Csum (fun k => od a k * o k b * x) n))%C 2.
Proof.
  unfold m. rewrite Csum_scale_r.
  generalize (Csum (fun k => (od a k * o k b)%C) n). intros s.
  apply C_eq; destruct g, s, x; simpl; field.
Qed.

Lemma lindblad_left_sum :
  Csum (fun i => Csum (fun j => Csum (fun l => (m i j * r j l * delta l i)%C) n) n) n
  = Cdivr (- (g * X))%C 2.
Proof.
  unfold X.
  rewrite <- Csum_scale_l, <- Csum_opp, <- Csum_divr.
  apply Csum_ext; intros i Hi.
  rewrite <- Csum_scale_l, <- Csum_opp, <- Csum_divr.
  apply Csum_ext; intros j Hj.
  rewrite (Csum_single _ n i Hi).
  - unfold delta. rewrite Nat.eqb_refl.
    replace (m i j * r j i * 1)%C with (m i j * r j i)%C by ring.
    apply m_times.
  - intros l _ Hl. unfold delta.
    destruct (Nat.eqb_spec l i); [contradiction|ring].
Qed.

Lemma lindblad_right_sum :
  Csum (fun i => Csum (fun j => Csum (fun l => (delta i j * r j l * m l i)%C) n) n) n
  = Cdivr (- (g * X))%C 2.
Proof.
  unfold X.
  rewrite (Csum_ext _ (fun i => Csum (fun l => (m l i * r i l)%C) n)).
  - rewrite Csum_swap.
    rewrite <- Csum_scale_l, <- Csum_opp, <- Csum_divr.
    apply Csum_ext; intros l _.
    rewrite <- Csum_scale_l, <- Csum_opp, <- Csum_divr.
    apply Csum_ext; intros i _. apply m_times.
  - intros i Hi. rewrite (Csum_single _ n i Hi).
    + apply Csum_ext; intros l _. unfold delta. rewrite Nat.eqb_refl. ring.
    + intros j _ Hj. unfold delta.
      destruct (Nat.eqb_spec i j); [congruence|].
      rewrite (Csum_ext _ (fun _ => 0%C)) by (intros; ring).
      apply Csum_zero.
Qed.

(** The three terms of a dissipator cancel under the trace. *)
Lemma lindblad_sum_zero :
  Csum (fun i =>
    (Csum (fun j => Csum (fun l => (g * o i j * r j l * od l i)%C) n) n
     + Csum (fun j => Csum (fun l => (m i j * r j l * delta l i)%C) n) n
     + Csum (fun j => Csum (fun l => (delta i j * r j l * m l i)%C) n) n)%C) n
  = 0%C.
Proof.
  rewrite !Csum_plus.
  rewrite lindblad_decay_sum, lindblad_left_sum, lindblad_right_sum.
  rewrite <- (Cdivr_2_double (g * X)%C) at 1.
  rewrite <- !Copp_Cdivr. ring.
Qed.
End LindbladSums.

Section LindbladTrace.
Variable n : nat.
Variable gamma : C.
Variables O rho : Mat.
Hypothesis Hn : 0 < n.
Hypothesis HO : wf_mat n n O.
Hypothesis Hrho : wf_mat n n rho.

Let Od : Mat := mat_conj (mat_T O).
Let leftright : Mat := mat_scale gamma (mat_divr (mat_neg (mat_dot Od O)) 2).

Lemma wf_Od : wf_mat n n Od.
Proof. apply wf_map_map. now apply wf_mat_T. Qed.

Lemma wf_leftright : wf_mat n n leftright.
Proof.
  unfold leftright, mat_scale, mat_divr, mat_neg.
  do 3 apply wf_map_map. apply (wf_mat_dot n n n); auto using wf_Od.
Qed.

Lemma entry_leftright (a b : nat) :
  a < n -> b < n ->
  entry leftright a b =
  (gamma * Cdivr (- Csum (fun k => entry Od a k * entry O k b) n) 2)%C.
Proof.
  intros Ha Hb. unfold leftright.
  rewrite entry_scale, entry_divr, entry_neg.
  rewrite (entry_dot n n n) by auto using wf_Od. reflexivity.
Qed.

Lemma Lindblad_Liouvillian_value :
  make_Liouvillian (make_Lindblad_instructions gamma O) =
  Ok (mat_add (mat_add (kron (mat_scale gamma O) (mat_T Od))
                       (kron leftright (mat_T (eye n))))
              (kron (eye n) (mat_T leftright))).
Proof.
  unfold make_Liouvillian, make_Lindblad_instructions. simpl.
  unfold nrows. destruct HO as [-> _]. reflexivity.
Qed.

Lemma Lindblad_trace_zero :
  exists L M,
    make_Liouvillian (make_Lindblad_instructions gamma O) = Ok L /\
    reshape n n (mat_vec L (flatten rho)) = Some M /\
    trace M = 0%C.
Proof.
  eexists. rewrite Lindblad_Liouvillian_value.
  set (K1 := kron (mat_scale gamma O) (mat_T Od)).
  set (K2 := kron leftright (mat_T (eye n))).
  set (K3 := kron (eye n) (mat_T leftright)).
  assert (HsO : wf_mat n n (mat_scale gamma O)) by now apply wf_map_map.
  assert (HOd := wf_Od). assert (Hlr := wf_leftright). assert (HI := wf_eye n).
  assert (HK1 : wf_mat (n * n) (n * n) K1)
    by (apply wf_kron; auto using wf_mat_T).
  assert (HK2 : wf_mat (n * n) (n * n) K2)
    by (apply wf_kron; auto using wf_mat_T).
  assert (HK3 : wf_mat (n * n) (n * n) K3)
    by (apply wf_kron; auto using wf_mat_T).
  assert (HK12 := wf_mat_add _ _ _ _ HK1 HK2).
  assert (HL := wf_mat_add _ _ _ _ HK12 HK3).
  assert (Hflat := length_flatten n n rho Hrho).
  destruct (reshape_Some n n (mat_vec (mat_add (mat_add K1 K2) K3) (flatten rho)))
    as (M & HM & HwfM & HentM).
  { rewrite length_mat_vec. now destruct HL. }
  exists M. split; [reflexivity|]. split; [exact HM|].
  rewrite (trace_Csum n M HwfM).
  rewrite <- (lindblad_sum_zero n gamma (entry O) (entry Od) (entry rho)).
  apply Csum_ext. intros i Hi.
  rewrite HentM by assumption.
  rewrite (nth_mat_vec_add (n * n) (n * n)) by (auto; nia).
  rewrite (nth_mat_vec_add (n * n) (n * n)) by (auto; nia).
  unfold K1, K2, K3. rewrite !nth_kron_vec by assumption.
  f_equal; [f_equal|].
  - apply Csum_ext; intros j Hj. apply Csum_ext; intros l Hl.
    now rewrite entry_scale.
  - apply Csum_ext; intros j Hj. apply Csum_ext; intros l Hl.
    rewrite entry_leftright, entry_eye by assumption. reflexivity.
  - apply Csum_ext; intros j Hj. apply Csum_ext; intros l Hl.
    rewrite entry_leftright, entry_eye by assumption. reflexivity.
Qed.
End LindbladTrace.

(** ** The class [OpenPolymer] *)

(** *** Local operators of one two-level site *)

Definition up : Mat := [[0; 0]; [1; 0]]%C.
Definition down : Mat := [[0; 1]; [0; 0]]%C.
Definition ii : Mat := eye 2.
Definition sz : Mat := [[0; 0]; [0; 1]]%C.
Definition occupied : Mat := [[0; 0]; [0; 1]]%C.
Definition empty : Mat := [[1; 0]; [0; 0]]%C.

(** *** The tensor factor builder *)

(** [recursive_kron(list_of_matrices)]: [pop(0)], then [np.kron] from left to
    right. *)
Definition recursive_kron (list_of_matrices : list Mat) : result Mat :=
  match list_of_matrices with
  | [] => Raise (PyExc "IndexError" "pop from empty list")
  | mat :: rest => Ok (fold_left kron rest mat)
  end.

(** [electronic_identity_kron(element_list)], a list of pairs
    (element, position) *)
Definition electronic_identity_kron (num_sites : nat) (element_list : list (Mat * Z))
  : result Mat :=
  let num_identities := (Z.of_nat num_sites - Z.of_nat (length element_list))%Z in
  if (num_identities <? 0)%Z
  then Raise (PyExc "ValueError" "Too many elements for Hilbert space")
  else
    matrix_list ← fold_left (fun acc '(el, pos) => ml ← acc; py_setitem ml pos el)
                            element_list (Ok (repeat ii num_sites));
    recursive_kron matrix_list.

(** [make_single_operator_list(O)] *)
Definition make_single_operator_list (num_sites : nat) (O : Mat) : result (list Mat) :=
  for_each (fun i => electronic_identity_kron num_sites [(O, Z.of_nat i)])
           (seq 0 num_sites).

(** [make_multi_operator_list(o_list)] *)
Definition make_multi_operator_list (num_sites : nat) (o_list : list Mat)
  : result (list Mat) :=
  let positions := combinations (seq 0 num_sites) (length o_list) in
  for_each (fun pos_tuple =>
              electronic_identity_kron num_sites (zip o_list (map Z.of_nat pos_tuple)))
           positions.

(** *** Occupation numbers and manifold masks *)

(** [np.kron] of two integer vectors *)
Definition zkron (u v : list Z) : list Z := flat_map (fun a => map (Z.mul a) v) u.

(** [ones_list.insert(position, item)] for a non-negative position *)
Definition py_insert {A : Type} (l : list A) (position : nat) (item : A) : list A :=
  firstn position l ++ item :: skipn position l.

(** [electronic_vector_of_ones_kron(position,item)] *)
Definition electronic_vector_of_ones_kron (num_sites : nat) (position : nat)
           (item : list Z) : list Z :=
  let N := 2 in
  let ones_list := repeat (repeat 1%Z N) (num_sites - 1) in
  let ones_list := py_insert ones_list position item in
  match ones_list with
  | [] => []
  | vec :: ones_list => fold_left zkron ones_list vec
  end.

(** [set_electronic_total_occupation_number()]: the value stored in
    [self.electronic_total_occupation_number] *)
Definition set_electronic_total_occupation_number (num_sites : nat) : list Z :=
  let single_mode_occ := [0; 1]%Z in
  let occ_num := electronic_vector_of_ones_kron num_sites 0 single_mode_occ in
  fold_left (fun occ_num i =>
               zip_with Z.add occ_num
                        (electronic_vector_of_ones_kron num_sites i single_mode_occ))
            (seq 1 (num_sites - 1)) occ_num.

(** [np.where(occ == manifold_num)[0]] *)
Definition where_eq (occ : list Z) (manifold_num : Z) : list nat :=
  List.filter (fun i => Z.eqb (nth i occ 0%Z) manifold_num) (seq 0 (length occ)).

(** [electronic_manifold_mask(manifold_num)] *)
Definition electronic_manifold_mask (electronic_total_occupation_number : list Z)
           (manifold_num : Z) : list nat :=
  where_eq electronic_total_occupation_number manifold_num.

(** [extract_coherence(O,manifold1,manifold2)]: [O[inds1,:][:,inds2]] *)
Definition extract_coherence (occ : list Z) (O : Mat) (manifold1 manifold2 : Z) : Mat :=
  let manifold1_inds := electronic_manifold_mask occ manifold1 in
  let manifold2_inds := electronic_manifold_mask occ manifold2 in
  map (fun i => map (fun j => entry O i j) manifold2_inds) manifold1_inds.

Definition extract_manifold (occ : list Z) (O : Mat) (manifold_num : Z) : Mat :=
  extract_coherence occ O manifold_num manifold_num.

(** [Ofull[inds, ind] = col]: the entries of column [ind] at the rows [inds] *)
Definition assign_column (Ofull : Mat) (inds : list nat) (ind : nat) (col : Vec) : Mat :=
  fold_left (fun M '(row, x) => alter (fun r => <[ind := x]> r) row M)
            (zip inds col) Ofull.

(** [coherence_to_full(O,manifold1,manifold2)], for an [O] of the shape of
    the block *)
Definition coherence_to_full (occ : list Z) (shape : nat * nat) (O : Mat)
           (manifold1 manifold2 : Z) : Mat :=
  let Ofull := zeros (fst shape) (snd shape) in
  let manifold1_inds := electronic_manifold_mask occ manifold1 in
  let manifold2_inds := electronic_manifold_mask occ manifold2 in
  fold_left (fun Ofull i =>
               let ind := nth i manifold2_inds 0 in
               assign_column Ofull manifold1_inds ind (column O i))
            (seq 0 (length manifold2_inds)) Ofull.

Definition manifold_to_full (occ : list Z) (shape : nat * nat) (O : Mat)
           (manifold_num : Z) : Mat :=
  coherence_to_full occ shape O manifold_num manifold_num.

(** *** The electronic Hamiltonian *)

(** A coupling as the caller passes it: a real number ([int], [float],
    [np.float64]) or a complex one ([complex], [np.complex128]).  The site
    energies are real numbers: [boltzmann_factors] orders them. *)
Inductive py_number : Type :=
| PyFloat (x : R)
| PyComplex (z : C).

Definition number_value (x : py_number) : C :=
  match x with
  | PyFloat x => RtoC x
  | PyComplex z => z
  end.

Definition is_real (x : py_number) : bool :=
  match x with
  | PyFloat _ => true
  | PyComplex _ => false
  end.

(** [np.conjugate(x)], of the type of [x] *)
Definition py_conjugate (x : py_number) : py_number :=
  match x with
  | PyFloat x => PyFloat x
  | PyComplex z => PyComplex (Cconj z)
  end.

Definition UFuncTypeError : py_exception :=
  PyExc "UFuncTypeError"
        "Cannot cast ufunc 'add' output from dtype('complex128') to dtype('float64') with casting rule 'same_kind'".

(** [ham += x * A] for two [float64] arrays [ham] and [A]: with a complex
    [x] the product is a [complex128] array, which the in-place addition
    refuses to cast to the type of [ham], whatever the imaginary part. *)
Definition iadd_scaled (ham : Mat) (x : py_number) (A : Mat) : result Mat :=
  match x with
  | PyFloat x => Ok (mat_add ham (mat_scale (RtoC x) A))
  | PyComplex _ => Raise UFuncTypeError
  end.

(** [make_electronic_hamiltonian()].  The operators are the [float64] arrays
    of [set_occupied_list] and [set_exchange_list]; so is [ham], the product
    of a real energy and such an array, which every [+=] updates in place. *)
Definition make_electronic_hamiltonian (num_sites : nat) (energies : list R)
           (couplings : list py_number) (occupied_list exchange_list : list Mat)
  : result Mat :=
  e0 ← py_getitem energies 0;
  o0 ← py_getitem occupied_list 0;
  let ham := mat_scale (RtoC e0) o0 in
  ham ← fold_left (fun acc i =>
                     ham ← acc;
                     e ← py_getitem energies i;
                     o ← py_getitem occupied_list i;
                     Ok (mat_add ham (mat_scale (RtoC e) o)))
                  (seq 1 (num_sites - 1)) (Ok ham);
  fold_left (fun acc i =>
               ham ← acc;
               J ← py_getitem couplings i;
               X ← py_getitem exchange_list i;
               ham ← iadd_scaled ham J X;
               iadd_scaled ham (py_conjugate J) (mat_T X))
            (seq 0 (length exchange_list)) (Ok ham).

(** The value of the [k]-th coupling. *)
Definition coupling (couplings : list py_number) (k : nat) : C :=
  number_value (nth k couplings (PyFloat 0)).

(** *** Comparisons of reals and [np.isclose] *)

Definition Req_b (x y : R) : bool := if Req_dec_T x y then true else false.
Definition Rlt_b (x y : R) : bool := if Rlt_dec x y then true else false.
Definition Rle_b (x y : R) : bool := if Rle_dec x y then true else false.

(** modulus of a complex number, [np.abs] *)
Definition Cmod (x : C) : R := sqrt (fst x * fst x + snd x * snd x).

(** [np.isclose(a, b, rtol, atol)]: [|a - b| <= atol + rtol * |b|] *)
Definition isclose_tol (rtol atol : R) (a b : C) : bool :=
  Rle_b (Cmod (a - b)%C) (atol + rtol * Cmod b)%R.

(** numpy's default tolerances *)
Definition default_rtol : R := 1e-5.
Definition default_atol : R := 1e-8.

Definition isclose (a b : C) : bool := isclose_tol default_rtol default_atol a b.

(** [np.isclose] of two real numbers, with the default tolerances *)
Definition isclose_real (a b : R) : bool :=
  Rle_b (Rabs (a - b)) (default_atol + default_rtol * Rabs b)%R.

(** [np.allclose(A, B, rtol, atol)] for two arrays of one shape *)
Definition allclose_tol (rtol atol : R) (A B : Mat) : bool :=
  forallb (fun '(ra, rb) => forallb (fun '(a, b) => isclose_tol rtol atol a b) (zip ra rb))
          (zip A B).

Definition allclose (A B : Mat) : bool := allclose_tol default_rtol default_atol A B.

(** *** Detailed balance *)

(** [boltzmann_factors_ordered_inputs(E1,E2)], "E1 must be less than E2" *)
Definition boltzmann_factors_ordered_inputs (kT : R) (E1 E2 : R) : R * R :=
  if Req_b kT 0 then (1, 0)%R
  else
    let Z := (exp (- E1 / kT) + exp (- E2 / kT))%R in
    if isclose_real Z 0 then (1, 0)%R
    else (exp (- E1 / kT) / Z, exp (- E2 / kT) / Z)%R.

(** [boltzmann_factors(E1,E2)] *)
Definition boltzmann_factors (kT : R) (E1 E2 : R) : R * R :=
  if Req_b E1 E2 then (0.5, 0.5)%R
  else if Rlt_b E1 E2 then boltzmann_factors_ordered_inputs kT E1 E2
  else
    let '(E1_to_E2, E2_to_E1) := boltzmann_factors_ordered_inputs kT E2 E1 in
    (E2_to_E1, E1_to_E2).

(** *** The object *)

(** The attributes of an [OpenPolymer] that the modelled methods read or
    write.  An attribute that is assigned late in the construction is an
    option, [None] before its assignment. *)
Record OpenPolymer : Type := mkOpenPolymer {
  num_sites : nat;
  energies : list R;
  couplings : list py_number;
  up_list : list Mat;
  down_list : list Mat;
  occupied_list : list Mat;
  empty_list : list Mat;
  exchange_list : list Mat;
  sz_list : list Mat;
  electronic_hamiltonian : Mat;
  electronic_total_occupation_number : list Z;
  electronic_eigenvalues_by_manifold : list (list R);
  electronic_eigenvectors_by_manifold : list Mat;
  exciton_energies : option (list R);
  electronic_eigenvectors : option Mat;
  electronic_eigenvalues : option Vec;
  optical_dephasing_gamma : R;
  optical_decoherence_gamma : R;
  site_to_site_dephasing_gamma : R;
  site_to_site_decoherence_gamma : R;
  exciton_decoherence_gamma : R;
  exciton_exciton_dephasing_gamma : R;
  kT : R;
  dipoles : list (list R);
  mu : option Mat;
  mu_dict : gmap string Mat;
  mu_ket_up : option Mat
}.

Definition AttributeError (name : string) : py_exception :=
  PyExc "AttributeError" name.

(** reading an attribute that may not be assigned yet *)
Definition py_getattr {A : Type} (name : string) (x : option A) : result A :=
  match x with
  | Some a => Ok a
  | None => Raise (AttributeError name)
  end.

Definition set_exciton_energies (self : OpenPolymer) (e : list R) : OpenPolymer :=
  mkOpenPolymer (num_sites self) (energies self) (couplings self) (up_list self)
    (down_list self) (occupied_list self) (empty_list self) (exchange_list self)
    (sz_list self) (electronic_hamiltonian self)
    (electronic_total_occupation_number self)
    (electronic_eigenvalues_by_manifold self) (electronic_eigenvectors_by_manifold self)
    (Some e) (electronic_eigenvectors self) (electronic_eigenvalues self)
    (optical_dephasing_gamma self) (optical_decoherence_gamma self)
    (site_to_site_dephasing_gamma self) (site_to_site_decoherence_gamma self)
    (exciton_decoherence_gamma self) (exciton_exciton_dephasing_gamma self) (kT self)
    (dipoles self) (mu self) (mu_dict self) (mu_ket_up self).

Definition set_electronic_eigen (self : OpenPolymer) (eigvecs : Mat) (eigvals : Vec)
  : OpenPolymer :=
  mkOpenPolymer (num_sites self) (energies self) (couplings self) (up_list self)
    (down_list self) (occupied_list self) (empty_list self) (exchange_list self)
    (sz_list self) (electronic_hamiltonian self)
    (electronic_total_occupation_number self)
    (electronic_eigenvalues_by_manifold self) (electronic_eigenvectors_by_manifold self)
    (exciton_energies self) (Some eigvecs) (Some eigvals)
    (optical_dephasing_gamma self) (optical_decoherence_gamma self)
    (site_to_site_dephasing_gamma self) (site_to_site_decoherence_gamma self)
    (exciton_decoherence_gamma self) (exciton_exciton_dephasing_gamma self) (kT self)
    (dipoles self) (mu self) (mu_dict self) (mu_ket_up self).

(** *** The electronic eigensystem *)

(** [O.shape] of a two-dimensional array *)
Definition shape_of (M : Mat) : nat * nat := (nrows M, ncols M).

(** [d.diagonal()] *)
Definition diagonal (M : Mat) : Vec :=
  map (fun i => entry M i i) (seq 0 (Nat.min (nrows M) (ncols M))).

(** [get_eigensystem_by_manifold(manifold_num)] *)
Definition get_eigensystem_by_manifold (self : OpenPolymer) (manifold_num : nat)
  : result (list R * Mat) :=
  e ← py_getitem (electronic_eigenvalues_by_manifold self) manifold_num;
  v ← py_getitem (electronic_eigenvectors_by_manifold self) manifold_num;
  Ok (e, v).

(** The loop of [set_electronic_eigensystem()] over the manifolds: it embeds
    the eigenvectors and the eigenvalues of every manifold in the full space
    and assigns [self.exciton_energies] at manifold 1. *)
Definition electronic_eigensystem_loop (self : OpenPolymer)
  : OpenPolymer * result (Mat * Mat) :=
  let H := electronic_hamiltonian self in
  let occ := electronic_total_occupation_number self in
  let eigvecs := zeros (nrows H) (ncols H) in
  let d := zeros (nrows H) (ncols H) in
  fold_left
    (fun (acc : OpenPolymer * result (Mat * Mat)) i =>
       let '(self, r) := acc in
       match r with
       | Raise exc => (self, Raise exc)
       | Ok (eigvecs, d) =>
           match get_eigensystem_by_manifold self i with
           | Raise exc => (self, Raise exc)
           | Ok (e, v) =>
               let self := if Nat.eqb i 1 then set_exciton_energies self e else self in
               let eigvecs :=
                 mat_add eigvecs (manifold_to_full occ (shape_of H) v (Z.of_nat i)) in
               let d :=
                 mat_add d (manifold_to_full occ (shape_of H)
                                             (diag (map RtoC e)) (Z.of_nat i)) in
               (self, Ok (eigvecs, d))
           end
       end)
    (seq 0 (num_sites self + 1)) (self, Ok (eigvecs, d)).

(** [set_electronic_eigensystem()]: the object after the call, and whether
    the call returned or raised. *)
Definition set_electronic_eigensystem (self : OpenPolymer) : OpenPolymer * result unit :=
  let H := electronic_hamiltonian self in
  match electronic_eigensystem_loop self with
  | (self, Raise exc) => (self, Raise exc)
  | (self, Ok (eigvecs, d)) =>
      let Hd := mat_dot (mat_T eigvecs) (mat_dot H eigvecs) in
      if allclose Hd d
      then (set_electronic_eigen self eigvecs (diagonal d), Ok tt)
      else (self, Raise (PyExc "Exception" "Diagonalization by manifold failed"))
  end.

(** *** The dipole operators *)

(** [self.pols] *)
Definition pols : list string := ["x"; "y"; "z"]%string.

(** [pol_dict[pol]] *)
Definition pol_dict (pol : string) : result nat :=
  if String.eqb pol "x" then Ok 0
  else if String.eqb pol "y" then Ok 1
  else if String.eqb pol "z" then Ok 2
  else Raise (PyExc "KeyError" pol).

Definition axis_IndexError : py_exception :=
  PyExc "IndexError" "index is out of bounds for axis 1".

(** [self.dipoles[:,k]] for a two-dimensional array of real dipoles, one row
    for each site and one column for each polarisation (an array without
    rows is taken to have no column) *)
Definition dipoles_column (dipoles : list (list R)) (k : nat) : result (list R) :=
  if Nat.ltb k (length (hd [] dipoles)) then Ok (map (fun row => nth k row 0%R) dipoles)
  else Raise axis_IndexError.

(** [make_mu_site_basis(pol)]: the array stored in [self.mu], for the column
    [d] of the dipoles along the polarisation *)
Definition make_mu_site_basis (d : list R) (up_list down_list : list Mat) : result Mat :=
  d0 ← py_getitem d 0;
  u0 ← py_getitem up_list 0;
  w0 ← py_getitem down_list 0;
  let mu := mat_scale (RtoC d0) (mat_add u0 w0) in
  fold_left (fun acc i =>
               mu ← acc;
               di ← py_getitem d i;
               ui ← py_getitem up_list i;
               wi ← py_getitem down_list i;
               Ok (mat_add mu (mat_scale (RtoC di) (mat_add ui wi))))
            (seq 1 (length up_list - 1)) (Ok mu).

(** [make_mu_site_basis(pol)] with its lookup of the dipoles *)
Definition make_mu_site_basis_for (dipoles : list (list R)) (up_list down_list : list Mat)
           (pol : string) : result Mat :=
  k ← pol_dict pol;
  d ← dipoles_column dipoles k;
  make_mu_site_basis d up_list down_list.

(** [make_mu_dict_site_basis()]: the last array stored in [self.mu] and the
    dictionary [self.mu_dict] *)
Definition make_mu_dict_site_basis (dipoles : list (list R)) (up_list down_list : list Mat)
  : result (option Mat * gmap string Mat) :=
  fold_left (fun acc pol =>
               '(_, mu_dict) ← acc;
               mu ← make_mu_site_basis_for dipoles up_list down_list pol;
               Ok (Some mu, <[pol := mu]> mu_dict))
            pols (Ok (None, ∅)).

(** [make_mu_up_site_basis(pol)]: the array stored in [self.mu_ket_up] *)
Definition make_mu_up_site_basis (dipoles : list (list R)) (up_list : list Mat)
           (pol : string) : result Mat :=
  k ← pol_dict pol;
  d ← dipoles_column dipoles k;
  u0 ← py_getitem up_list 0;
  fold_left (fun acc i =>
               mu_ket_up ← acc;
               ui ← py_getitem up_list i;
               Ok (mat_add mu_ket_up ui))
            (seq 1 (length up_list - 1)) (Ok u0).

(** The eigensolver [np.linalg.eigh] and [argsort] on real vectors are
    parameters of the model. *)
Section Eigensystems.
Variable eigh : Mat -> list R * Mat.
Variable argsort : list R -> list nat.

(** [make_manifold_eigensystem(manifold_num)], given the Hamiltonian and
    the occupation numbers of the object *)
Definition make_manifold_eigensystem (H : Mat) (occ : list Z) (manifold_num : nat)
  : list R * Mat :=
  let h := extract_manifold occ H (Z.of_nat manifold_num) in
  let '(e, v) := eigh h in
  let sort_inds := argsort e in
  let e := map (fun k => nth k e 0%R) sort_inds in
  let v := map (fun row => map (fun k => nth k row 0%C) sort_inds) v in
  (e, v).

(** [set_manifold_eigensystems()]: the two lists it stores *)
Definition set_manifold_eigensystems (num_sites : nat) (H : Mat) (occ : list Z)
  : list (list R) * list Mat :=
  fold_left (fun '(es, vs) i =>
               let '(e, v) := make_manifold_eigensystem H occ i in
               (es ++ [e], vs ++ [v]))
            (seq 0 (num_sites + 1)) ([], []).

(** [OpenPolymer.__init__(site_energies, site_couplings, dipoles)]: a call
    raises before the object is complete, or reaches
    [set_electronic_eigensystem] and gives the object with what that call
    did.  The default rates, which the source assigns last, are part of the
    record from the start. *)
Definition init (site_energies : list R) (site_couplings : list py_number)
           (dipoles : list (list R)) : result (OpenPolymer * result unit) :=
  let num_sites := length site_energies in
  up_list ← make_single_operator_list num_sites up;
  down_list ← make_single_operator_list num_sites down;
  occupied_list ← make_single_operator_list num_sites occupied;
  empty_list ← make_single_operator_list num_sites empty;
  exchange_list ← make_multi_operator_list num_sites [up; down];
  sz_list ← make_single_operator_list num_sites sz;
  '(_, mu_dict) ← make_mu_dict_site_basis dipoles up_list down_list;
  mu ← make_mu_site_basis_for dipoles up_list down_list "x";
  mu_ket_up ← make_mu_up_site_basis dipoles up_list "x";
  H ← make_electronic_hamiltonian num_sites site_energies site_couplings
        occupied_list exchange_list;
  let occ := set_electronic_total_occupation_number num_sites in
  let '(es, vs) := set_manifold_eigensystems num_sites H occ in
  let self :=
    mkOpenPolymer num_sites site_energies site_couplings up_list down_list
      occupied_list empty_list exchange_list sz_list H occ es vs None None None
      0.1 0 0 0 0 0.01 1 dipoles (Some mu) mu_dict (Some mu_ket_up) in
  Ok (set_electronic_eigensystem self).
End Eigensystems.

(** *** Dissipation instruction builders *)

(** [optical_dephasing_operator()] *)
Definition optical_dephasing_operator (self : OpenPolymer) : result Mat :=
  total_deph ← py_getitem (sz_list self) 0;
  fold_left (fun acc i => total_deph ← acc;
                          s ← py_getitem (sz_list self) i;
                          Ok (mat_add total_deph s))
            (seq 1 (length (sz_list self) - 1)) (Ok total_deph).

(** [optical_dephasing_instructions()] *)
Definition optical_dephasing_instructions (self : OpenPolymer) : result (list instruction) :=
  O ← optical_dephasing_operator self;
  let gamma := optical_dephasing_gamma self in
  Ok (make_Lindblad_instructions (RtoC gamma) O).

(** [optical_decoherence_instructions()] *)
Definition optical_decoherence_instructions (self : OpenPolymer)
  : result (list instruction) :=
  let eg := 0%R in
  let gamma := optical_decoherence_gamma self in
  fold_left (fun acc n =>
               ins_list ← acc;
               en ← py_getitem (energies self) n;
               let '(bg, bn) := boltzmann_factors (kT self) eg en in
               O ← py_getitem (up_list self) n;
               let instructions2 :=
                 make_Lindblad_instructions (RtoC (gamma * bg)) (mat_T O) in
               let ins_list := ins_list ++ instructions2 in
               if isclose_real bn 0 then Ok ins_list
               else Ok (ins_list ++ make_Lindblad_instructions (RtoC (gamma * bn)) O))
            (seq 0 (length (energies self))) (Ok []).

(** the pairs of [itertools.combinations(range(n),2)] *)
Definition pairs_of (n : nat) : list (nat * nat) :=
  omap (fun c => match c with [a; b] => Some (a, b) | _ => None end)
       (combinations (seq 0 n) 2).

(** [site_to_site_decoherence_instructions()] *)
Definition site_to_site_decoherence_instructions (self : OpenPolymer)
  : result (list instruction) :=
  let nm := pairs_of (length (energies self)) in
  let gamma := site_to_site_decoherence_gamma self in
  r ← fold_left (fun acc '(n, m) =>
                   '(i, ins_list) ← acc;
                   en ← py_getitem (energies self) n;
                   em ← py_getitem (energies self) m;
                   let '(bn, bm) := boltzmann_factors (kT self) en em in
                   O ← py_getitem (exchange_list self) i;
                   let instructions1 := make_Lindblad_instructions (RtoC (gamma * bn)) O in
                   let instructions2 :=
                     make_Lindblad_instructions (RtoC (gamma * bm)) (mat_T O) in
                   Ok (i + 1, (ins_list ++ instructions1) ++ instructions2))
                nm (Ok (0, []));
  Ok (snd r).

(** [site_to_site_dephasing_operator_list()] *)
Definition site_to_site_dephasing_operator_list (self : OpenPolymer) : result (list Mat) :=
  for_each (fun '(i, j) =>
              si ← py_getitem (sz_list self) i;
              sj ← py_getitem (sz_list self) j;
              Ok (mat_sub si sj))
           (pairs_of (num_sites self)).

(** [all_site_dephasing_instructions()] *)
Definition all_site_dephasing_instructions (self : OpenPolymer)
  : result (list instruction) :=
  s_deph_list ← site_to_site_dephasing_operator_list self;
  let gamma := site_to_site_dephasing_gamma self in
  Ok (fold_left (fun Lindblad_instruction_list O =>
                   Lindblad_instruction_list ++ make_Lindblad_instructions (RtoC gamma) O)
                s_deph_list []).

(** [exciton_exciton_dephasing_operator_list()] *)
Definition exciton_exciton_dephasing_operator_list (self : OpenPolymer)
  : result (list Mat) :=
  v ← py_getattr "electronic_eigenvectors" (electronic_eigenvectors self);
  for_each (fun '(i, j) =>
              si ← py_getitem (sz_list self) i;
              sj ← py_getitem (sz_list self) j;
              let Oi := mat_dot v (mat_dot si (mat_T v)) in
              let Oj := mat_dot v (mat_dot sj (mat_T v)) in
              Ok (mat_sub Oi Oj))
           (pairs_of (num_sites self)).

(** [all_exciton_dephasing_instructions()] *)
Definition all_exciton_dephasing_instructions (self : OpenPolymer)
  : result (list instruction) :=
  s_deph_list ← exciton_exciton_dephasing_operator_list self;
  let gamma := (exciton_exciton_dephasing_gamma self / (2 * INR (num_sites self)))%R in
  Ok (fold_left (fun Lindblad_instruction_list O =>
                   Lindblad_instruction_list ++ make_Lindblad_instructions (RtoC gamma) O)
                s_deph_list []).

(** [exciton_decoherence_instructions_by_manifold(manifold_num)], with
    [full_space = True] *)
Definition exciton_decoherence_instructions_by_manifold (self : OpenPolymer)
           (manifold_num : nat) : result (list instruction) :=
  '(e, v) ← get_eigensystem_by_manifold self manifold_num;
  let gamma := exciton_decoherence_gamma self in
  let size := length e in
  fold_left (fun acc '(m, n) =>
               ins_list ← acc;
               let exchange := alter (fun r => <[n := 1%C]> r) m (zeros size size) in
               em ← py_getitem e m;
               en ← py_getitem e n;
               let '(bm, bn) := boltzmann_factors (kT self) em en in
               let O := mat_dot v (mat_dot exchange (mat_T v)) in
               let O := manifold_to_full (electronic_total_occupation_number self)
                          (shape_of (electronic_hamiltonian self)) O
                          (Z.of_nat manifold_num) in
               let instructions1 := make_Lindblad_instructions (RtoC (gamma * bm)) O in
               let instructions2 :=
                 make_Lindblad_instructions (RtoC (gamma * bn)) (mat_T O) in
               Ok ((ins_list ++ instructions1) ++ instructions2))
            (pairs_of size) (Ok []).

(** *** Assembling the electronic dissipation instructions *)

(** The builders that [set_electronic_dissipation_instructions] may call,
    as the values they return. *)
Record dissipation_builders : Type := mkBuilders {
  b_optical_dephasing : result (list instruction);
  b_all_site_dephasing : result (list instruction);
  b_site_to_site_decoherence : result (list instruction);
  b_all_exciton_dephasing : result (list instruction);
  b_exciton_decoherence_by_manifold : nat -> result (list instruction);
  b_optical_decoherence : result (list instruction)
}.

(** The methods of the object as builders. *)
Definition builders_of (self : OpenPolymer) : dissipation_builders :=
  mkBuilders (optical_dephasing_instructions self)
             (all_site_dephasing_instructions self)
             (site_to_site_decoherence_instructions self)
             (all_exciton_dephasing_instructions self)
             (exciton_decoherence_instructions_by_manifold self)
             (optical_decoherence_instructions self).

(** [gamma != 0] *)
Definition nonzero (gamma : R) : bool := negb (Req_b gamma 0).

(** The body of [set_electronic_dissipation_instructions()] over a table of
    builders: the warnings it emits and the list it stores in
    [self.electronic_dissipation_instructions]. *)
Definition assemble_dissipation_instructions (self : OpenPolymer)
           (b : dissipation_builders) : list string * result (list instruction) :=
  match b_optical_dephasing b with
  | Raise exc => ([], Raise exc)
  | Ok inst_list =>
      let w1 :=
        if nonzero (exciton_exciton_dephasing_gamma self)
           && nonzero (site_to_site_dephasing_gamma self)
        then ["Both exciton and site dephasing are being included"] else [] in
      let w2 :=
        if nonzero (exciton_decoherence_gamma self)
           && nonzero (site_to_site_decoherence_gamma self)
        then ["Both exciton and site relaxation are being included"] else [] in
      (w1 ++ w2,
       inst_list ←
         (if nonzero (site_to_site_dephasing_gamma self)
          then x ← b_all_site_dephasing b; Ok (inst_list ++ x)
          else Ok inst_list);
       inst_list ←
         (if nonzero (site_to_site_decoherence_gamma self)
          then x ← b_site_to_site_decoherence b; Ok (inst_list ++ x)
          else Ok inst_list);
       inst_list ←
         (if nonzero (exciton_exciton_dephasing_gamma self)
          then x ← b_all_exciton_dephasing b; Ok (inst_list ++ x)
          else Ok inst_list);
       inst_list ←
         (if nonzero (exciton_decoherence_gamma self)
          then
            x ← b_exciton_decoherence_by_manifold b 1;
            fold_left (fun acc i =>
                         inst_list ← acc;
                         x ← b_exciton_decoherence_by_manifold b i;
                         Ok (inst_list ++ x))
                      (seq 2 (num_sites self - 1)) (Ok (inst_list ++ x))
          else Ok inst_list);
       (if nonzero (optical_decoherence_gamma self)
        then x ← b_optical_decoherence b; Ok (inst_list ++ x)
        else Ok inst_list))
  end.

(** [set_electronic_dissipation_instructions()] *)
Definition set_electronic_dissipation_instructions (self : OpenPolymer)
  : list string * result (list instruction) :=
  assemble_dissipation_instructions self (builders_of self).

(** ** The eigensystem solver *)

Definition Cinv (x : C) : C :=
  (fst x / (fst x * fst x + snd x * snd x), - snd x / (fst x * fst x + snd x * snd x))%R.
Definition Cdiv (x y : C) : C := (x * Cinv y)%C.
Definition Ceq_b (x y : C) : bool := Req_b (fst x) (fst y) && Req_b (snd x) (snd y).

(** [M[:,inds]] *)
Definition take_columns (M : Mat) (inds : list nat) : Mat :=
  map (fun row => map (fun k => nth k row 0%C) inds) M.

(** [M[:,i] = col] *)
Definition set_column (M : Mat) (i : nat) (col : Vec) : Mat :=
  zip_with (fun row x => <[i := x]> row) M col.

(** [np.argmax]: the first index of the largest value *)
Fixpoint argmax_from (l : list R) (i best : nat) (bestv : R) : nat :=
  match l with
  | [] => best
  | x :: xs => if Rlt_b bestv x then argmax_from xs (S i) i x
               else argmax_from xs (S i) best bestv
  end.
Definition argmax (l : list R) : nat :=
  match l with
  | [] => 0
  | x :: xs => argmax_from xs 1 0 x
  end.

(** [v.reshape(r,c)], which raises when the sizes do not agree *)
Definition py_reshape (r c : nat) (v : Vec) : result Mat :=
  match reshape r c v with
  | Some M => Ok M
  | None => Raise (PyExc "ValueError" "cannot reshape array")
  end.

(** The sign convention of [eigfun]: the vector is negated when the real part
    of its component of largest modulus is negative. *)
Definition sign_convention (col : Vec) : Vec :=
  let max_index := argmax (map Cmod col) in
  if Rlt_b (Re (nth max_index col 0%C)) 0
  then map (fun x => (x * RtoC (-1))%C) col else col.

(** An array in exact arithmetic, or [NotFinite]: a division by zero has
    stored [nan] or [inf] in it.  numpy warns about such a division and goes
    on; the model keeps nothing else of the array. *)
Inductive farray (A : Type) : Type :=
| Finite (a : A)
| NotFinite.
Arguments Finite {A} a.
Arguments NotFinite {A}.

(** [col / trace_norm] *)
Definition divide_column (col : Vec) (trace_norm : C) : farray Vec :=
  if Ceq_b trace_norm 0%C then NotFinite
  else Finite (map (fun x => Cdiv x trace_norm) col).

(** One pass of the loop of [eigfun] over the eigenvectors: the sign
    convention, and the trace normalisation of the eigenvectors of a zero
    eigenvalue. *)
Definition eigfun_column (populations_only : bool) (eigvals : Vec) (i : nat) (col : Vec)
  : result (farray Vec) :=
  let col := sign_convention col in
  if Ceq_b (nth i eigvals 0%C) 0%C then
    if populations_only then
      let trace_norm := vsum col in
      Ok (divide_column col trace_norm)
    else
      let shape := Nat.sqrt (length eigvals) in
      M ← py_reshape shape shape col;
      let trace_norm := trace M in
      Ok (divide_column col trace_norm)
  else Ok (Finite col).

(** The body of the loop for the eigenvector [i].  Once a column holds
    [nan] the other columns are treated all the same but the array stays
    [NotFinite]; no reshape can fail any more, since the one of the divided
    column, of the same length, did not. *)
Definition eigfun_step (populations_only : bool) (eigvals : Vec)
           (acc : result (farray Mat)) (i : nat) : result (farray Mat) :=
  eigvecs ← acc;
  match eigvecs with
  | NotFinite => Ok NotFinite
  | Finite eigvecs =>
      col ← eigfun_column populations_only eigvals i (column eigvecs i);
      match col with
      | NotFinite => Ok NotFinite
      | Finite col => Ok (Finite (set_column eigvecs i col))
      end
  end.

Definition eigfun_loop (populations_only : bool) (eigvals : Vec) (eigvecs : Mat)
  : result (farray Mat) :=
  fold_left (eigfun_step populations_only eigvals) (seq 0 (length eigvals))
            (Ok (Finite eigvecs)).

(** [norm = np.dot(eigvecs_left[i,:],eigvecs[:,i])],
    [eigvecs_left[i,:] *= 1/norm] *)
Definition scale_left_row (eigvecs : Mat) (acc : farray Mat) (i : nat) : farray Mat :=
  match acc with
  | NotFinite => NotFinite
  | Finite eigvecs_left =>
      let norm := vdot (nth i eigvecs_left []) (column eigvecs i) in
      if Ceq_b norm 0%C then NotFinite
      else Finite (alter (map (fun x => (x * Cdiv 1 norm)%C)) i eigvecs_left)
  end.

Record eigfun_result : Type := mkEigfunResult {
  eigvals_of : Vec;
  eigvecs_of : Mat;
  eigvecs_left_of : Mat;
  warnings_of : list string
}.

(** The error of [np.linalg.pinv] for an array that holds [nan] or [inf]:
    its singular value decomposition fails. *)
Definition LinAlgError : py_exception := PyExc "LinAlgError" "SVD did not converge".

(** [np.linalg.eig], [np.round(.,12)], [argsort] on complex vectors and
    [np.linalg.pinv] (on finite arrays) are parameters. *)
Section Eigfun.
Variable eig : Mat -> Vec * Mat.
Variable round12 : C -> C.
Variable argsort : Vec -> list nat.
Variable pinv : Mat -> Mat.

(** rounded and sorted eigenvalues with their reordered eigenvectors *)
Definition sorted_eig (L : Mat) : Vec * Mat :=
  let '(eigvals, eigvecs) := eig L in
  let eigvals := map round12 eigvals in
  let sort_indices := argsort eigvals in
  let eigvals := map (fun k => nth k eigvals 0%C) sort_indices in
  let eigvecs := take_columns eigvecs sort_indices in
  (eigvals, eigvecs).

(** [eigfun(L, check_eigenvectors, invert, populations_only)]: the call
    raises, or it returns [NotFinite] arrays, or the triple it returns (and
    stores in [self.eigenvalues], [self.eigenvectors]) with the warning it
    may emit. *)
Definition eigfun (L : Mat) (check_eigenvectors invert populations_only : bool)
  : result (farray eigfun_result) :=
  let '(eigvals, eigvecs) := sorted_eig L in
  eigvecs ← eigfun_loop populations_only eigvals eigvecs;
  match eigvecs with
  | NotFinite => if invert then Raise LinAlgError else Ok NotFinite
  | Finite eigvecs =>
      let eigvecs_left :=
        if invert then Finite (pinv eigvecs)
        else
          let '(eigvals_left, eigvecs_left) := sorted_eig (mat_T L) in
          let eigvecs_left := mat_T eigvecs_left in
          fold_left (scale_left_row eigvecs) (seq 0 (length eigvals_left))
                    (Finite eigvecs_left) in
      match eigvecs_left with
      | NotFinite => Ok NotFinite
      | Finite eigvecs_left =>
          let warnings :=
            if check_eigenvectors then
              let LV := mat_dot L eigvecs in
              let D := mat_dot eigvecs_left LV in
              if allclose_tol 1e-10 1e-10 D (diag eigvals) then []
              else ["Using eigenvectors to diagonalize Liouvillian does not result in the expected diagonal matrix to tolerance"]
            else [] in
          Ok (Finite (mkEigfunResult eigvals eigvecs eigvecs_left warnings))
      end
  end.
End Eigfun.

(** ** Dictionaries keyed by a pair of manifold numbers *)

(** [str(n)] for a non-negative integer: its decimal digits *)
Definition digit_char (d : nat) : ascii := ascii_of_nat (48 + d).

Fixpoint str_digits (fuel n : nat) (acc : string) : string :=
  match fuel with
  | O => acc
  | S fuel' =>
      let acc' := String (digit_char (n mod 10)) acc in
      if Nat.eqb (n / 10) 0 then acc' else str_digits fuel' (n / 10) acc'
  end.

Definition str (n : nat) : string := str_digits (S n) n EmptyString.

(** [key = str(i) + str(j)] *)
Definition manifold_key (i j : nat) : string := (str i ++ str j)%string.

(** [set_L_by_manifold()]: the dictionary built by the two nested loops over
    [range(maximum_manifold+1)]; [block i j] stands for the Liouvillian of
    the coherence between the manifolds [i] and [j]. *)
Definition set_L_by_manifold {V : Type} (maximum_manifold : nat) (block : nat -> nat -> V)
  : gmap string V :=
  fold_left (fun L_by_manifold i =>
               fold_left (fun L_by_manifold j =>
                            let key := manifold_key i j in
                            <[key := block i j]> L_by_manifold)
                         (seq 0 (maximum_manifold + 1)) L_by_manifold)
            (seq 0 (maximum_manifold + 1)) ∅.

(** * Properties *)

(** ** Keys of the per-manifold dictionaries *)

Lemma str_single_digit (k : nat) : k <= 9 -> str k = String (digit_char k) EmptyString.
Proof.
  intros Hk. do 10 (destruct k as [|k]; [reflexivity|]). lia.
Qed.

Lemma digit_char_inj (k k' : nat) : k <= 9 -> k' <= 9 -> digit_char k = digit_char k' -> k = k'.
Proof.
  intros Hk Hk' H. apply (f_equal nat_of_ascii) in H. unfold digit_char in H.
  rewrite !nat_ascii_embedding in H by lia. lia.
Qed.

(** C10: the key [str(k)+str(l)] determines the pair [(k,l)] when both
    manifold numbers are single digits, but not in general: [(1,11)] and
    [(11,1)] both give ["111"], and in the dictionary built for a maximum
    manifold of 11 that one entry holds the block [(11,1)], the last one
    written, whatever the blocks are. *)
Theorem manifold_key_single_digit_injective_but_colliding :
  (forall k l k' l' : nat,
      k <= 9 -> l <= 9 -> k' <= 9 -> l' <= 9 ->
      manifold_key k l = manifold_key k' l' -> (k, l) = (k', l')) /\
  manifold_key 1 11 = "111"%string /\
  manifold_key 11 1 = "111"%string /\
  (forall (V : Type) (block : nat -> nat -> V),
      set_L_by_manifold 11 block !! manifold_key 1 11 = Some (block 11 1)).
Proof.
  split; [|split; [|split]].
  - intros k l k' l' Hk Hl Hk' Hl' H. unfold manifold_key in H.
    rewrite !str_single_digit in H by assumption. simpl in H.
    injection H as H1 H2.
    apply digit_char_inj in H1; [|assumption..].
    apply digit_char_inj in H2; [|assumption..].
    now subst.
  - reflexivity.
  - reflexivity.
  - intros V block. vm_compute. reflexivity.
Qed.

Lemma manifold_key_single_digit_witness :
  3 <= 9 /\ 7 <= 9 /\ manifold_key 3 7 = manifold_key 3 7 /\ (3, 7) = (3, 7).
Proof.
  split; [lia|]. split; [lia|]. split; [reflexivity|].
  apply (proj1 manifold_key_single_digit_injective_but_colliding 3 7 3 7); try lia.
  reflexivity.
Defined.

(** ** Detailed balance *)

Lemma Req_b_true (x y : R) : x = y -> Req_b x y = true.
Proof. intros H. unfold Req_b. destruct (Req_dec_T x y); [reflexivity|contradiction]. Qed.

Lemma Req_b_false (x y : R) : x <> y -> Req_b x y = false.
Proof. intros H. unfold Req_b. destruct (Req_dec_T x y); [contradiction|reflexivity]. Qed.

Lemma Rlt_b_true (x y : R) : (x < y)%R -> Rlt_b x y = true.
Proof. intros H. unfold Rlt_b. destruct (Rlt_dec x y); [reflexivity|contradiction]. Qed.

Lemma Rlt_b_false (x y : R) : ~ (x < y)%R -> Rlt_b x y = false.
Proof. intros H. unfold Rlt_b. destruct (Rlt_dec x y); [contradiction|reflexivity]. Qed.

Lemma Rle_b_true (x y : R) : (x <= y)%R -> Rle_b x y = true.
Proof. intros H. unfold Rle_b. destruct (Rle_dec x y); [reflexivity|contradiction]. Qed.

Lemma Rle_b_false (x y : R) : ~ (x <= y)%R -> Rle_b x y = false.
Proof. intros H. unfold Rle_b. destruct (Rle_dec x y); [contradiction|reflexivity]. Qed.

(** [np.isclose(Z,0)] with the default tolerances is [|Z| <= 1e-8]. *)
Lemma isclose_real_zero (Z : R) :
  isclose_real Z 0 = true <-> (Rabs Z <= 1e-8)%R.
Proof.
  unfold isclose_real, default_atol, default_rtol, Rle_b.
  rewrite Rabs_R0. replace (Z - 0)%R with Z by lra.
  destruct (Rle_dec (Rabs Z) (1e-8 + 1e-5 * 0)) as [Hle|Hnle]; split; intros H.
  - lra.
  - reflexivity.
  - discriminate H.
  - exfalso. apply Hnle. lra.
Qed.

(** The partition function of the ordered pair. *)
Definition partition_function (kT E1 E2 : R) : R :=
  (exp (- E1 / kT) + exp (- E2 / kT))%R.

Definition swap_pair (p : R * R) : R * R := (snd p, fst p).

(** C3: [boltzmann_factors(E,E)] is [(0.5,0.5)]; [boltzmann_factors(E1,E2)]
    is the swap of [boltzmann_factors(E2,E1)]; for [E1 < E2] the result is
    the zero-temperature limit [(1,0)] when [kT == 0] and also when the
    partition function [Z] is close to zero ([np.isclose(Z,0)], that is
    [|Z| <= 1e-8]), and otherwise, for every [kT] other than zero and so for
    every [kT > 0], it is [(exp(-E1/kT)/Z, exp(-E2/kT)/Z)] with
    [Z = exp(-E1/kT) + exp(-E2/kT)]. *)
Theorem boltzmann_factors_spec (kT : R) :
  (forall E : R, boltzmann_factors kT E E = (0.5, 0.5)%R) /\
  (forall E1 E2 : R,
      boltzmann_factors kT E1 E2 = swap_pair (boltzmann_factors kT E2 E1)) /\
  (forall E1 E2 : R,
      (E1 < E2)%R -> kT = 0%R -> boltzmann_factors kT E1 E2 = (1, 0)%R) /\
  (forall E1 E2 : R,
      (E1 < E2)%R -> (Rabs (partition_function kT E1 E2) <= 1e-8)%R ->
      boltzmann_factors kT E1 E2 = (1, 0)%R) /\
  (forall E1 E2 : R,
      (E1 < E2)%R -> (0 < kT)%R ->
      ~ (Rabs (partition_function kT E1 E2) <= 1e-8)%R ->
      boltzmann_factors kT E1 E2 =
      (exp (- E1 / kT) / partition_function kT E1 E2,
       exp (- E2 / kT) / partition_function kT E1 E2)%R).
Proof.
  repeat split.
  - intros E. unfold boltzmann_factors. now rewrite Req_b_true.
  - intros E1 E2. unfold boltzmann_factors.
    destruct (Rtotal_order E1 E2) as [Hlt|[Heq|Hgt]].
    + rewrite (Req_b_false E1 E2), (Rlt_b_true E1 E2) by lra.
      rewrite (Req_b_false E2 E1), (Rlt_b_false E2 E1) by lra.
      destruct (boltzmann_factors_ordered_inputs kT E1 E2). reflexivity.
    + subst. now rewrite Req_b_true.
    + rewrite (Req_b_false E1 E2), (Rlt_b_false E1 E2) by lra.
      rewrite (Req_b_false E2 E1), (Rlt_b_true E2 E1) by lra.
      destruct (boltzmann_factors_ordered_inputs kT E2 E1). reflexivity.
  - intros E1 E2 Hlt HkT. unfold boltzmann_factors.
    rewrite Req_b_false, Rlt_b_true by lra.
    unfold boltzmann_factors_ordered_inputs. now rewrite Req_b_true.
  - intros E1 E2 Hlt HZ. unfold boltzmann_factors.
    rewrite Req_b_false, Rlt_b_true by lra.
    unfold boltzmann_factors_ordered_inputs.
    destruct (Req_b kT 0); [reflexivity|].
    apply isclose_real_zero in HZ. unfold partition_function in HZ. now rewrite HZ.
  - intros E1 E2 Hlt HkT HZ. unfold boltzmann_factors.
    rewrite Req_b_false, Rlt_b_true by lra.
    unfold boltzmann_factors_ordered_inputs.
    rewrite Req_b_false by lra.
    destruct (isclose_real (exp (- E1 / kT) + exp (- E2 / kT)) 0) eqn:E; [|reflexivity].
    apply isclose_real_zero in E. contradiction.
Qed.

Lemma boltzmann_factors_witness :
  (0 < 1)%R /\ (0 < 1)%R /\
  boltzmann_factors 1 0 1 =
  (exp (- (0) / 1) / partition_function 1 0 1,
   exp (- (1) / 1) / partition_function 1 0 1)%R.
Proof.
  split; [lra|]. split; [lra|].
  apply (proj2 (proj2 (proj2 (proj2 (boltzmann_factors_spec 1)))) 0%R 1%R); try lra.
  unfold partition_function. intros H.
  assert (H0 : (- (0) / 1 = 0)%R) by lra. rewrite H0, exp_0 in H.
  assert (Hp := exp_pos (- (1) / 1)).
  rewrite Rabs_pos_eq in H by lra. lra.
Defined.

(** ** Manifold masks *)

Definition bit_valued (v : list Z) : Prop := Forall (fun x => (0 <= x <= 1)%Z) v.

Lemma length_zkron (u v : list Z) : length (zkron u v) = length u * length v.
Proof.
  unfold zkron. apply length_flat_map_uniform.
  apply List.Forall_forall. intros a _. now rewrite length_map.
Qed.

Lemma bit_valued_zkron (u v : list Z) :
  bit_valued u -> bit_valued v -> bit_valued (zkron u v).
Proof.
  unfold bit_valued. rewrite !List.Forall_forall. intros Hu Hv x Hx.
  unfold zkron in Hx. apply in_flat_map in Hx as (a & Ha & Hx).
  apply in_map_iff in Hx as (b & <- & Hb).
  specialize (Hu a Ha). specialize (Hv b Hb). nia.
Qed.

Lemma fold_zkron_shape (l : list (list Z)) (v : list Z) :
  Forall (fun w => length w = 2 /\ bit_valued w) l -> bit_valued v ->
  length (fold_left zkron l v) = length v * 2 ^ length l /\
  bit_valued (fold_left zkron l v).
Proof.
  intros Hl. revert v. induction Hl as [|w l [Hw1 Hw2] _ IH]; intros v Hv; simpl.
  - split; [lia|assumption].
  - destruct (IH (zkron v w) (bit_valued_zkron v w Hv Hw2)) as [IH1 IH2].
    split; [|assumption]. rewrite IH1, length_zkron, Hw1. lia.
Qed.

Lemma Forall_py_insert {A : Type} (P : A -> Prop) (l : list A) (p : nat) (x : A) :
  Forall P l -> P x -> Forall P (py_insert l p x).
Proof.
  intros Hl Hx. unfold py_insert. apply Forall_app. split.
  - now apply Forall_take.
  - constructor; [assumption|]. now apply Forall_drop.
Qed.

Lemma length_py_insert {A : Type} (l : list A) (p : nat) (x : A) :
  length (py_insert l p x) = S (length l).
Proof.
  unfold py_insert. rewrite length_app. simpl.
  rewrite length_firstn, length_skipn. lia.
Qed.

(** The vector of one site's occupation has [2^n] entries, each 0 or 1. *)
Lemma electronic_vector_of_ones_kron_shape (n p : nat) :
  1 <= n ->
  length (electronic_vector_of_ones_kron n p [0; 1]%Z) = 2 ^ n /\
  bit_valued (electronic_vector_of_ones_kron n p [0; 1]%Z).
Proof.
  intros Hn. unfold electronic_vector_of_ones_kron.
  set (l := py_insert (repeat (repeat 1%Z 2) (n - 1)) p [0; 1]%Z).
  assert (Hlen : length l = n).
  { unfold l. rewrite length_py_insert, repeat_length. lia. }
  assert (Hall : Forall (fun w => length w = 2 /\ bit_valued w) l).
  { unfold l. apply Forall_py_insert.
    - apply List.Forall_forall. intros w Hw. apply repeat_spec in Hw. subst w.
      split; [reflexivity|]. repeat constructor; lia.
    - split; [reflexivity|]. repeat constructor; lia. }
  clearbody l. destruct l as [|vec rest]; [simpl in Hlen; lia|].
  apply Forall_cons in Hall as [[Hv1 Hv2] Hrest].
  destruct (fold_zkron_shape rest vec Hrest Hv2) as [H1 H2].
  split; [|assumption]. rewrite H1, Hv1. simpl in Hlen.
  replace n with (S (length rest)) by lia. simpl. lia.
Qed.

Lemma zip_with_add_bounds (k : Z) (u v : list Z) :
  Forall (fun x => (0 <= x <= k)%Z) u -> bit_valued v ->
  Forall (fun x => (0 <= x <= k + 1)%Z) (zip_with Z.add u v).
Proof.
  intros Hu. revert v. induction Hu as [|x u Hx _ IH]; intros v Hv; simpl.
  - constructor.
  - destruct Hv as [|y v Hy Hv]; constructor; [lia|]. now apply IH.
Qed.

(** The total occupation number has [2^n] entries between 0 and [n]. *)
Lemma electronic_total_occupation_number_shape (n : nat) :
  1 <= n ->
  length (set_electronic_total_occupation_number n) = 2 ^ n /\
  Forall (fun x => (0 <= x <= Z.of_nat n)%Z) (set_electronic_total_occupation_number n).
Proof.
  intros Hn. unfold set_electronic_total_occupation_number.
  assert (G : forall (k start : nat) (acc : list Z),
             length acc = 2 ^ n ->
             Forall (fun x => (0 <= x <= Z.of_nat start)%Z) acc ->
             let r := fold_left (fun occ_num i =>
                        zip_with Z.add occ_num
                          (electronic_vector_of_ones_kron n i [0; 1]%Z))
                        (seq start k) acc in
             length r = 2 ^ n /\ Forall (fun x => (0 <= x <= Z.of_nat (start + k))%Z) r).
  { induction k as [|k IH]; intros start acc Hlen Hacc; simpl.
    - split; [assumption|]. now rewrite Nat.add_0_r.
    - destruct (electronic_vector_of_ones_kron_shape n start Hn) as [Hv1 Hv2].
      replace (start + S k) with (S start + k) by lia.
      apply IH.
      + rewrite length_zip_with. lia.
      + replace (Z.of_nat (S start)) with (Z.of_nat start + 1)%Z by lia.
        now apply zip_with_add_bounds. }
  destruct (electronic_vector_of_ones_kron_shape n 0 Hn) as [Hv1 Hv2].
  specialize (G (n - 1) 1 _ Hv1 Hv2). cbv zeta in G.
  replace (1 + (n - 1)) with n in G by lia. exact G.
Qed.

Lemma in_where_eq (occ : list Z) (m : Z) (idx : nat) :
  In idx (where_eq occ m) <-> idx < length occ /\ nth idx occ 0%Z = m.
Proof.
  unfold where_eq. rewrite filter_In, in_seq, Z.eqb_eq. intuition lia.
Qed.

Lemma NoDup_where_eq (occ : list Z) (m : Z) : List.NoDup (where_eq occ m).
Proof.
  unfold where_eq. apply List.NoDup_filter. apply seq_NoDup.
Qed.

(** C4: for [n >= 1] sites the masks of the manifolds [0..n] hold indices of
    the basis [0..2^n-1] only, without repetition, and every basis index is in
    the mask of exactly one manifold number, which lies between 0 and [n];
    for two sites the masks of the manifolds 0, 1, 2 have 1, 2 and 1
    elements. *)
Theorem manifold_masks_partition (n : nat) :
  1 <= n ->
  let occ := set_electronic_total_occupation_number n in
  (forall (m : Z) (idx : nat), In idx (electronic_manifold_mask occ m) -> idx < 2 ^ n) /\
  (forall m : Z, List.NoDup (electronic_manifold_mask occ m)) /\
  (forall idx : nat,
      idx < 2 ^ n ->
      exists m : nat,
        m <= n /\
        In idx (electronic_manifold_mask occ (Z.of_nat m)) /\
        forall m' : Z, In idx (electronic_manifold_mask occ m') -> m' = Z.of_nat m) /\
  map (fun m => length (electronic_manifold_mask
                          (set_electronic_total_occupation_number 2) m))
      [0; 1; 2]%Z = [1; 2; 1].
Proof.
  intros Hn occ.
  destruct (electronic_total_occupation_number_shape n Hn) as [Hlen Hocc].
  fold occ in Hlen, Hocc. unfold electronic_manifold_mask.
  split; [|split; [|split]].
  - intros m idx H. apply in_where_eq in H. lia.
  - intros m. apply NoDup_where_eq.
  - intros idx Hidx.
    assert (Hb : (0 <= nth idx occ 0 <= Z.of_nat n)%Z).
    { rewrite List.Forall_forall in Hocc. apply Hocc. apply nth_In. lia. }
    exists (Z.to_nat (nth idx occ 0%Z)).
    split; [lia|]. split.
    + apply in_where_eq. split; [lia|]. lia.
    + intros m' H. apply in_where_eq in H. lia.
  - reflexivity.
Qed.

Lemma manifold_masks_partition_witness :
  1 <= 3 /\
  forall idx : nat,
    idx < 2 ^ 3 ->
    exists m : nat,
      m <= 3 /\
      In idx (electronic_manifold_mask (set_electronic_total_occupation_number 3)
                                       (Z.of_nat m)) /\
      forall m' : Z,
        In idx (electronic_manifold_mask (set_electronic_total_occupation_number 3) m') ->
        m' = Z.of_nat m.
Proof.
  split; [lia|].
  apply (manifold_masks_partition 3). lia.
Defined.

Example manifold_masks_three_sites :
  map (electronic_manifold_mask (set_electronic_total_occupation_number 3))
      [0; 1; 2; 3]%Z = [[0]; [1; 2; 4]; [3; 5; 6]; [7]].
Proof. reflexivity. Qed.

(** ** The tensor factor builder *)

(** The list index that a valid Python index [pos] denotes in a list of
    length [n]. *)
Definition norm_index (n : nat) (pos : Z) : nat :=
  if (0 <=? pos)%Z then Z.to_nat pos else Z.to_nat (pos + Z.of_nat n).

Definition valid_index (n : nat) (pos : Z) : Prop :=
  (- Z.of_nat n <= pos < Z.of_nat n)%Z.

(** The factor at tensor position [p]: the element listed last for [p], the
    identity when none is. *)
Definition factor_at (n : nat) (element_list : list (Mat * Z)) (p : nat) : Mat :=
  fold_left (fun cur '(el, pos) => if Nat.eqb (norm_index n pos) p then el else cur)
            element_list ii.

(** The Kronecker product of the factors from left to right. *)
Definition kron_left_to_right (factors : list Mat) : Mat :=
  match factors with
  | [] => []
  | M :: Ms => fold_left kron Ms M
  end.

Lemma nth_list_insert {A : Type} (l : list A) (i p : nat) (x d : A) :
  i < length l -> nth p (<[i := x]> l) d = if Nat.eqb i p then x else nth p l d.
Proof.
  intros Hi. rewrite !nth_lookup.
  destruct (Nat.eqb_spec i p) as [->|Hne].
  - now rewrite list_lookup_insert_eq.
  - now rewrite list_lookup_insert_ne.
Qed.

Lemma map_nth_seq {A : Type} (l : list A) (d : A) :
  map (fun p => nth p l d) (seq 0 (length l)) = l.
Proof.
  apply (nth_ext _ _ d d).
  - now rewrite length_map, length_seq.
  - intros p Hp. rewrite length_map, length_seq in Hp. now rewrite nth_map_seq.
Qed.

Lemma py_setitem_valid {A : Type} (l : list A) (pos : Z) (x : A) :
  valid_index (length l) pos ->
  py_setitem l pos x = Ok (<[norm_index (length l) pos := x]> l) /\
  norm_index (length l) pos < length l.
Proof.
  unfold valid_index, py_setitem, norm_index. intros H.
  destruct (Z.leb_spec 0 pos) as [H0|H0]; simpl.
  - destruct (Z.ltb_spec pos (Z.of_nat (length l))); [|lia]. split; [reflexivity|lia].
  - destruct (Z.leb_spec (- Z.of_nat (length l)) pos); [|lia].
    destruct (Z.ltb_spec pos 0); [|lia]. simpl. split; [reflexivity|lia].
Qed.

(** The assignments [matrix_list[pos] = el] leave, at every position, the
    element assigned last. *)
Lemma fold_setitem_factors (n : nat) (element_list : list (Mat * Z)) (ml : list Mat) :
  length ml = n ->
  Forall (fun ep => valid_index n (snd ep)) element_list ->
  fold_left (fun acc '(el, pos) => ml ← acc; py_setitem ml pos el)
            element_list (Ok ml) =
  Ok (map (fun p => fold_left (fun cur '(el, pos) =>
                                 if Nat.eqb (norm_index n pos) p then el else cur)
                              element_list (nth p ml ii))
          (seq 0 n)).
Proof.
  intros Hml Hvalid. revert ml Hml.
  induction Hvalid as [|[el pos] els Hpos _ IH]; intros ml Hml; simpl.
  - subst n. now rewrite map_nth_seq.
  - simpl in Hpos. rewrite <- Hml in Hpos.
    destruct (py_setitem_valid ml pos el Hpos) as [-> Hlt].
    rewrite IH by (now rewrite length_insert).
    f_equal. apply map_ext_in. intros p Hp.
    rewrite nth_list_insert by assumption. now rewrite Hml.
Qed.

Lemma electronic_identity_kron_too_many (num_sites : nat) (element_list : list (Mat * Z)) :
  num_sites < length element_list ->
  electronic_identity_kron num_sites element_list =
  Raise (PyExc "ValueError" "Too many elements for Hilbert space").
Proof.
  intros H. unfold electronic_identity_kron.
  destruct (Z.ltb_spec (Z.of_nat num_sites - Z.of_nat (length element_list)) 0);
    [reflexivity|lia].
Qed.

Lemma electronic_identity_kron_ok (num_sites : nat) (element_list : list (Mat * Z)) :
  length element_list <= num_sites -> 1 <= num_sites ->
  Forall (fun ep => valid_index num_sites (snd ep)) element_list ->
  electronic_identity_kron num_sites element_list =
  Ok (kron_left_to_right (map (factor_at num_sites element_list) (seq 0 num_sites))).
Proof.
  intros Hlen Hn Hvalid. unfold electronic_identity_kron.
  destruct (Z.ltb_spec (Z.of_nat num_sites - Z.of_nat (length element_list)) 0); [lia|].
  rewrite (fold_setitem_factors num_sites) by (try assumption; apply repeat_length).
  rewrite (map_ext_in _ (factor_at num_sites element_list)).
  - destruct num_sites as [|n]; [lia|]. reflexivity.
  - intros p Hp. apply in_seq in Hp. unfold factor_at.
    replace (nth p (repeat ii num_sites) ii) with ii; [reflexivity|].
    symmetry. apply nth_repeat_lt. lia.
Qed.

(** C9 as the code has it: more elements than sites raise the [ValueError]
    "Too many elements for Hilbert space" before anything is built; with at
    most as many elements as sites, at least one site and every position a
    valid index of the list of factors, the builder returns the Kronecker
    product, from left to right, of the factors, where the factor at a position
    is the element listed (last) for it and the identity when none is. *)
Theorem electronic_identity_kron_spec (num_sites : nat) (element_list : list (Mat * Z)) :
  (num_sites < length element_list ->
   electronic_identity_kron num_sites element_list =
   Raise (PyExc "ValueError" "Too many elements for Hilbert space")) /\
  (length element_list <= num_sites -> 1 <= num_sites ->
   Forall (fun ep => valid_index num_sites (snd ep)) element_list ->
   electronic_identity_kron num_sites element_list =
   Ok (kron_left_to_right (map (factor_at num_sites element_list) (seq 0 num_sites)))).
Proof.
  split.
  - apply electronic_identity_kron_too_many.
  - apply electronic_identity_kron_ok.
Qed.

Lemma electronic_identity_kron_witness :
  length [(up, 1%Z); (down, (-1)%Z)] <= 3 /\ 1 <= 3 /\
  electronic_identity_kron 3 [(up, 1%Z); (down, (-1)%Z)] =
  Ok (fold_left kron [up; down] ii).
Proof.
  split; [simpl; lia|]. split; [lia|].
  apply (proj2 (electronic_identity_kron_spec 3 [(up, 1%Z); (down, (-1)%Z)])).
  - simpl; lia.
  - lia.
  - repeat constructor; simpl; lia.
Defined.

(** The claim of C9 fails as stated: the exception raised for too many
    elements is a [ValueError], not a [DimensionError]; and with one element
    for two sites the builder still raises when the position is out of range,
    as it does for no element and no site. *)
Lemma electronic_identity_kron_not_as_claimed :
  (forall msg : string,
      electronic_identity_kron 1 [(up, 0%Z); (down, 0%Z)] <>
      Raise (PyExc "DimensionError" msg)) /\
  electronic_identity_kron 2 [(up, 2%Z)] =
  Raise (PyExc "IndexError" "list assignment index out of range") /\
  electronic_identity_kron 0 [] = Raise (PyExc "IndexError" "pop from empty list").
Proof.
  split; [|split]; try reflexivity.
  intros msg H. discriminate H.
Qed.

(** ** The canonical dissipator *)

Lemma wf_mat_0 (M : Mat) : wf_mat 0 0 M -> M = [].
Proof. intros [H _]. now apply length_zero_iff_nil in H. Qed.

(** The three instructions in the words of the claim, with the plain
    transpose of [O]. *)
Definition transpose_Lindblad_instructions (gamma : C) (O : Mat) : list instruction :=
  let II := eye (nrows O) in
  let anti := mat_divr (mat_dot (mat_scale (- gamma)%C (mat_T O)) O) 2 in
  [(mat_scale gamma O, mat_T O); (anti, II); (II, anti)].

(** C1 fails as stated for a complex operator: for the 1x1 operator [i] and
    rate 1 the right operand of the first instruction is [-i], the conjugate,
    where the claim has [i]. *)
Lemma make_Lindblad_instructions_not_transpose :
  make_Lindblad_instructions 1%C [[Ci]] <> transpose_Lindblad_instructions 1%C [[Ci]].
Proof.
  intros H.
  apply (f_equal (fun l => snd (entry (snd (nth 0 l ([], []))) 0 0))) in H.
  cbn in H. lra.
Qed.

(** C1, amended: [make_Lindblad_instructions(gamma,O)] returns exactly three
    pairs [(gamma*O, Od)], [(LR, I)], [(I, LR)], in that order, where [Od] is
    the conjugate transpose of [O], [LR = -gamma*Od*O/2] and [I] is the
    identity of the dimension of [O]; [Od] is the transpose of [O] when [O] is
    real. *)
Theorem make_Lindblad_instructions_spec (n : nat) (gamma : C) (O : Mat) :
  wf_mat n n O ->
  exists A Od LR : Mat,
    make_Lindblad_instructions gamma O = [(A, Od); (LR, eye n); (eye n, LR)] /\
    wf_mat n n A /\ wf_mat n n Od /\ wf_mat n n LR /\
    (forall i j, i < n -> j < n ->
       entry A i j = (gamma * entry O i j)%C /\
       entry Od i j = Cconj (entry O j i) /\
       entry LR i j =
       Cdivr (- (gamma * Csum (fun k => Cconj (entry O k i) * entry O k j) n))%C 2) /\
    ((forall i j, Im (entry O i j) = 0%R) -> Od = mat_T O).
Proof.
  intros HO. unfold make_Lindblad_instructions.
  assert (Hrows : nrows O = n) by (destruct HO; assumption). rewrite Hrows.
  do 3 eexists. split; [reflexivity|].
  destruct (Nat.eq_dec n 0) as [->|Hn].
  - apply wf_mat_0 in HO. subst O. cbn.
    repeat split; try constructor; intros; lia.
  - assert (Hpos : 0 < n) by lia.
    assert (HT := wf_mat_T n n O HO Hpos).
    assert (HOd : wf_mat n n (mat_conj (mat_T O))) by now apply wf_map_map.
    assert (Hdot := wf_mat_dot n n n _ _ HOd HO Hpos).
    split; [now apply wf_map_map|]. split; [assumption|].
    split; [unfold mat_scale, mat_divr, mat_neg; now do 3 apply wf_map_map|].
    split.
    + intros i j Hi Hj. rewrite entry_scale. split; [reflexivity|].
      rewrite entry_conj, (entry_T n n O) by assumption. split; [reflexivity|].
      rewrite entry_scale, entry_divr, entry_neg.
      rewrite (entry_dot n n n) by assumption.
      rewrite (Csum_ext _ (fun k => (Cconj (entry O k i) * entry O k j)%C)).
      * generalize (Csum (fun k => (Cconj (entry O k i) * entry O k j)%C) n).
        intros s. apply C_eq; destruct gamma, s; simpl; field.
      * intros k Hk. now rewrite entry_conj, (entry_T n n O).
    + intros Hreal. apply (mat_ext n n); try assumption.
      intros i j Hi Hj. rewrite entry_conj, (entry_T n n O) by assumption.
      specialize (Hreal j i). unfold Im in Hreal.
      apply C_eq; simpl; [reflexivity|]. rewrite Hreal. lra.
Qed.

Lemma make_Lindblad_instructions_witness :
  wf_mat 2 2 up /\
  exists A Od LR : Mat,
    make_Lindblad_instructions 1%C up = [(A, Od); (LR, eye 2); (eye 2, LR)] /\
    entry Od 0 1 = Cconj (entry up 1 0).
Proof.
  assert (H : wf_mat 2 2 up) by (split; [reflexivity|repeat constructor]).
  split; [exact H|].
  destruct (make_Lindblad_instructions_spec 2 1%C up H)
    as (A & Od & LR & Heq & _ & _ & _ & Hent & _).
  exists A, Od, LR. split; [exact Heq|].
  apply (Hent 0 1); lia.
Defined.

(** C2: for every rate, every square operator [O] and every matrix [rho] of
    the same dimension, the superoperator that [make_Liouvillian] assembles
    from [make_Lindblad_instructions(gamma,O)], applied to the row-major
    [vec(rho)], is a vector whose reshaped square matrix has trace 0. *)
Theorem Lindblad_dissipator_preserves_trace (n : nat) (gamma : C) (O rho : Mat) :
  wf_mat n n O -> wf_mat n n rho ->
  exists L M : Mat,
    make_Liouvillian (make_Lindblad_instructions gamma O) = Ok L /\
    reshape n n (mat_vec L (flatten rho)) = Some M /\
    trace M = 0%C.
Proof.
  intros HO Hrho. destruct (Nat.eq_dec n 0) as [->|Hn].
  - apply wf_mat_0 in HO, Hrho. subst. exists [], []. repeat split.
  - apply Lindblad_trace_zero; [lia|assumption..].
Qed.

Lemma Lindblad_dissipator_preserves_trace_witness :
  wf_mat 2 2 down /\ wf_mat 2 2 occupied /\
  exists L M : Mat,
    make_Liouvillian (make_Lindblad_instructions (RtoC 0.1) down) = Ok L /\
    reshape 2 2 (mat_vec L (flatten occupied)) = Some M /\
    trace M = 0%C.
Proof.
  assert (H1 : wf_mat 2 2 down) by (split; [reflexivity|repeat constructor]).
  assert (H2 : wf_mat 2 2 occupied) by (split; [reflexivity|repeat constructor]).
  split; [exact H1|]. split; [exact H2|].
  apply (Lindblad_dissipator_preserves_trace 2 (RtoC 0.1) down occupied H1 H2).
Defined.

(** ** Loops that may raise *)

Lemma fold_result_raise {A S : Type} (f : result S -> A -> result S) (l : list A)
      (e : py_exception) :
  (forall a e, f (Raise e) a = Raise e) -> fold_left f l (Raise e) = Raise e.
Proof.
  intros Hraise. induction l as [|a l IH]; [reflexivity|].
  cbn [fold_left]. now rewrite Hraise.
Qed.

Lemma fold_result_invariant {A S : Type} (P : S -> Prop)
      (f : result S -> A -> result S) (l : list A) :
  (forall a e, f (Raise e) a = Raise e) ->
  (forall a s r, P s -> f (Ok s) a = Ok r -> P r) ->
  forall s r, P s -> fold_left f l (Ok s) = Ok r -> P r.
Proof.
  intros Hraise Hstep. induction l as [|a l IH]; intros s r Hs Hr.
  - injection Hr as <-. exact Hs.
  - cbn [fold_left] in Hr. destruct (f (Ok s) a) as [s'|e] eqn:E.
    + apply (IH s' r); [|exact Hr]. now apply (Hstep a s).
    + exfalso. clear - Hraise Hr.
      induction l as [|b l IHl]; [discriminate|].
      cbn [fold_left] in Hr. rewrite Hraise in Hr. now apply IHl.
Qed.

Lemma fold_result_total {A S : Type} (P : S -> Prop)
      (f : result S -> A -> result S) (l : list A) :
  (forall a s, In a l -> P s -> exists r, f (Ok s) a = Ok r /\ P r) ->
  forall s, P s -> exists r, fold_left f l (Ok s) = Ok r /\ P r.
Proof.
  induction l as [|a l IH]; intros Hstep s Hs.
  - exists s. now split.
  - cbn [fold_left]. destruct (Hstep a s (or_introl eq_refl) Hs) as (r & -> & Hr).
    apply IH; [|exact Hr]. intros b t Hb. apply Hstep. now right.
Qed.

(** ** Zero rates and the dissipation instruction list *)

Lemma nonzero_0 (gamma : R) : gamma = 0%R -> nonzero gamma = false.
Proof. intros ->. unfold nonzero. now rewrite Req_b_true. Qed.

(** The table of builders with one builder replaced. *)
Definition with_all_site_dephasing (b : dissipation_builders)
           (x : result (list instruction)) : dissipation_builders :=
  mkBuilders (b_optical_dephasing b) x (b_site_to_site_decoherence b)
             (b_all_exciton_dephasing b) (b_exciton_decoherence_by_manifold b)
             (b_optical_decoherence b).

Definition with_site_to_site_decoherence (b : dissipation_builders)
           (x : result (list instruction)) : dissipation_builders :=
  mkBuilders (b_optical_dephasing b) (b_all_site_dephasing b) x
             (b_all_exciton_dephasing b) (b_exciton_decoherence_by_manifold b)
             (b_optical_decoherence b).

Definition with_all_exciton_dephasing (b : dissipation_builders)
           (x : result (list instruction)) : dissipation_builders :=
  mkBuilders (b_optical_dephasing b) (b_all_site_dephasing b)
             (b_site_to_site_decoherence b) x (b_exciton_decoherence_by_manifold b)
             (b_optical_decoherence b).

Definition with_exciton_decoherence (b : dissipation_builders)
           (f : nat -> result (list instruction)) : dissipation_builders :=
  mkBuilders (b_optical_dephasing b) (b_all_site_dephasing b)
             (b_site_to_site_decoherence b) (b_all_exciton_dephasing b) f
             (b_optical_decoherence b).

Definition with_optical_decoherence (b : dissipation_builders)
           (x : result (list instruction)) : dissipation_builders :=
  mkBuilders (b_optical_dephasing b) (b_all_site_dephasing b)
             (b_site_to_site_decoherence b) (b_all_exciton_dephasing b)
             (b_exciton_decoherence_by_manifold b) x.

(** With the five other rates at 0 only the optical dephasing builder
    contributes. *)
Lemma only_optical_dephasing (self : OpenPolymer) :
  site_to_site_dephasing_gamma self = 0%R ->
  site_to_site_decoherence_gamma self = 0%R ->
  exciton_exciton_dephasing_gamma self = 0%R ->
  exciton_decoherence_gamma self = 0%R ->
  optical_decoherence_gamma self = 0%R ->
  set_electronic_dissipation_instructions self =
  ([], optical_dephasing_instructions self).
Proof.
  intros H1 H2 H3 H4 H5.
  unfold set_electronic_dissipation_instructions, assemble_dissipation_instructions.
  simpl.
  rewrite (nonzero_0 _ H1), (nonzero_0 _ H2), (nonzero_0 _ H3), (nonzero_0 _ H4),
    (nonzero_0 _ H5).
  destruct (optical_dephasing_instructions self); reflexivity.
Qed.

(** Every builder that the rates of the object call for returns. *)
Definition called_builders_return (self : OpenPolymer) (b : dissipation_builders) : Prop :=
  (nonzero (site_to_site_dephasing_gamma self) = true ->
   exists x, b_all_site_dephasing b = Ok x) /\
  (nonzero (site_to_site_decoherence_gamma self) = true ->
   exists x, b_site_to_site_decoherence b = Ok x) /\
  (nonzero (exciton_exciton_dephasing_gamma self) = true ->
   exists x, b_all_exciton_dephasing b = Ok x) /\
  (nonzero (exciton_decoherence_gamma self) = true ->
   forall i, i = 1 \/ 2 <= i <= num_sites self ->
             exists x, b_exciton_decoherence_by_manifold b i = Ok x) /\
  (nonzero (optical_decoherence_gamma self) = true ->
   exists x, b_optical_decoherence b = Ok x).

(** The list starts with the instructions of the optical dephasing builder:
    every later step appends to it. *)
Lemma assemble_heads (self : OpenPolymer) (b : dissipation_builders)
      (l : list instruction) :
  snd (assemble_dissipation_instructions self b) = Ok l ->
  exists od rest, b_optical_dephasing b = Ok od /\ l = od ++ rest.
Proof.
  unfold assemble_dissipation_instructions.
  destruct (b_optical_dephasing b) as [od|e]; [|discriminate].
  cbn [snd]. intros Hl. exists od.
  assert (Hstage : forall (c : bool) (bx : result (list instruction))
                          (l1 l2 : list instruction),
             (exists rest, l1 = od ++ rest) ->
             (if c then x ← bx; Ok (l1 ++ x) else Ok l1) = Ok l2 ->
             exists rest, l2 = od ++ rest).
  { intros c bx l1 l2 [rest ->] H. destruct c; [|injection H as <-; now exists rest].
    destruct bx as [x|e]; cbn [mbind result_bind] in H; [|discriminate].
    injection H as <-. exists (rest ++ x). now rewrite app_assoc. }
  assert (H0 : exists rest, od = od ++ rest) by (exists []; now rewrite app_nil_r).
  revert Hl.
  destruct (if nonzero (site_to_site_dephasing_gamma self)
            then x ← b_all_site_dephasing b; Ok (od ++ x) else Ok od)
    as [l1|e] eqn:E1; cbn [mbind result_bind]; [|discriminate].
  apply Hstage in E1; [|exact H0].
  destruct (if nonzero (site_to_site_decoherence_gamma self)
            then x ← b_site_to_site_decoherence b; Ok (l1 ++ x) else Ok l1)
    as [l2|e] eqn:E2; cbn [mbind result_bind]; [|discriminate].
  apply Hstage in E2; [|exact E1].
  destruct (if nonzero (exciton_exciton_dephasing_gamma self)
            then x ← b_all_exciton_dephasing b; Ok (l2 ++ x) else Ok l2)
    as [l3|e] eqn:E3; cbn [mbind result_bind]; [|discriminate].
  apply Hstage in E3; [|exact E2].
  match goal with
  | |- context [if nonzero (exciton_decoherence_gamma self) then ?t else Ok l3] =>
      destruct (if nonzero (exciton_decoherence_gamma self) then t else Ok l3)
        as [l4|e] eqn:E4; [|discriminate]
  end.
  assert (H4 : exists rest, l4 = od ++ rest).
  { destruct (nonzero (exciton_decoherence_gamma self)); [|now injection E4 as <-].
    destruct (b_exciton_decoherence_by_manifold b 1) as [x|e];
      cbn [mbind result_bind] in E4; [|discriminate].
    apply (fold_result_invariant (fun l : list instruction => exists rest, l = od ++ rest))
      in E4; [exact E4| | |].
    - reflexivity.
    - intros i s r [rest ->]. cbn [mbind result_bind].
      destruct (b_exciton_decoherence_by_manifold b i) as [y|e];
        cbn [mbind result_bind]; [|discriminate].
      intros [= <-]. exists (rest ++ y). now rewrite app_assoc.
    - destruct E3 as [rest ->]. exists (rest ++ x). now rewrite app_assoc. }
  cbn [mbind result_bind]. intros E5.
  destruct (Hstage (nonzero (optical_decoherence_gamma self)) (b_optical_decoherence b)
                   l4 l H4 E5) as [rest ->].
  exists rest. split; reflexivity.
Qed.

(** The list is assembled when every builder that is called returns. *)
Lemma assemble_returns (self : OpenPolymer) (b : dissipation_builders)
      (od : list instruction) :
  b_optical_dephasing b = Ok od -> called_builders_return self b ->
  exists rest, snd (assemble_dissipation_instructions self b) = Ok (od ++ rest).
Proof.
  intros Hod (H1 & H2 & H3 & H4 & H5).
  assert (Htotal : exists l, snd (assemble_dissipation_instructions self b) = Ok l).
  { unfold assemble_dissipation_instructions. rewrite Hod. cbn [snd].
    assert (Hstage : forall (c : bool) (bx : result (list instruction))
                            (l1 : list instruction),
               (c = true -> exists x, bx = Ok x) ->
               exists l2, (if c then x ← bx; Ok (l1 ++ x) else Ok l1) = Ok l2).
    { intros c bx l1 H. destruct c; [|now exists l1].
      destruct (H eq_refl) as (x & ->). now exists (l1 ++ x). }
    destruct (Hstage _ _ od H1) as (l1 & ->). cbn [mbind result_bind].
    destruct (Hstage _ _ l1 H2) as (l2 & ->). cbn [mbind result_bind].
    destruct (Hstage _ _ l2 H3) as (l3 & ->). cbn [mbind result_bind].
    assert (E4 : exists l4,
               (if nonzero (exciton_decoherence_gamma self)
                then
                  x ← b_exciton_decoherence_by_manifold b 1;
                  fold_left (fun acc i =>
                               inst_list ← acc;
                               x ← b_exciton_decoherence_by_manifold b i;
                               Ok (inst_list ++ x))
                            (seq 2 (num_sites self - 1)) (Ok (l3 ++ x))
                else Ok l3) = Ok l4).
    { destruct (nonzero (exciton_decoherence_gamma self)); [|now exists l3].
      destruct (H4 eq_refl 1 (or_introl eq_refl)) as (x & ->). cbn [mbind result_bind].
      destruct (fold_result_total (fun _ : list instruction => True)
                  (fun acc i =>
                     inst_list ← acc;
                     x ← b_exciton_decoherence_by_manifold b i;
                     Ok (inst_list ++ x))
                  (seq 2 (num_sites self - 1))) with (s := l3 ++ x) as (r & Hr & _);
        [|exact I|now exists r].
      intros i s Hi _. apply in_seq in Hi. cbn [mbind result_bind].
      destruct (H4 eq_refl i) as (y & ->); [right; lia|].
      cbn [mbind result_bind]. now eexists. }
    destruct E4 as (l4 & ->). cbn [mbind result_bind].
    exact (Hstage _ _ l4 H5). }
  destruct Htotal as (l & Hl).
  destruct (assemble_heads self b l Hl) as (od' & rest & Hod' & ->).
  rewrite Hod in Hod'. injection Hod' as <-. now exists rest.
Qed.

(** C7, amended: for each of the five families other than optical dephasing
    a rate of exactly 0 skips the builder of the family, so that the list
    (and the warnings) are the same whatever that builder would return or
    raise.  The optical dephasing builder is called whatever its rate: an
    exception of it is the exception of the call, and the list, which is
    assembled whenever the builders that are called return, starts with its
    instructions; for the builders of the object these are the three
    instructions of the optical dephasing operator.  With all five other
    rates 0 they are the whole list. *)
Theorem zero_rate_skips_builder (self : OpenPolymer) (b : dissipation_builders) :
  (site_to_site_dephasing_gamma self = 0%R ->
   forall x, assemble_dissipation_instructions self (with_all_site_dephasing b x) =
             assemble_dissipation_instructions self b) /\
  (site_to_site_decoherence_gamma self = 0%R ->
   forall x, assemble_dissipation_instructions self (with_site_to_site_decoherence b x) =
             assemble_dissipation_instructions self b) /\
  (exciton_exciton_dephasing_gamma self = 0%R ->
   forall x, assemble_dissipation_instructions self (with_all_exciton_dephasing b x) =
             assemble_dissipation_instructions self b) /\
  (exciton_decoherence_gamma self = 0%R ->
   forall f, assemble_dissipation_instructions self (with_exciton_decoherence b f) =
             assemble_dissipation_instructions self b) /\
  (optical_decoherence_gamma self = 0%R ->
   forall x, assemble_dissipation_instructions self (with_optical_decoherence b x) =
             assemble_dissipation_instructions self b) /\
  (site_to_site_dephasing_gamma self = 0%R ->
   site_to_site_decoherence_gamma self = 0%R ->
   exciton_exciton_dephasing_gamma self = 0%R ->
   exciton_decoherence_gamma self = 0%R ->
   optical_decoherence_gamma self = 0%R ->
   set_electronic_dissipation_instructions self =
   ([], optical_dephasing_instructions self)) /\
  (forall e, b_optical_dephasing b = Raise e ->
             assemble_dissipation_instructions self b = ([], Raise e)) /\
  (forall l, snd (assemble_dissipation_instructions self b) = Ok l ->
             exists od rest, b_optical_dephasing b = Ok od /\ l = od ++ rest) /\
  (forall od, b_optical_dephasing b = Ok od -> called_builders_return self b ->
              exists rest, snd (assemble_dissipation_instructions self b)
                           = Ok (od ++ rest)) /\
  (forall l, snd (set_electronic_dissipation_instructions self) = Ok l ->
             exists O rest,
               optical_dephasing_operator self = Ok O /\
               l = make_Lindblad_instructions (RtoC (optical_dephasing_gamma self)) O
                   ++ rest /\
               firstn 3 l =
               make_Lindblad_instructions (RtoC (optical_dephasing_gamma self)) O) /\
  (forall O, optical_dephasing_operator self = Ok O ->
             called_builders_return self (builders_of self) ->
             exists rest,
               snd (set_electronic_dissipation_instructions self) =
               Ok (make_Lindblad_instructions (RtoC (optical_dephasing_gamma self)) O
                   ++ rest)).
Proof.
  assert (Hod : forall O, optical_dephasing_operator self = Ok O ->
                  b_optical_dephasing (builders_of self) =
                  Ok (make_Lindblad_instructions (RtoC (optical_dephasing_gamma self)) O)).
  { intros O HO. cbn [builders_of b_optical_dephasing].
    unfold optical_dephasing_instructions. now rewrite HO. }
  repeat split; try apply only_optical_dephasing.
  - intros H x. unfold assemble_dissipation_instructions. simpl.
    rewrite (nonzero_0 _ H). reflexivity.
  - intros H x. unfold assemble_dissipation_instructions. simpl.
    rewrite (nonzero_0 _ H). reflexivity.
  - intros H x. unfold assemble_dissipation_instructions. simpl.
    rewrite (nonzero_0 _ H). reflexivity.
  - intros H f. unfold assemble_dissipation_instructions. simpl.
    rewrite (nonzero_0 _ H). reflexivity.
  - intros H x. unfold assemble_dissipation_instructions. simpl.
    rewrite (nonzero_0 _ H). reflexivity.
  - intros e He. unfold assemble_dissipation_instructions. now rewrite He.
  - apply assemble_heads.
  - intros od. apply assemble_returns.
  - intros l Hl. unfold set_electronic_dissipation_instructions in Hl.
    destruct (assemble_heads self (builders_of self) l Hl) as (od & rest & Hb & ->).
    cbn [builders_of b_optical_dephasing] in Hb.
    unfold optical_dephasing_instructions in Hb.
    destruct (optical_dephasing_operator self) as [O|e];
      cbn [mbind result_bind] in Hb; [|discriminate].
    injection Hb as <-. exists O, rest. repeat split; reflexivity.
  - intros O HO Hret. unfold set_electronic_dissipation_instructions.
    apply assemble_returns; [now apply Hod|exact Hret].
Qed.

(** A single site of energy 1 with every rate set to 0. *)
Definition one_site_no_rates : OpenPolymer :=
  mkOpenPolymer 1 [1%R] [] [up] [down] [occupied] [empty] [] [sz]
    (mat_scale 1%C occupied) [0; 1]%Z [[0%R]; [1%R]] [[[1%C]]; [[1%C]]]
    None None None 0 0 0 0 0 0 1 [] None ∅ None.

Lemma zero_rate_skips_builder_witness :
  site_to_site_dephasing_gamma one_site_no_rates = 0%R /\
  forall x,
    assemble_dissipation_instructions one_site_no_rates
      (with_all_site_dephasing (builders_of one_site_no_rates) x) =
    assemble_dissipation_instructions one_site_no_rates (builders_of one_site_no_rates).
Proof.
  split; [reflexivity|].
  apply (proj1 (zero_rate_skips_builder one_site_no_rates (builders_of one_site_no_rates))).
  reflexivity.
Defined.

(** C7 fails as stated for the optical dephasing family: with its rate (and
    every other rate) exactly 0 the list is still the three instructions of
    the optical dephasing builder. *)
Lemma optical_dephasing_not_skipped :
  optical_dephasing_gamma one_site_no_rates = 0%R /\
  snd (set_electronic_dissipation_instructions one_site_no_rates) =
  Ok (make_Lindblad_instructions 0%C sz) /\
  length (make_Lindblad_instructions 0%C sz) = 3.
Proof.
  split; [reflexivity|]. split; [|reflexivity].
  rewrite only_optical_dephasing; reflexivity.
Qed.

(** ** The consistency check of the electronic eigensystem *)

Lemma Cmod_RtoC (x : R) : Cmod (RtoC x) = Rabs x.
Proof.
  unfold Cmod, RtoC. simpl.
  replace (x * x + 0 * 0)%R with (Rsqr x) by (unfold Rsqr; lra).
  apply sqrt_Rsqr_abs.
Qed.

Lemma isclose_tol_RtoC (rtol atol a b : R) :
  isclose_tol rtol atol (RtoC a) (RtoC b) =
  Rle_b (Rabs (a - b)) (atol + rtol * Rabs b)%R.
Proof.
  unfold isclose_tol.
  replace (RtoC a - RtoC b)%C with (RtoC (a - b)) by lca.
  now rewrite !Cmod_RtoC.
Qed.

Lemma forallb_zip_nth {X : Type} (f : X * X -> bool) (l1 l2 : list X) (d : X) :
  forallb f (zip l1 l2) = true <->
  forall i, i < Nat.min (length l1) (length l2) -> f (nth i l1 d, nth i l2 d) = true.
Proof.
  revert l2. induction l1 as [|x l1 IH]; intros [|y l2]; simpl;
    try (split; [intros _ i Hi; lia|reflexivity]).
  rewrite andb_true_iff, IH. split.
  - intros [Hxy H] [|i] Hi; [assumption|]. apply H. lia.
  - intros H. split; [apply (H 0); lia|]. intros i Hi. apply (H (S i)). lia.
Qed.

(** [np.allclose(A,B,rtol,atol)] holds when every entry of [A] is within
    [atol + rtol * |b|] of the entry [b] of [B]. *)
Lemma allclose_tol_entries (rtol atol : R) (A B : Mat) :
  allclose_tol rtol atol A B = true <->
  forall i j,
    i < Nat.min (length A) (length B) ->
    j < Nat.min (length (nth i A [])) (length (nth i B [])) ->
    (Cmod (entry A i j - entry B i j)%C <= atol + rtol * Cmod (entry B i j))%R.
Proof.
  unfold allclose_tol. rewrite (forallb_zip_nth _ A B []).
  split; intros H i.
  - intros j Hi Hj. specialize (H i Hi). cbv beta iota in H.
    rewrite (forallb_zip_nth _ _ _ 0%C) in H. specialize (H j Hj).
    cbv beta iota in H. unfold isclose_tol, Rle_b in H.
    destruct (Rle_dec _ _) as [Hle|] in H; [exact Hle|discriminate].
  - intros Hi. cbv beta iota. rewrite (forallb_zip_nth _ _ _ 0%C).
    intros j Hj. cbv beta iota. unfold isclose_tol. apply Rle_b_true.
    now apply H.
Qed.

(** The loop assigns neither [electronic_eigenvectors] nor
    [electronic_eigenvalues]. *)
Lemma electronic_eigensystem_loop_fields (self : OpenPolymer) :
  let self' := fst (electronic_eigensystem_loop self) in
  electronic_eigenvectors self' = electronic_eigenvectors self /\
  electronic_eigenvalues self' = electronic_eigenvalues self.
Proof.
  unfold electronic_eigensystem_loop.
  generalize (Ok (zeros (nrows (electronic_hamiltonian self))
                        (ncols (electronic_hamiltonian self)),
                  zeros (nrows (electronic_hamiltonian self))
                        (ncols (electronic_hamiltonian self)))).
  generalize (seq 0 (num_sites self + 1)).
  generalize (electronic_total_occupation_number self) as occ.
  generalize (shape_of (electronic_hamiltonian self)) as shape.
  intros shape occ l.
  assert (G : forall (s : OpenPolymer) (r : result (Mat * Mat)),
             electronic_eigenvectors s = electronic_eigenvectors self /\
             electronic_eigenvalues s = electronic_eigenvalues self ->
             let s' := fst (fold_left
               (fun (acc : OpenPolymer * result (Mat * Mat)) i =>
                  let '(self, r) := acc in
                  match r with
                  | Raise exc => (self, Raise exc)
                  | Ok (eigvecs, d) =>
                      match get_eigensystem_by_manifold self i with
                      | Raise exc => (self, Raise exc)
                      | Ok (e, v) =>
                          (if Nat.eqb i 1 then set_exciton_energies self e else self,
                           Ok (mat_add eigvecs (manifold_to_full occ shape v (Z.of_nat i)),
                               mat_add d (manifold_to_full occ shape (diag (map RtoC e))
                                                           (Z.of_nat i))))
                      end
                  end) l (s, r)) in
             electronic_eigenvectors s' = electronic_eigenvectors self /\
             electronic_eigenvalues s' = electronic_eigenvalues self).
  { induction l as [|i l IH]; intros s r Hs; simpl; [exact Hs|].
    destruct r as [[eigvecs d]|exc]; [|now apply IH].
    destruct (get_eigensystem_by_manifold s i) as [[e v]|exc]; [|now apply IH].
    apply IH. destruct (Nat.eqb i 1); [|exact Hs]. exact Hs. }
  intros r. apply G. split; reflexivity.
Qed.

(** C6, amended: the check of [set_electronic_eigensystem] is
    [np.allclose(Hd,d)] with numpy's default tolerances, absolute 1e-8 and
    relative 1e-5.  When the call returns, the published eigenvectors [V] and
    the embedded diagonal [d] satisfy the check for [Hd = V^T H V], entry by
    entry; when the check fails the call raises
    [Exception('Diagonalization by manifold failed')]; and whenever the call
    raises, [electronic_eigenvectors] and [electronic_eigenvalues] are left
    as they were. *)
Theorem set_electronic_eigensystem_spec (self : OpenPolymer) :
  let H := electronic_hamiltonian self in
  (forall self', set_electronic_eigensystem self = (self', Ok tt) ->
     exists V d : Mat,
       snd (electronic_eigensystem_loop self) = Ok (V, d) /\
       electronic_eigenvectors self' = Some V /\
       electronic_eigenvalues self' = Some (diagonal d) /\
       allclose_tol 1e-5 1e-8 (mat_dot (mat_T V) (mat_dot H V)) d = true /\
       forall i j,
         i < Nat.min (length (mat_dot (mat_T V) (mat_dot H V))) (length d) ->
         j < Nat.min (length (nth i (mat_dot (mat_T V) (mat_dot H V)) []))
                     (length (nth i d [])) ->
         (Cmod (entry (mat_dot (mat_T V) (mat_dot H V)) i j - entry d i j)%C
          <= 1e-8 + 1e-5 * Cmod (entry d i j))%R) /\
  (forall V d : Mat,
     snd (electronic_eigensystem_loop self) = Ok (V, d) ->
     allclose_tol 1e-5 1e-8 (mat_dot (mat_T V) (mat_dot H V)) d = false ->
     snd (set_electronic_eigensystem self) =
     Raise (PyExc "Exception" "Diagonalization by manifold failed")) /\
  (forall self' exc, set_electronic_eigensystem self = (self', Raise exc) ->
     electronic_eigenvectors self' = electronic_eigenvectors self /\
     electronic_eigenvalues self' = electronic_eigenvalues self).
Proof.
  intros H. unfold set_electronic_eigensystem.
  pose proof (electronic_eigensystem_loop_fields self) as Hf. cbv zeta in Hf.
  destruct (electronic_eigensystem_loop self) as [s [[V d]|exc]]; simpl in *.
  - fold H. unfold allclose, default_rtol, default_atol.
    destruct (allclose_tol 1e-5 1e-8 (mat_dot (mat_T V) (mat_dot H V)) d) eqn:Hc.
    + split; [|split].
      * intros self' Heq. injection Heq as <-. exists V, d.
        split; [reflexivity|]. split; [reflexivity|]. split; [reflexivity|].
        split; [exact Hc|]. apply (proj1 (allclose_tol_entries _ _ _ _) Hc).
      * intros V' d' Heq Hfalse. injection Heq as <- <-. congruence.
      * intros self' exc Heq. discriminate Heq.
    + split; [|split].
      * intros self' Heq. discriminate Heq.
      * intros V' d' Heq _. reflexivity.
      * intros self' exc Heq. injection Heq as <- _. exact Hf.
  - split; [|split].
    + intros self' Heq. discriminate Heq.
    + intros V d Heq. discriminate Heq.
    + intros self' exc' Heq. injection Heq as <- _. exact Hf.
Qed.

Ltac compute_arrays :=
  cbv -[Rplus Rmult Rminus Ropp Rdiv Rinv IZR sqrt exp Rabs Req_dec_T Rlt_dec Rle_dec].
Ltac rabs := unfold Rabs; repeat destruct Rcase_abs; lra.

(** One site of energy 1000 whose stored eigenvalue of the manifold 1 is off
    by 0.005, a relative error of 5e-6. *)
Definition drifted_site : OpenPolymer :=
  mkOpenPolymer 1 [1000%R] [] [up] [down] [occupied] [empty] [] [sz]
    [[RtoC 0; RtoC 0]; [RtoC 0; RtoC 1000]] [0; 1]%Z [[0%R]; [1000.005%R]]
    [[[RtoC 1]]; [[RtoC 1]]] None None None 0.1 0 0 0 0 0.01 1 [] None ∅ None.

Definition drifted_V : Mat := [[RtoC 1; RtoC 0]; [RtoC 0; RtoC 1]].
Definition drifted_d : Mat := [[RtoC 0; RtoC 0]; [RtoC 0; RtoC 1000.005]].
Definition drifted_Hd : Mat := [[RtoC 0; RtoC 0]; [RtoC 0; RtoC 1000]].

Lemma drifted_loop :
  electronic_eigensystem_loop drifted_site =
  (set_exciton_energies drifted_site [1000.005%R], Ok (drifted_V, drifted_d)).
Proof. compute_arrays. repeat f_equal; lra. Qed.

Lemma drifted_Hd_value :
  mat_dot (mat_T drifted_V) (mat_dot (electronic_hamiltonian drifted_site) drifted_V)
  = drifted_Hd.
Proof. compute_arrays. repeat f_equal; lra. Qed.

Lemma drifted_passes : allclose drifted_Hd drifted_d = true.
Proof.
  unfold allclose, allclose_tol, drifted_Hd, drifted_d, default_rtol, default_atol.
  simpl. rewrite !isclose_tol_RtoC.
  rewrite !Rle_b_true; [reflexivity|rabs..].
Qed.

Lemma drifted_fails_1e8 : allclose_tol 1e-8 1e-8 drifted_Hd drifted_d = false.
Proof.
  unfold allclose_tol, drifted_Hd, drifted_d. simpl. rewrite !isclose_tol_RtoC.
  rewrite (Rle_b_false (Rabs (1000 - 1000.005))) by rabs.
  rewrite !andb_false_r. reflexivity.
Qed.

Lemma drifted_result :
  set_electronic_eigensystem drifted_site =
  (set_electronic_eigen (set_exciton_energies drifted_site [1000.005%R])
                        drifted_V (diagonal drifted_d), Ok tt).
Proof.
  unfold set_electronic_eigensystem. rewrite drifted_loop.
  cbv zeta. rewrite drifted_Hd_value, drifted_passes. reflexivity.
Qed.

Lemma set_electronic_eigensystem_witness :
  exists V d : Mat,
    snd (electronic_eigensystem_loop drifted_site) = Ok (V, d) /\
    allclose_tol 1e-5 1e-8
      (mat_dot (mat_T V) (mat_dot (electronic_hamiltonian drifted_site) V)) d = true.
Proof.
  destruct (proj1 (set_electronic_eigensystem_spec drifted_site) _ drifted_result)
    as (V & d & Hloop & _ & _ & Hclose & _).
  exists V, d. split; [exact Hloop|exact Hclose].
Defined.

(** C6 fails as stated: for this object the call returns and publishes the
    eigensystem although [V^T H V] differs from the embedded diagonal by
    0.005 at the entry (1,1), outside an absolute and relative tolerance of
    1e-8 (it is inside numpy's default relative tolerance 1e-5). *)
Lemma eigensystem_published_beyond_1e8 :
  set_electronic_eigensystem drifted_site =
  (set_electronic_eigen (set_exciton_energies drifted_site [1000.005%R])
                        drifted_V (diagonal drifted_d), Ok tt) /\
  mat_dot (mat_T drifted_V) (mat_dot (electronic_hamiltonian drifted_site) drifted_V)
  = drifted_Hd /\
  allclose_tol 1e-8 1e-8 drifted_Hd drifted_d = false /\
  ~ (Cmod (entry drifted_Hd 1 1 - entry drifted_d 1 1)%C
     <= 1e-8 + 1e-8 * Cmod (entry drifted_d 1 1))%R.
Proof.
  split; [exact drifted_result|]. split; [exact drifted_Hd_value|].
  split; [exact drifted_fails_1e8|].
  unfold drifted_Hd, drifted_d, entry. simpl.
  replace (RtoC 1000 - RtoC 1000.005)%C with (RtoC (1000 - 1000.005)) by lca.
  rewrite !Cmod_RtoC. rabs.
Qed.

(** ** The normalisation of the steady state in [eigfun] *)

Lemma Ceq_b_true_iff (x y : C) : Ceq_b x y = true <-> x = y.
Proof.
  unfold Ceq_b, Req_b. destruct x as [a b], y as [c d]. simpl.
  destruct (Req_dec_T a c), (Req_dec_T b d); simpl; split; intros H;
    try reflexivity; try discriminate; try congruence.
Qed.

Lemma Cdiv_diag (t : C) : t <> 0%C -> Cdiv t t = 1%C.
Proof.
  intros Ht. destruct t as [a b].
  assert (Hab : (a * a + b * b <> 0)%R).
  { intros H. apply Ht. assert (a = 0%R) by nra. assert (b = 0%R) by nra.
    subst. reflexivity. }
  unfold Cdiv, Cinv. apply C_eq; simpl; field; exact Hab.
Qed.

Lemma Ceq_b_false_iff (x y : C) : Ceq_b x y = false <-> x <> y.
Proof.
  split.
  - intros H E. apply Ceq_b_true_iff in E. congruence.
  - intros H. destruct (Ceq_b x y) eqn:E; [|reflexivity].
    apply Ceq_b_true_iff in E. contradiction.
Qed.

Lemma vsum_map_scale (c : C) (v : Vec) :
  vsum (map (fun x => (x * c)%C) v) = (vsum v * c)%C.
Proof.
  induction v as [|x v IH]; unfold vsum in *; simpl; [ring|]. rewrite IH. ring.
Qed.

Lemma length_sign_convention (col : Vec) : length (sign_convention col) = length col.
Proof.
  unfold sign_convention. destruct (Rlt_b _ _); [apply length_map|reflexivity].
Qed.

Lemma sign_convention_cases (col : Vec) :
  sign_convention col = col \/
  sign_convention col = map (fun x => (x * RtoC (-1))%C) col.
Proof. unfold sign_convention. destruct (Rlt_b _ _); [right|left]; reflexivity. Qed.

Lemma reshape_Some_inv (r c : nat) (v : Vec) (M : Mat) :
  reshape r c v = Some M -> length v = r * c.
Proof.
  unfold reshape. destruct (Nat.eqb_spec (length v) (r * c)); [trivial|discriminate].
Qed.

(** The trace of a reshaped vector is linear in the vector. *)
Lemma trace_reshape_scale (s : nat) (v : Vec) (c : C) (M : Mat) :
  reshape s s v = Some M ->
  exists M', reshape s s (map (fun x => (x * c)%C) v) = Some M' /\
             trace M' = (trace M * c)%C.
Proof.
  intros HM. assert (Hlen := reshape_Some_inv s s v M HM).
  destruct (reshape_Some s s v Hlen) as (M0 & HM0 & Hwf & Hent).
  rewrite HM0 in HM. injection HM as <-.
  destruct (reshape_Some s s (map (fun x => (x * c)%C) v)) as (M' & HM' & Hwf' & Hent').
  { now rewrite length_map. }
  exists M'. split; [exact HM'|].
  rewrite (trace_Csum s M' Hwf'), (trace_Csum s M0 Hwf), <- Csum_scale_r.
  apply Csum_ext. intros i Hi. rewrite Hent', Hent by assumption.
  apply (nth_map_lt (fun x => (x * c)%C)). nia.
Qed.

Lemma length_column (M : Mat) (j : nat) : length (column M j) = length M.
Proof. unfold column. apply length_map. Qed.

Lemma wf_set_column (r n : nat) (M : Mat) (i : nat) (c : Vec) :
  wf_mat r n M -> length c = r -> wf_mat r n (set_column M i c).
Proof.
  intros [Hr Hn] Hc. unfold set_column. split.
  - rewrite length_zip_with. lia.
  - clear Hr Hc. revert c. induction Hn as [|row M Hrow _ IH]; intros [|x c]; simpl;
      constructor.
    + now rewrite length_insert.
    + apply IH.
Qed.

Lemma column_set_column (r n : nat) (M : Mat) (i j : nat) (c : Vec) :
  wf_mat r n M -> length c = r -> i < n ->
  column (set_column M i c) j = if Nat.eqb i j then c else column M j.
Proof.
  intros [Hr Hn] Hc Hi. subst r. unfold set_column, column.
  revert c Hc. induction Hn as [|row M Hrow _ IH]; intros [|x c] Hc; simpl in *;
    try discriminate.
  - now destruct (Nat.eqb i j).
  - rewrite nth_list_insert by lia. rewrite IH by lia.
    now destruct (Nat.eqb i j).
Qed.

Lemma divide_column_cases (col : Vec) (t : C) :
  (t = 0%C /\ divide_column col t = NotFinite) \/
  (t <> 0%C /\ divide_column col t = Finite (map (fun x => Cdiv x t) col)).
Proof.
  unfold divide_column. destruct (Ceq_b t 0%C) eqn:E.
  - left. split; [now apply Ceq_b_true_iff|reflexivity].
  - right. split; [now apply Ceq_b_false_iff|reflexivity].
Qed.

(** The number [trace_norm] by which [eigfun] divides an eigenvector of a
    zero eigenvalue, among [size] eigenvalues: the sum of its components
    with [populations_only], else the trace of the vector reshaped to a
    square array. *)
Definition trace_norm (populations_only : bool) (size : nat) (col : Vec) : C :=
  if populations_only then vsum col
  else match reshape (Nat.sqrt size) (Nat.sqrt size) col with
       | Some M => trace M
       | None => 0%C
       end.

(** What the loop makes of column [i] of the sorted eigenvectors [V]. *)
Definition normalised_column (populations_only : bool) (eigvals : Vec) (V : Mat) (i : nat)
  : farray Vec :=
  let col := sign_convention (column V i) in
  if Ceq_b (nth i eigvals 0%C) 0%C
  then divide_column col (trace_norm populations_only (length eigvals) col)
  else Finite col.

Lemma trace_norm_scale (p : bool) (n : nat) (col : Vec) (c : C) :
  length col = n -> (p = false -> Nat.sqrt n * Nat.sqrt n = n) ->
  trace_norm p n (map (fun x => (x * c)%C) col) = (trace_norm p n col * c)%C.
Proof.
  intros Hlen Hsq. unfold trace_norm. destruct p; [apply vsum_map_scale|].
  destruct (reshape_Some (Nat.sqrt n) (Nat.sqrt n) col) as (M & HM & _).
  { rewrite Hlen. symmetry. now apply Hsq. }
  destruct (trace_reshape_scale (Nat.sqrt n) col c M HM) as (M' & HM' & Ht).
  now rewrite HM, HM'.
Qed.

Lemma trace_norm_sign_convention (p : bool) (n : nat) (col : Vec) :
  length col = n -> (p = false -> Nat.sqrt n * Nat.sqrt n = n) ->
  trace_norm p n (sign_convention col) = trace_norm p n col \/
  trace_norm p n (sign_convention col) = (trace_norm p n col * RtoC (-1))%C.
Proof.
  intros Hlen Hsq. destruct (sign_convention_cases col) as [-> | ->]; [now left|right].
  now apply trace_norm_scale.
Qed.

Section EigfunLoop.
Variable p : bool.
Variable eigvals : Vec.
Variable V : Mat.
Variable n : nat.
Hypothesis Hlen : length eigvals = n.
Hypothesis HV : wf_mat n n V.
Hypothesis Hsq : p = false -> Nat.sqrt n * Nat.sqrt n = n.

Lemma length_sign_column (M : Mat) (i : nat) :
  wf_mat n n M -> length (sign_convention (column M i)) = n.
Proof. intros [HM _]. now rewrite length_sign_convention, length_column. Qed.

Lemma eigfun_column_value (M : Mat) (i : nat) :
  wf_mat n n M ->
  eigfun_column p eigvals i (column M i) = Ok (normalised_column p eigvals M i).
Proof.
  intros HM. unfold eigfun_column, normalised_column, trace_norm.
  destruct (Ceq_b _ _); [|reflexivity].
  destruct p; [reflexivity|].
  unfold py_reshape. rewrite Hlen.
  destruct (reshape_Some (Nat.sqrt n) (Nat.sqrt n) (sign_convention (column M i)))
    as (Msc & HMsc & _).
  { rewrite (length_sign_column M i HM). symmetry. now apply Hsq. }
  now rewrite HMsc.
Qed.

(** A column of the result: the sign-fixed eigenvector; for a zero
    eigenvalue, divided by its [trace_norm], which is not 0 and becomes 1. *)
Definition normalised (i : nat) (col : Vec) : Prop :=
  let sc := sign_convention (column V i) in
  (nth i eigvals 0%C = 0%C ->
   trace_norm p n sc <> 0%C /\
   col = map (fun x => Cdiv x (trace_norm p n sc)) sc /\
   trace_norm p n col = 1%C) /\
  (nth i eigvals 0%C <> 0%C -> col = sc).

Lemma normalised_column_cases (i : nat) :
  (nth i eigvals 0%C = 0%C /\
   trace_norm p n (sign_convention (column V i)) = 0%C /\
   normalised_column p eigvals V i = NotFinite) \/
  (exists col, normalised_column p eigvals V i = Finite col /\ normalised i col).
Proof.
  unfold normalised_column, normalised. rewrite Hlen.
  set (sc := sign_convention (column V i)).
  destruct (Ceq_b (nth i eigvals 0%C) 0%C) eqn:E.
  - apply Ceq_b_true_iff in E.
    destruct (divide_column_cases sc (trace_norm p n sc)) as [[Ht ->]|[Ht ->]].
    + left. auto.
    + right. eexists. split; [reflexivity|]. split; [|intros H; contradiction].
      intros _. split; [exact Ht|]. split; [reflexivity|].
      change (map (fun x => Cdiv x (trace_norm p n sc)) sc)
        with (map (fun x => (x * Cinv (trace_norm p n sc))%C) sc).
      rewrite trace_norm_scale; [now apply Cdiv_diag| |exact Hsq].
      apply (length_sign_column V i HV).
  - apply Ceq_b_false_iff in E. right. exists sc. split; [reflexivity|].
    split; [intros H; contradiction|reflexivity].
Qed.

(** The loop treats every column on its own, until a division by zero. *)
Lemma eigfun_loop_prefix (k : nat) :
  k <= n ->
  (fold_left (eigfun_step p eigvals) (seq 0 k) (Ok (Finite V)) = Ok NotFinite /\
   exists i, i < k /\ normalised_column p eigvals V i = NotFinite) \/
  (exists Vk,
     fold_left (eigfun_step p eigvals) (seq 0 k) (Ok (Finite V)) = Ok (Finite Vk) /\
     wf_mat n n Vk /\
     (forall i, i < k -> normalised_column p eigvals V i = Finite (column Vk i)) /\
     (forall i, k <= i -> column Vk i = column V i)).
Proof.
  induction k as [|k IH]; intros Hk.
  - right. exists V. split; [reflexivity|]. split; [exact HV|].
    split; [intros; lia|reflexivity].
  - rewrite seq_S, fold_left_app. cbn [fold_left Nat.add].
    destruct IH as [[Hfold (i & Hi & Hbad)]|(Vk & Hfold & Hwf & Hdone & Hrest)]; [lia| |].
    + left. rewrite Hfold. split; [reflexivity|]. exists i. split; [lia|exact Hbad].
    + assert (Hsame : normalised_column p eigvals Vk k = normalised_column p eigvals V k).
      { unfold normalised_column. now rewrite (Hrest k (Nat.le_refl k)). }
      assert (Hstep : eigfun_step p eigvals (Ok (Finite Vk)) k =
                      match normalised_column p eigvals V k with
                      | Finite col => Ok (Finite (set_column Vk k col))
                      | NotFinite => Ok NotFinite
                      end).
      { unfold eigfun_step. cbn [mbind result_bind].
        rewrite (eigfun_column_value Vk k Hwf). cbn [mbind result_bind].
        now rewrite Hsame. }
      rewrite Hfold, Hstep.
      destruct (normalised_column p eigvals V k) as [col|] eqn:Ecol.
      * right. exists (set_column Vk k col).
        assert (Hl : length col = n).
        { destruct (normalised_column_cases k) as [(_ & _ & H)|(c & Hc & Hn)];
            [congruence|].
          assert (c = col) by congruence. subst c.
          destruct (Ceq_b (nth k eigvals 0%C) 0%C) eqn:E.
          - apply Ceq_b_true_iff in E. destruct Hn as [Hz _].
            destruct (Hz E) as (_ & -> & _).
            rewrite length_map. apply (length_sign_column V k HV).
          - apply Ceq_b_false_iff in E. destruct Hn as [_ Hnz].
            rewrite (Hnz E). apply (length_sign_column V k HV). }
        split; [reflexivity|]. split; [now apply wf_set_column|]. split.
        -- intros i Hi. rewrite (column_set_column n n) by (try assumption; lia).
           destruct (Nat.eqb_spec k i) as [<-|Hne]; [exact Ecol|]. apply Hdone. lia.
        -- intros i Hi. rewrite (column_set_column n n) by (try assumption; lia).
           destruct (Nat.eqb_spec k i) as [<-|Hne]; [lia|]. apply Hrest. lia.
      * left. split; [reflexivity|]. exists k. split; [lia|exact Ecol].
Qed.

Lemma eigfun_loop_value :
  (eigfun_loop p eigvals V = Ok NotFinite /\
   exists i, i < n /\ nth i eigvals 0%C = 0%C /\
             trace_norm p n (sign_convention (column V i)) = 0%C) \/
  (exists V',
     eigfun_loop p eigvals V = Ok (Finite V') /\ wf_mat n n V' /\
     forall i, i < n -> normalised i (column V' i)).
Proof.
  unfold eigfun_loop. rewrite Hlen.
  destruct (eigfun_loop_prefix n (Nat.le_refl n))
    as [[Hfold (i & Hi & Hbad)]|(V' & Hfold & Hwf & Hdone & _)].
  - left. split; [exact Hfold|]. exists i. split; [exact Hi|].
    destruct (normalised_column_cases i) as [(H1 & H2 & _)|(c & Hc & _)]; [auto|congruence].
  - right. exists V'. split; [exact Hfold|]. split; [exact Hwf|].
    intros i Hi. specialize (Hdone i Hi).
    destruct (normalised_column_cases i) as [(_ & _ & H)|(c & Hc & Hn)]; [congruence|].
    assert (c = column V' i) by congruence. now subst c.
Qed.

(** A zero trace for a zero eigenvalue leaves a [NotFinite] array. *)
Lemma eigfun_loop_zero_trace (i : nat) :
  i < n -> nth i eigvals 0%C = 0%C ->
  trace_norm p n (sign_convention (column V i)) = 0%C ->
  eigfun_loop p eigvals V = Ok NotFinite.
Proof.
  intros Hi Hz Ht.
  destruct eigfun_loop_value as [[Hloop _]|(V' & _ & _ & Hcols)]; [exact Hloop|].
  destruct (Hcols i Hi) as [Hzero _]. destruct (Hzero Hz) as (Hne & _). contradiction.
Qed.
End EigfunLoop.

Section EigfunSteadyState.
Variable eig : Mat -> Vec * Mat.
Variable round12 : C -> C.
Variable argsort : Vec -> list nat.
Variable pinv : Mat -> Mat.

Lemma eigfun_finite_columns (L : Mat) (check_eigenvectors invert p : bool) (n : nat)
      (res : eigfun_result) :
  let eigvals := fst (sorted_eig eig round12 argsort L) in
  let V := snd (sorted_eig eig round12 argsort L) in
  length eigvals = n -> wf_mat n n V -> (p = false -> Nat.sqrt n * Nat.sqrt n = n) ->
  eigfun eig round12 argsort pinv L check_eigenvectors invert p = Ok (Finite res) ->
  eigvals_of res = eigvals /\
  forall i, i < n -> normalised p eigvals V n i (column (eigvecs_of res) i).
Proof.
  intros eigvals V Hlen HV Hsq. unfold eigfun. subst eigvals V.
  destruct (sorted_eig eig round12 argsort L) as [eigvals V]. cbn [fst snd] in *.
  destruct (eigfun_loop_value p eigvals V n Hlen HV Hsq)
    as [[-> _]|(V' & -> & _ & Hcols)]; cbn [mbind result_bind].
  - destruct invert; discriminate.
  - destruct (if invert then _ else _) as [W|]; [|discriminate].
    intros [= <-]. cbn [eigvals_of eigvecs_of]. split; [reflexivity|exact Hcols].
Qed.

Lemma eigfun_returns (L : Mat) (check_eigenvectors p : bool) (n : nat) :
  let eigvals := fst (sorted_eig eig round12 argsort L) in
  let V := snd (sorted_eig eig round12 argsort L) in
  length eigvals = n -> wf_mat n n V -> (p = false -> Nat.sqrt n * Nat.sqrt n = n) ->
  (forall i, i < n -> nth i eigvals 0%C = 0%C ->
             trace_norm p n (sign_convention (column V i)) <> 0%C) ->
  exists res, eigfun eig round12 argsort pinv L check_eigenvectors true p = Ok (Finite res).
Proof.
  intros eigvals V Hlen HV Hsq Hnz. unfold eigfun. subst eigvals V.
  destruct (sorted_eig eig round12 argsort L) as [eigvals V]. cbn [fst snd] in *.
  destruct (eigfun_loop_value p eigvals V n Hlen HV Hsq)
    as [[_ (i & Hi & Hz & Ht)]|(V' & -> & _)].
  - exfalso. exact (Hnz i Hi Hz Ht).
  - cbn [mbind result_bind]. eexists. reflexivity.
Qed.

Lemma eigfun_zero_trace (L : Mat) (check_eigenvectors p : bool) (n i : nat) :
  let eigvals := fst (sorted_eig eig round12 argsort L) in
  let V := snd (sorted_eig eig round12 argsort L) in
  length eigvals = n -> wf_mat n n V -> (p = false -> Nat.sqrt n * Nat.sqrt n = n) ->
  i < n -> nth i eigvals 0%C = 0%C ->
  trace_norm p n (sign_convention (column V i)) = 0%C ->
  eigfun eig round12 argsort pinv L check_eigenvectors true p = Raise LinAlgError /\
  eigfun eig round12 argsort pinv L check_eigenvectors false p = Ok NotFinite.
Proof.
  intros eigvals V Hlen HV Hsq Hi Hz Ht. unfold eigfun. subst eigvals V.
  destruct (sorted_eig eig round12 argsort L) as [eigvals V]. cbn [fst snd] in *.
  rewrite (eigfun_loop_zero_trace p eigvals V n Hlen HV Hsq i Hi Hz Ht).
  split; reflexivity.
Qed.

(** C8, amended: [eigfun] divides the (sign-fixed) eigenvector of every
    rounded eigenvalue that is exactly 0 by its [trace_norm]: the trace of
    the vector reshaped into a square of side [s] for a block of dimension
    [s*s], and the sum of its components with [populations_only].  When
    none of these is 0 the call with [invert = True] returns; whenever a
    call returns finite arrays, every such eigenvector is the sign-fixed
    one divided by its [trace_norm], which was not 0 and is 1 afterwards,
    and the eigenvectors of the other eigenvalues only got the sign
    convention.  When one [trace_norm] is 0 the division stores [nan] or
    [inf]: [np.linalg.pinv] then raises, and with [invert = False] the
    arrays returned are not finite. *)
Theorem eigfun_normalises_steady_state (L : Mat) (check_eigenvectors p : bool) (n : nat) :
  let eigvals := fst (sorted_eig eig round12 argsort L) in
  let V := snd (sorted_eig eig round12 argsort L) in
  let sc := fun i => sign_convention (column V i) in
  length eigvals = n -> wf_mat n n V -> (p = false -> Nat.sqrt n * Nat.sqrt n = n) ->
  ((forall i, i < n -> nth i eigvals 0%C = 0%C -> trace_norm p n (sc i) <> 0%C) ->
   exists res,
     eigfun eig round12 argsort pinv L check_eigenvectors true p = Ok (Finite res)) /\
  (forall invert res,
     eigfun eig round12 argsort pinv L check_eigenvectors invert p = Ok (Finite res) ->
     eigvals_of res = eigvals /\
     forall i, i < n ->
       (nth i eigvals 0%C = 0%C ->
        trace_norm p n (sc i) <> 0%C /\
        column (eigvecs_of res) i = map (fun x => Cdiv x (trace_norm p n (sc i))) (sc i) /\
        trace_norm p n (column (eigvecs_of res) i) = 1%C) /\
       (nth i eigvals 0%C <> 0%C -> column (eigvecs_of res) i = sc i)) /\
  (forall i, i < n -> nth i eigvals 0%C = 0%C -> trace_norm p n (sc i) = 0%C ->
     eigfun eig round12 argsort pinv L check_eigenvectors true p = Raise LinAlgError /\
     eigfun eig round12 argsort pinv L check_eigenvectors false p = Ok NotFinite).
Proof.
  intros eigvals V sc Hlen HV Hsq. split; [|split].
  - intros Hnz. now apply (eigfun_returns L check_eigenvectors p n).
  - intros invert res Hres.
    exact (eigfun_finite_columns L check_eigenvectors invert p n res Hlen HV Hsq Hres).
  - intros i Hi Hz Ht. now apply (eigfun_zero_trace L check_eigenvectors p n i).
Qed.
End EigfunSteadyState.

(** Sample eigensolvers: the eigenvalue 0 of the 1x1 zero matrix with the
    eigenvector [2], and the zero 4x4 matrix with the identity as
    eigenvectors; no rounding is needed and the order is kept.  The sample
    pseudo-inverse is only applied to the 1x1 array [[1]], which is its own
    pseudo-inverse. *)
Definition eig_one_by_one (L : Mat) : Vec * Mat := ([0%C], [[RtoC 2]]).
Definition eig_zero_four (L : Mat) : Vec * Mat := (repeat 0%C 4, eye 4).
Definition round_exact (x : C) : C := x.
Definition argsort_sorted (v : Vec) : list nat := seq 0 (length v).
Definition pinv_sample (M : Mat) : Mat := M.

Lemma sorted_eig_one_by_one :
  sorted_eig eig_one_by_one round_exact argsort_sorted [[0%C]] = ([0%C], [[RtoC 2]]).
Proof. reflexivity. Qed.

Lemma sorted_eig_zero_four :
  sorted_eig eig_zero_four round_exact argsort_sorted (zeros 4 4) = (repeat 0%C 4, eye 4).
Proof. reflexivity. Qed.

Lemma trace_norm_one_by_one (p : bool) :
  trace_norm p 1 (sign_convention [RtoC 2]) <> 0%C.
Proof.
  assert (H2 : trace_norm p 1 [RtoC 2] = RtoC 2).
  { destruct p; cbv -[Rplus Rmult Rminus Ropp IZR]; apply C_eq; simpl; lra. }
  destruct (trace_norm_sign_convention p 1 [RtoC 2] eq_refl (fun _ => eq_refl)) as [E|E];
    rewrite E, H2; intros H; apply (f_equal fst) in H; simpl in H; lra.
Qed.

Lemma eigfun_normalises_steady_state_witness :
  exists res,
    eigfun eig_one_by_one round_exact argsort_sorted pinv_sample [[0%C]] true true false
    = Ok (Finite res) /\
    trace_norm false 1 (column (eigvecs_of res) 0) = 1%C.
Proof.
  destruct (eigfun_normalises_steady_state eig_one_by_one round_exact argsort_sorted
              pinv_sample [[0%C]] true false 1) as (Hret & Hcols & _).
  - reflexivity.
  - rewrite sorted_eig_one_by_one. split; [reflexivity|repeat constructor].
  - reflexivity.
  - destruct Hret as (res & Hres).
    + intros i Hi _. rewrite sorted_eig_one_by_one.
      replace i with 0 by lia. apply trace_norm_one_by_one.
    + exists res. split; [exact Hres|].
      destruct (Hcols true res Hres) as (_ & Hc).
      destruct (Hc 0 ltac:(lia)) as [Hz _].
      destruct Hz as (_ & _ & H1); [reflexivity|exact H1].
Defined.

(** C8 fails as stated when the eigenvector of a zero eigenvalue has trace 0:
    for the zero 4x4 block with the identity as eigenvectors, the eigenvector
    of index 1 reshapes to a 2x2 matrix of trace 0, and its division by that
    trace gives no eigenvector of trace 1: the call raises in
    [np.linalg.pinv], and with [invert = False] it returns arrays that are
    not finite. *)
Lemma eigfun_traceless_steady_state :
  nth 1 (fst (sorted_eig eig_zero_four round_exact argsort_sorted (zeros 4 4))) 0%C = 0%C /\
  trace_norm false 4 (column (eye 4) 1) = 0%C /\
  (forall pinv check_eigenvectors,
     eigfun eig_zero_four round_exact argsort_sorted pinv (zeros 4 4)
            check_eigenvectors true false = Raise LinAlgError) /\
  (forall pinv check_eigenvectors,
     eigfun eig_zero_four round_exact argsort_sorted pinv (zeros 4 4)
            check_eigenvectors false false = Ok NotFinite) /\
  (forall pinv check_eigenvectors invert res,
     eigfun eig_zero_four round_exact argsort_sorted pinv (zeros 4 4)
            check_eigenvectors invert false <> Ok (Finite res)).
Proof.
  assert (Ht : trace_norm false 4 (column (eye 4) 1) = 0%C).
  { cbv -[Rplus Rmult Rminus Ropp IZR]. apply C_eq; simpl; lra. }
  assert (Hts : trace_norm false 4 (sign_convention (column (eye 4) 1)) = 0%C).
  { destruct (trace_norm_sign_convention false 4 (column (eye 4) 1) eq_refl
                (fun _ => eq_refl)) as [E|E]; rewrite E, Ht; [reflexivity|lca]. }
  assert (H : forall pinv c,
             eigfun eig_zero_four round_exact argsort_sorted pinv (zeros 4 4) c true false
             = Raise LinAlgError /\
             eigfun eig_zero_four round_exact argsort_sorted pinv (zeros 4 4) c false false
             = Ok NotFinite).
  { intros pinv c.
    apply (eigfun_zero_trace eig_zero_four round_exact argsort_sorted pinv (zeros 4 4)
             c false 4 1).
    - reflexivity.
    - rewrite sorted_eig_zero_four. apply (wf_eye 4).
    - reflexivity.
    - lia.
    - reflexivity.
    - rewrite sorted_eig_zero_four. exact Hts. }
  split; [reflexivity|]. split; [exact Ht|].
  split; [intros pinv c; apply H|]. split; [intros pinv c; apply H|].
  intros pinv c invert res Hres. destruct (H pinv c) as [H1 H2].
  destruct invert; congruence.
Qed.

(** ** The electronic Hamiltonian on the occupation basis *)

(** A basis state of [n] sites is the list of its occupations, site 0 first;
    its index in the Kronecker basis reads the list as a binary number. *)
Definition b2n (b : bool) : nat := if b then 1 else 0.
Definition basis_index (s : list bool) : nat :=
  fold_left (fun acc b => 2 * acc + b2n b) s 0.
Definition site (s : list bool) (p : nat) : bool := nth p s false.

(** 1 when the condition holds, else 0 *)
Definition ind (b : bool) : C := if b then 1%C else 0%C.

(** [Cprod f n] is the product of [f 0], ..., [f (n-1)]. *)
Fixpoint Cprod (f : nat -> C) (n : nat) : C :=
  match n with
  | O => 1%C
  | S n' => (Cprod f n' * f n')%C
  end.

Lemma Cprod_ext (f g : nat -> C) (n : nat) :
  (forall i, i < n -> f i = g i) -> Cprod f n = Cprod g n.
Proof.
  induction n as [|n IH]; intros H; simpl; [reflexivity|].
  rewrite IH by (intros; apply H; lia). rewrite H by lia. reflexivity.
Qed.

Lemma Cprod_ind (t : nat -> bool) (n : nat) :
  Cprod (fun p => ind (t p)) n = ind (forallb t (seq 0 n)).
Proof.
  induction n as [|n IH]; [reflexivity|].
  rewrite seq_S, forallb_app. cbn [Cprod]. rewrite IH. simpl.
  rewrite andb_true_r.
  destruct (forallb t (seq 0 n)), (t n); simpl; ring.
Qed.

Lemma basis_index_snoc (s : list bool) (x : bool) :
  basis_index (s ++ [x]) = basis_index s * 2 + b2n x.
Proof. unfold basis_index. rewrite fold_left_app. cbn [fold_left]. lia. Qed.

Lemma basis_index_lt (s : list bool) : basis_index s < 2 ^ length s.
Proof.
  induction s as [|x s IH] using rev_ind; [unfold basis_index; simpl; lia|].
  rewrite basis_index_snoc, length_app. simpl length.
  replace (length s + 1) with (S (length s)) by lia. rewrite Nat.pow_succ_r'.
  destruct x; simpl; lia.
Qed.

Lemma list_snoc_inv {A : Type} (l : list A) (k : nat) :
  length l = S k -> exists l0 x, l = l0 ++ [x] /\ length l0 = k.
Proof.
  intros H. destruct l as [|y l] using rev_ind; [discriminate|].
  exists l, y. split; [reflexivity|]. rewrite length_app in H. simpl in H. lia.
Qed.

Lemma kron_left_to_right_snoc (Ms : list Mat) (M : Mat) :
  Ms <> [] -> kron_left_to_right (Ms ++ [M]) = kron (kron_left_to_right Ms) M.
Proof.
  destruct Ms as [|M0 Ms]; [congruence|]. intros _. simpl.
  now rewrite fold_left_app.
Qed.

Definition wf22 (M : Mat) : Prop := wf_mat 2 2 M.

(** The entry of a Kronecker chain of 2x2 factors between two basis states
    is the product over the sites of the entries of the factors. *)
Lemma entry_kron_chain (Ms : list Mat) :
  Ms <> [] -> Forall wf22 Ms ->
  wf_mat (2 ^ length Ms) (2 ^ length Ms) (kron_left_to_right Ms) /\
  forall s s' : list bool,
    length s = length Ms -> length s' = length Ms ->
    entry (kron_left_to_right Ms) (basis_index s') (basis_index s) =
    Cprod (fun p => entry (nth p Ms []) (b2n (site s' p)) (b2n (site s p))) (length Ms).
Proof.
  induction Ms as [|M Ms IH] using rev_ind; [congruence|]. intros _ Hall.
  apply Forall_app in Hall as [HMs HM]. apply Forall_cons in HM as [HM _].
  assert (Hcase : Ms = [] \/ Ms <> []) by (destruct Ms; [now left|now right]).
  destruct Hcase as [->|Hne].
  - simpl. split; [exact HM|].
    intros [|x [|? ?]] [|x' [|? ?]] Hs Hs'; try discriminate.
    unfold basis_index, site. simpl. ring.
  - destruct (IH Hne HMs) as [Hwf Hent].
    rewrite kron_left_to_right_snoc by assumption.
    rewrite length_app. simpl length.
    replace (length Ms + 1) with (S (length Ms)) by lia.
    split.
    + replace (2 ^ S (length Ms)) with (2 ^ length Ms * 2) by (simpl; lia).
      now apply wf_kron.
    + intros s s' Hs Hs'.
      destruct (list_snoc_inv s _ Hs) as (s0 & x & -> & Hs0).
      destruct (list_snoc_inv s' _ Hs') as (s0' & x' & -> & Hs0').
      rewrite !basis_index_snoc.
      rewrite (entry_kron (2 ^ length Ms) (2 ^ length Ms) 2 2);
        try assumption;
        try (rewrite <- Hs0; apply basis_index_lt);
        try (rewrite <- Hs0'; apply basis_index_lt);
        try (destruct x; simpl; lia); try (destruct x'; simpl; lia).
      rewrite Hent by assumption. simpl. f_equal.
      * apply Cprod_ext. intros p Hp. unfold site.
        now rewrite !app_nth1 by lia.
      * unfold site. rewrite !app_nth2 by lia.
        rewrite Hs0, Hs0', !Nat.sub_diag. reflexivity.
Qed.

(** *** The operator lists *)

Lemma for_each_Ok {A B : Type} (f : A -> result B) (g : A -> B) (l : list A) :
  (forall x, In x l -> f x = Ok (g x)) -> for_each f l = Ok (map g l).
Proof.
  induction l as [|x l IH]; intros H; simpl; [reflexivity|].
  rewrite (H x) by now left. simpl.
  rewrite IH by (intros y Hy; apply H; now right). reflexivity.
Qed.

(** The full-space operator with [O] on site [i], and the one with [A] on
    site [i] and [B] on site [j], identities elsewhere. *)
Definition single_site_operator (n : nat) (O : Mat) (i : nat) : Mat :=
  kron_left_to_right (map (fun p => if Nat.eqb i p then O else ii) (seq 0 n)).

Definition two_site_operator (n : nat) (A B : Mat) (i j : nat) : Mat :=
  kron_left_to_right
    (map (fun p => if Nat.eqb j p then B else if Nat.eqb i p then A else ii) (seq 0 n)).

(** The pairs [(i,j)] with [i < j < n] in lexicographic order. *)
Definition lex_pairs (n : nat) : list (nat * nat) :=
  flat_map (fun i => map (pair i) (seq (S i) (n - S i))) (seq 0 n).

Lemma norm_index_of_nat (n i : nat) : norm_index n (Z.of_nat i) = i.
Proof.
  unfold norm_index. destruct (Z.leb_spec 0 (Z.of_nat i)); [apply Nat2Z.id|lia].
Qed.

Lemma make_single_operator_list_value (n : nat) (O : Mat) :
  make_single_operator_list n O = Ok (map (single_site_operator n O) (seq 0 n)).
Proof.
  unfold make_single_operator_list. apply for_each_Ok.
  intros i Hi. apply in_seq in Hi.
  rewrite electronic_identity_kron_ok.
  - unfold single_site_operator. do 2 f_equal.
    apply map_ext. intros p. unfold factor_at. simpl.
    now rewrite norm_index_of_nat.
  - simpl. lia.
  - lia.
  - repeat constructor; unfold valid_index; simpl; lia.
Qed.

Lemma in_lex_pairs (n i j : nat) : In (i, j) (lex_pairs n) <-> i < j < n.
Proof.
  unfold lex_pairs. rewrite in_flat_map. split.
  - intros (a & Ha & H). apply in_map_iff in H as (b & Heq & Hb).
    injection Heq as <- <-. apply in_seq in Ha, Hb. lia.
  - intros H. exists i. split; [apply in_seq; lia|].
    apply in_map_iff. exists j. split; [reflexivity|apply in_seq; lia].
Qed.

Lemma combinations_1 {A : Type} (l : list A) : combinations l 1 = map (fun x => [x]) l.
Proof.
  induction l as [|x l IH]; [reflexivity|].
  simpl. rewrite IH. now destruct l.
Qed.

Lemma combinations_2_seq (a n : nat) :
  combinations (seq a n) 2 =
  flat_map (fun i => map (fun j => [i; j]) (seq (S i) (a + n - S i))) (seq a n).
Proof.
  revert a. induction n as [|n IH]; intros a; [reflexivity|].
  cbn [seq combinations flat_map]. rewrite combinations_1, map_map, IH.
  replace (a + S n - S a) with n by lia. f_equal.
  apply flat_map_ext. intros i. now replace (S a + n - S i) with (a + S n - S i) by lia.
Qed.

(** [itertools.combinations(range(n),2)] enumerates the pairs in
    lexicographic order. *)
Lemma combinations_2_range (n : nat) :
  combinations (seq 0 n) 2 = map (fun ij => [fst ij; snd ij]) (lex_pairs n).
Proof.
  rewrite combinations_2_seq. unfold lex_pairs.
  rewrite !flat_map_concat_map, concat_map, map_map. f_equal.
  apply map_ext. intros i. now rewrite map_map.
Qed.

Lemma make_multi_operator_list_exchange (n : nat) :
  make_multi_operator_list n [up; down] =
  Ok (map (fun ij => two_site_operator n up down (fst ij) (snd ij)) (lex_pairs n)).
Proof.
  unfold make_multi_operator_list. simpl length. rewrite combinations_2_range.
  rewrite (for_each_Ok _ (fun pos_tuple =>
             two_site_operator n up down (nth 0 pos_tuple 0) (nth 1 pos_tuple 0))).
  - now rewrite map_map.
  - intros pos Hpos. apply in_map_iff in Hpos as ([i j] & <- & Hij).
    apply in_lex_pairs in Hij. simpl.
    rewrite electronic_identity_kron_ok.
    + unfold two_site_operator. do 2 f_equal.
      apply map_ext. intros p. unfold factor_at. simpl.
      now rewrite !norm_index_of_nat.
    + simpl. lia.
    + lia.
    + repeat constructor; unfold valid_index; simpl; lia.
Qed.

(** *** Entries on the occupation basis *)

Lemma wf22_ii : wf22 ii.
Proof. apply (wf_eye 2). Qed.

Lemma wf22_cases (O : Mat) : O = up \/ O = down \/ O = occupied \/ O = ii -> wf22 O.
Proof.
  intros [-> | [-> | [-> | ->]]]; try apply wf22_ii;
    (split; [reflexivity|repeat constructor]).
Qed.

Lemma entry_factor_chain (n : nat) (f : nat -> Mat) :
  1 <= n -> (forall p, wf22 (f p)) ->
  wf_mat (2 ^ n) (2 ^ n) (kron_left_to_right (map f (seq 0 n))) /\
  forall s s' : list bool,
    length s = n -> length s' = n ->
    entry (kron_left_to_right (map f (seq 0 n))) (basis_index s') (basis_index s) =
    Cprod (fun p => entry (f p) (b2n (site s' p)) (b2n (site s p))) n.
Proof.
  intros Hn Hf.
  assert (Hlen : length (map f (seq 0 n)) = n) by now rewrite length_map, length_seq.
  destruct (entry_kron_chain (map f (seq 0 n))) as [Hwf Hent].
  - destruct n; [lia|]. discriminate.
  - apply List.Forall_forall. intros M HM. apply in_map_iff in HM as (p & <- & _).
    apply Hf.
  - rewrite Hlen in Hwf, Hent. split; [exact Hwf|].
    intros s s' Hs Hs'. rewrite Hent by assumption.
    apply Cprod_ext. intros p Hp. now rewrite nth_map_seq.
Qed.

Lemma entry_ii_bits (x' x : bool) : entry ii (b2n x') (b2n x) = ind (Bool.eqb x' x).
Proof. destruct x', x; reflexivity. Qed.

Lemma entry_occupied_bits (x' x : bool) : entry occupied (b2n x') (b2n x) = ind (x' && x).
Proof. destruct x', x; reflexivity. Qed.

(** [up] takes an empty site to an occupied one, [down] an occupied site to
    an empty one (the column is the state before, the row the state after). *)
Lemma entry_up_bits (x' x : bool) : entry up (b2n x') (b2n x) = ind (x' && negb x).
Proof. destruct x', x; reflexivity. Qed.

Lemma entry_down_bits (x' x : bool) : entry down (b2n x') (b2n x) = ind (negb x' && x).
Proof. destruct x', x; reflexivity. Qed.

(** [s'] is [s] with the empty site [i] occupied and the occupied site [j]
    emptied: site [i] is raised, site [j] lowered. *)
Definition raised_lowered (i j : nat) (s s' : list bool) : bool :=
  negb (site s i) && site s j && bool_decide (s' = <[j := false]> (<[i := true]> s)).

(** the site [i] is occupied and the state is unchanged *)
Definition occupied_unchanged (i : nat) (s s' : list bool) : bool :=
  site s i && bool_decide (s' = s).

Lemma bits_ext (n : nat) (s s' : list bool) :
  length s = n -> length s' = n ->
  (forall p, p < n -> site s' p = site s p) -> s' = s.
Proof.
  intros Hs Hs' H. apply (nth_ext _ _ false false); [lia|].
  intros p Hp. apply H. lia.
Qed.

Lemma forallb_occupied (n i : nat) (s s' : list bool) :
  i < n -> length s = n -> length s' = n ->
  forallb (fun p => if Nat.eqb i p then site s' p && site s p
                    else Bool.eqb (site s' p) (site s p)) (seq 0 n)
  = occupied_unchanged i s s'.
Proof.
  intros Hi Hs Hs'. unfold occupied_unchanged. apply eq_true_iff_eq.
  rewrite forallb_forall, andb_true_iff, bool_decide_eq_true. split.
  - intros H.
    assert (Hi' := H i ltac:(apply in_seq; lia)). rewrite Nat.eqb_refl in Hi'.
    apply andb_true_iff in Hi' as [Hi1 Hi2]. split; [exact Hi2|].
    apply (bits_ext n); try assumption. intros p Hp.
    specialize (H p ltac:(apply in_seq; lia)).
    destruct (Nat.eqb_spec i p) as [E|E]; [subst p; congruence|].
    now apply eqb_prop.
  - intros [Hocc ->] p Hp. destruct (Nat.eqb_spec i p) as [E|E].
    + subst p. now rewrite Hocc.
    + apply eqb_reflx.
Qed.

Lemma site_raised_lowered (n i j : nat) (s : list bool) (p : nat) :
  i < n -> j < n -> length s = n ->
  site (<[j := false]> (<[i := true]> s)) p =
  if Nat.eqb j p then false else if Nat.eqb i p then true else site s p.
Proof.
  intros Hi Hj Hs. unfold site.
  rewrite nth_list_insert by (rewrite length_insert; lia).
  destruct (Nat.eqb j p); [reflexivity|].
  now rewrite nth_list_insert by lia.
Qed.

Lemma forallb_exchange (n i j : nat) (s s' : list bool) :
  i < n -> j < n -> i <> j -> length s = n -> length s' = n ->
  forallb (fun p => if Nat.eqb j p then negb (site s' p) && site s p
                    else if Nat.eqb i p then site s' p && negb (site s p)
                    else Bool.eqb (site s' p) (site s p)) (seq 0 n)
  = raised_lowered i j s s'.
Proof.
  intros Hi Hj Hij Hs Hs'. unfold raised_lowered. apply eq_true_iff_eq.
  rewrite forallb_forall, !andb_true_iff, bool_decide_eq_true. split.
  - intros H.
    assert (Hi' := H i ltac:(apply in_seq; lia)).
    assert (Hj' := H j ltac:(apply in_seq; lia)).
    rewrite Nat.eqb_refl in Hj'.
    destruct (Nat.eqb_spec j i) as [?|_]; [lia|]. rewrite Nat.eqb_refl in Hi'.
    apply andb_true_iff in Hi' as [Hi1 Hi2], Hj' as [Hj1 Hj2].
    split; [split; assumption|].
    apply (bits_ext n); try assumption; [now rewrite !length_insert|].
    intros p Hp. rewrite (site_raised_lowered n) by assumption.
    specialize (H p ltac:(apply in_seq; lia)).
    destruct (Nat.eqb_spec j p) as [E|E].
    + subst p. now apply negb_true_iff in Hj1.
    + destruct (Nat.eqb_spec i p) as [E'|E']; [subst p; assumption|].
      now apply eqb_prop.
  - intros [[Hi1 Hj1] ->] p Hp. rewrite (site_raised_lowered n) by assumption.
    destruct (Nat.eqb_spec j p) as [E|E]; [subst p; now rewrite Hj1|].
    destruct (Nat.eqb_spec i p) as [E'|E']; [subst p; now rewrite Hi1|].
    apply eqb_reflx.
Qed.

(** The number operator of site [i] and the exchange operator of the pair
    [(i,j)] between two basis states. *)
Lemma single_site_occupied_entry (n i : nat) (s s' : list bool) :
  i < n -> length s = n -> length s' = n ->
  entry (single_site_operator n occupied i) (basis_index s') (basis_index s) =
  ind (occupied_unchanged i s s').
Proof.
  intros Hi Hs Hs'. unfold single_site_operator.
  destruct (entry_factor_chain n (fun p => if Nat.eqb i p then occupied else ii))
    as [_ Hent]; [lia| |].
  - intros p. apply wf22_cases. destruct (Nat.eqb i p); auto.
  - rewrite Hent by assumption.
    rewrite <- (forallb_occupied n) by assumption. rewrite <- Cprod_ind.
    apply Cprod_ext. intros p Hp.
    destruct (Nat.eqb i p); [apply entry_occupied_bits|apply entry_ii_bits].
Qed.

Lemma two_site_exchange_entry (n i j : nat) (s s' : list bool) :
  i < n -> j < n -> i <> j -> length s = n -> length s' = n ->
  entry (two_site_operator n up down i j) (basis_index s') (basis_index s) =
  ind (raised_lowered i j s s').
Proof.
  intros Hi Hj Hij Hs Hs'. unfold two_site_operator.
  destruct (entry_factor_chain n
              (fun p => if Nat.eqb j p then down else if Nat.eqb i p then up else ii))
    as [_ Hent]; [lia| |].
  - intros p. apply wf22_cases. destruct (Nat.eqb j p), (Nat.eqb i p); auto.
  - rewrite Hent by assumption.
    rewrite <- (forallb_exchange n) by assumption. rewrite <- Cprod_ind.
    apply Cprod_ext. intros p Hp.
    destruct (Nat.eqb j p); [apply entry_down_bits|].
    destruct (Nat.eqb i p); [apply entry_up_bits|apply entry_ii_bits].
Qed.

(** *** The two loops of [make_electronic_hamiltonian] *)

Lemma py_getitem_lt {A : Type} (l : list A) (i : nat) (d : A) :
  i < length l -> py_getitem l i = Ok (nth i l d).
Proof.
  intros Hi. unfold py_getitem. rewrite (nth_lookup l i d).
  destruct (l !! i) eqn:E; [reflexivity|].
  apply lookup_ge_None in E. lia.
Qed.

Lemma energies_loop_value (energies : list R) (occupied_list : list Mat)
      (start len : nat) (ham : Mat) :
  start + len <= length energies -> start + len <= length occupied_list ->
  fold_left (fun acc i =>
               ham ← acc;
               e ← py_getitem energies i;
               o ← py_getitem occupied_list i;
               Ok (mat_add ham (mat_scale (RtoC e) o)))
            (seq start len) (Ok ham) =
  Ok (fold_left (fun ham i =>
                   mat_add ham (mat_scale (RtoC (nth i energies 0%R))
                                          (nth i occupied_list [])))
                (seq start len) ham).
Proof.
  revert start ham. induction len as [|len IH]; intros start ham He Ho; [reflexivity|].
  cbn [seq fold_left].
  rewrite (py_getitem_lt energies start 0%R), (py_getitem_lt occupied_list start [])
    by lia.
  simpl. apply IH; lia.
Qed.

Lemma Cconj_number_value (x : py_number) :
  number_value (py_conjugate x) = Cconj (number_value x).
Proof. destruct x; [cring|reflexivity]. Qed.

(** With real couplings the loop adds the two exchange terms of every pair. *)
Lemma couplings_loop_value (couplings : list py_number) (exchange_list : list Mat)
      (start len : nat) (ham : Mat) :
  start + len <= length couplings -> start + len <= length exchange_list ->
  (forall i, start <= i < start + len -> is_real (nth i couplings (PyFloat 0)) = true) ->
  fold_left (fun acc i =>
               ham ← acc;
               J ← py_getitem couplings i;
               X ← py_getitem exchange_list i;
               ham ← iadd_scaled ham J X;
               iadd_scaled ham (py_conjugate J) (mat_T X))
            (seq start len) (Ok ham) =
  Ok (fold_left (fun ham i =>
                   mat_add (mat_add ham (mat_scale (coupling couplings i)
                                                   (nth i exchange_list [])))
                           (mat_scale (Cconj (coupling couplings i))
                                      (mat_T (nth i exchange_list []))))
                (seq start len) ham).
Proof.
  revert start ham.
  induction len as [|len IH]; intros start ham He Ho Hreal; [reflexivity|].
  cbn [seq fold_left].
  rewrite (py_getitem_lt couplings start (PyFloat 0)),
    (py_getitem_lt exchange_list start []) by lia.
  cbn [mbind result_bind].
  assert (Hs := Hreal start ltac:(lia)).
  destruct (nth start couplings (PyFloat 0)) as [x|z] eqn:E; [|discriminate Hs].
  assert (Hc : coupling couplings start = RtoC x) by (unfold coupling; now rewrite E).
  assert (Hconj : Cconj (RtoC x) = RtoC x) by cring.
  rewrite Hc, Hconj.
  cbn [iadd_scaled py_conjugate mbind result_bind].
  apply IH; try lia. intros i Hi. apply Hreal. lia.
Qed.

(** The first complex coupling stops the loop: the addition in place cannot
    cast the complex product to the type of [ham]. *)
Lemma couplings_loop_raises (couplings : list py_number) (exchange_list : list Mat)
      (start len k : nat) (ham : Mat) :
  start + len <= length couplings -> start + len <= length exchange_list ->
  start <= k < start + len -> is_real (nth k couplings (PyFloat 0)) = false ->
  fold_left (fun acc i =>
               ham ← acc;
               J ← py_getitem couplings i;
               X ← py_getitem exchange_list i;
               ham ← iadd_scaled ham J X;
               iadd_scaled ham (py_conjugate J) (mat_T X))
            (seq start len) (Ok ham) = Raise UFuncTypeError.
Proof.
  revert start ham.
  induction len as [|len IH]; intros start ham He Ho Hk Hcomplex; [lia|].
  cbn [seq fold_left].
  rewrite (py_getitem_lt couplings start (PyFloat 0)),
    (py_getitem_lt exchange_list start []) by lia.
  cbn [mbind result_bind].
  destruct (nth start couplings (PyFloat 0)) as [x|z] eqn:E.
  - cbn [iadd_scaled py_conjugate mbind result_bind].
    apply IH; try lia; [|exact Hcomplex].
    destruct (Nat.eq_dec k start) as [->|Hne]; [|lia].
    rewrite E in Hcomplex. discriminate Hcomplex.
  - cbn [iadd_scaled mbind result_bind]. apply fold_result_raise. reflexivity.
Qed.

(** The entries of a matrix accumulated by [ham += term(i)]. *)
Lemma entry_accumulate (r c : nat) (step : Mat -> nat -> Mat) (f : nat -> C)
      (a b start len : nat) (ham : Mat) :
  (forall M i, wf_mat r c M -> start <= i < start + len ->
     wf_mat r c (step M i) /\ entry (step M i) a b = (entry M a b + f i)%C) ->
  wf_mat r c ham ->
  wf_mat r c (fold_left step (seq start len) ham) /\
  entry (fold_left step (seq start len) ham) a b =
  (entry ham a b + Csum (fun k => f (start + k)%nat) len)%C.
Proof.
  intros Hstep. induction len as [|len IH]; intros Hham.
  - simpl. split; [assumption|ring].
  - rewrite seq_S, fold_left_app. cbn [fold_left Csum].
    destruct IH as [IHwf IHent]; [|assumption|].
    + intros M i HM Hi. apply Hstep; [assumption|lia].
    + destruct (Hstep (fold_left step (seq start len) ham) (start + len) IHwf
                  ltac:(lia)) as [Hwf Hent].
      split; [exact Hwf|]. rewrite Hent, IHent. ring.
Qed.

(** The [k]-th pair of sites in lexicographic order. *)
Definition pair_at (n k : nat) : nat * nat := nth k (lex_pairs n) (0, 0).

Section ElectronicHamiltonian.
Variable energies : list R.
Variable couplings : list py_number.

Let n : nat := length energies.
Let OL : list Mat := map (single_site_operator n occupied) (seq 0 n).
Let XL : list Mat :=
  map (fun ij => two_site_operator n up down (fst ij) (snd ij)) (lex_pairs n).
Let m : nat := length (lex_pairs n).

Hypothesis Hn : 1 <= n.
Hypothesis Hcouplings : m <= length couplings.
Hypothesis Hreal : forall k, k < m -> is_real (nth k couplings (PyFloat 0)) = true.

Lemma pow2_pos : 0 < 2 ^ n.
Proof. apply Nat.neq_0_lt_0. apply Nat.pow_nonzero. lia. Qed.

Lemma nth_OL (i : nat) : i < n -> nth i OL [] = single_site_operator n occupied i.
Proof. intros Hi. unfold OL. now rewrite nth_map_seq. Qed.

Lemma nth_XL (k : nat) :
  k < m ->
  nth k XL [] = two_site_operator n up down (fst (pair_at n k))
                                  (snd (pair_at n k)) /\
  fst (pair_at n k) < snd (pair_at n k) < n.
Proof.
  intros Hk. unfold XL. rewrite (nth_map_lt _ (lex_pairs n) k [] (0, 0)) by exact Hk.
  split; [reflexivity|].
  apply in_lex_pairs. rewrite <- surjective_pairing. now apply nth_In.
Qed.

Lemma wf_OL (i : nat) : i < n -> wf_mat (2 ^ n) (2 ^ n) (nth i OL []).
Proof.
  intros Hi. rewrite nth_OL by assumption. unfold single_site_operator.
  apply entry_factor_chain; [exact Hn|].
  intros p. apply wf22_cases. destruct (Nat.eqb i p); auto.
Qed.

Lemma wf_XL (k : nat) : k < m -> wf_mat (2 ^ n) (2 ^ n) (nth k XL []).
Proof.
  intros Hk. destruct (nth_XL k Hk) as [-> _]. unfold two_site_operator.
  apply entry_factor_chain; [exact Hn|].
  intros p. apply wf22_cases.
  destruct (Nat.eqb (snd (pair_at n k)) p),
           (Nat.eqb (fst (pair_at n k)) p); auto.
Qed.

(** The Hamiltonian that the two loops accumulate. *)
Let H0 : Mat := mat_scale (RtoC (nth 0 energies 0%R)) (nth 0 OL []).
Let H1 : Mat :=
  fold_left (fun ham i =>
               mat_add ham (mat_scale (RtoC (nth i energies 0%R)) (nth i OL [])))
            (seq 1 (n - 1)) H0.
Let H2 : Mat :=
  fold_left (fun ham i =>
               mat_add (mat_add ham (mat_scale (coupling couplings i) (nth i XL [])))
                       (mat_scale (Cconj (coupling couplings i)) (mat_T (nth i XL []))))
            (seq 0 m) H1.

Lemma make_electronic_hamiltonian_value :
  make_electronic_hamiltonian n energies couplings OL XL = Ok H2.
Proof.
  unfold make_electronic_hamiltonian.
  assert (HlenOL : length OL = n) by (unfold OL; now rewrite length_map, length_seq).
  assert (HlenXL : length XL = m) by (unfold XL; now rewrite length_map).
  rewrite (py_getitem_lt energies 0 0%R) by (fold n; lia).
  rewrite (py_getitem_lt OL 0 []) by lia.
  cbn [mbind result_bind].
  rewrite energies_loop_value by (fold n; lia).
  cbn [mbind result_bind]. rewrite HlenXL.
  rewrite couplings_loop_value; [reflexivity|lia|lia|].
  intros i Hi. apply Hreal. lia.
Qed.

Lemma make_electronic_hamiltonian_raises (k : nat) :
  k < m -> is_real (nth k couplings (PyFloat 0)) = false ->
  make_electronic_hamiltonian n energies couplings OL XL = Raise UFuncTypeError.
Proof.
  intros Hk Hcomplex. unfold make_electronic_hamiltonian.
  assert (HlenOL : length OL = n) by (unfold OL; now rewrite length_map, length_seq).
  assert (HlenXL : length XL = m) by (unfold XL; now rewrite length_map).
  rewrite (py_getitem_lt energies 0 0%R) by (fold n; lia).
  rewrite (py_getitem_lt OL 0 []) by lia.
  cbn [mbind result_bind].
  rewrite energies_loop_value by (fold n; lia).
  cbn [mbind result_bind]. rewrite HlenXL.
  apply (couplings_loop_raises couplings XL 0 m k); try lia. exact Hcomplex.
Qed.

Lemma H0_H1_entries (a b : nat) :
  a < 2 ^ n -> b < 2 ^ n ->
  wf_mat (2 ^ n) (2 ^ n) H1 /\
  entry H1 a b =
  Csum (fun i => (RtoC (nth i energies 0%R) * entry (nth i OL []) a b)%C) n.
Proof.
  intros Ha Hb.
  assert (HwfH0 : wf_mat (2 ^ n) (2 ^ n) H0).
  { unfold H0. apply wf_map_map. apply wf_OL. lia. }
  destruct (entry_accumulate (2 ^ n) (2 ^ n)
              (fun ham i => mat_add ham (mat_scale (RtoC (nth i energies 0%R))
                                                   (nth i OL [])))
              (fun i => (RtoC (nth i energies 0%R) * entry (nth i OL []) a b)%C)
              a b 1 (n - 1) H0) as [Hwf Hent].
  - intros M i HM Hi.
    assert (HwfT : wf_mat (2 ^ n) (2 ^ n)
                     (mat_scale (RtoC (nth i energies 0%R)) (nth i OL []))).
    { apply wf_map_map. apply wf_OL. lia. }
    split; [now apply wf_mat_add|].
    rewrite (entry_add (2 ^ n) (2 ^ n)) by assumption. now rewrite entry_scale.
  - exact HwfH0.
  - split; [exact Hwf|]. fold H1 in Hent. rewrite Hent.
    rewrite <- (Nat.sub_add 1 n Hn) at 2. rewrite (Nat.add_comm (n - 1) 1), Csum_app.
    simpl. unfold H0. rewrite entry_scale. ring.
Qed.

Lemma H2_entries (a b : nat) :
  a < 2 ^ n -> b < 2 ^ n ->
  wf_mat (2 ^ n) (2 ^ n) H2 /\
  entry H2 a b =
  (Csum (fun i => RtoC (nth i energies 0%R) * entry (nth i OL []) a b) n +
   Csum (fun k => coupling couplings k * entry (nth k XL []) a b +
                  Cconj (coupling couplings k) * entry (nth k XL []) b a) m)%C.
Proof.
  intros Ha Hb. destruct (H0_H1_entries a b Ha Hb) as [HwfH1 HentH1].
  destruct (entry_accumulate (2 ^ n) (2 ^ n)
              (fun ham i =>
                 mat_add (mat_add ham (mat_scale (coupling couplings i) (nth i XL [])))
                         (mat_scale (Cconj (coupling couplings i)) (mat_T (nth i XL []))))
              (fun k => (coupling couplings k * entry (nth k XL []) a b +
                         Cconj (coupling couplings k) * entry (nth k XL []) b a)%C)
              a b 0 m H1) as [Hwf Hent].
  - intros M i HM Hi.
    assert (HX : wf_mat (2 ^ n) (2 ^ n) (nth i XL [])) by (apply wf_XL; lia).
    assert (HT : wf_mat (2 ^ n) (2 ^ n) (mat_T (nth i XL [])))
      by (apply wf_mat_T; [assumption|apply pow2_pos]).
    assert (H1' : wf_mat (2 ^ n) (2 ^ n)
                    (mat_add M (mat_scale (coupling couplings i) (nth i XL []))))
      by (apply wf_mat_add; [assumption|now apply wf_map_map]).
    split; [apply wf_mat_add; [assumption|now apply wf_map_map]|].
    rewrite (entry_add (2 ^ n) (2 ^ n)); try assumption; [|now apply wf_map_map].
    rewrite (entry_add (2 ^ n) (2 ^ n)); try assumption; [|now apply wf_map_map].
    rewrite !entry_scale, (entry_T (2 ^ n) (2 ^ n)) by assumption. ring.
  - exact HwfH1.
  - split; [exact Hwf|]. fold H2 in Hent. rewrite Hent, HentH1. reflexivity.
Qed.

(** The Hamiltonian between two basis states. *)
Lemma electronic_hamiltonian_entries :
  exists H : Mat,
    make_single_operator_list n occupied = Ok OL /\
    make_multi_operator_list n [up; down] = Ok XL /\
    make_electronic_hamiltonian n energies couplings OL XL = Ok H /\
    wf_mat (2 ^ n) (2 ^ n) H /\
    (forall k s s',
       k < m -> length s = n -> length s' = n ->
       entry (nth k XL []) (basis_index s') (basis_index s) =
       ind (raised_lowered (fst (pair_at n k))
                           (snd (pair_at n k)) s s')) /\
    (forall s s',
       length s = n -> length s' = n ->
       entry H (basis_index s') (basis_index s) =
       (Csum (fun i => RtoC (nth i energies 0%R) * ind (occupied_unchanged i s s')) n +
        Csum (fun k =>
                coupling couplings k *
                ind (raised_lowered (fst (pair_at n k))
                                    (snd (pair_at n k)) s s') +
                Cconj (coupling couplings k) *
                ind (raised_lowered (fst (pair_at n k))
                                    (snd (pair_at n k)) s' s)) m)%C).
Proof.
  assert (HX : forall k s s',
             k < m -> length s = n -> length s' = n ->
             entry (nth k XL []) (basis_index s') (basis_index s) =
             ind (raised_lowered (fst (pair_at n k))
                                 (snd (pair_at n k)) s s')).
  { intros k s s' Hk Hs Hs'. destruct (nth_XL k Hk) as [-> Hij].
    apply two_site_exchange_entry; try assumption; lia. }
  exists H2.
  split; [apply make_single_operator_list_value|].
  split; [apply make_multi_operator_list_exchange|].
  split; [apply make_electronic_hamiltonian_value|].
  split; [apply (H2_entries 0 0); apply pow2_pos|].
  split; [exact HX|].
  intros s s' Hs Hs'.
  assert (Ha : basis_index s' < 2 ^ n) by (rewrite <- Hs'; apply basis_index_lt).
  assert (Hb : basis_index s < 2 ^ n) by (rewrite <- Hs; apply basis_index_lt).
  destruct (H2_entries _ _ Ha Hb) as [_ ->]. f_equal.
  - apply Csum_ext. intros i Hi. rewrite nth_OL by assumption.
    now rewrite single_site_occupied_entry.
  - apply Csum_ext. intros k Hk. now rewrite !HX.
Qed.
End ElectronicHamiltonian.



(** Every index of the Kronecker basis is the index of an occupation list. *)
Lemma basis_index_surjective (n a : nat) :
  a < 2 ^ n -> exists s : list bool, length s = n /\ basis_index s = a.
Proof.
  revert a. induction n as [|n IH]; intros a Ha.
  - exists []. simpl in Ha. split; [reflexivity|]. unfold basis_index. simpl. lia.
  - rewrite Nat.pow_succ_r' in Ha.
    destruct (IH (a / 2)) as (s0 & Hlen & Hidx).
    { apply Nat.Div0.div_lt_upper_bound. lia. }
    exists (s0 ++ [Nat.odd a]). split.
    + rewrite length_app. simpl. lia.
    + rewrite basis_index_snoc, Hidx.
      assert (Hb : b2n (Nat.odd a) = a mod 2).
      { rewrite <- Nat.bit0_mod, Nat.bit0_odd. reflexivity. }
      rewrite Hb. pose proof (Nat.div_mod_eq a 2). lia.
Qed.




(** * Further properties of the code *)

(** ** Detailed-balance weights *)

Lemma boltzmann_ordered_weights (kT E1 E2 : R) :
  let p := boltzmann_factors_ordered_inputs kT E1 E2 in
  (fst p + snd p = 1)%R /\ (0 <= fst p)%R /\ (0 <= snd p)%R.
Proof.
  unfold boltzmann_factors_ordered_inputs.
  destruct (Req_b kT 0); [simpl; lra|].
  destruct (isclose_real _ 0); [simpl; lra|]. simpl.
  assert (H1 := exp_pos (- E1 / kT)). assert (H2 := exp_pos (- E2 / kT)).
  set (a := exp (- E1 / kT)) in *. set (b := exp (- E2 / kT)) in *.
  assert (Hz : (0 < a + b)%R) by lra.
  split; [field; lra|].
  split; apply Rlt_le, Rdiv_lt_0_compat; assumption.
Qed.

(** X1. In exact arithmetic, where [exp] takes every real number to a
    positive real number, [boltzmann_factors] returns two non-negative
    weights that sum to 1, at every temperature and for every pair of
    energies.  (In floating point [exp(-E/kT)] overflows for a large
    [-E/kT]; numpy then returns [nan], which this model does not have.) *)
Theorem boltzmann_factors_are_weights (kT E1 E2 : R) :
  (fst (boltzmann_factors kT E1 E2) + snd (boltzmann_factors kT E1 E2) = 1)%R /\
  (0 <= fst (boltzmann_factors kT E1 E2))%R /\
  (0 <= snd (boltzmann_factors kT E1 E2))%R.
Proof.
  unfold boltzmann_factors.
  destruct (Req_b E1 E2); [simpl; lra|].
  destruct (Rlt_b E1 E2); [apply boltzmann_ordered_weights|].
  pose proof (boltzmann_ordered_weights kT E2 E1) as H. cbv zeta in H.
  destruct (boltzmann_factors_ordered_inputs kT E2 E1) as [a b]. simpl in *. lra.
Qed.

(** X2. Detailed balance, in exact arithmetic (no overflow of [exp]): at a
    positive temperature and away from the guard on the partition function,
    the weight of the upward transition is the weight of the downward one
    times [exp(-(E2-E1)/kT)], and it is the smaller of the two. *)
Theorem boltzmann_factors_detailed_balance (kT E1 E2 : R) :
  (E1 < E2)%R -> (0 < kT)%R ->
  ~ (Rabs (partition_function kT E1 E2) <= 1e-8)%R ->
  (snd (boltzmann_factors kT E1 E2) =
   fst (boltzmann_factors kT E1 E2) * exp (- (E2 - E1) / kT))%R /\
  (snd (boltzmann_factors kT E1 E2) < fst (boltzmann_factors kT E1 E2))%R.
Proof.
  intros Hlt HkT HZ. unfold boltzmann_factors.
  rewrite Req_b_false, Rlt_b_true by lra.
  unfold boltzmann_factors_ordered_inputs. rewrite Req_b_false by lra.
  destruct (isclose_real (exp (- E1 / kT) + exp (- E2 / kT)) 0) eqn:E.
  { apply isclose_real_zero in E. contradiction. }
  simpl.
  assert (H1 := exp_pos (- E1 / kT)). assert (H2 := exp_pos (- E2 / kT)).
  assert (Hsplit : exp (- E2 / kT) = (exp (- E1 / kT) * exp (- (E2 - E1) / kT))%R).
  { rewrite <- exp_plus. f_equal. field. lra. }
  assert (Hinc : (exp (- E2 / kT) < exp (- E1 / kT))%R).
  { apply exp_increasing. unfold Rdiv. apply Rmult_lt_compat_r.
    - now apply Rinv_0_lt_compat.
    - lra. }
  split.
  - rewrite Hsplit at 1. field. lra.
  - unfold Rdiv. apply Rmult_lt_compat_r; [|exact Hinc].
    apply Rinv_0_lt_compat. lra.
Qed.

Lemma boltzmann_factors_detailed_balance_witness :
  (snd (boltzmann_factors 1 0 1) < fst (boltzmann_factors 1 0 1))%R.
Proof.
  apply (boltzmann_factors_detailed_balance 1 0 1); try lra.
  unfold partition_function. intros H.
  assert (H0 : (- (0) / 1 = 0)%R) by lra. rewrite H0, exp_0 in H.
  assert (Hp := exp_pos (- (1) / 1)).
  rewrite Rabs_pos_eq in H by lra. lra.
Defined.

(** ** The Liouvillian of an instruction list *)

Lemma nth_mat_vec_entries (r c : nat) (L : Mat) (v : Vec) (i : nat) :
  wf_mat r c L -> length v = c -> i < r ->
  nth i (mat_vec L v) 0%C = Csum (fun j => (entry L i j * nth j v 0)%C) c.
Proof.
  intros HL Hv Hi. rewrite nth_mat_vec by (destruct HL; lia).
  apply vdot_Csum; [apply (wf_mat_row r c L i HL Hi)|exact Hv].
Qed.

Lemma vsum_cons (x : C) (v : Vec) : vsum (x :: v) = (x + vsum v)%C.
Proof. reflexivity. Qed.

Lemma Csum_vsum_swap {A : Type} (f : A -> nat -> C) (l : list A) (n : nat) :
  Csum (fun j => vsum (map (fun x => f x j) l)) n =
  vsum (map (fun x => Csum (f x) n) l).
Proof.
  induction l as [|x l IH]; cbn [map].
  - unfold vsum. simpl. apply Csum_zero.
  - rewrite vsum_cons, <- IH, <- Csum_plus. reflexivity.
Qed.

(** the superoperator of one instruction *)
Definition instruction_term (ins : instruction) : Mat :=
  kron (fst ins) (mat_T (snd ins)).

Definition wf_instruction (n : nat) (ins : instruction) : Prop :=
  wf_mat n n (fst ins) /\ wf_mat n n (snd ins).

Lemma wf_instruction_term (n : nat) (ins : instruction) :
  0 < n -> wf_instruction n ins -> wf_mat (n * n) (n * n) (instruction_term ins).
Proof.
  intros Hn [HA HB]. apply wf_kron; [assumption|now apply wf_mat_T].
Qed.

Lemma Liouvillian_fold_entries (N : nat) (rest : list instruction) (acc : Mat) :
  wf_mat N N acc ->
  Forall (fun ins => wf_mat N N (instruction_term ins)) rest ->
  wf_mat N N (fold_left (fun L '(left_, right_) => mat_add L (kron left_ (mat_T right_)))
                        rest acc) /\
  forall a b, a < N -> b < N ->
    entry (fold_left (fun L '(left_, right_) => mat_add L (kron left_ (mat_T right_)))
                     rest acc) a b =
    (entry acc a b + vsum (map (fun ins => entry (instruction_term ins) a b) rest))%C.
Proof.
  intros Hacc Hrest. revert acc Hacc.
  induction Hrest as [|[A B] rest HAB _ IH]; intros acc Hacc.
  - simpl. split; [assumption|]. intros a b _ _. unfold vsum. simpl. ring.
  - cbn [fold_left map]. unfold instruction_term in HAB. simpl in HAB.
    destruct (IH (mat_add acc (kron A (mat_T B)))) as [Hwf Hent];
      [now apply wf_mat_add|].
    split; [exact Hwf|]. intros a b Ha Hb.
    rewrite Hent, vsum_cons by assumption.
    rewrite (entry_add N N) by assumption.
    unfold instruction_term at 2. simpl. ring.
Qed.

(** The entries of the Liouvillian are the sums of the entries of the terms
    of its instructions. *)
Lemma Liouvillian_entries (N : nat) (l : list instruction) :
  l <> [] -> Forall (fun ins => wf_mat N N (instruction_term ins)) l ->
  exists L, make_Liouvillian l = Ok L /\ wf_mat N N L /\
    forall a b, a < N -> b < N ->
      entry L a b = vsum (map (fun ins => entry (instruction_term ins) a b) l).
Proof.
  intros Hne Hall. destruct l as [|[A B] rest]; [congruence|].
  apply Forall_cons in Hall as [HAB Hrest].
  destruct (Liouvillian_fold_entries N rest (kron A (mat_T B)) HAB Hrest) as [Hwf Hent].
  eexists. split; [reflexivity|]. split; [exact Hwf|].
  intros a b Ha Hb. rewrite Hent by assumption. reflexivity.
Qed.

Lemma entry_triple_product (n : nat) (A rho B : Mat) (i k : nat) :
  0 < n -> wf_mat n n A -> wf_mat n n rho -> wf_mat n n B -> i < n -> k < n ->
  entry (mat_dot (mat_dot A rho) B) i k =
  Csum (fun j => Csum (fun l => (entry A i j * entry rho j l * entry B l k)%C) n) n.
Proof.
  intros Hn HA Hrho HB Hi Hk.
  assert (HAr := wf_mat_dot n n n A rho HA Hrho Hn).
  rewrite (entry_dot n n n (mat_dot A rho) B i k HAr HB Hi Hk).
  rewrite (Csum_ext _ (fun l => Csum (fun j =>
             (entry A i j * entry rho j l * entry B l k)%C) n)).
  - apply (Csum_swap (fun l j => (entry A i j * entry rho j l * entry B l k)%C)).
  - intros l Hl. rewrite (entry_dot n n n A rho i l HA Hrho Hi Hl).
    rewrite <- Csum_scale_r. reflexivity.
Qed.

(** The Liouvillian applied to the row-major [vec(rho)] is the vector of
    the sum of [Left rho Right] over the instructions. *)
Lemma Liouvillian_vec_entries (n : nat) (l : list instruction) (rho : Mat) :
  0 < n -> l <> [] -> Forall (wf_instruction n) l -> wf_mat n n rho ->
  exists L M,
    make_Liouvillian l = Ok L /\ wf_mat (n * n) (n * n) L /\
    reshape n n (mat_vec L (flatten rho)) = Some M /\ wf_mat n n M /\
    forall i k, i < n -> k < n ->
      entry M i k =
      vsum (map (fun ins => entry (mat_dot (mat_dot (fst ins) rho) (snd ins)) i k) l).
Proof.
  intros Hn Hne Hall Hrho.
  assert (Hterms : Forall (fun ins => wf_mat (n * n) (n * n) (instruction_term ins)) l).
  { eapply Forall_impl; [exact Hall|]. intros ins. now apply wf_instruction_term. }
  destruct (Liouvillian_entries (n * n) l Hne Hterms) as (L & HL & Hwf & Hent).
  assert (Hflat := length_flatten n n rho Hrho).
  destruct (reshape_Some n n (mat_vec L (flatten rho))) as (M & HM & HwfM & HentM).
  { rewrite length_mat_vec. now destruct Hwf. }
  exists L, M. repeat (split; [assumption|]).
  intros i k Hi Hk. rewrite HentM by assumption.
  rewrite (nth_mat_vec_entries (n * n) (n * n)) by (auto; nia).
  rewrite (Csum_ext _ (fun c => vsum (map (fun ins =>
             (entry (instruction_term ins) (i * n + k) c * nth c (flatten rho) 0)%C) l))).
  - rewrite Csum_vsum_swap. f_equal. apply map_ext_in. intros [A B] Hin.
    rewrite List.Forall_forall in Hall. destruct (Hall _ Hin) as [HA HB]. simpl in HA, HB.
    simpl fst. simpl snd.
    rewrite (entry_triple_product n A rho B i k) by assumption.
    rewrite <- (nth_kron_vec n A B rho i k) by assumption.
    rewrite (nth_mat_vec_entries (n * n) (n * n)); auto; [|nia].
    apply (wf_instruction_term n (A, B)); [assumption|now split].
  - intros c Hc. rewrite Hent by (auto; nia).
    rewrite <- vsum_map_scale, map_map. reflexivity.
Qed.

(** X3. For a non-empty list of instructions on [n x n] operators,
    [make_Liouvillian] returns an [n^2 x n^2] array [L], and [L] applied to
    the row-major vector of [rho], reshaped, is the sum over the list of
    [Left rho Right]: the transpose in [np.kron(left, right.T)] is what
    makes the right factor act from the right. *)
Theorem make_Liouvillian_vectorises (n : nat) (l : list instruction) (rho : Mat) :
  0 < n -> l <> [] -> Forall (wf_instruction n) l -> wf_mat n n rho ->
  exists L M,
    make_Liouvillian l = Ok L /\ wf_mat (n * n) (n * n) L /\
    reshape n n (mat_vec L (flatten rho)) = Some M /\
    forall i k, i < n -> k < n ->
      entry M i k =
      vsum (map (fun ins => entry (mat_dot (mat_dot (fst ins) rho) (snd ins)) i k) l).
Proof.
  intros Hn Hne Hall Hrho.
  destruct (Liouvillian_vec_entries n l rho Hn Hne Hall Hrho)
    as (L & M & HL & Hwf & HM & _ & Hent).
  exists L, M. auto.
Qed.

Lemma make_Liouvillian_vectorises_witness :
  exists L M,
    make_Liouvillian [(up, down); (occupied, empty)] = Ok L /\ wf_mat (2 * 2) (2 * 2) L /\
    reshape 2 2 (mat_vec L (flatten occupied)) = Some M /\
    forall i k, i < 2 -> k < 2 ->
      entry M i k =
      vsum (map (fun ins => entry (mat_dot (mat_dot (fst ins) occupied) (snd ins)) i k)
                [(up, down); (occupied, empty)]).
Proof.
  apply (make_Liouvillian_vectorises 2 [(up, down); (occupied, empty)] occupied).
  - lia.
  - intros H; discriminate H.
  - repeat constructor.
  - split; [reflexivity|repeat constructor].
Defined.

Lemma entry_dot_eye_r (n : nat) (X : Mat) (i k : nat) :
  wf_mat n n X -> i < n -> k < n -> entry (mat_dot X (eye n)) i k = entry X i k.
Proof.
  intros HX Hi Hk. rewrite (entry_dot n n n X (eye n) i k HX (wf_eye n) Hi Hk).
  rewrite (Csum_single _ n k Hk).
  - rewrite entry_eye, Nat.eqb_refl by assumption. ring.
  - intros l Hl Hne. rewrite entry_eye by assumption.
    destruct (Nat.eqb_spec l k); [contradiction|ring].
Qed.

Lemma entry_dot_eye_l (n : nat) (X : Mat) (i k : nat) :
  wf_mat n n X -> i < n -> k < n -> entry (mat_dot (eye n) X) i k = entry X i k.
Proof.
  intros HX Hi Hk. rewrite (entry_dot n n n (eye n) X i k (wf_eye n) HX Hi Hk).
  rewrite (Csum_single _ n i Hi).
  - rewrite entry_eye, Nat.eqb_refl by assumption. ring.
  - intros l Hl Hne. rewrite entry_eye by assumption.
    destruct (Nat.eqb_spec i l); [congruence|ring].
Qed.

Lemma entry_dot_neg_r (n : nat) (X Y : Mat) (i k : nat) :
  wf_mat n n X -> wf_mat n n Y -> i < n -> k < n ->
  entry (mat_dot X (mat_neg Y)) i k = (- entry (mat_dot X Y) i k)%C.
Proof.
  intros HX HY Hi Hk.
  rewrite (entry_dot n n n X (mat_neg Y) i k HX (wf_map_map Copp n n Y HY) Hi Hk).
  rewrite (entry_dot n n n X Y i k HX HY Hi Hk), <- Csum_opp.
  apply Csum_ext. intros l _. rewrite entry_neg. ring.
Qed.

Lemma wf_commutator_instructions (n : nat) (O : Mat) :
  wf_mat n n O -> Forall (wf_instruction n) (make_commutator_instructions O).
Proof.
  intros HO. unfold make_commutator_instructions, nrows.
  assert (Hlen : length O = n) by now destruct HO.
  rewrite Hlen.
  constructor; [split; [exact HO|apply wf_eye]|].
  constructor; [split; [apply wf_eye|apply (wf_map_map Copp n n O HO)]|].
  constructor.
Qed.

(** X4. The Liouvillian of [make_commutator_instructions(O)] applied to
    [vec(rho)] is [vec(O rho - rho O)], and the result has trace 0. *)
Theorem commutator_Liouvillian (n : nat) (O rho : Mat) :
  0 < n -> wf_mat n n O -> wf_mat n n rho ->
  exists L M,
    make_Liouvillian (make_commutator_instructions O) = Ok L /\
    reshape n n (mat_vec L (flatten rho)) = Some M /\
    (forall i k, i < n -> k < n ->
       entry M i k = (entry (mat_dot O rho) i k - entry (mat_dot rho O) i k)%C) /\
    trace M = 0%C.
Proof.
  intros Hn HO Hrho.
  destruct (Liouvillian_vec_entries n (make_commutator_instructions O) rho Hn)
    as (L & M & HL & Hwf & HM & HwfM & Hent);
    [discriminate|now apply wf_commutator_instructions|assumption|].
  assert (Hentry : forall i k, i < n -> k < n ->
            entry M i k = (entry (mat_dot O rho) i k - entry (mat_dot rho O) i k)%C).
  { intros i k Hi Hk. rewrite (Hent i k Hi Hk).
    unfold make_commutator_instructions, nrows. destruct HO as [Hlen Hrows].
    rewrite Hlen. assert (HO : wf_mat n n O) by now split.
    cbn [map fst snd]. rewrite !vsum_cons. unfold vsum at 1. cbn [fold_right].
    assert (HOr := wf_mat_dot n n n O rho HO Hrho Hn).
    assert (HIr := wf_mat_dot n n n (eye n) rho (wf_eye n) Hrho Hn).
    rewrite (entry_dot_eye_r n (mat_dot O rho) i k HOr Hi Hk).
    rewrite (entry_dot_neg_r n (mat_dot (eye n) rho) O i k HIr HO Hi Hk).
    rewrite (entry_dot n n n (mat_dot (eye n) rho) O i k HIr HO Hi Hk).
    rewrite (entry_dot n n n rho O i k) by assumption.
    rewrite (Csum_ext (fun l => (entry (mat_dot (eye n) rho) i l * entry O l k)%C)
                      (fun l => (entry rho i l * entry O l k)%C))
      by (intros l Hl; now rewrite (entry_dot_eye_l n)).
    ring. }
  exists L, M. repeat (split; [assumption|]).
  rewrite (trace_Csum n M HwfM).
  rewrite (Csum_ext _ (fun i => (Csum (fun j => (entry O i j * entry rho j i)%C) n
                                 + - Csum (fun j => (entry rho i j * entry O j i)%C) n)%C)).
  - rewrite Csum_plus, Csum_opp.
    rewrite (Csum_swap (fun i j => (entry rho i j * entry O j i)%C)).
    rewrite (Csum_ext (fun j => Csum (fun i => (entry rho i j * entry O j i)%C) n)
                      (fun i => Csum (fun j => (entry O i j * entry rho j i)%C) n)).
    + ring.
    + intros j _. apply Csum_ext. intros i _. ring.
  - intros i Hi. rewrite (Hentry i i Hi Hi).
    rewrite (entry_dot n n n O rho i i), (entry_dot n n n rho O i i) by assumption.
    ring.
Qed.

Lemma commutator_Liouvillian_witness :
  exists L M,
    make_Liouvillian (make_commutator_instructions occupied) = Ok L /\
    reshape 2 2 (mat_vec L (flatten up)) = Some M /\
    (forall i k, i < 2 -> k < 2 ->
       entry M i k = (entry (mat_dot occupied up) i k - entry (mat_dot up occupied) i k)%C) /\
    trace M = 0%C.
Proof.
  apply (commutator_Liouvillian 2 occupied up).
  - lia.
  - split; [reflexivity|repeat constructor].
  - split; [reflexivity|repeat constructor].
Defined.

(** X5. Concatenating two instruction lists adds their Liouvillians, which
    is how the dissipation instruction lists of the separate processes are
    combined into one generator. *)
Theorem make_Liouvillian_app (n : nat) (l1 l2 : list instruction) :
  0 < n -> l1 <> [] -> l2 <> [] ->
  Forall (wf_instruction n) l1 -> Forall (wf_instruction n) l2 ->
  exists L1 L2,
    make_Liouvillian l1 = Ok L1 /\ make_Liouvillian l2 = Ok L2 /\
    make_Liouvillian (l1 ++ l2) = Ok (mat_add L1 L2).
Proof.
  intros Hn Hne1 Hne2 H1 H2.
  assert (Hterms : forall l, Forall (wf_instruction n) l ->
            Forall (fun ins => wf_mat (n * n) (n * n) (instruction_term ins)) l).
  { intros l Hl. eapply Forall_impl; [exact Hl|].
    intros ins. now apply wf_instruction_term. }
  destruct (Liouvillian_entries (n * n) l1 Hne1 (Hterms l1 H1)) as (L1 & HL1 & Hw1 & He1).
  destruct (Liouvillian_entries (n * n) l2 Hne2 (Hterms l2 H2)) as (L2 & HL2 & Hw2 & He2).
  destruct (Liouvillian_entries (n * n) (l1 ++ l2)) as (L & HL & Hw & He).
  { destruct l1; [congruence|discriminate]. }
  { apply Hterms. apply Forall_app. now split. }
  exists L1, L2. repeat (split; [assumption|]).
  rewrite HL. f_equal. apply (mat_ext (n * n) (n * n)); [assumption|now apply wf_mat_add|].
  intros a b Ha Hb. rewrite (entry_add (n * n) (n * n)) by assumption.
  rewrite He, He1, He2, map_app, vsum_app by assumption. reflexivity.
Qed.

Lemma make_Liouvillian_app_witness :
  exists L1 L2,
    make_Liouvillian [(up, down)] = Ok L1 /\ make_Liouvillian [(occupied, empty)] = Ok L2 /\
    make_Liouvillian ([(up, down)] ++ [(occupied, empty)]) = Ok (mat_add L1 L2).
Proof.
  apply (make_Liouvillian_app 2 [(up, down)] [(occupied, empty)]).
  - lia.
  - intros H; discriminate H.
  - intros H; discriminate H.
  - repeat constructor.
  - repeat constructor.
Defined.

(** ** Symmetries of the electronic Hamiltonian *)

Lemma Cconj_plus (x y : C) : Cconj (x + y) = (Cconj x + Cconj y)%C.
Proof. cring. Qed.

Lemma Cconj_mult (x y : C) : Cconj (x * y) = (Cconj x * Cconj y)%C.
Proof. cring. Qed.

Lemma Cconj_involutive (x : C) : Cconj (Cconj x) = x.
Proof. destruct x. cring. Qed.

Lemma Cconj_RtoC (r : R) : Cconj (RtoC r) = RtoC r.
Proof. cring. Qed.

Lemma Cconj_ind (b : bool) : Cconj (ind b) = ind b.
Proof. destruct b; cring. Qed.

Lemma Csum_conj (f : nat -> C) (n : nat) :
  Cconj (Csum f n) = Csum (fun i => Cconj (f i)) n.
Proof.
  induction n as [|n IH]; simpl; [cring|]. now rewrite Cconj_plus, IH.
Qed.

Lemma occupied_unchanged_sym (i : nat) (s s' : list bool) :
  occupied_unchanged i s s' = occupied_unchanged i s' s.
Proof.
  unfold occupied_unchanged.
  destruct (decide (s' = s)) as [->|Hne]; [reflexivity|].
  rewrite !bool_decide_eq_false_2 by congruence. now rewrite !andb_false_r.
Qed.

(** X6. The electronic Hamiltonian that [make_electronic_hamiltonian]
    builds from real site energies and real couplings (the only ones it
    accepts) is Hermitian: it is a symmetric array, equal to the conjugate
    of its transpose. *)
Theorem electronic_hamiltonian_hermitian (energies : list R) (couplings : list py_number) :
  let n := length energies in
  1 <= n -> length (lex_pairs n) <= length couplings ->
  (forall k, k < length (lex_pairs n) -> is_real (nth k couplings (PyFloat 0)) = true) ->
  exists (occupied_list exchange_list : list Mat) (H : Mat),
    make_single_operator_list n occupied = Ok occupied_list /\
    make_multi_operator_list n [up; down] = Ok exchange_list /\
    make_electronic_hamiltonian n energies couplings occupied_list exchange_list = Ok H /\
    forall a b, a < 2 ^ n -> b < 2 ^ n ->
      entry H a b = Cconj (entry H b a) /\ entry H a b = entry H b a.
Proof.
  intros n Hn Hc Hreal.
  destruct (electronic_hamiltonian_entries energies couplings Hn Hc Hreal)
    as (H & HOL & HXL & HH & Hwf & HX & Hent).
  fold n in HOL, HXL, HH, Hwf, HX, Hent.
  eexists _, _, H. split; [exact HOL|]. split; [exact HXL|]. split; [exact HH|].
  assert (Hherm : forall a b, a < 2 ^ n -> b < 2 ^ n -> entry H a b = Cconj (entry H b a)).
  { intros a b Ha Hb.
    destruct (basis_index_surjective n a Ha) as (s' & Hs' & <-).
    destruct (basis_index_surjective n b Hb) as (s & Hs & <-).
    rewrite (Hent s s' Hs Hs'), (Hent s' s Hs' Hs).
    rewrite Cconj_plus, !Csum_conj. f_equal.
    - apply Csum_ext. intros i _.
      rewrite Cconj_mult, Cconj_RtoC, Cconj_ind. now rewrite occupied_unchanged_sym.
    - apply Csum_ext. intros k _.
      rewrite Cconj_plus, !Cconj_mult, !Cconj_ind, Cconj_involutive. ring. }
  intros a b Ha Hb. split; [now apply Hherm|].
  destruct (basis_index_surjective n a Ha) as (s' & Hs' & <-).
  destruct (basis_index_surjective n b Hb) as (s & Hs & <-).
  rewrite (Hent s s' Hs Hs'), (Hent s' s Hs' Hs). f_equal.
  - apply Csum_ext. intros i _. now rewrite occupied_unchanged_sym.
  - apply Csum_ext. intros k Hk.
    assert (Hconj : Cconj (coupling couplings k) = coupling couplings k).
    { unfold coupling. specialize (Hreal k Hk).
      destruct (nth k couplings (PyFloat 0)); [cring|discriminate Hreal]. }
    rewrite Hconj. ring.
Qed.

Lemma electronic_hamiltonian_hermitian_witness :
  exists (occupied_list exchange_list : list Mat) (H : Mat),
    make_single_operator_list 2 occupied = Ok occupied_list /\
    make_multi_operator_list 2 [up; down] = Ok exchange_list /\
    make_electronic_hamiltonian 2 [1%R; 2%R] [PyFloat 3] occupied_list exchange_list
    = Ok H /\
    forall a b, a < 2 ^ 2 -> b < 2 ^ 2 ->
      entry H a b = Cconj (entry H b a) /\ entry H a b = entry H b a.
Proof.
  apply (electronic_hamiltonian_hermitian [1%R; 2%R] [PyFloat 3]).
  - simpl. lia.
  - simpl. lia.
  - intros [|k] Hk; [reflexivity|]. simpl in Hk. lia.
Defined.

(** ** Occupation numbers of the basis states *)

(** [Zprod f n] is the product of [f 0], ..., [f (n-1)]; [Zsum] the sum of a
    list of integers. *)
Fixpoint Zprod (f : nat -> Z) (n : nat) : Z :=
  match n with
  | O => 1%Z
  | S n' => (Zprod f n' * f n')%Z
  end.

Definition Zsum (l : list Z) : Z := fold_right Z.add 0%Z l.

(** the number of occupied sites of a basis state *)
Definition occupation (s : list bool) : Z :=
  Z.of_nat (length (List.filter (fun b : bool => b) s)).

Definition zkron_left_to_right (vs : list (list Z)) : list Z :=
  match vs with
  | [] => []
  | v :: rest => fold_left zkron rest v
  end.

Lemma Zprod_ext (f g : nat -> Z) (n : nat) :
  (forall i, i < n -> f i = g i) -> Zprod f n = Zprod g n.
Proof.
  induction n as [|n IH]; intros H; simpl; [reflexivity|].
  rewrite IH by (intros; apply H; lia). rewrite H by lia. reflexivity.
Qed.

Lemma Zprod_one (n : nat) : Zprod (fun _ => 1%Z) n = 1%Z.
Proof. induction n as [|n IH]; simpl; [reflexivity|]. rewrite IH. lia. Qed.

Lemma Zprod_single (x : Z) (i n : nat) :
  i < n -> Zprod (fun p => if Nat.eqb i p then x else 1%Z) n = x.
Proof.
  induction n as [|n IH]; intros Hi; [lia|]. simpl.
  destruct (Nat.eqb_spec i n) as [->|Hne].
  - rewrite (Zprod_ext _ (fun _ => 1%Z)), Zprod_one; [lia|].
    intros p Hp. destruct (Nat.eqb_spec n p); [lia|reflexivity].
  - rewrite IH by lia. lia.
Qed.

Lemma nth_zkron (u v : list Z) (a b : nat) :
  a < length u -> b < length v ->
  nth (a * length v + b) (zkron u v) 0%Z = (nth a u 0 * nth b v 0)%Z.
Proof.
  intros Ha Hb. unfold zkron.
  rewrite (nth_flat_map_uniform _ u (length v) a b 0%Z 0%Z); try assumption.
  - now rewrite (nth_map_lt (Z.mul (nth a u 0%Z)) v b 0%Z 0%Z).
  - apply List.Forall_forall. intros x _. apply length_map.
Qed.

Lemma zkron_left_to_right_snoc (vs : list (list Z)) (v : list Z) :
  vs <> [] -> zkron_left_to_right (vs ++ [v]) = zkron (zkron_left_to_right vs) v.
Proof.
  destruct vs as [|v0 vs]; [congruence|]. intros _. simpl.
  now rewrite fold_left_app.
Qed.

(** The entry of a Kronecker chain of two-component vectors at a basis
    state is the product over the sites of the components. *)
Lemma nth_zkron_chain (vs : list (list Z)) :
  vs <> [] -> Forall (fun v => length v = 2) vs ->
  length (zkron_left_to_right vs) = 2 ^ length vs /\
  forall s : list bool,
    length s = length vs ->
    nth (basis_index s) (zkron_left_to_right vs) 0%Z =
    Zprod (fun p => nth (b2n (site s p)) (nth p vs []) 0%Z) (length vs).
Proof.
  induction vs as [|v vs IH] using rev_ind; [congruence|]. intros _ Hall.
  apply Forall_app in Hall as [Hvs Hv]. apply Forall_cons in Hv as [Hv _].
  assert (Hcase : vs = [] \/ vs <> []) by (destruct vs; [now left|now right]).
  destruct Hcase as [->|Hne].
  - simpl. split; [exact Hv|].
    intros [|x [|? ?]] Hs; try discriminate.
    unfold basis_index, site. simpl. destruct x; simpl; lia.
  - destruct (IH Hne Hvs) as [Hlen Hent].
    rewrite zkron_left_to_right_snoc by assumption.
    rewrite length_app. simpl length.
    replace (length vs + 1) with (S (length vs)) by lia.
    split.
    + rewrite length_zkron, Hlen, Hv, Nat.pow_succ_r'. lia.
    + intros s Hs.
      destruct (list_snoc_inv s _ Hs) as (s0 & x & -> & Hs0).
      rewrite basis_index_snoc.
      replace 2 with (length v) at 1 by exact Hv.
      rewrite nth_zkron;
        [|rewrite Hlen, <- Hs0; apply basis_index_lt|rewrite Hv; destruct x; simpl; lia].
      rewrite Hent by assumption. cbn [Zprod]. f_equal.
      * apply Zprod_ext. intros p Hp. unfold site.
        now rewrite !app_nth1 by lia.
      * unfold site. rewrite !app_nth2 by lia.
        rewrite Hs0, !Nat.sub_diag. reflexivity.
Qed.

Lemma nth_py_insert_repeat {A : Type} (x y d : A) (k i p : nat) :
  i <= k -> p <= k ->
  nth p (py_insert (repeat x k) i y) d = if Nat.eqb i p then y else x.
Proof.
  intros Hi Hp. unfold py_insert.
  assert (Hlen : length (firstn i (repeat x k)) = i)
    by (rewrite length_firstn, repeat_length; lia).
  destruct (Nat.eqb_spec i p) as [->|Hne].
  - rewrite <- Hlen at 1. apply nth_middle.
  - destruct (Nat.lt_ge_cases p i) as [Hlt|Hge].
    + rewrite app_nth1 by lia. rewrite nth_firstn.
      destruct (Nat.ltb_spec p i); [|lia]. apply nth_repeat_lt. lia.
    + rewrite app_nth2 by lia. rewrite Hlen.
      destruct (p - i) as [|q] eqn:Hq; [lia|]. cbn [nth].
      rewrite nth_skipn. apply nth_repeat_lt. lia.
Qed.

(** The vector of the occupation of site [i]: at a basis state it is 1 when
    the site is occupied and 0 otherwise. *)
Lemma electronic_vector_of_ones_kron_value (n i : nat) (s : list bool) :
  i < n -> length s = n ->
  nth (basis_index s) (electronic_vector_of_ones_kron n i [0; 1]%Z) 0%Z =
  Z.of_nat (b2n (site s i)).
Proof.
  intros Hi Hs. unfold electronic_vector_of_ones_kron.
  set (l := py_insert (repeat (repeat 1%Z 2) (n - 1)) i [0; 1]%Z).
  change (match l with [] => [] | vec :: ones_list => fold_left zkron ones_list vec end)
    with (zkron_left_to_right l).
  assert (Hlen : length l = n).
  { unfold l. rewrite length_py_insert, repeat_length. lia. }
  assert (Hnth : forall p, p < n -> nth p l [] = if Nat.eqb i p then [0; 1]%Z else [1; 1]%Z).
  { intros p Hp. unfold l. apply nth_py_insert_repeat; lia. }
  assert (Hall : Forall (fun w => length w = 2) l).
  { unfold l. apply Forall_py_insert; [|reflexivity].
    apply List.Forall_forall. intros w Hw. apply repeat_spec in Hw. now subst w. }
  destruct (nth_zkron_chain l) as [_ Hent]; [intros E; rewrite E in Hlen; simpl in Hlen; lia
                                            |exact Hall|].
  rewrite Hent by lia. rewrite Hlen.
  rewrite (Zprod_ext _ (fun p => if Nat.eqb i p then Z.of_nat (b2n (site s i)) else 1%Z)).
  - now apply Zprod_single.
  - intros p Hp. rewrite Hnth by assumption.
    destruct (Nat.eqb_spec i p) as [->|_]; destruct (site s p); reflexivity.
Qed.

Lemma nth_fold_zip_with_add (N a : nat) (V : nat -> list Z) (l : list nat) (acc : list Z) :
  a < N -> length acc = N -> (forall i, In i l -> length (V i) = N) ->
  length (fold_left (fun occ_num i => zip_with Z.add occ_num (V i)) l acc) = N /\
  nth a (fold_left (fun occ_num i => zip_with Z.add occ_num (V i)) l acc) 0%Z =
  (nth a acc 0 + Zsum (map (fun i => nth a (V i) 0%Z) l))%Z.
Proof.
  intros Ha. revert acc. induction l as [|i l IH]; intros acc Hacc HV; simpl.
  - split; [assumption|]. unfold Zsum. simpl. lia.
  - assert (Hi : length (V i) = N) by (apply HV; now left).
    destruct (IH (zip_with Z.add acc (V i))) as [Hlen Hval].
    + rewrite length_zip_with. lia.
    + intros j Hj. apply HV. now right.
    + split; [exact Hlen|]. rewrite Hval.
      rewrite (nth_zip_with_lt Z.add acc (V i) a 0%Z) by lia.
      unfold Zsum. simpl. lia.
Qed.

Lemma Zsum_occupation (s : list bool) :
  Zsum (map (fun b => Z.of_nat (b2n b)) s) = occupation s.
Proof.
  unfold occupation, Zsum. induction s as [|b s IH]; [reflexivity|].
  cbn [map fold_right List.filter]. rewrite IH.
  destruct b; cbn [b2n length]; lia.
Qed.

Lemma total_occupation_number_value (n : nat) (s : list bool) :
  1 <= n -> length s = n ->
  nth (basis_index s) (set_electronic_total_occupation_number n) 0%Z = occupation s.
Proof.
  intros Hn Hs. unfold set_electronic_total_occupation_number.
  assert (Ha : basis_index s < 2 ^ n) by (rewrite <- Hs; apply basis_index_lt).
  destruct (nth_fold_zip_with_add (2 ^ n) (basis_index s)
              (fun i => electronic_vector_of_ones_kron n i [0; 1]%Z)
              (seq 1 (n - 1)) (electronic_vector_of_ones_kron n 0 [0; 1]%Z) Ha)
    as [_ Hval].
  - apply (electronic_vector_of_ones_kron_shape n 0 Hn).
  - intros i _. apply (electronic_vector_of_ones_kron_shape n i Hn).
  - rewrite Hval. rewrite <- Zsum_occupation.
    assert (E : map (fun b => Z.of_nat (b2n b)) s =
                map (fun i => Z.of_nat (b2n (site s i))) (seq 0 (S (n - 1)))).
    { replace (S (n - 1)) with (length s) by lia.
      rewrite <- (map_nth_seq s false) at 1. now rewrite map_map. }
    rewrite E. cbn [seq map]. unfold Zsum. cbn [fold_right].
    rewrite electronic_vector_of_ones_kron_value by (assumption || lia).
    f_equal. f_equal. apply map_ext_in. intros i Hi. apply in_seq in Hi.
    apply electronic_vector_of_ones_kron_value; [lia|assumption].
Qed.

(** X7. The total occupation number stored by
    [set_electronic_total_occupation_number] is, at every basis state, the
    number of occupied sites of that state. *)
Theorem electronic_total_occupation_number_counts (n : nat) (s : list bool) :
  1 <= n -> length s = n ->
  basis_index s < length (set_electronic_total_occupation_number n) /\
  nth (basis_index s) (set_electronic_total_occupation_number n) 0%Z = occupation s.
Proof.
  intros Hn Hs. split.
  - destruct (electronic_total_occupation_number_shape n Hn) as [-> _].
    rewrite <- Hs. apply basis_index_lt.
  - now apply total_occupation_number_value.
Qed.

Lemma electronic_total_occupation_number_counts_witness :
  basis_index [true; false; true] < length (set_electronic_total_occupation_number 3) /\
  nth (basis_index [true; false; true]) (set_electronic_total_occupation_number 3) 0%Z =
  occupation [true; false; true].
Proof.
  apply (electronic_total_occupation_number_counts 3 [true; false; true]).
  - lia.
  - reflexivity.
Defined.

Lemma occupation_insert (s : list bool) (i : nat) (b : bool) :
  i < length s ->
  (occupation (<[i := b]> s) + Z.of_nat (b2n (site s i)) =
   occupation s + Z.of_nat (b2n b))%Z.
Proof.
  unfold occupation, site. revert i. induction s as [|x s IH]; intros i Hi; [simpl in Hi; lia|].
  destruct i as [|i].
  - cbn [insert list_insert nth List.filter]. destruct x, b; cbn [b2n length]; lia.
  - cbn [nth]. change (<[S i := b]> (x :: s)) with (x :: <[i := b]> s).
    cbn [List.filter]. specialize (IH i ltac:(simpl in Hi; lia)).
    destruct x; cbn [length]; lia.
Qed.

(** Moving an excitation from site [j] to another site [i] keeps the number
    of occupied sites. *)
Lemma raised_lowered_occupation (i j : nat) (s s' : list bool) :
  i <> j -> i < length s -> j < length s ->
  raised_lowered i j s s' = true -> occupation s' = occupation s.
Proof.
  intros Hij Hi Hj H. unfold raised_lowered in H.
  apply andb_prop in H as [H Hs']. apply andb_prop in H as [Hsi Hsj].
  apply bool_decide_eq_true in Hs'. subst s'.
  apply negb_true_iff in Hsi.
  assert (H1 := occupation_insert s i true Hi).
  assert (H2 := occupation_insert (<[i := true]> s) j false
                  ltac:(rewrite length_insert; exact Hj)).
  unfold site in H2 at 1. rewrite nth_list_insert in H2 by assumption.
  destruct (Nat.eqb_spec i j); [contradiction|].
  fold (site s j) in H2. rewrite Hsj in H2. rewrite Hsi in H1.
  cbn [b2n] in H1, H2. lia.
Qed.

Lemma occupied_unchanged_occupation (i : nat) (s s' : list bool) :
  occupied_unchanged i s s' = true -> occupation s' = occupation s.
Proof.
  unfold occupied_unchanged. intros H. apply andb_prop in H as [_ H].
  apply bool_decide_eq_true in H. now subst.
Qed.

Lemma ind_false (b : bool) : b = false -> ind b = 0%C.
Proof. now intros ->. Qed.

(** X8. The electronic Hamiltonian, built from real site energies and real
    couplings, conserves the number of excitations: its entries between
    basis states of different total occupation number vanish, so every block
    [extract_coherence(H, m1, m2)] between two different manifolds is zero. *)
Theorem electronic_hamiltonian_conserves_occupation
        (energies : list R) (couplings : list py_number) :
  let n := length energies in
  let occ := set_electronic_total_occupation_number n in
  1 <= n -> length (lex_pairs n) <= length couplings ->
  (forall k, k < length (lex_pairs n) -> is_real (nth k couplings (PyFloat 0)) = true) ->
  exists (occupied_list exchange_list : list Mat) (H : Mat),
    make_single_operator_list n occupied = Ok occupied_list /\
    make_multi_operator_list n [up; down] = Ok exchange_list /\
    make_electronic_hamiltonian n energies couplings occupied_list exchange_list = Ok H /\
    (forall a b, a < 2 ^ n -> b < 2 ^ n ->
                 nth a occ 0%Z <> nth b occ 0%Z -> entry H a b = 0%C) /\
    (forall m1 m2 : Z, m1 <> m2 ->
       Forall (Forall (fun x => x = 0%C)) (extract_coherence occ H m1 m2)).
Proof.
  intros n occ Hn Hc Hreal.
  destruct (electronic_hamiltonian_entries energies couplings Hn Hc Hreal)
    as (H & HOL & HXL & HH & Hwf & HX & Hent).
  fold n in HOL, HXL, HH, Hwf, HX, Hent.
  eexists _, _, H. split; [exact HOL|]. split; [exact HXL|]. split; [exact HH|].
  assert (Hzero : forall a b, a < 2 ^ n -> b < 2 ^ n ->
                    nth a occ 0%Z <> nth b occ 0%Z -> entry H a b = 0%C).
  { intros a b Ha Hb Hne.
    destruct (basis_index_surjective n a Ha) as (s' & Hs' & <-).
    destruct (basis_index_surjective n b Hb) as (s & Hs & <-).
    unfold occ in Hne. rewrite !total_occupation_number_value in Hne by assumption.
    rewrite (Hent s s' Hs Hs').
    rewrite (Csum_ext _ (fun _ => 0%C)), Csum_zero.
    - rewrite (Csum_ext _ (fun _ => 0%C)), Csum_zero; [ring|].
      intros k Hk.
      assert (Hpair : fst (pair_at n k) < snd (pair_at n k) < n).
      { apply in_lex_pairs. unfold pair_at. rewrite <- surjective_pairing.
        now apply nth_In. }
      assert (E1 : raised_lowered (fst (pair_at n k)) (snd (pair_at n k)) s s' = false).
      { destruct (raised_lowered _ _ s s') eqn:E; [|reflexivity].
        apply raised_lowered_occupation in E; [congruence|lia..]. }
      assert (E2 : raised_lowered (fst (pair_at n k)) (snd (pair_at n k)) s' s = false).
      { destruct (raised_lowered _ _ s' s) eqn:E; [|reflexivity].
        apply raised_lowered_occupation in E; [congruence|lia..]. }
      rewrite E1, E2. simpl. ring.
    - intros i _.
      assert (E0 : occupied_unchanged i s s' = false).
      { destruct (occupied_unchanged i s s') eqn:E; [|reflexivity].
        apply occupied_unchanged_occupation in E. congruence. }
      rewrite E0. simpl. ring. }
  split; [exact Hzero|].
  intros m1 m2 Hm. unfold extract_coherence, electronic_manifold_mask.
  assert (Hlen : length occ = 2 ^ n)
    by apply (electronic_total_occupation_number_shape n Hn).
  apply List.Forall_forall. intros row Hrow.
  apply in_map_iff in Hrow as (a & <- & Ha). apply in_where_eq in Ha as [Ha Ha'].
  apply List.Forall_forall. intros x Hx.
  apply in_map_iff in Hx as (b & <- & Hb). apply in_where_eq in Hb as [Hb Hb'].
  apply Hzero; lia.
Qed.

Lemma electronic_hamiltonian_conserves_occupation_witness :
  exists (occupied_list exchange_list : list Mat) (H : Mat),
    make_single_operator_list 2 occupied = Ok occupied_list /\
    make_multi_operator_list 2 [up; down] = Ok exchange_list /\
    make_electronic_hamiltonian 2 [1%R; 2%R] [PyFloat 3] occupied_list exchange_list
    = Ok H /\
    (forall a b, a < 2 ^ 2 -> b < 2 ^ 2 ->
                 nth a (set_electronic_total_occupation_number 2) 0%Z <>
                 nth b (set_electronic_total_occupation_number 2) 0%Z ->
                 entry H a b = 0%C) /\
    (forall m1 m2 : Z, m1 <> m2 ->
       Forall (Forall (fun x => x = 0%C))
              (extract_coherence (set_electronic_total_occupation_number 2) H m1 m2)).
Proof.
  apply (electronic_hamiltonian_conserves_occupation [1%R; 2%R] [PyFloat 3]).
  - simpl. lia.
  - simpl. lia.
  - intros [|k] Hk; [reflexivity|]. simpl in Hk. lia.
Defined.

(** ** Blocks of an operator and the full space *)

Lemma entry_alter_insert_other (M : Mat) (row ind : nat) (x : C) (a b : nat) :
  a <> row \/ b <> ind ->
  entry (alter (fun r : Vec => <[ind := x]> r) row M) a b = entry M a b.
Proof.
  intros H. unfold entry. rewrite !nth_lookup.
  destruct (decide (row = a)) as [->|Hne].
  - rewrite list_lookup_alter_eq. destruct (M !! a) as [v|]; simpl; [|reflexivity].
    rewrite list_lookup_insert_ne by (destruct H; congruence). reflexivity.
  - now rewrite list_lookup_alter_ne.
Qed.

Lemma entry_alter_insert_same (r c : nat) (M : Mat) (row ind : nat) (x : C) :
  wf_mat r c M -> row < r -> ind < c ->
  entry (alter (fun r : Vec => <[ind := x]> r) row M) row ind = x.
Proof.
  intros HM Hrow Hind. unfold entry. rewrite !nth_lookup.
  rewrite list_lookup_alter_eq.
  assert (Hlen := wf_mat_row r c M row HM Hrow). rewrite nth_lookup in Hlen.
  destruct (M !! row) as [v|]; simpl in *; [|lia].
  rewrite list_lookup_insert_eq by lia. reflexivity.
Qed.

Lemma wf_alter_insert (r c : nat) (M : Mat) (row ind : nat) (x : C) :
  wf_mat r c M -> wf_mat r c (alter (fun r : Vec => <[ind := x]> r) row M).
Proof.
  intros [Hr Hc]. split; [now rewrite length_alter|].
  rewrite List.Forall_forall in *. intros v Hv.
  apply (In_nth _ _ []) in Hv as (a & Ha & <-). rewrite length_alter in Ha.
  rewrite nth_lookup. destruct (decide (row = a)) as [->|Hne].
  - rewrite list_lookup_alter_eq.
    assert (Hin : In (nth a M []) M) by (apply nth_In; lia).
    apply Hc in Hin. rewrite nth_lookup in Hin.
    destruct (M !! a) as [w|]; simpl in *; [now rewrite length_insert|exact Hin].
  - rewrite list_lookup_alter_ne by assumption. rewrite <- nth_lookup.
    apply Hc. apply nth_In. lia.
Qed.

(** [Ofull[inds, ind] = col] for distinct row indices: the column [ind] gets
    the entries of [col] at the rows [inds]; nothing else changes. *)
Lemma entry_assign_column (r c : nat) (inds : list nat) (ind : nat) :
  ind < c -> Forall (fun a => a < r) inds -> List.NoDup inds ->
  forall (col : Vec) (M : Mat),
    wf_mat r c M -> length col = length inds ->
    wf_mat r c (assign_column M inds ind col) /\
    (forall k, k < length inds ->
               entry (assign_column M inds ind col) (nth k inds 0) ind = nth k col 0%C) /\
    (forall a b, ~ (In a inds /\ b = ind) ->
                 entry (assign_column M inds ind col) a b = entry M a b).
Proof.
  intros Hind Hbound Hnd. unfold assign_column.
  induction inds as [|i inds IH]; intros col M HM Hcol.
  - simpl. split; [assumption|]. split; [intros k Hk; simpl in Hk; lia|reflexivity].
  - destruct col as [|x col]; [discriminate|]. cbn [zip zip_with fold_left].
    apply Forall_cons in Hbound as [Hi Hbound].
    apply List.NoDup_cons_iff in Hnd as [Hnotin Hnd].
    destruct (IH Hbound Hnd col (alter (fun r0 : Vec => <[ind := x]> r0) i M))
      as (Hwf & Hin & Hout).
    { now apply wf_alter_insert. }
    { simpl in Hcol. lia. }
    split; [exact Hwf|]. split.
    + intros [|k] Hk; cbn [nth].
      * rewrite Hout by (intros [H _]; contradiction).
        now apply (entry_alter_insert_same r c).
      * apply Hin. simpl in Hk. lia.
    + intros a b Hab. rewrite Hout.
      * apply entry_alter_insert_other.
        destruct (decide (a = i)) as [->|?]; [|now left].
        right. intros ->. apply Hab. split; [now left|reflexivity].
      * intros [H ->]. apply Hab. split; [now right|reflexivity].
Qed.

Lemma nth_column (r c : nat) (O : Mat) (k l : nat) :
  wf_mat r c O -> k < r -> nth k (column O l) 0%C = entry O k l.
Proof.
  intros [Hr _] Hk. unfold column, entry.
  now rewrite (nth_map_lt _ O k 0%C []) by lia.
Qed.

Lemma wf_zeros (r c : nat) : wf_mat r c (zeros r c).
Proof.
  unfold zeros. split; [apply repeat_length|].
  apply List.Forall_forall. intros v Hv. apply repeat_spec in Hv. subst v.
  apply repeat_length.
Qed.

Lemma entry_zeros (r c a b : nat) : entry (zeros r c) a b = 0%C.
Proof.
  unfold entry, zeros.
  destruct (Nat.lt_ge_cases a r) as [Ha|Ha].
  - rewrite (nth_repeat_lt _ [] Ha).
    destruct (Nat.lt_ge_cases b c) as [Hb|Hb].
    + apply (nth_repeat_lt _ _ Hb).
    + apply nth_overflow. now rewrite repeat_length.
  - rewrite (nth_overflow (repeat _ r)) by now rewrite repeat_length.
    now destruct b.
Qed.

(** The loop of [coherence_to_full] over a list [ls] of columns of the
    block. *)
Lemma entry_coherence_fold (r c : nat) (inds1 inds2 : list nat) (O : Mat) :
  wf_mat (length inds1) (length inds2) O ->
  Forall (fun a => a < r) inds1 -> Forall (fun b => b < c) inds2 ->
  List.NoDup inds1 -> List.NoDup inds2 ->
  forall (ls : list nat) (M : Mat),
    wf_mat r c M -> Forall (fun l => l < length inds2) ls ->
    let R := fold_left (fun Ofull i =>
                          assign_column Ofull inds1 (nth i inds2 0) (column O i)) ls M in
    wf_mat r c R /\
    (forall k l, k < length inds1 -> In l ls ->
                 entry R (nth k inds1 0) (nth l inds2 0) = entry O k l) /\
    (forall a b, ~ (In a inds1 /\ exists l, In l ls /\ b = nth l inds2 0) ->
                 entry R a b = entry M a b).
Proof.
  intros HO H1 H2 Hnd1 Hnd2.
  induction ls as [|l0 ls IH] using rev_ind; intros M HM Hls; cbn zeta.
  - simpl. split; [assumption|]. split; [intros k l _ []|reflexivity].
  - apply Forall_app in Hls as [Hls Hl0]. apply Forall_cons in Hl0 as [Hl0 _].
    rewrite fold_left_app. cbn [fold_left].
    destruct (IH M HM Hls) as (Hwf & Hin & Hout). cbn zeta in Hwf, Hin, Hout.
    set (R := fold_left _ ls M) in *.
    assert (Hc : nth l0 inds2 0 < c).
    { rewrite List.Forall_forall in H2. apply H2. now apply nth_In. }
    destruct (entry_assign_column r c inds1 (nth l0 inds2 0) Hc H1 Hnd1
                (column O l0) R Hwf) as (Hwf' & Hin' & Hout').
    { rewrite length_column. now destruct HO. }
    split; [exact Hwf'|]. split.
    + intros k l Hk Hl. apply in_app_iff in Hl.
      destruct (decide (l = l0)) as [->|Hne].
      * rewrite Hin' by assumption.
        apply (nth_column (length inds1) (length inds2)); assumption.
      * destruct Hl as [Hl|[Hl|[]]]; [|congruence].
        rewrite Hout'; [now apply Hin|].
        intros [_ Heq]. apply Hne.
        rewrite List.Forall_forall in Hls.
        apply (proj1 (List.NoDup_nth inds2 0) Hnd2); auto.
    + intros a b Hab. rewrite Hout'.
      * apply Hout. intros [Ha (l & Hl & ->)]. apply Hab.
        split; [assumption|]. exists l. split; [apply in_app_iff; now left|reflexivity].
      * intros [Ha ->]. apply Hab. split; [assumption|].
        exists l0. split; [apply in_app_iff; right; now left|reflexivity].
Qed.

Lemma entry_extract_coherence (occ : list Z) (O : Mat) (m1 m2 : Z) (k l : nat) :
  k < length (electronic_manifold_mask occ m1) ->
  l < length (electronic_manifold_mask occ m2) ->
  entry (extract_coherence occ O m1 m2) k l =
  entry O (nth k (electronic_manifold_mask occ m1) 0)
          (nth l (electronic_manifold_mask occ m2) 0).
Proof.
  intros Hk Hl. unfold extract_coherence, entry at 1.
  rewrite (nth_map_lt _ _ k [] 0) by assumption.
  now rewrite (nth_map_lt _ _ l 0%C 0) by assumption.
Qed.

Lemma wf_extract_coherence (occ : list Z) (O : Mat) (m1 m2 : Z) :
  wf_mat (length (electronic_manifold_mask occ m1))
         (length (electronic_manifold_mask occ m2)) (extract_coherence occ O m1 m2).
Proof.
  unfold extract_coherence. split; [apply length_map|].
  apply List.Forall_forall. intros v Hv. apply in_map_iff in Hv as (a & <- & _).
  apply length_map.
Qed.

Lemma coherence_to_full_entries (occ : list Z) (O : Mat) (m1 m2 : Z) :
  let N := length occ in
  let inds1 := electronic_manifold_mask occ m1 in
  let inds2 := electronic_manifold_mask occ m2 in
  wf_mat (length inds1) (length inds2) O ->
  wf_mat N N (coherence_to_full occ (N, N) O m1 m2) /\
  (forall k l, k < length inds1 -> l < length inds2 ->
     entry (coherence_to_full occ (N, N) O m1 m2) (nth k inds1 0) (nth l inds2 0) =
     entry O k l) /\
  (forall a b, ~ (In a inds1 /\ In b inds2) ->
     entry (coherence_to_full occ (N, N) O m1 m2) a b = 0%C).
Proof.
  intros N inds1 inds2 HO. unfold coherence_to_full. cbn [fst snd].
  fold inds1 inds2.
  assert (Hb : forall m, Forall (fun a => a < N) (electronic_manifold_mask occ m)).
  { intros m. apply List.Forall_forall. intros a Ha. now apply in_where_eq in Ha. }
  destruct (entry_coherence_fold N N inds1 inds2 O HO (Hb m1) (Hb m2)
              (NoDup_where_eq occ m1) (NoDup_where_eq occ m2)
              (seq 0 (length inds2)) (zeros N N) (wf_zeros N N))
    as (Hwf & Hin & Hout).
  { apply List.Forall_forall. intros l Hl. apply in_seq in Hl. lia. }
  cbn zeta in Hwf, Hin, Hout.
  split; [exact Hwf|]. split.
  - intros k l Hk Hl. apply Hin; [assumption|apply in_seq; lia].
  - intros a b Hab. rewrite Hout; [apply entry_zeros|].
    intros [Ha (l & Hl & ->)]. apply Hab. split; [assumption|].
    apply nth_In. apply in_seq in Hl. lia.
Qed.

(** X9. [coherence_to_full] writes a block into an array of zeros of the
    full size, and [extract_coherence] reads it back: extracting the block
    of the embedded operator gives the operator again, and every entry of
    the embedded operator outside the block is 0. *)
Theorem extract_coherence_to_full (occ : list Z) (O : Mat) (m1 m2 : Z) :
  let N := length occ in
  wf_mat (length (electronic_manifold_mask occ m1))
         (length (electronic_manifold_mask occ m2)) O ->
  extract_coherence occ (coherence_to_full occ (N, N) O m1 m2) m1 m2 = O /\
  wf_mat N N (coherence_to_full occ (N, N) O m1 m2) /\
  forall a b,
    ~ (In a (electronic_manifold_mask occ m1) /\ In b (electronic_manifold_mask occ m2)) ->
    entry (coherence_to_full occ (N, N) O m1 m2) a b = 0%C.
Proof.
  intros N HO.
  destruct (coherence_to_full_entries occ O m1 m2 HO) as (Hwf & Hin & Hout).
  split; [|split; [exact Hwf|exact Hout]].
  apply (mat_ext _ _ _ _ (wf_extract_coherence occ _ m1 m2) HO).
  intros k l Hk Hl. rewrite entry_extract_coherence by assumption.
  now apply Hin.
Qed.

Lemma extract_coherence_to_full_witness :
  extract_coherence (set_electronic_total_occupation_number 2)
    (coherence_to_full (set_electronic_total_occupation_number 2) (4, 4)
                       [[RtoC 1; RtoC 2]] 0 1) 0 1 = [[RtoC 1; RtoC 2]].
Proof.
  apply (extract_coherence_to_full (set_electronic_total_occupation_number 2)
           [[RtoC 1; RtoC 2]] 0 1).
  split; [reflexivity|repeat constructor].
Defined.

(** ** The per-manifold dictionaries *)

Lemma fold_left_nested {A B M : Type} (f : M -> A -> B -> M)
      (xs : list A) (ys : list B) (m0 : M) :
  fold_left (fun m i => fold_left (fun m j => f m i j) ys m) xs m0 =
  fold_left (fun m ij => f m (fst ij) (snd ij))
            (flat_map (fun i => map (pair i) ys) xs) m0.
Proof.
  revert m0. induction xs as [|x xs IH]; intros m0; [reflexivity|].
  cbn [fold_left flat_map]. rewrite fold_left_app, IH. f_equal.
  clear IH. revert m0. induction ys as [|y ys IHy]; intros m; [reflexivity|].
  cbn [map fold_left fst snd]. apply IHy.
Qed.

(** Assignments [d[key a] = val a] for [a] over a list: every assigned key
    is present afterwards, with the value of the last assignment to it;
    with distinct keys that is the value assigned for [a]. *)
Lemma fold_insert_lookup {A V : Type} (key : A -> string) (val : A -> V)
      (l : list A) (m0 : gmap string V) (k : string) :
  (In k (map key l) ->
   exists a, In a l /\ key a = k /\
             fold_left (fun m a => <[key a := val a]> m) l m0 !! k = Some (val a)) /\
  (~ In k (map key l) ->
   fold_left (fun m a => <[key a := val a]> m) l m0 !! k = m0 !! k).
Proof.
  induction l as [|x l IH] using rev_ind.
  - simpl. split; [intros []|reflexivity].
  - rewrite fold_left_app, map_app. cbn [fold_left map]. destruct IH as [IH1 IH2].
    destruct (decide (key x = k)) as [<-|Hne].
    + split.
      * intros _. exists x. split; [apply in_app_iff; right; now left|].
        split; [reflexivity|apply lookup_insert_eq].
      * intros H. exfalso. apply H. apply in_app_iff. right. now left.
    + rewrite lookup_insert_ne by assumption. split.
      * intros H. apply in_app_iff in H as [H|[H|[]]]; [|contradiction].
        destruct (IH1 H) as (a & Ha & Hk & Hl).
        exists a. split; [apply in_app_iff; now left|now split].
      * intros H. apply IH2. intros H'. apply H. apply in_app_iff. now left.
Qed.

Lemma manifold_key_single_digit_inj (k l k' l' : nat) :
  k <= 9 -> l <= 9 -> k' <= 9 -> l' <= 9 ->
  manifold_key k l = manifold_key k' l' -> k = k' /\ l = l'.
Proof.
  intros Hk Hl Hk' Hl' H. unfold manifold_key in H.
  rewrite !str_single_digit in H by assumption. simpl in H.
  injection H as H1 H2.
  apply digit_char_inj in H1; [|assumption..].
  apply digit_char_inj in H2; [|assumption..].
  now split.
Qed.

Lemma set_L_by_manifold_unfold {V : Type} (maximum_manifold : nat)
      (block : nat -> nat -> V) :
  set_L_by_manifold maximum_manifold block =
  fold_left (fun m ij => <[manifold_key (fst ij) (snd ij) := block (fst ij) (snd ij)]> m)
            (flat_map (fun i => map (pair i) (seq 0 (maximum_manifold + 1)))
                      (seq 0 (maximum_manifold + 1))) ∅.
Proof.
  unfold set_L_by_manifold.
  apply (fold_left_nested (fun m i j => <[manifold_key i j := block i j]> m)).
Qed.

Lemma in_manifold_pairs (maximum_manifold i j : nat) :
  In (i, j) (flat_map (fun i => map (pair i) (seq 0 (maximum_manifold + 1)))
                      (seq 0 (maximum_manifold + 1))) <->
  i <= maximum_manifold /\ j <= maximum_manifold.
Proof.
  rewrite in_flat_map. split.
  - intros (a & Ha & H). apply in_map_iff in H as (b & Heq & Hb).
    injection Heq as <- <-. apply in_seq in Ha, Hb. lia.
  - intros [Hi Hj]. exists i. split; [apply in_seq; lia|].
    apply in_map_iff. exists j. split; [reflexivity|apply in_seq; lia].
Qed.

(** X10. After [set_L_by_manifold] every key [str(i)+str(j)] with
    [i, j <= maximum_manifold] is present, so the lookups
    [self.L_by_manifold[key]] of [set_eigensystem_by_manifold] cannot fail;
    any stored value is the block of some pair with that key; and for
    [maximum_manifold <= 9] the key of [(i,j)] holds the block of [(i,j)]. *)
Theorem set_L_by_manifold_lookup {V : Type} (maximum_manifold : nat)
        (block : nat -> nat -> V) :
  (forall i j, i <= maximum_manifold -> j <= maximum_manifold ->
     exists i' j', i' <= maximum_manifold /\ j' <= maximum_manifold /\
       manifold_key i' j' = manifold_key i j /\
       set_L_by_manifold maximum_manifold block !! manifold_key i j = Some (block i' j')) /\
  (forall key v, set_L_by_manifold maximum_manifold block !! key = Some v ->
     exists i j, i <= maximum_manifold /\ j <= maximum_manifold /\
       key = manifold_key i j /\ v = block i j) /\
  (maximum_manifold <= 9 ->
   forall i j, i <= maximum_manifold -> j <= maximum_manifold ->
     set_L_by_manifold maximum_manifold block !! manifold_key i j = Some (block i j)).
Proof.
  rewrite set_L_by_manifold_unfold.
  set (pairs := flat_map (fun i => map (pair i) (seq 0 (maximum_manifold + 1)))
                         (seq 0 (maximum_manifold + 1))).
  assert (Hpresent : forall i j, i <= maximum_manifold -> j <= maximum_manifold ->
            exists i' j', i' <= maximum_manifold /\ j' <= maximum_manifold /\
              manifold_key i' j' = manifold_key i j /\
              fold_left (fun m ij => <[manifold_key (fst ij) (snd ij) :=
                                         block (fst ij) (snd ij)]> m) pairs
                        (∅ : gmap string V)
                !! manifold_key i j = Some (block i' j')).
  { intros i j Hi Hj.
    destruct (fold_insert_lookup (fun ij => manifold_key (fst ij) (snd ij))
                (fun ij => block (fst ij) (snd ij)) pairs ∅ (manifold_key i j))
      as [H _].
    destruct H as ([i' j'] & Hin & Hkey & Hl).
    - apply in_map_iff. exists (i, j). split; [reflexivity|].
      now apply in_manifold_pairs.
    - apply in_manifold_pairs in Hin as [Hi' Hj'].
      exists i', j'. auto. }
  split; [exact Hpresent|]. split.
  - intros key v Hv.
    destruct (fold_insert_lookup (fun ij => manifold_key (fst ij) (snd ij))
                (fun ij => block (fst ij) (snd ij)) pairs ∅ key) as [H1 H2].
    destruct (in_dec string_dec key
                (map (fun ij => manifold_key (fst ij) (snd ij)) pairs)) as [Hin|Hnot].
    + destruct (H1 Hin) as ([i j] & Hij & Hkey & Hl).
      apply in_manifold_pairs in Hij as [Hi Hj].
      exists i, j. rewrite Hl in Hv. injection Hv as <-. auto.
    + rewrite (H2 Hnot), lookup_empty in Hv. discriminate.
  - intros Hmax i j Hi Hj.
    destruct (Hpresent i j Hi Hj) as (i' & j' & Hi' & Hj' & Hkey & Hl).
    apply manifold_key_single_digit_inj in Hkey as [-> ->]; try lia.
    exact Hl.
Qed.

Lemma set_L_by_manifold_lookup_witness :
  set_L_by_manifold 2 (fun i j => 10 * i + j) !! manifold_key 1 2 = Some 12.
Proof.
  apply (proj2 (proj2 (set_L_by_manifold_lookup 2 (fun i j => 10 * i + j)))); lia.
Defined.

(** ** Further behaviour of the eigensystem solver *)

Definition reshape_error : py_exception := PyExc "ValueError" "cannot reshape array".

(** the state of the loop of [eigfun] when the number of eigenvalues is not
    a perfect square: an [n x n] array, or the error of a failed reshape *)
Definition eigfun_loop_state (n : nat) (acc : result (farray Mat)) : Prop :=
  (exists V, acc = Ok (Finite V) /\ wf_mat n n V) \/ acc = Raise reshape_error.

(** Without [populations_only] and for a number of eigenvalues that is not
    a perfect square, a column of a zero eigenvalue fails in reshape, before
    any division; the other columns only get the sign convention. *)
Lemma eigfun_column_non_square (eigvals : Vec) (n i : nat) (col : Vec) :
  length eigvals = n -> length col = n -> Nat.sqrt n * Nat.sqrt n <> n ->
  eigfun_column false eigvals i col =
  if Ceq_b (nth i eigvals 0%C) 0%C then Raise reshape_error
  else Ok (Finite (sign_convention col)).
Proof.
  intros Hlen Hcol Hsq. unfold eigfun_column.
  destruct (Ceq_b _ _); [|reflexivity].
  unfold py_reshape, reshape. rewrite length_sign_convention, Hcol, Hlen.
  destruct (Nat.eqb_spec n (Nat.sqrt n * Nat.sqrt n)) as [E|_]; [lia|reflexivity].
Qed.

Lemma eigfun_step_state (eigvals : Vec) (n i : nat) (acc : result (farray Mat)) :
  length eigvals = n -> Nat.sqrt n * Nat.sqrt n <> n ->
  eigfun_loop_state n acc ->
  eigfun_loop_state n (eigfun_step false eigvals acc i).
Proof.
  intros Hlen Hsq [(V & -> & HV)| ->]; [|now right].
  unfold eigfun_step. cbn [mbind result_bind].
  rewrite (eigfun_column_non_square eigvals n i (column V i) Hlen) by
    (try assumption; rewrite length_column; now destruct HV).
  destruct (Ceq_b _ _); cbn [mbind result_bind]; [now right|].
  left. eexists. split; [reflexivity|]. apply wf_set_column; [assumption|].
  rewrite length_sign_convention, length_column. now destruct HV.
Qed.

Lemma eigfun_fold_state (eigvals : Vec) (n : nat) (l : list nat)
      (acc : result (farray Mat)) :
  length eigvals = n -> Nat.sqrt n * Nat.sqrt n <> n ->
  eigfun_loop_state n acc ->
  eigfun_loop_state n (fold_left (eigfun_step false eigvals) l acc).
Proof.
  intros Hlen Hsq. revert acc. induction l as [|i l IH]; intros acc Hacc; [exact Hacc|].
  cbn [fold_left]. apply IH. now apply eigfun_step_state.
Qed.

Lemma eigfun_fold_raise (p : bool) (eigvals : Vec) (l : list nat) (e : py_exception) :
  fold_left (eigfun_step p eigvals) l (Raise e) = Raise e.
Proof. induction l as [|i l IH]; [reflexivity|]. cbn [fold_left]. exact IH. Qed.

Lemma eigfun_loop_non_square (eigvals : Vec) (V : Mat) (n i : nat) :
  length eigvals = n -> wf_mat n n V -> i < n -> nth i eigvals 0%C = 0%C ->
  Nat.sqrt n * Nat.sqrt n <> n ->
  eigfun_loop false eigvals V = Raise reshape_error.
Proof.
  intros Hlen HV Hi Hzero Hsq. unfold eigfun_loop. rewrite Hlen.
  replace n with (i + S (n - S i)) at 1 by lia.
  rewrite seq_app, fold_left_app. cbn [seq fold_left]. rewrite Nat.add_0_l.
  destruct (eigfun_fold_state eigvals n (seq 0 i) (Ok (Finite V)) Hlen Hsq)
    as [(Vi & -> & HVi)| ->].
  - left. now exists V.
  - assert (Hstep : eigfun_step false eigvals (Ok (Finite Vi)) i = Raise reshape_error).
    { unfold eigfun_step. cbn [mbind result_bind].
      rewrite (eigfun_column_non_square eigvals n i (column Vi i) Hlen) by
        (try assumption; rewrite length_column; now destruct HVi).
      now rewrite (proj2 (Ceq_b_true_iff _ _) Hzero). }
    rewrite Hstep. apply eigfun_fold_raise.
  - simpl. apply eigfun_fold_raise.
Qed.

Section EigfunErrors.
Variable eig : Mat -> Vec * Mat.
Variable round12 : C -> C.
Variable argsort : Vec -> list nat.
Variable pinv : Mat -> Mat.

(** X11. With [populations_only = False], [eigfun] raises the [ValueError]
    of [reshape] when the Liouvillian has an eigenvalue that rounds to 0
    and its size is not a perfect square, as for the block of a coherence
    between two manifolds of different dimensions. *)
Theorem eigfun_raises_on_non_square (L : Mat) (check_eigenvectors invert : bool)
        (n i : nat) :
  let eigvals := fst (sorted_eig eig round12 argsort L) in
  let V := snd (sorted_eig eig round12 argsort L) in
  length eigvals = n -> wf_mat n n V -> i < n -> nth i eigvals 0%C = 0%C ->
  Nat.sqrt n * Nat.sqrt n <> n ->
  eigfun eig round12 argsort pinv L check_eigenvectors invert false =
  Raise reshape_error.
Proof.
  intros eigvals V Hlen HV Hi Hzero Hsq. unfold eigfun.
  subst eigvals V. destruct (sorted_eig eig round12 argsort L) as [eigvals V].
  cbn [fst snd] in *.
  now rewrite (eigfun_loop_non_square eigvals V n i).
Qed.
End EigfunErrors.

Definition eig_zero_two (L : Mat) : Vec * Mat := ([0%C; 0%C], eye 2).

Lemma eigfun_raises_on_non_square_witness :
  eigfun eig_zero_two round_exact argsort_sorted pinv_sample (zeros 2 2) true true false =
  Raise reshape_error.
Proof.
  apply (eigfun_raises_on_non_square eig_zero_two round_exact argsort_sorted pinv_sample
           (zeros 2 2) true true 2 0).
  - reflexivity.
  - split; [reflexivity|repeat constructor].
  - lia.
  - reflexivity.
  - simpl. lia.
Defined.

Lemma Cmod_negate (x : C) : Cmod (x * RtoC (-1))%C = Cmod x.
Proof. unfold Cmod. destruct x as [a b]. simpl. f_equal. ring. Qed.

Lemma map_Cmod_negate (col : Vec) :
  map Cmod (map (fun x => (x * RtoC (-1))%C) col) = map Cmod col.
Proof. rewrite map_map. apply map_ext. intros x. apply Cmod_negate. Qed.

Lemma nth_negate (col : Vec) (k : nat) :
  nth k (map (fun x => (x * RtoC (-1))%C) col) 0%C = (nth k col 0 * RtoC (-1))%C.
Proof.
  rewrite <- (map_nth (fun x => (x * RtoC (-1))%C) col 0%C k).
  f_equal. cring.
Qed.

(** X12. The sign convention of [eigfun] keeps the moduli of the
    components, leaves the real part of the component of largest modulus
    non-negative, and changes nothing when applied a second time. *)
Theorem sign_convention_spec (col : Vec) :
  let col' := sign_convention col in
  map Cmod col' = map Cmod col /\
  (0 <= Re (nth (argmax (map Cmod col')) col' 0%C))%R /\
  sign_convention col' = col'.
Proof.
  cbn zeta.
  assert (Hmod : map Cmod (sign_convention col) = map Cmod col).
  { destruct (sign_convention_cases col) as [->| ->]; [reflexivity|apply map_Cmod_negate]. }
  assert (Hpos : (0 <= Re (nth (argmax (map Cmod (sign_convention col)))
                               (sign_convention col) 0%C))%R).
  { rewrite Hmod. unfold sign_convention, Rlt_b.
    destruct (Rlt_dec (Re (nth (argmax (map Cmod col)) col 0%C)) 0) as [E|E].
    - rewrite nth_negate.
      destruct (nth (argmax (map Cmod col)) col 0%C) as [a b].
      unfold Re in *. simpl in *. lra.
    - lra. }
  split; [exact Hmod|]. split; [exact Hpos|].
  unfold sign_convention at 1. unfold Rlt_b.
  destruct (Rlt_dec _ 0) as [E|E]; [lra|reflexivity].
Qed.

Lemma nth_alter_map {A : Type} (g : A -> A) (l : list (list A)) (i j : nat) :
  nth j (alter (map g) i l) [] = if Nat.eqb i j then map g (nth j l []) else nth j l [].
Proof.
  rewrite !nth_lookup. destruct (Nat.eqb_spec i j) as [->|Hne].
  - rewrite list_lookup_alter_eq. now destruct (l !! j).
  - now rewrite list_lookup_alter_ne.
Qed.

Lemma vdot_scale_l (c : C) (u v : Vec) :
  vdot (map (fun x => (x * c)%C) u) v = (vdot u v * c)%C.
Proof.
  unfold vdot, vsum. revert v. induction u as [|x u IH]; intros [|y v]; simpl; try ring.
  rewrite IH. ring.
Qed.

(** The loop of [eigfun] that scales the rows of the left eigenvectors: when
    it leaves a finite array, no product was 0 and every row was scaled. *)
Lemma left_normalisation_rows (V W0 W : Mat) (m : nat) :
  fold_left (scale_left_row V) (seq 0 m) (Finite W0) = Finite W ->
  forall i,
    (i < m -> vdot (nth i W0 []) (column V i) <> 0%C) /\
    nth i W [] =
    if Nat.ltb i m
    then map (fun x => (x * Cdiv 1 (vdot (nth i W0 []) (column V i)))%C) (nth i W0 [])
    else nth i W0 [].
Proof.
  revert W. induction m as [|m IH]; intros W HW i.
  - injection HW as <-. split; [lia|reflexivity].
  - rewrite seq_S, fold_left_app in HW. cbn [fold_left Nat.add] in HW.
    destruct (fold_left (scale_left_row V) (seq 0 m) (Finite W0)) as [Wm|];
      [|discriminate HW].
    specialize (IH Wm eq_refl). cbn [scale_left_row] in HW.
    assert (Hm : nth m Wm [] = nth m W0 []).
    { destruct (IH m) as [_ ->]. now rewrite Nat.ltb_irrefl. }
    rewrite Hm in HW.
    destruct (Ceq_b (vdot (nth m W0 []) (column V m)) 0%C) eqn:E; [discriminate HW|].
    apply Ceq_b_false_iff in E. injection HW as <-.
    destruct (IH i) as [IHne IHrow]. split.
    + intros Hi. destruct (Nat.eq_dec i m) as [->|Hne]; [exact E|]. apply IHne. lia.
    + rewrite nth_alter_map. destruct (Nat.eqb_spec m i) as [->|Hne].
      * rewrite Hm. destruct (Nat.ltb_spec i (S i)); [reflexivity|lia].
      * rewrite IHrow.
        destruct (Nat.ltb_spec i m), (Nat.ltb_spec i (S m)); try lia; reflexivity.
Qed.

Section EigfunLeft.
Variable eig : Mat -> Vec * Mat.
Variable round12 : C -> C.
Variable argsort : Vec -> list nat.
Variable pinv : Mat -> Mat.

(** X13. With [invert = False] the left eigenvectors returned by [eigfun]
    are the rows of the transposed sorted eigenvectors of [L.T], each scaled
    so that its (unconjugated) product with the right eigenvector of the
    same index is 1, whenever that product was not 0 before the scaling. *)
Theorem eigfun_left_eigenvectors_normalised (L : Mat)
        (check_eigenvectors populations_only : bool) (res : eigfun_result) (i : nat) :
  let W0 := mat_T (snd (sorted_eig eig round12 argsort (mat_T L))) in
  let m := length (fst (sorted_eig eig round12 argsort (mat_T L))) in
  eigfun eig round12 argsort pinv L check_eigenvectors false populations_only
  = Ok (Finite res) ->
  i < m ->
  vdot (nth i W0 []) (column (eigvecs_of res) i) <> 0%C ->
  nth i (eigvecs_left_of res) [] =
    map (fun x => Cdiv x (vdot (nth i W0 []) (column (eigvecs_of res) i))) (nth i W0 []) /\
  vdot (nth i (eigvecs_left_of res) []) (column (eigvecs_of res) i) = 1%C.
Proof.
  intros W0 m Hres Hi Hnorm. unfold eigfun in Hres.
  destruct (sorted_eig eig round12 argsort L) as [eigvals V0].
  destruct (eigfun_loop populations_only eigvals V0) as [[V|]|e]; try discriminate.
  cbn [mbind result_bind] in Hres.
  subst W0 m. destruct (sorted_eig eig round12 argsort (mat_T L)) as [eigvals_left VL].
  cbn [fst snd] in *.
  destruct (fold_left (scale_left_row V) (seq 0 (length eigvals_left))
                      (Finite (mat_T VL))) as [W|] eqn:EW; [|discriminate].
  injection Hres as <-. cbn [eigvecs_left_of eigvecs_of] in *.
  destruct (left_normalisation_rows V (mat_T VL) W _ EW i) as [_ ->].
  rewrite (proj2 (Nat.ltb_lt _ _) Hi).
  split.
  - apply map_ext. intros x. unfold Cdiv.
    generalize (Cinv (vdot (nth i (mat_T VL) []) (column V i))). intros y.
    destruct x, y. cring.
  - rewrite vdot_scale_l.
    set (t := vdot (nth i (mat_T VL) []) (column V i)) in *.
    transitivity (Cdiv t t); [|exact (Cdiv_diag t Hnorm)]. unfold Cdiv.
    generalize (Cinv t). intros y. clearbody t. destruct t, y. cring.
Qed.
End EigfunLeft.

Lemma eigfun_left_eigenvectors_normalised_witness :
  exists res,
    eigfun eig_one_by_one round_exact argsort_sorted pinv_sample [[0%C]] false false true
    = Ok (Finite res) /\
    vdot (nth 0 (eigvecs_left_of res) []) (column (eigvecs_of res) 0) = 1%C.
Proof.
  destruct (eigfun_loop_value true [0%C] [[RtoC 2]] 1)
    as [[_ (i & Hi & _ & Ht)]|(V' & HV' & Hwf & Hcols)];
    [reflexivity|split; [reflexivity|repeat constructor]|discriminate| |].
  { exfalso. replace i with 0 in Ht by lia. exact (trace_norm_one_by_one true Ht). }
  destruct (Hcols 0) as [H1 _]; [lia|].
  destruct H1 as (_ & _ & Hsum); [reflexivity|].
  assert (Hlen : length (column V' 0) = 1).
  { rewrite length_column. now destruct Hwf. }
  assert (Hnorm : vdot (nth 0 (mat_T [[RtoC 2]]) []) (column V' 0) <> 0%C).
  { destruct (column V' 0) as [|x [|y c]]; try discriminate.
    intros H. destruct x as [a b].
    apply (f_equal fst) in Hsum. apply (f_equal fst) in H.
    cbv -[Rplus Rmult Rminus Ropp IZR] in Hsum, H. lra. }
  assert (Hres : exists res,
             eigfun eig_one_by_one round_exact argsort_sorted pinv_sample [[0%C]]
                    false false true = Ok (Finite res) /\ eigvecs_of res = V').
  { unfold eigfun. rewrite sorted_eig_one_by_one, HV'. cbn [mbind result_bind].
    change (sorted_eig eig_one_by_one round_exact argsort_sorted (mat_T [[0%C]]))
      with ([0%C], [[RtoC 2]]).
    cbn [length seq fold_left scale_left_row].
    rewrite (proj2 (Ceq_b_false_iff _ _) Hnorm).
    eexists. split; reflexivity. }
  destruct Hres as (res & Hres & HV).
  exists res. split; [exact Hres|].
  apply (eigfun_left_eigenvectors_normalised eig_one_by_one round_exact argsort_sorted
           pinv_sample [[0%C]] false true res 0 Hres).
  - simpl. lia.
  - rewrite HV. exact Hnorm.
Defined.

(** ** Lindblad instructions for a coherence between two manifolds *)

(** [make_Lindblad_instructions2(gamma,Oket,Obra)] *)
Definition make_Lindblad_instructions2 (gamma : C) (Oket Obra : Mat) : list instruction :=
  let IIket := eye (nrows Oket) in
  let IIbra := eye (nrows Obra) in
  let Oketd := mat_conj (mat_T Oket) in
  let Obrad := mat_conj (mat_T Obra) in
  let left_ := mat_scale (Cdivr gamma 2) (mat_divr (mat_neg (mat_dot Oketd Oket)) 2) in
  let right_ := mat_scale (Cdivr gamma 2) (mat_divr (mat_neg (mat_dot Obrad Obra)) 2) in
  [(mat_divr (mat_scale gamma Oket) 2, Obrad); (left_, IIbra); (IIket, right_)].

(** [make_Lindblad_instructions2_Obra0(gamma,Oket,Obra)] *)
Definition make_Lindblad_instructions2_Obra0 (gamma : C) (Oket Obra : Mat)
  : list instruction :=
  let IIbra := eye (nrows Obra) in
  let Oketd := mat_conj (mat_T Oket) in
  let left_ := mat_scale (Cdivr gamma 2) (mat_divr (mat_neg (mat_dot Oketd Oket)) 2) in
  [(left_, IIbra)].

(** [make_Lindblad_instructions2_Oket0(gamma,Oket,Obra)] *)
Definition make_Lindblad_instructions2_Oket0 (gamma : C) (Oket Obra : Mat)
  : list instruction :=
  let IIket := eye (nrows Oket) in
  let Obrad := mat_conj (mat_T Obra) in
  let right_ := mat_scale (Cdivr gamma 2) (mat_divr (mat_neg (mat_dot Obrad Obra)) 2) in
  [(IIket, right_)].

(** X14. With the same operator on the ket and the bra side,
    [make_Lindblad_instructions2(gamma,O,O)] is the list of
    [make_Lindblad_instructions(gamma/2,O)]: the two-sided form carries half
    the rate. *)
Theorem make_Lindblad_instructions2_same_operator (gamma : C) (O : Mat) :
  make_Lindblad_instructions2 gamma O O = make_Lindblad_instructions (Cdivr gamma 2) O.
Proof.
  unfold make_Lindblad_instructions2, make_Lindblad_instructions.
  do 2 f_equal. unfold mat_divr, mat_scale. rewrite map_map.
  apply map_ext. intros row. rewrite map_map. apply map_ext. intros x.
  symmetry. apply Cmult_Cdivr_l.
Qed.

(** arrays all of whose entries are 0 *)
Definition zero_entries (M : Mat) : Prop := forall i j, entry M i j = 0%C.

Lemma zero_entries_zeros (r c : nat) : zero_entries (zeros r c).
Proof. intros i j. apply entry_zeros. Qed.

Lemma zero_entries_map (f : C -> C) (M : Mat) :
  f 0%C = 0%C -> zero_entries M -> zero_entries (map (map f) M).
Proof. intros Hf HM i j. rewrite entry_map_map by assumption. now rewrite HM. Qed.

Lemma zero_entries_T (r c : nat) (M : Mat) :
  wf_mat r c M -> zero_entries M -> zero_entries (mat_T M).
Proof. intros Hwf HM i j. rewrite (entry_T r c) by assumption. apply HM. Qed.

Lemma zero_entries_dot_r (r k c : nat) (A B : Mat) :
  wf_mat r k A -> wf_mat k c B -> zero_entries B ->
  forall i j, i < r -> j < c -> entry (mat_dot A B) i j = 0%C.
Proof.
  intros HA HB HZ i j Hi Hj. rewrite (entry_dot r k c) by assumption.
  rewrite (Csum_ext _ (fun _ => 0%C)); [apply Csum_zero|].
  intros l _. rewrite HZ. ring.
Qed.

Lemma index_div_mod (a r : nat) : 0 < r -> a = a / r * r + a mod r.
Proof. intros Hr. rewrite Nat.mul_comm. apply Nat.div_mod_eq. Qed.

Lemma entry_kron_zero (r1 c1 r2 c2 : nat) (A B : Mat) (a b : nat) :
  wf_mat r1 c1 A -> wf_mat r2 c2 B ->
  (forall i j, i < r1 -> j < c1 -> entry A i j = 0%C) \/
  (forall i j, i < r2 -> j < c2 -> entry B i j = 0%C) ->
  a < r1 * r2 -> b < c1 * c2 -> entry (kron A B) a b = 0%C.
Proof.
  intros HA HB HZ Ha Hb.
  assert (Hr2 : 0 < r2) by nia. assert (Hc2 : 0 < c2) by nia.
  assert (Ha1 : a / r2 < r1) by (apply Nat.Div0.div_lt_upper_bound; nia).
  assert (Hb1 : b / c2 < c1) by (apply Nat.Div0.div_lt_upper_bound; nia).
  assert (Ha2 : a mod r2 < r2) by (apply Nat.mod_upper_bound; lia).
  assert (Hb2 : b mod c2 < c2) by (apply Nat.mod_upper_bound; lia).
  rewrite (index_div_mod a r2 Hr2) at 1. rewrite (index_div_mod b c2 Hc2) at 1.
  rewrite (entry_kron r1 c1 r2 c2) by assumption.
  destruct HZ as [HZ|HZ]; rewrite HZ by assumption; ring.
Qed.

Section ZeroBra.
Variables dk db : nat.
Variable gamma : C.
Variable O : Mat.
Hypothesis Hdk : 0 < dk.
Hypothesis Hdb : 0 < db.
Hypothesis HO : wf_mat dk dk O.

Let Z : Mat := zeros db db.
Let Od : Mat := mat_conj (mat_T O).
Let Zd : Mat := mat_conj (mat_T Z).
Let half_decay (X Xd : Mat) : Mat :=
  mat_scale (Cdivr gamma 2) (mat_divr (mat_neg (mat_dot Xd X)) 2).

Lemma wf_dagger (d : nat) (X : Mat) :
  0 < d -> wf_mat d d X -> wf_mat d d (mat_conj (mat_T X)).
Proof. intros Hd HX. apply wf_map_map. now apply wf_mat_T. Qed.

Lemma wf_half_decay (d : nat) (X : Mat) :
  0 < d -> wf_mat d d X -> wf_mat d d (half_decay X (mat_conj (mat_T X))).
Proof.
  intros Hd HX. unfold half_decay. do 3 apply wf_map_map.
  apply (wf_mat_dot d d d); [now apply wf_dagger|assumption|assumption].
Qed.

Lemma half_decay_zero (i j : nat) :
  i < db -> j < db -> entry (half_decay Z Zd) i j = 0%C.
Proof.
  intros Hi Hj. unfold half_decay.
  rewrite entry_scale, entry_divr, entry_neg.
  rewrite (zero_entries_dot_r db db db Zd Z); try assumption.
  - apply C_eq; simpl; unfold Rdiv; ring.
  - apply wf_dagger; [assumption|apply wf_zeros].
  - apply wf_zeros.
  - apply zero_entries_zeros.
Qed.

Lemma zero_dagger : zero_entries Zd.
Proof.
  apply zero_entries_map; [cring|].
  apply (zero_entries_T db db); [apply wf_zeros|apply zero_entries_zeros].
Qed.

(** With a zero operator on the bra side only the ket-side decay term of
    the three instructions contributes. *)
Lemma Liouvillian_zero_bra :
  make_Liouvillian (make_Lindblad_instructions2 gamma O Z) =
  make_Liouvillian (make_Lindblad_instructions2_Obra0 gamma O Z).
Proof.
  unfold make_Lindblad_instructions2, make_Lindblad_instructions2_Obra0, make_Liouvillian.
  cbn [fold_left]. fold Od Zd. fold (half_decay O Od) (half_decay Z Zd).
  assert (Hrows : nrows Z = db) by apply repeat_length.
  assert (HrowsO : nrows O = dk) by now destruct HO.
  rewrite Hrows, HrowsO.
  set (T1 := kron (mat_divr (mat_scale gamma O) 2) (mat_T Zd)).
  set (T2 := kron (half_decay O Od) (mat_T (eye db))).
  set (T3 := kron (eye dk) (mat_T (half_decay Z Zd))).
  assert (HwfZd : wf_mat db db Zd) by (apply wf_dagger; [assumption|apply wf_zeros]).
  assert (HwfhZ : wf_mat db db (half_decay Z Zd))
    by (apply wf_half_decay; [assumption|apply wf_zeros]).
  assert (H1 : wf_mat (dk * db) (dk * db) T1).
  { apply wf_kron; [now do 2 apply wf_map_map|now apply wf_mat_T]. }
  assert (H2 : wf_mat (dk * db) (dk * db) T2).
  { apply wf_kron; [now apply wf_half_decay|apply wf_mat_T; [apply wf_eye|assumption]]. }
  assert (H3 : wf_mat (dk * db) (dk * db) T3).
  { apply wf_kron; [apply wf_eye|now apply wf_mat_T]. }
  f_equal. apply (mat_ext (dk * db) (dk * db)); [auto using wf_mat_add..|].
  intros a b Ha Hb.
  rewrite (entry_add (dk * db) (dk * db)) by (auto using wf_mat_add).
  rewrite (entry_add (dk * db) (dk * db)) by assumption.
  unfold T1 at 1, T3 at 1.
  rewrite (entry_kron_zero dk dk db db (mat_divr (mat_scale gamma O) 2) (mat_T Zd));
    try assumption.
  - rewrite (entry_kron_zero dk dk db db (eye dk) (mat_T (half_decay Z Zd)));
      try assumption; [ring|apply wf_eye|now apply wf_mat_T|].
    right. intros i j Hi Hj. rewrite (entry_T db db) by assumption.
    now apply half_decay_zero.
  - now do 2 apply wf_map_map.
  - now apply wf_mat_T.
  - right. intros i j _ _. apply (zero_entries_T db db); [assumption|apply zero_dagger].
Qed.
End ZeroBra.

(** X15. When the bra operator is an array of zeros, as in
    [all_eigenstate_decoherence_instructions_by_coherence], the single
    instruction of [make_Lindblad_instructions2_Obra0] gives the same
    Liouvillian as the three instructions of [make_Lindblad_instructions2]. *)
Theorem make_Lindblad_instructions2_Obra0_spec (dk db : nat) (gamma : C) (Oket : Mat) :
  0 < dk -> 0 < db -> wf_mat dk dk Oket ->
  make_Liouvillian (make_Lindblad_instructions2 gamma Oket (zeros db db)) =
  make_Liouvillian (make_Lindblad_instructions2_Obra0 gamma Oket (zeros db db)) /\
  exists L, make_Liouvillian (make_Lindblad_instructions2_Obra0 gamma Oket (zeros db db))
            = Ok L /\ wf_mat (dk * db) (dk * db) L.
Proof.
  intros Hdk Hdb HO. split; [now apply (Liouvillian_zero_bra dk db)|].
  eexists. split; [reflexivity|].
  unfold nrows. rewrite (repeat_length _ db : length (zeros db db) = db).
  apply wf_kron.
  - now apply (wf_half_decay gamma dk Oket).
  - apply wf_mat_T; [apply wf_eye|assumption].
Qed.

Lemma make_Lindblad_instructions2_Obra0_witness :
  make_Liouvillian (make_Lindblad_instructions2 (RtoC 0.5) up (zeros 1 1)) =
  make_Liouvillian (make_Lindblad_instructions2_Obra0 (RtoC 0.5) up (zeros 1 1)).
Proof.
  apply (make_Lindblad_instructions2_Obra0_spec 2 1 (RtoC 0.5) up).
  - lia.
  - lia.
  - split; [reflexivity|repeat constructor].
Defined.

(** ** Vibrational occupation numbers *)

(** [np.arange(N)] *)
Definition arange (N : nat) : list Z := map Z.of_nat (seq 0 N).

(** [vibrational_vector_of_ones_kron(position,item)] *)
Definition vibrational_vector_of_ones_kron (truncation_size num_vibrations : nat)
           (position : nat) (item : list Z) : list Z :=
  let N := truncation_size in
  let nv := num_vibrations in
  let ones_list := repeat (repeat 1%Z N) (nv - 1) in
  let ones_list := py_insert ones_list position item in
  match ones_list with
  | [] => []
  | vec :: ones_list => fold_left zkron ones_list vec
  end.

(** [np.where(occ < bound)[0]] *)
Definition where_lt (occ : list Z) (bound : Z) : list nat :=
  List.filter (fun i => Z.ltb (nth i occ 0%Z) bound) (seq 0 (length occ)).

(** [set_vibrational_total_occupation_number()]: the values stored in
    [self.vibrational_total_occupation_number] and [self.vibrational_mask] *)
Definition set_vibrational_total_occupation_number (truncation_size num_vibrations : nat)
  : list Z * list nat :=
  let N := truncation_size in
  let nv := num_vibrations in
  let single_mode_occ := arange N in
  let occ_num := vibrational_vector_of_ones_kron N nv 0 single_mode_occ in
  let occ_num :=
    fold_left (fun occ_num i =>
                 zip_with Z.add occ_num
                          (vibrational_vector_of_ones_kron N nv i single_mode_occ))
              (seq 1 (nv - 1)) occ_num in
  (occ_num, where_lt occ_num (Z.of_nat N)).

(** the index of the state with the occupations [ds] of the modes, in the
    order of [np.kron] *)
Definition digits_index (N : nat) (ds : list nat) : nat :=
  fold_left (fun acc d => N * acc + d) ds 0.

Lemma digits_index_snoc (N : nat) (ds : list nat) (d : nat) :
  digits_index N (ds ++ [d]) = digits_index N ds * N + d.
Proof. unfold digits_index. rewrite fold_left_app. cbn [fold_left]. lia. Qed.

Lemma digits_index_lt (N : nat) (ds : list nat) :
  Forall (fun d => d < N) ds -> digits_index N ds < N ^ length ds.
Proof.
  induction ds as [|d ds IH] using rev_ind; intros H.
  - unfold digits_index. simpl. lia.
  - apply Forall_app in H as [Hds Hd]. apply Forall_cons in Hd as [Hd _].
    specialize (IH Hds).
    rewrite digits_index_snoc, length_app. simpl length.
    replace (length ds + 1) with (S (length ds)) by lia. rewrite Nat.pow_succ_r'. nia.
Qed.

Lemma digits_index_surjective (N k a : nat) :
  a < N ^ k -> exists ds, length ds = k /\ Forall (fun d => d < N) ds /\ digits_index N ds = a.
Proof.
  revert a. induction k as [|k IH]; intros a Ha.
  - exists []. simpl in Ha. repeat split; [constructor|unfold digits_index; simpl; lia].
  - rewrite Nat.pow_succ_r' in Ha.
    assert (HN : 0 < N) by (destruct N; simpl in Ha; lia).
    destruct (IH (a / N)) as (ds & Hlen & Hall & Hidx).
    { apply Nat.Div0.div_lt_upper_bound. lia. }
    exists (ds ++ [a mod N]). split; [rewrite length_app; simpl; lia|]. split.
    + apply Forall_app. split; [assumption|].
      constructor; [apply Nat.mod_upper_bound; lia|constructor].
    + rewrite digits_index_snoc, Hidx. symmetry. apply index_div_mod. lia.
Qed.

(** The entry of a Kronecker chain of vectors of length [N] at the index of
    the occupations [ds] is the product of the components. *)
Lemma nth_zkron_chain_radix (N : nat) (vs : list (list Z)) :
  vs <> [] -> Forall (fun v => length v = N) vs ->
  length (zkron_left_to_right vs) = N ^ length vs /\
  forall ds : list nat,
    length ds = length vs -> Forall (fun d => d < N) ds ->
    nth (digits_index N ds) (zkron_left_to_right vs) 0%Z =
    Zprod (fun p => nth (nth p ds 0) (nth p vs []) 0%Z) (length vs).
Proof.
  induction vs as [|v vs IH] using rev_ind; [congruence|]. intros _ Hall.
  apply Forall_app in Hall as [Hvs Hv]. apply Forall_cons in Hv as [Hv _].
  assert (Hcase : vs = [] \/ vs <> []) by (destruct vs; [now left|now right]).
  destruct Hcase as [->|Hne].
  - simpl. split; [lia|].
    intros [|d [|? ?]] Hds _; try discriminate.
    unfold digits_index. simpl. replace (N * 0 + d) with d by lia. lia.
  - destruct (IH Hne Hvs) as [Hlen Hent].
    rewrite zkron_left_to_right_snoc by assumption.
    rewrite length_app. simpl length.
    replace (length vs + 1) with (S (length vs)) by lia.
    split.
    + rewrite length_zkron, Hlen, Hv, Nat.pow_succ_r'. lia.
    + intros ds Hds Hall.
      destruct (list_snoc_inv ds _ Hds) as (ds0 & d & -> & Hds0).
      apply Forall_app in Hall as [Hall0 Hd]. apply Forall_cons in Hd as [Hd _].
      rewrite digits_index_snoc.
      assert (E := nth_zkron (zkron_left_to_right vs) v (digits_index N ds0) d).
      rewrite Hv in E. rewrite E;
        [|rewrite Hlen, <- Hds0; now apply digits_index_lt|exact Hd].
      rewrite Hent by assumption. cbn [Zprod]. f_equal.
      * apply Zprod_ext. intros p Hp. now rewrite !app_nth1 by lia.
      * rewrite !app_nth2 by lia. rewrite Hds0, !Nat.sub_diag. reflexivity.
Qed.

Lemma nth_arange (N d : nat) : d < N -> nth d (arange N) 0%Z = Z.of_nat d.
Proof. intros Hd. unfold arange. now rewrite nth_map_seq. Qed.

(** The vector of the occupation of mode [i]. *)
Lemma vibrational_vector_of_ones_kron_value (N nv i : nat) :
  i < nv ->
  length (vibrational_vector_of_ones_kron N nv i (arange N)) = N ^ nv /\
  forall ds : list nat,
    length ds = nv -> Forall (fun d => d < N) ds ->
    nth (digits_index N ds) (vibrational_vector_of_ones_kron N nv i (arange N)) 0%Z =
    Z.of_nat (nth i ds 0).
Proof.
  intros Hi. unfold vibrational_vector_of_ones_kron. cbv zeta.
  set (l := py_insert (repeat (repeat 1%Z N) (nv - 1)) i (arange N)).
  change (match l with [] => [] | vec :: ones_list => fold_left zkron ones_list vec end)
    with (zkron_left_to_right l).
  assert (Hlen : length l = nv).
  { unfold l. rewrite length_py_insert, repeat_length. lia. }
  assert (Hnth : forall p, p < nv ->
                   nth p l [] = if Nat.eqb i p then arange N else repeat 1%Z N).
  { intros p Hp. unfold l. apply nth_py_insert_repeat; lia. }
  assert (HallN : Forall (fun w => length w = N) l).
  { unfold l. apply Forall_py_insert.
    - apply List.Forall_forall. intros w Hw. apply repeat_spec in Hw. subst w.
      apply repeat_length.
    - unfold arange. now rewrite length_map, length_seq. }
  destruct (nth_zkron_chain_radix N l) as [Hlen' Hent];
    [intros E; rewrite E in Hlen; simpl in Hlen; lia|exact HallN|].
  rewrite Hlen in Hlen'. split; [exact Hlen'|].
  intros ds Hds Hall.
  rewrite Hent by (assumption || lia). rewrite Hlen.
  rewrite (Zprod_ext _ (fun p => if Nat.eqb i p then Z.of_nat (nth i ds 0) else 1%Z)).
  - now apply Zprod_single.
  - intros p Hp. rewrite Hnth by assumption.
    assert (Hdp : nth p ds 0 < N).
    { rewrite List.Forall_forall in Hall. apply Hall. apply nth_In. lia. }
    destruct (Nat.eqb_spec i p) as [->|_].
    + now apply nth_arange.
    + now apply nth_repeat_lt.
Qed.

Lemma Zsum_list_sum (ds : list nat) : Zsum (map Z.of_nat ds) = Z.of_nat (list_sum ds).
Proof.
  unfold Zsum. induction ds as [|d ds IH]; [reflexivity|].
  change (list_sum (d :: ds)) with (d + list_sum ds).
  cbn [map fold_right]. rewrite IH. lia.
Qed.

Lemma in_where_lt (occ : list Z) (bound : Z) (idx : nat) :
  In idx (where_lt occ bound) <-> idx < length occ /\ (nth idx occ 0 < bound)%Z.
Proof.
  unfold where_lt. rewrite filter_In, in_seq, Z.ltb_lt. intuition lia.
Qed.

(** X16. [set_vibrational_total_occupation_number] for [nv >= 1] modes
    truncated at [N] levels: the stored vector has [N^nv] entries, every
    index is the index of some occupations [ds] of the modes, the entry at
    that index is the total number of vibrational quanta, and the
    vibrational mask holds exactly the indices with fewer than [N] quanta. *)
Theorem vibrational_total_occupation_number_spec (N nv : nat) :
  1 <= nv ->
  let occ_num := fst (set_vibrational_total_occupation_number N nv) in
  let mask := snd (set_vibrational_total_occupation_number N nv) in
  length occ_num = N ^ nv /\
  (forall a, a < N ^ nv ->
     exists ds, length ds = nv /\ Forall (fun d => d < N) ds /\ digits_index N ds = a) /\
  forall ds, length ds = nv -> Forall (fun d => d < N) ds ->
    nth (digits_index N ds) occ_num 0%Z = Z.of_nat (list_sum ds) /\
    (In (digits_index N ds) mask <-> list_sum ds < N).
Proof.
  intros Hnv. unfold set_vibrational_total_occupation_number. cbn [fst snd].
  set (V := fun i => vibrational_vector_of_ones_kron N nv i (arange N)).
  set (occ := fold_left (fun occ_num i => zip_with Z.add occ_num (V i))
                        (seq 1 (nv - 1)) (V 0)).
  assert (Hshape : forall i, i < nv -> length (V i) = N ^ nv).
  { intros i Hi. apply (vibrational_vector_of_ones_kron_value N nv i Hi). }
  assert (Hlen : length occ = N ^ nv).
  { unfold occ. clear occ.
    assert (G : forall l acc, length acc = N ^ nv -> (forall i, In i l -> i < nv) ->
                length (fold_left (fun occ_num i => zip_with Z.add occ_num (V i)) l acc)
                = N ^ nv).
    { induction l as [|i l IH]; intros acc Hacc Hl; [exact Hacc|].
      cbn [fold_left]. apply IH.
      - rewrite length_zip_with, Hacc, Hshape by (apply Hl; now left). lia.
      - intros j Hj. apply Hl. now right. }
    apply G; [apply Hshape; lia|]. intros i Hi. apply in_seq in Hi. lia. }
  split; [exact Hlen|]. split; [apply digits_index_surjective|].
  intros ds Hds Hall.
  assert (Ha : digits_index N ds < N ^ nv) by (rewrite <- Hds; now apply digits_index_lt).
  assert (Hval : nth (digits_index N ds) occ 0%Z = Z.of_nat (list_sum ds)).
  { destruct (nth_fold_zip_with_add (N ^ nv) (digits_index N ds) V
                (seq 1 (nv - 1)) (V 0) Ha) as [_ Hv].
    - apply Hshape. lia.
    - intros i Hi. apply in_seq in Hi. apply Hshape. lia.
    - fold occ in Hv. rewrite Hv. rewrite <- Zsum_list_sum.
      assert (E : map Z.of_nat ds =
                  map (fun i => Z.of_nat (nth i ds 0)) (seq 0 (S (nv - 1)))).
      { replace (S (nv - 1)) with (length ds) by lia.
        rewrite <- (map_nth_seq ds 0) at 1. now rewrite map_map. }
      rewrite E. cbn [seq map]. unfold Zsum. cbn [fold_right].
      unfold V.
      rewrite (proj2 (vibrational_vector_of_ones_kron_value N nv 0 ltac:(lia)) ds Hds Hall).
      f_equal. f_equal. apply map_ext_in. intros i Hi. apply in_seq in Hi.
      apply (vibrational_vector_of_ones_kron_value N nv i ltac:(lia)); assumption. }
  split; [exact Hval|].
  assert (Hmask : In (digits_index N ds) (where_lt occ (Z.of_nat N)) <-> list_sum ds < N).
  { rewrite in_where_lt, Hval, Hlen. lia. }
  exact Hmask.
Qed.

Lemma vibrational_total_occupation_number_witness :
  length (fst (set_vibrational_total_occupation_number 3 2)) = 3 ^ 2.
Proof.
  apply (vibrational_total_occupation_number_spec 3 2). lia.
Defined.

(** ** The electronic manifolds in the vibronic space *)

(** [vibronic_manifold_mask(manifold_num)]: [vibrational_mask] is [None]
    when the attribute has not been set, and the size of the vibrational
    space is then [truncation_size ** num_vibrations]. *)
Definition vibronic_manifold_mask (electronic_total_occupation_number : list Z)
           (vibrational_mask : option (list nat))
           (truncation_size num_vibrations : nat) (manifold_num : Z) : list nat :=
  let vib_size :=
    match vibrational_mask with
    | Some inds => length inds
    | None => truncation_size ^ num_vibrations
    end in
  let vib_ones := repeat 1%Z vib_size in
  let vibronic_occupation_number := zkron electronic_total_occupation_number vib_ones in
  where_eq vibronic_occupation_number manifold_num.

(** X17. An index of the vibronic space is in [vibronic_manifold_mask(m)]
    exactly when it is in range and its electronic part, the quotient by
    the size of the vibrational space, is in [electronic_manifold_mask(m)];
    the mask has no repetitions. *)
Theorem vibronic_manifold_mask_spec (occ : list Z) (vibrational_mask : option (list nat))
        (truncation_size num_vibrations : nat) (manifold_num : Z) (idx : nat) :
  let vib_size :=
    match vibrational_mask with
    | Some inds => length inds
    | None => truncation_size ^ num_vibrations
    end in
  (In idx (vibronic_manifold_mask occ vibrational_mask truncation_size num_vibrations
                                  manifold_num) <->
   idx < length occ * vib_size /\
   In (idx / vib_size) (electronic_manifold_mask occ manifold_num)) /\
  List.NoDup (vibronic_manifold_mask occ vibrational_mask truncation_size num_vibrations
                                     manifold_num).
Proof.
  intros vib_size. unfold vibronic_manifold_mask. fold vib_size.
  split; [|apply NoDup_where_eq].
  unfold electronic_manifold_mask. rewrite !in_where_eq, length_zkron, repeat_length.
  destruct (Nat.lt_ge_cases idx (length occ * vib_size)) as [Hidx|Hidx]; [|lia].
  assert (Hv : 0 < vib_size) by nia.
  assert (Ha : idx / vib_size < length occ) by (apply Nat.Div0.div_lt_upper_bound; nia).
  assert (Hb : idx mod vib_size < vib_size) by (apply Nat.mod_upper_bound; lia).
  assert (E : nth idx (zkron occ (repeat 1%Z vib_size)) 0%Z = nth (idx / vib_size) occ 0%Z).
  { rewrite (index_div_mod idx vib_size Hv) at 1.
    assert (E := nth_zkron occ (repeat 1%Z vib_size) (idx / vib_size) (idx mod vib_size)).
    rewrite repeat_length in E. rewrite E by assumption.
    rewrite (nth_repeat_lt _ _ Hb). lia. }
  rewrite E. intuition.
Qed.

(** ** Electronic subspaces *)

(** [electronic_subspace_mask(min_occ_num,max_occ_num)] *)
Definition electronic_subspace_mask (electronic_total_occupation_number : list Z)
           (min_occ_num max_occ_num : Z) : list nat :=
  List.filter (fun i => Z.leb min_occ_num (nth i electronic_total_occupation_number 0%Z) &&
                        Z.leb (nth i electronic_total_occupation_number 0%Z) max_occ_num)
              (seq 0 (length electronic_total_occupation_number)).

(** [extract_electronic_subspace(O,min_occ_num,max_occ_num)] *)
Definition extract_electronic_subspace (occ : list Z) (O : Mat)
           (min_occ_num max_occ_num : Z) : Mat :=
  let manifold_inds := electronic_subspace_mask occ min_occ_num max_occ_num in
  map (fun i => map (fun j => entry O i j) manifold_inds) manifold_inds.

Lemma filter_all {A : Type} (f : A -> bool) (l : list A) :
  (forall x, In x l -> f x = true) -> List.filter f l = l.
Proof.
  induction l as [|x l IH]; intros H; [reflexivity|]. cbn [List.filter].
  rewrite (H x) by now left. f_equal. apply IH. intros y Hy. apply H. now right.
Qed.

Lemma submatrix_all (N : nat) (O : Mat) :
  wf_mat N N O -> map (fun i => map (fun j => entry O i j) (seq 0 N)) (seq 0 N) = O.
Proof.
  intros HO. apply (mat_ext N N); [|exact HO|].
  - split; [now rewrite length_map, length_seq|].
    apply List.Forall_forall. intros v Hv. apply in_map_iff in Hv as (i & <- & _).
    now rewrite length_map, length_seq.
  - intros i j Hi Hj. unfold entry at 1.
    rewrite (nth_map_seq _ N i) by assumption. now rewrite nth_map_seq.
Qed.

(** X18. A subspace of a single occupation number is the manifold of that
    number; and for [n >= 1] sites the subspace of the occupation numbers
    [0..n] is the whole basis, so that [extract_electronic_subspace(O,0,n)]
    returns [O] unchanged. *)
Theorem electronic_subspace_mask_spec (n : nat) :
  1 <= n ->
  let occ := set_electronic_total_occupation_number n in
  (forall (occ' : list Z) (m : Z),
     electronic_subspace_mask occ' m m = electronic_manifold_mask occ' m) /\
  (forall (occ' : list Z) (lo hi : Z) (idx : nat),
     In idx (electronic_subspace_mask occ' lo hi) <->
     exists m : Z, (lo <= m <= hi)%Z /\ In idx (electronic_manifold_mask occ' m)) /\
  electronic_subspace_mask occ 0 (Z.of_nat n) = seq 0 (2 ^ n) /\
  forall O, wf_mat (2 ^ n) (2 ^ n) O ->
            extract_electronic_subspace occ O 0 (Z.of_nat n) = O.
Proof.
  intros Hn occ.
  assert (Hall : electronic_subspace_mask occ 0 (Z.of_nat n) = seq 0 (2 ^ n)).
  { unfold electronic_subspace_mask.
    destruct (electronic_total_occupation_number_shape n Hn) as [Hlen Hbounds].
    fold occ in Hlen, Hbounds. rewrite Hlen. apply filter_all.
    intros i Hi. apply in_seq in Hi. rewrite List.Forall_forall in Hbounds.
    assert (H := Hbounds (nth i occ 0%Z) ltac:(apply nth_In; lia)).
    apply andb_true_intro. split; apply Z.leb_le; lia. }
  split; [|split; [|split; [exact Hall|]]].
  - intros occ' m. unfold electronic_subspace_mask, electronic_manifold_mask, where_eq.
    apply filter_ext. intros i.
    destruct (Z.eqb_spec (nth i occ' 0%Z) m) as [->|Hne].
    + now rewrite Z.leb_refl.
    + destruct (Z.leb_spec m (nth i occ' 0%Z)), (Z.leb_spec (nth i occ' 0%Z) m);
        simpl; try reflexivity; lia.
  - intros occ' lo hi idx. unfold electronic_subspace_mask, electronic_manifold_mask.
    rewrite filter_In, in_seq, andb_true_iff, !Z.leb_le. split.
    + intros [Hidx Hb]. exists (nth idx occ' 0%Z). split; [lia|].
      apply in_where_eq. split; [lia|reflexivity].
    + intros (m & Hm & Hin). apply in_where_eq in Hin as [Hidx <-]. lia.
  - intros O HO. unfold extract_electronic_subspace. rewrite Hall.
    now apply submatrix_all.
Qed.

Lemma electronic_subspace_mask_witness :
  electronic_subspace_mask (set_electronic_total_occupation_number 2) 0 (Z.of_nat 2) =
  seq 0 (2 ^ 2).
Proof.
  apply (electronic_subspace_mask_spec 2). lia.
Defined.

(** ** The initial thermal state *)

Definition array_IndexError : py_exception :=
  PyExc "IndexError" "index 0 is out of bounds for axis 0 with size 0".

(** [np.sum] of a real vector *)
Definition Rsum (l : list R) : R := fold_right Rplus 0%R l.

(** [save_rho0(H_eigentransform)]: the vector handed to [np.save], from
    [self.kT], [self.H_eigenvalues[0]] and [self.H_eigenvectors[0]]. *)
Definition save_rho0 (H_eigentransform : bool) (kT : R) (H_eigenvalues_0 : list R)
           (H_eigenvectors_0 : Mat) : result Vec :=
  let H_size := length H_eigenvalues_0 in
  rho0 ← (if Nat.eqb H_size 1 then Ok [[1%C]]
          else if Req_b kT 0 then
            if Nat.eqb H_size 0 then Raise array_IndexError
            else Ok (alter (fun r : Vec => <[0 := 1%C]> r) 0 (zeros H_size H_size))
          else
            let Z := Rsum (map (fun e => exp (- e / kT)) H_eigenvalues_0) in
            let rho0_diag := map (fun e => RtoC (exp (- e / kT) / Z)) H_eigenvalues_0 in
            Ok (diag rho0_diag));
  let rho0 :=
    if H_eigentransform then rho0
    else
      let v := H_eigenvectors_0 in
      mat_dot v (mat_dot rho0 (mat_T v)) in
  Ok (flatten rho0).

(** a diagonal array of populations: non-negative real numbers on the
    diagonal that sum to 1 *)
Definition population_array (n : nat) (M : Mat) : Prop :=
  wf_mat n n M /\
  (forall i j, i < n -> j < n -> i <> j -> entry M i j = 0%C) /\
  (forall i, i < n -> exists p : R, entry M i i = RtoC p /\ (0 <= p)%R) /\
  trace M = 1%C.

Lemma wf_diag (e : Vec) : wf_mat (length e) (length e) (diag e).
Proof.
  unfold diag. split; [now rewrite length_map, length_seq|].
  apply List.Forall_forall. intros v Hv. apply in_map_iff in Hv as (i & <- & _).
  now rewrite length_map, length_seq.
Qed.

Lemma entry_diag (e : Vec) (i j : nat) :
  i < length e -> j < length e ->
  entry (diag e) i j = if Nat.eqb i j then nth i e 0%C else 0%C.
Proof.
  intros Hi Hj. unfold entry, diag.
  rewrite (nth_map_seq _ (length e) i) by assumption. now rewrite nth_map_seq.
Qed.

Lemma trace_diag (e : Vec) : trace (diag e) = vsum e.
Proof.
  rewrite (trace_Csum (length e)) by apply wf_diag. rewrite vsum_Csum.
  apply Csum_ext. intros i Hi. now rewrite entry_diag, Nat.eqb_refl.
Qed.

Lemma Rsum_exp_pos (kT : R) (E : list R) :
  E <> [] -> (0 < Rsum (map (fun e => exp (- e / kT)) E))%R.
Proof.
  intros HE. destruct E as [|e E]; [congruence|]. clear HE.
  unfold Rsum. cbn [map fold_right].
  assert (H : (0 <= fold_right Rplus 0 (map (fun e => exp (- e / kT)) E))%R).
  { induction E as [|x E IH]; simpl; [lra|]. pose proof (exp_pos (- x / kT)). lra. }
  pose proof (exp_pos (- e / kT)). lra.
Qed.

Lemma vsum_weights (f : R -> R) (Z : R) (E : list R) :
  vsum (map (fun e => RtoC (f e / Z)) E) = RtoC (Rsum (map f E) / Z).
Proof.
  unfold vsum, Rsum. induction E as [|e E IH]; cbn [map fold_right].
  - apply C_eq; simpl; unfold Rdiv; ring.
  - rewrite IH. apply C_eq; simpl; unfold Rdiv; ring.
Qed.

(** The state before the change of basis. *)
Lemma thermal_state_populations (kT : R) (E : list R) :
  1 <= length E ->
  exists rho0,
    (if Nat.eqb (length E) 1 then Ok [[1%C]]
     else if Req_b kT 0 then
       if Nat.eqb (length E) 0 then Raise array_IndexError
       else Ok (alter (fun r : Vec => <[0 := 1%C]> r) 0 (zeros (length E) (length E)))
     else
       let Z := Rsum (map (fun e => exp (- e / kT)) E) in
       let rho0_diag := map (fun e => RtoC (exp (- e / kT) / Z)) E in
       Ok (diag rho0_diag)) = Ok rho0 /\
    population_array (length E) rho0.
Proof.
  intros Hn. set (n := length E) in *.
  destruct (Nat.eqb_spec n 1) as [E1|E1].
  - exists [[1%C]]. split; [reflexivity|]. rewrite E1.
    split; [split; [reflexivity|repeat constructor]|]. split; [|split].
    + intros i j Hi Hj Hij. lia.
    + intros i Hi. exists 1%R. replace i with 0 by lia. split; [reflexivity|lra].
    + unfold trace, vsum. simpl. unfold entry. simpl. ring.
  - destruct (Req_b kT 0) eqn:EkT.
    + destruct (Nat.eqb_spec n 0) as [E0|E0]; [lia|].
      eexists. split; [reflexivity|].
      assert (Hwf := wf_alter_insert n n (zeros n n) 0 0 1%C (wf_zeros n n)).
      split; [exact Hwf|]. split; [|split].
      * intros i j Hi Hj Hij. rewrite entry_alter_insert_other by lia. apply entry_zeros.
      * intros i Hi. destruct (Nat.eq_dec i 0) as [->|Hne].
        -- exists 1%R. split; [|lra].
           apply (entry_alter_insert_same n n); [apply wf_zeros|lia|lia].
        -- exists 0%R. split; [|lra].
           rewrite entry_alter_insert_other by lia. apply entry_zeros.
      * rewrite (trace_Csum n) by exact Hwf.
        rewrite (Csum_single _ n 0) by
          (try lia; intros i Hi Hne; rewrite entry_alter_insert_other by lia;
           apply entry_zeros).
        apply (entry_alter_insert_same n n); [apply wf_zeros|lia|lia].
    + cbv zeta. set (Z := Rsum (map (fun e => exp (- e / kT)) E)).
      assert (HZ : (0 < Z)%R).
      { apply Rsum_exp_pos. intros ->. simpl in n. lia. }
      set (d := map (fun e => RtoC (exp (- e / kT) / Z)) E).
      assert (Hd : length d = n) by apply length_map.
      exists (diag d). split; [reflexivity|].
      split; [rewrite <- Hd; apply wf_diag|]. split; [|split].
      * intros i j Hi Hj Hij. rewrite entry_diag by lia.
        destruct (Nat.eqb_spec i j); [contradiction|reflexivity].
      * intros i Hi. rewrite entry_diag, Nat.eqb_refl by lia.
        exists (exp (- nth i E 0%R / kT) / Z)%R. split.
        -- unfold d. now rewrite (nth_map_lt _ E i 0%C 0%R) by (fold n; lia).
        -- apply Rlt_le. apply Rdiv_lt_0_compat; [apply exp_pos|exact HZ].
      * rewrite trace_diag. unfold d.
        rewrite (vsum_weights (fun e => exp (- e / kT)) Z E). fold Z.
        apply C_eq; simpl; [field; lra|reflexivity].
Qed.

Lemma reshape_flatten (r c : nat) (M : Mat) :
  wf_mat r c M -> reshape r c (flatten M) = Some M.
Proof.
  intros HM.
  destruct (reshape_Some r c (flatten M) (length_flatten r c M HM)) as (M' & -> & Hwf & Hent).
  f_equal. apply (mat_ext r c); [assumption..|].
  intros i j Hi Hj. rewrite Hent by assumption. now apply (nth_flatten r c).
Qed.

(** The trace is unchanged by [v . rho . v^T] for an orthogonal [v]. *)
Lemma trace_orthogonal_transform (n : nat) (v rho : Mat) :
  0 < n -> wf_mat n n v -> wf_mat n n rho -> mat_dot (mat_T v) v = eye n ->
  wf_mat n n (mat_dot v (mat_dot rho (mat_T v))) /\
  trace (mat_dot v (mat_dot rho (mat_T v))) = trace rho.
Proof.
  intros Hn Hv Hrho Horth.
  assert (HvT := wf_mat_T n n v Hv Hn).
  assert (HrT := wf_mat_dot n n n rho (mat_T v) Hrho HvT Hn).
  assert (Hwf := wf_mat_dot n n n v _ Hv HrT Hn).
  split; [exact Hwf|].
  rewrite (trace_Csum n _ Hwf), (trace_Csum n rho Hrho).
  rewrite (Csum_ext _ (fun i => Csum (fun j => Csum (fun k =>
             (entry rho j k * (entry (mat_T v) k i * entry v i j))%C) n) n)).
  - rewrite (Csum_swap (fun i j => Csum (fun k =>
               (entry rho j k * (entry (mat_T v) k i * entry v i j))%C) n)).
    apply Csum_ext. intros j Hj.
    rewrite (Csum_swap (fun i k => (entry rho j k * (entry (mat_T v) k i * entry v i j))%C)).
    rewrite (Csum_ext _ (fun k => (entry rho j k * entry (eye n) k j)%C)).
    + rewrite (Csum_single _ n j Hj).
      * rewrite entry_eye, Nat.eqb_refl by assumption. ring.
      * intros k Hk Hne. rewrite entry_eye by assumption.
        destruct (Nat.eqb_spec k j); [contradiction|ring].
    + intros k Hk. rewrite Csum_scale_l. f_equal.
      rewrite <- Horth. symmetry. apply (entry_dot n n n); assumption.
  - intros i Hi. rewrite (entry_dot n n n v _ i i Hv HrT Hi Hi).
    apply Csum_ext. intros j Hj.
    rewrite (entry_dot n n n rho (mat_T v) j i Hrho HvT Hj Hi).
    rewrite <- Csum_scale_l. apply Csum_ext. intros k Hk. ring.
Qed.

(** X19. For at least one eigenvalue, in exact arithmetic: with
    [H_eigentransform=True], [save_rho0] saves the row-major vector of a
    diagonal array of non-negative populations of trace 1, for every [kT]
    (also 0 or negative); with [H_eigentransform=False] and orthogonal
    eigenvectors the saved state still has trace 1.  With no eigenvalue and
    [kT == 0] the assignment [rho0[0,0] = 1] raises [IndexError]. *)
Theorem save_rho0_spec (kT : R) (E : list R) (v : Mat) :
  let n := length E in
  (1 <= n ->
   exists vec M, save_rho0 true kT E v = Ok vec /\ reshape n n vec = Some M /\
                 population_array n M) /\
  (1 <= n -> wf_mat n n v -> mat_dot (mat_T v) v = eye n ->
   exists vec M, save_rho0 false kT E v = Ok vec /\ reshape n n vec = Some M /\
                 trace M = 1%C) /\
  (n = 0 -> kT = 0%R -> forall b, save_rho0 b kT E v = Raise array_IndexError).
Proof.
  intros n. split; [|split].
  - intros Hn. destruct (thermal_state_populations kT E Hn) as (rho0 & Hrho & Hpop).
    unfold save_rho0. cbv zeta in Hrho |- *. rewrite Hrho. cbn [mbind result_bind].
    exists (flatten rho0), rho0. split; [reflexivity|]. split; [|exact Hpop].
    apply reshape_flatten. apply Hpop.
  - intros Hn Hv Horth.
    destruct (thermal_state_populations kT E Hn) as (rho0 & Hrho & Hwf & _ & _ & Htr).
    unfold save_rho0. cbv zeta in Hrho |- *. rewrite Hrho. cbn [mbind result_bind].
    destruct (trace_orthogonal_transform n v rho0 Hn Hv Hwf Horth) as [Hwf' Htr'].
    eexists _, _. split; [reflexivity|]. split; [now apply reshape_flatten|].
    now rewrite Htr'.
  - intros Hn HkT b. unfold save_rho0. cbv zeta. fold n. rewrite Hn.
    rewrite (Req_b_true kT 0 HkT). reflexivity.
Qed.

Lemma save_rho0_spec_witness :
  exists vec M, save_rho0 false 1 [0%R; 1%R] (eye 2) = Ok vec /\
                reshape 2 2 vec = Some M /\ trace M = 1%C.
Proof.
  apply (proj1 (proj2 (save_rho0_spec 1 [0%R; 1%R] (eye 2)))).
  - simpl. lia.
  - apply (wf_eye 2).
  - compute_arrays. repeat f_equal; lra.
Defined.

(** ** The eigensystems of the manifolds *)


Section ManifoldEigensystems.
Variable eigh : Mat -> list R * Mat.
Variable argsort : list R -> list nat.


End ManifoldEigensystems.

(** An object of one site whose manifold eigensystems come from a solver
    that returns the diagonal of its argument and the identity. *)
Definition diagonal_eigh (h : Mat) : list R * Mat :=
  (map (fun i => Re (entry h i i)) (seq 0 (length h)), eye (length h)).
Definition argsort_in_order (e : list R) : list nat := seq 0 (length e).



(** ** The trace under the whole electronic dissipator *)

(** Instruction lists that are made of the triples of
    [make_Lindblad_instructions] for operators of size [N]. *)
Inductive Lindblad_list (N : nat) : list instruction -> Prop :=
| Lindblad_nil : Lindblad_list N []
| Lindblad_snoc (gamma : C) (O : Mat) (l : list instruction) :
    wf_mat N N O -> Lindblad_list N l ->
    Lindblad_list N (l ++ make_Lindblad_instructions gamma O).

Lemma Lindblad_list_app (N : nat) (l1 l2 : list instruction) :
  Lindblad_list N l1 -> Lindblad_list N l2 -> Lindblad_list N (l1 ++ l2).
Proof.
  intros H1 H2. induction H2 as [|gamma O l HO _ IH].
  - now rewrite app_nil_r.
  - rewrite app_assoc. now constructor.
Qed.

Lemma Lindblad_list_single (N : nat) (gamma : C) (O : Mat) :
  wf_mat N N O -> Lindblad_list N (make_Lindblad_instructions gamma O).
Proof.
  intros HO. apply (Lindblad_snoc N gamma O [] HO). constructor.
Qed.

Lemma Lindblad_list_fold (N : nat) (gamma : C) (Os : list Mat) (acc : list instruction) :
  Lindblad_list N acc -> Forall (wf_mat N N) Os ->
  Lindblad_list N
    (fold_left (fun Lindblad_instruction_list O =>
                  Lindblad_instruction_list ++ make_Lindblad_instructions gamma O) Os acc).
Proof.
  intros Hacc HOs. revert acc Hacc.
  induction HOs as [|O Os HO _ IH]; intros acc Hacc; [exact Hacc|].
  cbn [fold_left]. apply IH. now constructor.
Qed.

Lemma wf_Lindblad_instructions (N : nat) (gamma : C) (O : Mat) :
  0 < N -> wf_mat N N O -> Forall (wf_instruction N) (make_Lindblad_instructions gamma O).
Proof.
  intros HN HO. unfold make_Lindblad_instructions, nrows.
  replace (length O) with N by (now destruct HO).
  assert (H1 := wf_Od N O HN HO). assert (H2 := wf_leftright N gamma O HN HO).
  assert (H3 := wf_map_map (Cmult gamma) N N O HO).
  constructor; [split; assumption|].
  constructor; [split; [assumption|apply wf_eye]|].
  constructor; [split; [apply wf_eye|assumption]|].
  constructor.
Qed.

Lemma Lindblad_list_wf (N : nat) (l : list instruction) :
  0 < N -> Lindblad_list N l -> Forall (wf_instruction N) l.
Proof.
  intros HN H. induction H as [|gamma O l HO _ IH]; [constructor|].
  apply Forall_app. split; [exact IH|now apply wf_Lindblad_instructions].
Qed.

(** the sum over the instructions of the trace of [Left rho Right] *)
Definition trace_of_terms (N : nat) (rho : Mat) (l : list instruction) : C :=
  Csum (fun i => vsum (map (fun ins =>
                              entry (mat_dot (mat_dot (fst ins) rho) (snd ins)) i i) l)) N.

Lemma trace_of_terms_app (N : nat) (rho : Mat) (l1 l2 : list instruction) :
  trace_of_terms N rho (l1 ++ l2) = (trace_of_terms N rho l1 + trace_of_terms N rho l2)%C.
Proof.
  unfold trace_of_terms. rewrite <- Csum_plus. apply Csum_ext. intros i _.
  now rewrite map_app, vsum_app.
Qed.

Lemma trace_of_terms_Liouvillian (N : nat) (rho : Mat) (l : list instruction) :
  0 < N -> l <> [] -> Forall (wf_instruction N) l -> wf_mat N N rho ->
  exists L M, make_Liouvillian l = Ok L /\
              reshape N N (mat_vec L (flatten rho)) = Some M /\
              trace M = trace_of_terms N rho l.
Proof.
  intros HN Hne Hall Hrho.
  destruct (Liouvillian_vec_entries N l rho HN Hne Hall Hrho)
    as (L & M & HL & _ & HM & HwfM & Hent).
  exists L, M. split; [exact HL|]. split; [exact HM|].
  rewrite (trace_Csum N M HwfM). apply Csum_ext. intros i Hi. now apply Hent.
Qed.

Lemma trace_of_terms_Lindblad (N : nat) (rho : Mat) (gamma : C) (O : Mat) :
  0 < N -> wf_mat N N O -> wf_mat N N rho ->
  trace_of_terms N rho (make_Lindblad_instructions gamma O) = 0%C.
Proof.
  intros HN HO Hrho.
  destruct (Lindblad_trace_zero N gamma O rho HN HO Hrho) as (L & M & HL & HM & Htr).
  destruct (trace_of_terms_Liouvillian N rho (make_Lindblad_instructions gamma O) HN)
    as (L' & M' & HL' & HM' & Htr'); [discriminate|now apply wf_Lindblad_instructions
                                      |exact Hrho|].
  rewrite HL in HL'. injection HL' as <-. rewrite HM in HM'. injection HM' as <-.
  now rewrite <- Htr'.
Qed.

Lemma trace_of_terms_Lindblad_list (N : nat) (rho : Mat) (l : list instruction) :
  0 < N -> wf_mat N N rho -> Lindblad_list N l -> trace_of_terms N rho l = 0%C.
Proof.
  intros HN Hrho H. induction H as [|gamma O l HO _ IH].
  - unfold trace_of_terms. apply Csum_zero.
  - rewrite trace_of_terms_app, IH, trace_of_terms_Lindblad by assumption. ring.
Qed.

(** The generator of a non-empty list of Lindblad triples maps every
    operator to a traceless one. *)
Lemma Lindblad_list_trace (N : nat) (rho : Mat) (l : list instruction) :
  0 < N -> wf_mat N N rho -> Lindblad_list N l -> l <> [] ->
  exists L M, make_Liouvillian l = Ok L /\
              reshape N N (mat_vec L (flatten rho)) = Some M /\
              trace M = 0%C.
Proof.
  intros HN Hrho Hl Hne.
  destruct (trace_of_terms_Liouvillian N rho l HN Hne (Lindblad_list_wf N l HN Hl) Hrho)
    as (L & M & HL & HM & Htr).
  exists L, M. split; [exact HL|]. split; [exact HM|].
  rewrite Htr. now apply trace_of_terms_Lindblad_list.
Qed.

(** *** The builders return lists of Lindblad triples *)

Lemma py_getitem_In {A : Type} (l : list A) (i : nat) (x : A) :
  py_getitem l i = Ok x -> In x l.
Proof.
  unfold py_getitem. destruct (l !! i) as [y|] eqn:E; [|discriminate].
  intros [= <-]. assert (Hi := lookup_lt_Some l i y E).
  rewrite <- (nth_lookup_Some l i y y E). now apply nth_In.
Qed.

Lemma py_getitem_Forall {A : Type} (P : A -> Prop) (l : list A) (i : nat) (x : A) :
  Forall P l -> py_getitem l i = Ok x -> P x.
Proof.
  intros Hl Hx. rewrite List.Forall_forall in Hl. apply Hl. eapply py_getitem_In, Hx.
Qed.

(** A loop whose state is a result: a property of the state that every
    successful pass keeps holds at the end, when the loop ends without an
    exception. *)
Lemma for_each_Forall {A B : Type} (P : B -> Prop) (f : A -> result B) (l : list A)
      (ys : list B) :
  (forall x y, f x = Ok y -> P y) -> for_each f l = Ok ys -> Forall P ys.
Proof.
  intros Hf. revert ys. induction l as [|x l IH]; intros ys H; simpl in H.
  - injection H as <-. constructor.
  - destruct (f x) as [y|e] eqn:E; [|discriminate]. simpl in H.
    destruct (for_each f l) as [ys'|e]; [|discriminate]. simpl in H.
    injection H as <-. constructor; [now apply (Hf x)|now apply IH].
Qed.

Lemma wf_mat_sub (r c : nat) (A B : Mat) :
  wf_mat r c A -> wf_mat r c B -> wf_mat r c (mat_sub A B).
Proof.
  intros [HA1 HA2] [HB1 HB2]. split.
  - unfold mat_sub. rewrite length_zip_with. lia.
  - clear HA1 HB1. revert B HB2. induction HA2 as [|x A Hx _ IH]; intros B HB2.
    + constructor.
    + destruct HB2 as [|y B Hy HB]; simpl; constructor.
      * rewrite length_zip_with. lia.
      * now apply IH.
Qed.

Lemma wf_assign_column (r c : nat) (inds : list nat) (ind : nat) (col : Vec) (M : Mat) :
  wf_mat r c M -> wf_mat r c (assign_column M inds ind col).
Proof.
  unfold assign_column. generalize (zip inds col) as l. intros l. revert M.
  induction l as [|[row x] l IH]; intros M HM; [exact HM|].
  cbn [fold_left]. apply IH. now apply wf_alter_insert.
Qed.

Lemma wf_coherence_to_full (occ : list Z) (r c : nat) (O : Mat) (m1 m2 : Z) :
  wf_mat r c (coherence_to_full occ (r, c) O m1 m2).
Proof.
  unfold coherence_to_full. cbn [fst snd].
  generalize (seq 0 (length (electronic_manifold_mask occ m2))) as l.
  generalize (wf_zeros r c). generalize (zeros r c) as M.
  intros M HM l. revert M HM.
  induction l as [|i l IH]; intros M HM; [exact HM|].
  cbn [fold_left]. apply IH. now apply wf_assign_column.
Qed.

Section DissipationBuilders.
Variable self : OpenPolymer.
Variable N : nat.
Hypothesis HN : 0 < N.
Hypothesis HH : wf_mat N N (electronic_hamiltonian self).
Hypothesis Hsz : Forall (wf_mat N N) (sz_list self).
Hypothesis Hup : Forall (wf_mat N N) (up_list self).
Hypothesis Hexchange : Forall (wf_mat N N) (exchange_list self).
Hypothesis Hv : forall v, electronic_eigenvectors self = Some v -> wf_mat N N v.

Lemma wf_optical_dephasing_operator (O : Mat) :
  optical_dephasing_operator self = Ok O -> wf_mat N N O.
Proof.
  unfold optical_dephasing_operator.
  destruct (py_getitem (sz_list self) 0) as [s0|e] eqn:E0; cbn [mbind result_bind]; [|discriminate].
  cbn [mbind result_bind].
  apply (fold_result_invariant (wf_mat N N)).
  - reflexivity.
  - intros i s r Hs. cbn [mbind result_bind].
    destruct (py_getitem (sz_list self) i) as [si|e] eqn:Ei; cbn [mbind result_bind]; [|discriminate].
    intros [= <-]. apply wf_mat_add; [exact Hs|].
    exact (py_getitem_Forall _ _ _ _ Hsz Ei).
  - exact (py_getitem_Forall _ _ _ _ Hsz E0).
Qed.

Lemma Lindblad_optical_dephasing (l : list instruction) :
  optical_dephasing_instructions self = Ok l -> Lindblad_list N l /\ l <> [].
Proof.
  unfold optical_dephasing_instructions.
  destruct (optical_dephasing_operator self) as [O|e] eqn:E; cbn [mbind result_bind]; [|discriminate].
  intros [= <-]. split; cbn [mbind result_bind]; [|discriminate].
  apply Lindblad_list_single. now apply wf_optical_dephasing_operator.
Qed.

Lemma Lindblad_optical_decoherence (l : list instruction) :
  optical_decoherence_instructions self = Ok l -> Lindblad_list N l.
Proof.
  unfold optical_decoherence_instructions.
  apply (fold_result_invariant (Lindblad_list N)); [reflexivity| |constructor].
  intros n s r Hs. cbn [mbind result_bind].
  destruct (py_getitem (energies self) n) as [en|e]; cbn [mbind result_bind]; [|discriminate].
  destruct (boltzmann_factors (kT self) 0 en) as [bg bn].
  destruct (py_getitem (up_list self) n) as [O|e] eqn:EO; cbn [mbind result_bind]; [|discriminate].
  assert (HO := py_getitem_Forall _ _ _ _ Hup EO).
  assert (H1 : Lindblad_list N
                 (s ++ make_Lindblad_instructions
                         (RtoC (optical_decoherence_gamma self * bg)) (mat_T O))).
  { constructor; [now apply wf_mat_T|exact Hs]. }
  destruct (isclose_real bn 0); intros [= <-]; [exact H1|].
  now constructor.
Qed.

Lemma Lindblad_site_to_site_decoherence (l : list instruction) :
  site_to_site_decoherence_instructions self = Ok l -> Lindblad_list N l.
Proof.
  unfold site_to_site_decoherence_instructions.
  destruct (fold_left _ _ _) as [[i ins]|e] eqn:E; cbn [mbind result_bind]; [|discriminate].
  intros [= <-]. cbn [snd].
  apply (fold_result_invariant (fun st : nat * list instruction => Lindblad_list N (snd st))
           _ _) with (r := (i, ins)) in E; [exact E| | |constructor].
  - intros [n m] e. reflexivity.
  - intros [n m] [k s] r Hs. cbn [mbind result_bind snd] in *.
    destruct (py_getitem (energies self) n) as [en|e]; cbn [mbind result_bind]; [|discriminate].
    destruct (py_getitem (energies self) m) as [em|e]; cbn [mbind result_bind]; [|discriminate].
    destruct (boltzmann_factors (kT self) en em) as [bn bm].
    destruct (py_getitem (exchange_list self) k) as [O|e] eqn:EO; cbn [mbind result_bind]; [|discriminate].
    assert (HO := py_getitem_Forall _ _ _ _ Hexchange EO).
    intros [= <-]. cbn [snd].
    constructor; [now apply wf_mat_T|]. now constructor.
Qed.

Lemma Lindblad_all_site_dephasing (l : list instruction) :
  all_site_dephasing_instructions self = Ok l -> Lindblad_list N l.
Proof.
  unfold all_site_dephasing_instructions.
  destruct (site_to_site_dephasing_operator_list self) as [Os|e] eqn:E; cbn [mbind result_bind]; [|discriminate].
  intros [= <-]. apply Lindblad_list_fold; [constructor|].
  unfold site_to_site_dephasing_operator_list in E.
  apply (for_each_Forall (wf_mat N N)) in E; [exact E|].
  intros [i j] y. cbn [mbind result_bind].
  destruct (py_getitem (sz_list self) i) as [si|e] eqn:Ei; cbn [mbind result_bind]; [|discriminate].
  destruct (py_getitem (sz_list self) j) as [sj|e] eqn:Ej; cbn [mbind result_bind]; [|discriminate].
  intros [= <-].
  apply wf_mat_sub; [exact (py_getitem_Forall _ _ _ _ Hsz Ei)
                    |exact (py_getitem_Forall _ _ _ _ Hsz Ej)].
Qed.

Lemma Lindblad_all_exciton_dephasing (l : list instruction) :
  all_exciton_dephasing_instructions self = Ok l -> Lindblad_list N l.
Proof.
  unfold all_exciton_dephasing_instructions.
  destruct (exciton_exciton_dephasing_operator_list self) as [Os|e] eqn:E; cbn [mbind result_bind]; [|discriminate].
  intros [= <-]. apply Lindblad_list_fold; [constructor|].
  unfold exciton_exciton_dephasing_operator_list in E.
  destruct (electronic_eigenvectors self) as [v|] eqn:Ev; cbn [mbind result_bind]; [|discriminate].
  cbn [py_getattr mbind result_bind] in E.
  assert (Hwfv := Hv v eq_refl).
  apply (for_each_Forall (wf_mat N N)) in E; [exact E|].
  intros [i j] y. cbn [mbind result_bind].
  destruct (py_getitem (sz_list self) i) as [si|e] eqn:Ei; cbn [mbind result_bind]; [|discriminate].
  destruct (py_getitem (sz_list self) j) as [sj|e] eqn:Ej; cbn [mbind result_bind]; [|discriminate].
  intros [= <-].
  assert (Hsi := py_getitem_Forall _ _ _ _ Hsz Ei).
  assert (Hsj := py_getitem_Forall _ _ _ _ Hsz Ej).
  assert (HvT := wf_mat_T N N v Hwfv HN).
  apply wf_mat_sub; apply (wf_mat_dot N N N); auto; apply (wf_mat_dot N N N); auto.
Qed.

Lemma Lindblad_exciton_decoherence (manifold_num : nat) (l : list instruction) :
  exciton_decoherence_instructions_by_manifold self manifold_num = Ok l ->
  Lindblad_list N l.
Proof.
  unfold exciton_decoherence_instructions_by_manifold.
  destruct (get_eigensystem_by_manifold self manifold_num) as [[e v]|exc]; cbn [mbind result_bind]; [|discriminate].
  cbn [mbind result_bind].
  assert (Hshape : shape_of (electronic_hamiltonian self) = (N, N)).
  { unfold shape_of, nrows. rewrite (wf_mat_ncols N N _ HH HN). now destruct HH as [-> _]. }
  rewrite Hshape.
  apply (fold_result_invariant (Lindblad_list N)); [| |constructor].
  - intros [m n] exc. reflexivity.
  - intros [m n] s r Hs. cbn [mbind result_bind].
    destruct (py_getitem e m) as [em|exc]; cbn [mbind result_bind]; [|discriminate].
    destruct (py_getitem e n) as [en|exc]; cbn [mbind result_bind]; [|discriminate].
    destruct (boltzmann_factors (kT self) em en) as [bm bn].
    intros [= <-].
    assert (HO := wf_coherence_to_full (electronic_total_occupation_number self) N N
                    (mat_dot v (mat_dot (alter (fun r0 : Vec => <[n := 1%C]> r0) m
                                               (zeros (length e) (length e))) (mat_T v)))
                    (Z.of_nat manifold_num) (Z.of_nat manifold_num)).
    constructor; [now apply wf_mat_T|]. now constructor.
Qed.

(** The list assembled by [set_electronic_dissipation_instructions]. *)
Lemma Lindblad_dissipation_instructions (l : list instruction) :
  snd (set_electronic_dissipation_instructions self) = Ok l ->
  Lindblad_list N l /\ l <> [].
Proof.
  unfold set_electronic_dissipation_instructions, assemble_dissipation_instructions.
  cbn [builders_of b_optical_dephasing b_all_site_dephasing b_site_to_site_decoherence
       b_all_exciton_dephasing b_exciton_decoherence_by_manifold b_optical_decoherence].
  destruct (optical_dephasing_instructions self) as [l0|e] eqn:E0; cbn [mbind result_bind]; [|discriminate].
  cbn [snd].
  assert (Hstage : forall (c : bool) (bx : result (list instruction)) (l1 l2 : list instruction),
             (forall x, bx = Ok x -> Lindblad_list N x) ->
             Lindblad_list N l1 /\ l1 <> [] ->
             (if c then x ← bx; Ok (l1 ++ x) else Ok l1) = Ok l2 ->
             Lindblad_list N l2 /\ l2 <> []).
  { intros c bx l1 l2 Hbx [H1 Hne] H. destruct c; [|now injection H as <-].
    destruct bx as [x|e]; cbn [mbind result_bind]; [|discriminate]. injection H as <-.
    split; [apply Lindblad_list_app; auto|]. destruct l1; [congruence|discriminate]. }
  assert (H0 := Lindblad_optical_dephasing l0 E0).
  destruct (if nonzero (site_to_site_dephasing_gamma self)
            then x ← all_site_dephasing_instructions self; Ok (l0 ++ x) else Ok l0)
    as [l1|e] eqn:E1; cbn [mbind result_bind]; [|discriminate].
  apply Hstage in E1; [|apply Lindblad_all_site_dephasing|exact H0].
  cbn [mbind result_bind].
  destruct (if nonzero (site_to_site_decoherence_gamma self)
            then x ← site_to_site_decoherence_instructions self; Ok (l1 ++ x) else Ok l1)
    as [l2|e] eqn:E2; cbn [mbind result_bind]; [|discriminate].
  apply Hstage in E2; [|apply Lindblad_site_to_site_decoherence|exact E1].
  cbn [mbind result_bind].
  destruct (if nonzero (exciton_exciton_dephasing_gamma self)
            then x ← all_exciton_dephasing_instructions self; Ok (l2 ++ x) else Ok l2)
    as [l3|e] eqn:E3; cbn [mbind result_bind]; [|discriminate].
  apply Hstage in E3; [|apply Lindblad_all_exciton_dephasing|exact E2].
  cbn [mbind result_bind].
  match goal with
  | |- context [if nonzero (exciton_decoherence_gamma self) then ?t else Ok l3] =>
      destruct (if nonzero (exciton_decoherence_gamma self) then t else Ok l3)
        as [l4|e] eqn:E4; [|discriminate]
  end.
  assert (H4 : Lindblad_list N l4 /\ l4 <> []).
  { destruct (nonzero (exciton_decoherence_gamma self)); [|now injection E4 as <-].
    destruct (exciton_decoherence_instructions_by_manifold self 1) as [x|e] eqn:Ex;
      cbn [mbind result_bind]; [|discriminate].
    cbn [mbind result_bind] in E4.
    apply (fold_result_invariant
             (fun l : list instruction => Lindblad_list N l /\ l <> [])) in E4;
      [exact E4| | |].
    - reflexivity.
    - intros i s r [Hs Hne]. cbn [mbind result_bind].
      destruct (exciton_decoherence_instructions_by_manifold self i) as [y|e] eqn:Ey;
        cbn [mbind result_bind]; [|discriminate].
      intros [= <-]. split.
      + apply Lindblad_list_app; [exact Hs|]. now apply (Lindblad_exciton_decoherence i).
      + destruct s; [congruence|discriminate].
    - destruct E3 as [H3 Hne]. split.
      + apply Lindblad_list_app; [exact H3|]. now apply (Lindblad_exciton_decoherence 1).
      + destruct l3; [congruence|discriminate]. }
  cbn [mbind result_bind]. intros E5.
  apply Hstage in E5; [exact E5|apply Lindblad_optical_decoherence|exact H4].
Qed.
End DissipationBuilders.













(** ** The operator lists and the dipole operator *)

Lemma wf_single_site_operator (n : nat) (O : Mat) (i : nat) :
  1 <= n -> wf22 O ->
  wf_mat (2 ^ n) (2 ^ n) (single_site_operator n O i) /\
  forall s s' : list bool,
    length s = n -> length s' = n ->
    entry (single_site_operator n O i) (basis_index s') (basis_index s) =
    Cprod (fun p => entry (if Nat.eqb i p then O else ii)
                          (b2n (site s' p)) (b2n (site s p))) n.
Proof.
  intros Hn HO. unfold single_site_operator.
  apply (entry_factor_chain n (fun p => if Nat.eqb i p then O else ii) Hn).
  intros p. destruct (Nat.eqb i p); [exact HO|apply wf22_ii].
Qed.

Lemma single_site_operator_T (n : nat) (O : Mat) (i : nat) :
  1 <= n -> wf22 O ->
  single_site_operator n (mat_T O) i = mat_T (single_site_operator n O i).
Proof.
  intros Hn HO.
  assert (HOT : wf22 (mat_T O)) by (apply (wf_mat_T 2 2); [exact HO|lia]).
  destruct (wf_single_site_operator n O i Hn HO) as [Hwf Hent].
  destruct (wf_single_site_operator n (mat_T O) i Hn HOT) as [HwfT HentT].
  assert (Hpos : 0 < 2 ^ n) by (apply Nat.neq_0_lt_0, Nat.pow_nonzero; lia).
  apply (mat_ext (2 ^ n) (2 ^ n)); [exact HwfT|now apply wf_mat_T|].
  intros a b Ha Hb.
  destruct (basis_index_surjective n a Ha) as (s' & Hs' & <-).
  destruct (basis_index_surjective n b Hb) as (s & Hs & <-).
  rewrite (entry_T (2 ^ n) (2 ^ n) _ _ _ Hwf).
  rewrite HentT, Hent by assumption.
  apply Cprod_ext. intros p Hp. destruct (Nat.eqb i p).
  - apply (entry_T 2 2 O _ _ HO).
  - rewrite !entry_ii_bits. now destruct (site s' p), (site s p).
Qed.

(** X22. For [n >= 1] sites and a 2x2 operator [O],
    [make_single_operator_list] returns [n] arrays of the size [2^n] of the
    full space, and the list of the transposed operator holds the
    transposes; [down] is the transpose of [up], so [down_list[i]] is
    [up_list[i].T]. *)
Theorem make_single_operator_list_spec (n : nat) (O : Mat) :
  1 <= n -> wf_mat 2 2 O ->
  exists Os OTs,
    make_single_operator_list n O = Ok Os /\
    make_single_operator_list n (mat_T O) = Ok OTs /\
    length Os = n /\ length OTs = n /\
    Forall (wf_mat (2 ^ n) (2 ^ n)) Os /\
    (forall i, i < n -> nth i OTs [] = mat_T (nth i Os [])) /\
    mat_T up = down.
Proof.
  intros Hn HO. eexists _, _.
  split; [apply make_single_operator_list_value|].
  split; [apply make_single_operator_list_value|].
  rewrite !length_map, length_seq. split; [reflexivity|]. split; [reflexivity|].
  split; [|split; [|reflexivity]].
  - apply List.Forall_forall. intros M HM. apply in_map_iff in HM as (i & <- & _).
    now apply wf_single_site_operator.
  - intros i Hi. rewrite !nth_map_seq by assumption. now apply single_site_operator_T.
Qed.

Lemma make_single_operator_list_witness :
  exists Os OTs,
    make_single_operator_list 2 up = Ok Os /\
    make_single_operator_list 2 (mat_T up) = Ok OTs /\
    length Os = 2 /\ length OTs = 2 /\
    Forall (wf_mat (2 ^ 2) (2 ^ 2)) Os /\
    (forall i, i < 2 -> nth i OTs [] = mat_T (nth i Os [])) /\
    mat_T up = down.
Proof.
  apply (make_single_operator_list_spec 2 up).
  - lia.
  - split; [reflexivity|repeat constructor].
Defined.

(** [s'] is [s] with the site [i], which held the other value, set to [b]:
    raised for [b = true], lowered for [b = false]. *)
Definition set_site (i : nat) (b : bool) (s s' : list bool) : bool :=
  Bool.eqb (site s i) (negb b) && bool_decide (s' = <[i := b]> s).

Definition transfer (b : bool) : Mat := if b then up else down.

Lemma entry_transfer_bits (b x' x : bool) :
  entry (transfer b) (b2n x') (b2n x) = ind (Bool.eqb x' b && Bool.eqb x (negb b)).
Proof. destruct b, x', x; reflexivity. Qed.

Lemma forallb_set_site (n i : nat) (b : bool) (s s' : list bool) :
  i < n -> length s = n -> length s' = n ->
  forallb (fun p => if Nat.eqb i p
                    then Bool.eqb (site s' p) b && Bool.eqb (site s p) (negb b)
                    else Bool.eqb (site s' p) (site s p)) (seq 0 n)
  = set_site i b s s'.
Proof.
  intros Hi Hs Hs'. unfold set_site. apply eq_true_iff_eq.
  rewrite forallb_forall, andb_true_iff, bool_decide_eq_true. split.
  - intros H.
    assert (Hi' := H i ltac:(apply in_seq; lia)). rewrite Nat.eqb_refl in Hi'.
    apply andb_true_iff in Hi' as [Hi1 Hi2]. split; [exact Hi2|].
    apply (bits_ext n); try assumption; [now rewrite length_insert|].
    intros p Hp. unfold site at 2. rewrite nth_list_insert by lia.
    specialize (H p ltac:(apply in_seq; lia)).
    destruct (Nat.eqb_spec i p) as [E|E].
    + subst p. now apply eqb_prop.
    + now apply eqb_prop.
  - intros [Hsi ->] p Hp. unfold site in *. rewrite !nth_list_insert by lia.
    destruct (Nat.eqb_spec i p) as [E|E].
    + subst p. now rewrite eqb_reflx.
    + apply eqb_reflx.
Qed.

Lemma single_site_transfer_entry (n i : nat) (b : bool) (s s' : list bool) :
  i < n -> length s = n -> length s' = n ->
  entry (single_site_operator n (transfer b) i) (basis_index s') (basis_index s) =
  ind (set_site i b s s').
Proof.
  intros Hi Hs Hs'.
  destruct (wf_single_site_operator n (transfer b) i) as [_ Hent]; [lia| |].
  - apply wf22_cases. destruct b; auto.
  - rewrite Hent by assumption.
    rewrite <- (forallb_set_site n) by assumption. rewrite <- Cprod_ind.
    apply Cprod_ext. intros p Hp.
    destruct (Nat.eqb i p); [apply entry_transfer_bits|apply entry_ii_bits].
Qed.

Lemma set_site_occupation (i : nat) (b : bool) (s s' : list bool) :
  i < length s -> set_site i b s s' = true ->
  occupation s' = (occupation s + (if b then 1 else -1))%Z.
Proof.
  intros Hi H. unfold set_site in H. apply andb_prop in H as [Hsi Hs'].
  apply bool_decide_eq_true in Hs'. subst s'. apply eqb_prop in Hsi.
  assert (H1 := occupation_insert s i b Hi). rewrite Hsi in H1.
  destruct b; cbn [b2n negb] in H1; lia.
Qed.

Lemma set_site_sym (i : nat) (b : bool) (s s' : list bool) :
  i < length s -> length s' = length s ->
  set_site i b s s' = set_site i (negb b) s' s.
Proof.
  intros Hi Hlen. unfold set_site. apply eq_true_iff_eq.
  rewrite !andb_true_iff, !bool_decide_eq_true, negb_involutive. split.
  - intros [Hsi ->]. apply eqb_prop in Hsi. split.
    + unfold site. rewrite nth_list_insert, Nat.eqb_refl by assumption. apply eqb_reflx.
    + rewrite list_insert_insert_eq. symmetry. apply list_insert_id.
      rewrite <- Hsi. unfold site. rewrite nth_lookup.
      destruct (s !! i) eqn:E; [reflexivity|]. apply lookup_ge_None in E. lia.
  - intros [Hsi ->]. apply eqb_prop in Hsi. split.
    + unfold site. rewrite nth_list_insert, Nat.eqb_refl by lia.
      destruct b; reflexivity.
    + rewrite list_insert_insert_eq. symmetry. apply list_insert_id.
      rewrite <- Hsi. unfold site. rewrite nth_lookup.
      destruct (s' !! i) eqn:E; [reflexivity|]. apply lookup_ge_None in E. lia.
Qed.

Lemma mu_loop_value (d : list R) (up_list down_list : list Mat)
      (start len : nat) (mu : Mat) :
  start + len <= length d -> start + len <= length up_list ->
  start + len <= length down_list ->
  fold_left (fun acc i =>
               mu ← acc;
               di ← py_getitem d i;
               ui ← py_getitem up_list i;
               wi ← py_getitem down_list i;
               Ok (mat_add mu (mat_scale (RtoC di) (mat_add ui wi))))
            (seq start len) (Ok mu) =
  Ok (fold_left (fun mu i =>
                   mat_add mu (mat_scale (RtoC (nth i d 0%R))
                                         (mat_add (nth i up_list []) (nth i down_list []))))
                (seq start len) mu).
Proof.
  revert start mu. induction len as [|len IH]; intros start mu Hd Hu Hw; [reflexivity|].
  cbn [seq fold_left].
  rewrite (py_getitem_lt d start 0%R), (py_getitem_lt up_list start []),
    (py_getitem_lt down_list start []) by lia.
  simpl. apply IH; lia.
Qed.

Section DipoleOperator.
Variable n : nat.
Variable d : list R.
Hypothesis Hn : 1 <= n.
Hypothesis Hd : n <= length d.

Let ups : list Mat := map (single_site_operator n up) (seq 0 n).
Let downs : list Mat := map (single_site_operator n down) (seq 0 n).
Let term (i : nat) : Mat :=
  mat_scale (RtoC (nth i d 0%R)) (mat_add (nth i ups []) (nth i downs [])).
Let mu : Mat :=
  fold_left (fun mu i => mat_add mu (term i)) (seq 1 (n - 1)) (term 0).

Lemma wf_up_down_term (i : nat) :
  i < n -> wf_mat (2 ^ n) (2 ^ n) (term i) /\
  forall s s', length s = n -> length s' = n ->
    entry (term i) (basis_index s') (basis_index s) =
    (RtoC (nth i d 0%R) * (ind (set_site i true s s') + ind (set_site i false s s')))%C.
Proof.
  intros Hi. unfold term, ups, downs. rewrite !nth_map_seq by assumption.
  assert (Hu := proj1 (wf_single_site_operator n up i Hn
                         (wf22_cases up ltac:(auto)))).
  assert (Hw := proj1 (wf_single_site_operator n down i Hn
                         (wf22_cases down ltac:(auto)))).
  split; [apply wf_map_map; now apply wf_mat_add|].
  intros s s' Hs Hs'.
  assert (Ha : basis_index s' < 2 ^ n) by (rewrite <- Hs'; apply basis_index_lt).
  assert (Hb : basis_index s < 2 ^ n) by (rewrite <- Hs; apply basis_index_lt).
  rewrite entry_scale, (entry_add (2 ^ n) (2 ^ n)) by assumption.
  rewrite (single_site_transfer_entry n i true), (single_site_transfer_entry n i false)
    by assumption.
  reflexivity.
Qed.

Lemma make_mu_site_basis_value : make_mu_site_basis d ups downs = Ok mu.
Proof.
  unfold make_mu_site_basis.
  assert (Hlu : length ups = n) by (unfold ups; now rewrite length_map, length_seq).
  assert (Hlw : length downs = n) by (unfold downs; now rewrite length_map, length_seq).
  rewrite (py_getitem_lt d 0 0%R), (py_getitem_lt ups 0 []), (py_getitem_lt downs 0 [])
    by lia.
  cbn [mbind result_bind]. rewrite Hlu.
  rewrite mu_loop_value by lia. reflexivity.
Qed.

Lemma mu_entries :
  wf_mat (2 ^ n) (2 ^ n) mu /\
  forall s s', length s = n -> length s' = n ->
    entry mu (basis_index s') (basis_index s) =
    Csum (fun i => (RtoC (nth i d 0%R) *
                    (ind (set_site i true s s') + ind (set_site i false s s')))%C) n.
Proof.
  assert (G : forall s s', length s = n -> length s' = n ->
            wf_mat (2 ^ n) (2 ^ n) mu /\
            entry mu (basis_index s') (basis_index s) =
            Csum (fun i => (RtoC (nth i d 0%R) *
                            (ind (set_site i true s s') + ind (set_site i false s s')))%C) n).
  { intros s s' Hs Hs'.
    destruct (entry_accumulate (2 ^ n) (2 ^ n) (fun mu i => mat_add mu (term i))
                (fun i => (RtoC (nth i d 0%R) *
                           (ind (set_site i true s s') + ind (set_site i false s s')))%C)
                (basis_index s') (basis_index s) 1 (n - 1) (term 0)) as [Hwf Hent].
    - intros M i HM Hi. destruct (wf_up_down_term i ltac:(lia)) as [Hwt Het].
      split; [now apply wf_mat_add|].
      rewrite (entry_add (2 ^ n) (2 ^ n)); try assumption;
        try (rewrite <- Hs'; apply basis_index_lt); try (rewrite <- Hs; apply basis_index_lt).
      now rewrite Het.
    - apply (wf_up_down_term 0). lia.
    - split; [exact Hwf|]. fold mu in Hent. rewrite Hent.
      rewrite (proj2 (wf_up_down_term 0 ltac:(lia))) by assumption.
      symmetry. replace n with (1 + (n - 1)) at 1 by lia. rewrite Csum_app.
      simpl. ring. }
  split.
  - apply (G (repeat false n) (repeat false n)); apply repeat_length.
  - intros s s' Hs Hs'. now apply G.
Qed.
End DipoleOperator.

(** X23. The dipole operator of [make_mu_site_basis] for [n >= 1] sites:
    between two basis states its entry is the sum of the dipoles of the
    sites whose flip takes one state to the other; the operator is
    symmetric, and it only connects states whose total occupation numbers
    differ by exactly one. *)
Theorem make_mu_site_basis_spec (n : nat) (d : list R) :
  1 <= n -> n <= length d ->
  let occ := set_electronic_total_occupation_number n in
  exists up_list down_list mu,
    make_single_operator_list n up = Ok up_list /\
    make_single_operator_list n down = Ok down_list /\
    make_mu_site_basis d up_list down_list = Ok mu /\
    wf_mat (2 ^ n) (2 ^ n) mu /\
    (forall s s', length s = n -> length s' = n ->
       entry mu (basis_index s') (basis_index s) =
       Csum (fun i => (RtoC (nth i d 0%R) *
                       (ind (set_site i true s s') + ind (set_site i false s s')))%C) n) /\
    (forall a b, a < 2 ^ n -> b < 2 ^ n -> entry mu a b = entry mu b a) /\
    (forall a b, a < 2 ^ n -> b < 2 ^ n ->
       nth a occ 0%Z <> (nth b occ 0 + 1)%Z -> nth a occ 0%Z <> (nth b occ 0 - 1)%Z ->
       entry mu a b = 0%C).
Proof.
  intros Hn Hd occ.
  destruct (mu_entries n d Hn Hd) as [Hwf Hent].
  eexists _, _, _.
  split; [apply make_single_operator_list_value|].
  split; [apply make_single_operator_list_value|].
  split; [now apply make_mu_site_basis_value|].
  split; [exact Hwf|]. split; [exact Hent|]. split.
  - intros a b Ha Hb.
    destruct (basis_index_surjective n a Ha) as (s' & Hs' & <-).
    destruct (basis_index_surjective n b Hb) as (s & Hs & <-).
    rewrite (Hent s s' Hs Hs'), (Hent s' s Hs' Hs).
    apply Csum_ext. intros i Hi.
    rewrite (set_site_sym i true s s'), (set_site_sym i false s s') by lia.
    cbn [negb]. ring.
  - intros a b Ha Hb Hup Hdown.
    destruct (basis_index_surjective n a Ha) as (s' & Hs' & <-).
    destruct (basis_index_surjective n b Hb) as (s & Hs & <-).
    unfold occ in Hup, Hdown.
    rewrite !total_occupation_number_value in Hup, Hdown by assumption.
    rewrite (Hent s s' Hs Hs').
    rewrite (Csum_ext _ (fun _ => 0%C)); [apply Csum_zero|].
    intros i Hi.
    assert (E1 : set_site i true s s' = false).
    { destruct (set_site i true s s') eqn:E; [|reflexivity].
      apply set_site_occupation in E; [lia|lia]. }
    assert (E2 : set_site i false s s' = false).
    { destruct (set_site i false s s') eqn:E; [|reflexivity].
      apply set_site_occupation in E; [lia|lia]. }
    rewrite E1, E2. simpl. ring.
Qed.

Lemma make_mu_site_basis_witness :
  exists up_list down_list mu,
    make_single_operator_list 2 up = Ok up_list /\
    make_single_operator_list 2 down = Ok down_list /\
    make_mu_site_basis [1%R; 2%R] up_list down_list = Ok mu /\
    wf_mat (2 ^ 2) (2 ^ 2) mu.
Proof.
  destruct (make_mu_site_basis_spec 2 [1%R; 2%R]) as (u & w & mu & H1 & H2 & H3 & H4 & _).
  - lia.
  - simpl. lia.
  - exists u, w, mu. auto.
Defined.

(** ** The object built by the constructor *)

(** two objects with the same operators *)
Definition same_operators (s s0 : OpenPolymer) : Prop :=
  num_sites s = num_sites s0 /\ up_list s = up_list s0 /\ sz_list s = sz_list s0 /\
  exchange_list s = exchange_list s0 /\
  electronic_hamiltonian s = electronic_hamiltonian s0 /\
  down_list s = down_list s0 /\ mu s = mu s0 /\ mu_dict s = mu_dict s0 /\
  mu_ket_up s = mu_ket_up s0.

Lemma same_operators_refl (s : OpenPolymer) : same_operators s s.
Proof. repeat split. Qed.

(** The loop of [set_electronic_eigensystem] changes none of the operators,
    and the eigenvectors it accumulates have the shape of the Hamiltonian. *)
Lemma electronic_eigensystem_loop_shapes (self : OpenPolymer) (N : nat) :
  0 < N -> wf_mat N N (electronic_hamiltonian self) ->
  same_operators (fst (electronic_eigensystem_loop self)) self /\
  electronic_eigenvectors (fst (electronic_eigensystem_loop self)) =
  electronic_eigenvectors self /\
  forall V d, snd (electronic_eigensystem_loop self) = Ok (V, d) -> wf_mat N N V.
Proof.
  intros HN HH. unfold electronic_eigensystem_loop.
  assert (Hshape : shape_of (electronic_hamiltonian self) = (N, N)).
  { unfold shape_of, nrows. rewrite (wf_mat_ncols N N _ HH HN). now destruct HH as [-> _]. }
  rewrite Hshape.
  assert (Hr : nrows (electronic_hamiltonian self) = N) by now injection Hshape.
  assert (Hc : ncols (electronic_hamiltonian self) = N) by now injection Hshape.
  rewrite Hr, Hc.
  generalize (electronic_total_occupation_number self) as occ. intros occ.
  assert (G : forall (l : list nat) (s : OpenPolymer) (r : result (Mat * Mat)),
             same_operators s self ->
             electronic_eigenvectors s = electronic_eigenvectors self ->
             (forall V d, r = Ok (V, d) -> wf_mat N N V) ->
             let res := fold_left
               (fun (acc : OpenPolymer * result (Mat * Mat)) i =>
                  let '(self, r) := acc in
                  match r with
                  | Raise exc => (self, Raise exc)
                  | Ok (eigvecs, d) =>
                      match get_eigensystem_by_manifold self i with
                      | Raise exc => (self, Raise exc)
                      | Ok (e, v) =>
                          (if Nat.eqb i 1 then set_exciton_energies self e else self,
                           Ok (mat_add eigvecs (manifold_to_full occ (N, N) v (Z.of_nat i)),
                               mat_add d (manifold_to_full occ (N, N) (diag (map RtoC e))
                                                           (Z.of_nat i))))
                      end
                  end) l (s, r) in
             same_operators (fst res) self /\
             electronic_eigenvectors (fst res) = electronic_eigenvectors self /\
             forall V d, snd res = Ok (V, d) -> wf_mat N N V).
  { induction l as [|i l IH]; intros s r Hs Hev Hwf; cbn [fold_left].
    - cbn [fst snd]. auto.
    - destruct r as [[eigvecs d]|exc].
      + destruct (get_eigensystem_by_manifold s i) as [[e v]|exc].
        * apply IH.
          -- destruct (Nat.eqb i 1); exact Hs.
          -- destruct (Nat.eqb i 1); exact Hev.
          -- intros V d' [= <- <-]. apply wf_mat_add; [now apply (Hwf eigvecs d)|].
             exact (wf_coherence_to_full occ N N v (Z.of_nat i) (Z.of_nat i)).
        * apply IH; [exact Hs|exact Hev|]. intros V d' H. discriminate H.
      + apply IH; [exact Hs|exact Hev|]. intros V d' H. discriminate H. }
  apply G; [apply same_operators_refl|reflexivity|].
  intros V d [= <- _]. apply wf_zeros.
Qed.

Lemma set_electronic_eigensystem_shapes (self : OpenPolymer) (N : nat) :
  0 < N -> wf_mat N N (electronic_hamiltonian self) ->
  electronic_eigenvectors self = None ->
  same_operators (fst (set_electronic_eigensystem self)) self /\
  (forall v, electronic_eigenvectors (fst (set_electronic_eigensystem self)) = Some v ->
             wf_mat N N v) /\
  (snd (set_electronic_eigensystem self) = Ok tt ->
   exists v, electronic_eigenvectors (fst (set_electronic_eigensystem self)) = Some v).
Proof.
  intros HN HH Hnone.
  destruct (electronic_eigensystem_loop_shapes self N HN HH) as (Hsame & Hev & Hwf).
  unfold set_electronic_eigensystem.
  destruct (electronic_eigensystem_loop self) as [s [[V d]|exc]]; cbn [fst snd] in *.
  - destruct (allclose _ d); cbn [fst snd].
    + split; [exact Hsame|]. split.
      * intros v [= <-]. now apply (Hwf V d).
      * intros _. now exists V.
    + split; [exact Hsame|]. split; [|discriminate].
      intros v Hv. rewrite Hev, Hnone in Hv. discriminate Hv.
  - split; [exact Hsame|]. split; [|discriminate].
    intros v Hv. rewrite Hev, Hnone in Hv. discriminate Hv.
Qed.

Lemma wf_two_site_operator (n i j : nat) :
  1 <= n -> wf_mat (2 ^ n) (2 ^ n) (two_site_operator n up down i j).
Proof.
  intros Hn. unfold two_site_operator. apply entry_factor_chain; [exact Hn|].
  intros p. apply wf22_cases. destruct (Nat.eqb j p), (Nat.eqb i p); auto.
Qed.

(** *** The dipole operators of the constructor *)

Lemma pol_dict_pols (k : nat) : k < 3 -> pol_dict (nth k pols ""%string) = Ok k.
Proof. intros Hk. destruct k as [|[|[|k]]]; try reflexivity. lia. Qed.

Lemma dipoles_column_lt (dipoles : list (list R)) (k : nat) :
  k < length (hd [] dipoles) ->
  dipoles_column dipoles k = Ok (map (fun row => nth k row 0%R) dipoles).
Proof. intros Hk. unfold dipoles_column. now rewrite (proj2 (Nat.ltb_lt _ _) Hk). Qed.

Lemma dipoles_column_ge (dipoles : list (list R)) (k : nat) :
  length (hd [] dipoles) <= k -> dipoles_column dipoles k = Raise axis_IndexError.
Proof.
  intros Hk. unfold dipoles_column.
  destruct (Nat.ltb_spec k (length (hd [] dipoles))); [lia|reflexivity].
Qed.

Section DipoleAttributes.
Variable n : nat.
Variable dipoles : list (list R).
Hypothesis Hn : 1 <= n.
Hypothesis Hrows : n <= length dipoles.

Local Abbreviation ups := (map (single_site_operator n up) (seq 0 n)).
Local Abbreviation downs := (map (single_site_operator n down) (seq 0 n)).
Local Abbreviation dcol k := (map (fun row : list R => nth k row 0%R) dipoles).

Lemma make_mu_site_basis_for_value (k : nat) :
  k < 3 -> k < length (hd [] dipoles) ->
  exists m, make_mu_site_basis_for dipoles ups downs (nth k pols ""%string) = Ok m /\
            wf_mat (2 ^ n) (2 ^ n) m /\
            make_mu_site_basis (dcol k) ups downs = Ok m.
Proof.
  intros Hk3 Hk. unfold make_mu_site_basis_for.
  rewrite (pol_dict_pols k Hk3). cbn [mbind result_bind].
  rewrite dipoles_column_lt by assumption. cbn [mbind result_bind].
  assert (Hd : n <= length (dcol k)) by now rewrite length_map.
  destruct (mu_entries n (dcol k) Hn Hd) as [Hwf _].
  eexists. split; [exact (make_mu_site_basis_value n (dcol k) Hn Hd)|].
  split; [exact Hwf|exact (make_mu_site_basis_value n (dcol k) Hn Hd)].
Qed.

Lemma make_mu_site_basis_for_raises (k : nat) :
  k < 3 -> length (hd [] dipoles) <= k ->
  make_mu_site_basis_for dipoles ups downs (nth k pols ""%string) = Raise axis_IndexError.
Proof.
  intros Hk3 Hk. unfold make_mu_site_basis_for.
  rewrite (pol_dict_pols k Hk3). cbn [mbind result_bind].
  now rewrite dipoles_column_ge.
Qed.

Lemma make_mu_dict_site_basis_value :
  3 <= length (hd [] dipoles) ->
  exists (m : Mat) (d : gmap string Mat),
    make_mu_dict_site_basis dipoles ups downs = Ok (Some m, d) /\
    forall k, k < 3 ->
      exists mk, d !! nth k pols ""%string = Some mk /\ wf_mat (2 ^ n) (2 ^ n) mk /\
                 make_mu_site_basis (dcol k) ups downs = Ok mk.
Proof.
  intros Hc. unfold make_mu_dict_site_basis. cbn [pols fold_left mbind result_bind].
  destruct (make_mu_site_basis_for_value 0) as (mx & Hx & Hwx & Hvx); [lia..|].
  destruct (make_mu_site_basis_for_value 1) as (my & Hy & Hwy & Hvy); [lia..|].
  destruct (make_mu_site_basis_for_value 2) as (mz & Hz & Hwz & Hvz); [lia..|].
  cbn [nth pols] in Hx, Hy, Hz.
  rewrite Hx. cbn [mbind result_bind]. rewrite Hy. cbn [mbind result_bind].
  rewrite Hz. cbn [mbind result_bind].
  eexists _, _. split; [reflexivity|].
  intros [|[|[|k]]] Hk; [| | |lia]; cbn [nth pols].
  - exists mx. split; [|split; assumption].
    rewrite lookup_insert_ne by discriminate. rewrite lookup_insert_ne by discriminate.
    apply lookup_insert_eq.
  - exists my. split; [|split; assumption].
    rewrite lookup_insert_ne by discriminate. apply lookup_insert_eq.
  - exists mz. split; [|split; assumption]. apply lookup_insert_eq.
Qed.

Lemma make_mu_dict_site_basis_raises :
  length (hd [] dipoles) < 3 ->
  make_mu_dict_site_basis dipoles ups downs = Raise axis_IndexError.
Proof.
  intros Hc. unfold make_mu_dict_site_basis. cbn [pols fold_left mbind result_bind].
  destruct (Nat.le_gt_cases (length (hd [] dipoles)) 0) as [H0|H0].
  { pose proof (make_mu_site_basis_for_raises 0 ltac:(lia) H0) as E.
    cbn [nth pols] in E. now rewrite E. }
  destruct (make_mu_site_basis_for_value 0) as (mx & Hx & _); [lia..|].
  cbn [nth pols] in Hx. rewrite Hx. cbn [mbind result_bind].
  destruct (Nat.le_gt_cases (length (hd [] dipoles)) 1) as [H1|H1].
  { pose proof (make_mu_site_basis_for_raises 1 ltac:(lia) H1) as E.
    cbn [nth pols] in E. now rewrite E. }
  destruct (make_mu_site_basis_for_value 1) as (my & Hy & _); [lia..|].
  cbn [nth pols] in Hy. rewrite Hy. cbn [mbind result_bind].
  pose proof (make_mu_site_basis_for_raises 2 ltac:(lia) ltac:(lia)) as E.
  cbn [nth pols] in E. now rewrite E.
Qed.

Lemma make_mu_up_site_basis_value :
  1 <= length (hd [] dipoles) ->
  exists m, make_mu_up_site_basis dipoles ups "x" = Ok m /\ wf_mat (2 ^ n) (2 ^ n) m.
Proof.
  intros Hc. unfold make_mu_up_site_basis.
  change (pol_dict "x") with (Ok 0 : result nat). cbn [mbind result_bind].
  rewrite dipoles_column_lt by lia. cbn [mbind result_bind].
  assert (Hlen : length ups = n) by now rewrite length_map, length_seq.
  assert (Hwf : forall i, i < n -> wf_mat (2 ^ n) (2 ^ n) (nth i ups [])).
  { intros i Hi. rewrite nth_map_seq by assumption.
    apply wf_single_site_operator; [exact Hn|]. apply (wf22_cases up). auto. }
  rewrite (py_getitem_lt ups 0 []) by lia. cbn [mbind result_bind]. rewrite Hlen.
  apply (fold_result_total (wf_mat (2 ^ n) (2 ^ n))); [|apply Hwf; lia].
  intros i s Hi Hs. apply in_seq in Hi. cbn [mbind result_bind].
  rewrite (py_getitem_lt ups i []) by lia. cbn [mbind result_bind].
  eexists. split; [reflexivity|]. apply wf_mat_add; [exact Hs|]. apply Hwf. lia.
Qed.
End DipoleAttributes.

Section Constructor.
Variable eigh : Mat -> list R * Mat.
Variable argsort : list R -> list nat.

(** X24. For [n >= 1] real site energies, enough couplings and a dipole for
    every site, the constructor builds the object when the couplings are
    real numbers and the dipoles have (at least) three components:
    whatever the eigensolver returns, it returns or raises only in
    [set_electronic_eigensystem]; the object holds operators of the size
    [2^n] of the full space, the dipole operators of the three
    polarisations, also the eigenvectors when they were assigned, so that
    every list of dissipation instructions it can assemble generates a
    trace-preserving evolution.  With fewer than three dipole components
    the constructor raises [IndexError], and with a complex coupling the
    error of the in-place addition. *)
Theorem init_spec (site_energies : list R) (site_couplings : list py_number)
        (dipoles : list (list R)) :
  let n := length site_energies in
  1 <= n -> length (lex_pairs n) <= length site_couplings -> n <= length dipoles ->
  ((forall k, k < length (lex_pairs n) ->
              is_real (nth k site_couplings (PyFloat 0)) = true) ->
   3 <= length (hd [] dipoles) ->
   exists self r,
     init eigh argsort site_energies site_couplings dipoles = Ok (self, r) /\
     num_sites self = n /\
     wf_mat (2 ^ n) (2 ^ n) (electronic_hamiltonian self) /\
     Forall (wf_mat (2 ^ n) (2 ^ n)) (up_list self) /\
     Forall (wf_mat (2 ^ n) (2 ^ n)) (sz_list self) /\
     Forall (wf_mat (2 ^ n) (2 ^ n)) (exchange_list self) /\
     (forall k, k < 3 ->
        exists m, mu_dict self !! nth k pols ""%string = Some m /\
                  wf_mat (2 ^ n) (2 ^ n) m /\
                  make_mu_site_basis (map (fun row => nth k row 0%R) dipoles)
                                     (up_list self) (down_list self) = Ok m) /\
     mu self = mu_dict self !! "x"%string /\
     (exists m, mu_ket_up self = Some m /\ wf_mat (2 ^ n) (2 ^ n) m) /\
     (forall v, electronic_eigenvectors self = Some v -> wf_mat (2 ^ n) (2 ^ n) v) /\
     (r = Ok tt -> exists v, electronic_eigenvectors self = Some v) /\
     forall l rho,
       snd (set_electronic_dissipation_instructions self) = Ok l ->
       wf_mat (2 ^ n) (2 ^ n) rho ->
       exists L M, make_Liouvillian l = Ok L /\
                   reshape (2 ^ n) (2 ^ n) (mat_vec L (flatten rho)) = Some M /\
                   trace M = 0%C) /\
  (length (hd [] dipoles) < 3 ->
   init eigh argsort site_energies site_couplings dipoles = Raise axis_IndexError) /\
  (3 <= length (hd [] dipoles) ->
   forall k, k < length (lex_pairs n) ->
             is_real (nth k site_couplings (PyFloat 0)) = false ->
             init eigh argsort site_energies site_couplings dipoles
             = Raise UFuncTypeError).
Proof.
  intros n Hn Hc Hrows.
  assert (Hpos : 0 < 2 ^ n) by (apply Nat.neq_0_lt_0, Nat.pow_nonzero; lia).
  split; [|split].
  - intros Hreal Hcols.
    destruct (electronic_hamiltonian_entries site_energies site_couplings Hn Hc Hreal)
      as (H & _ & _ & HH & HwfH & _).
    fold n in HH, HwfH.
    destruct (make_mu_dict_site_basis_value n dipoles Hn Hrows Hcols)
      as (mlast & md & Hdict & Hmd).
    assert (Hcol0 : 0 < length (hd [] dipoles)) by lia.
    destruct (make_mu_site_basis_for_value n dipoles Hn Hrows 0 ltac:(lia) Hcol0)
      as (mx & Hmx & Hwfx & Hvx).
    cbn [nth pols] in Hmx.
    assert (Hcol1 : 1 <= length (hd [] dipoles)) by lia.
    destruct (make_mu_up_site_basis_value n dipoles Hn Hrows Hcol1) as (mk & Hmk & Hwfk).
    unfold init. fold n.
    rewrite !make_single_operator_list_value. cbn [mbind result_bind].
    rewrite make_multi_operator_list_exchange. cbn [mbind result_bind].
    rewrite Hdict. cbn [mbind result_bind].
    rewrite Hmx. cbn [mbind result_bind]. rewrite Hmk. cbn [mbind result_bind].
    rewrite HH. cbn [mbind result_bind].
    destruct (set_manifold_eigensystems eigh argsort n H
                (set_electronic_total_occupation_number n)) as [es vs].
    match goal with
    | |- exists self r, Ok (set_electronic_eigensystem ?s0) = Ok (self, r) /\ _ =>
        set (self0 := s0)
    end.
    destruct (set_electronic_eigensystem_shapes self0 (2 ^ n) Hpos HwfH eq_refl)
      as (Hsame & Hv & Hsome).
    destruct Hsame as (Hnum & Hup & Hsz & Hex & Hham & Hdown & Hmu & Hmudict & Hket).
    exists (fst (set_electronic_eigensystem self0)), (snd (set_electronic_eigensystem self0)).
    split; [now rewrite <- surjective_pairing|].
    assert (Hwfsingle : forall O, wf22 O ->
              Forall (wf_mat (2 ^ n) (2 ^ n)) (map (single_site_operator n O) (seq 0 n))).
    { intros O HO. apply List.Forall_forall. intros M HM.
      apply in_map_iff in HM as (i & <- & _). now apply wf_single_site_operator. }
    assert (H1 : wf_mat (2 ^ n) (2 ^ n)
                   (electronic_hamiltonian (fst (set_electronic_eigensystem self0))))
      by (rewrite Hham; exact HwfH).
    assert (H2 : Forall (wf_mat (2 ^ n) (2 ^ n))
                   (up_list (fst (set_electronic_eigensystem self0)))).
    { rewrite Hup. apply Hwfsingle. apply wf22_cases. auto. }
    assert (H3 : Forall (wf_mat (2 ^ n) (2 ^ n))
                   (sz_list (fst (set_electronic_eigensystem self0)))).
    { rewrite Hsz. apply Hwfsingle. apply (wf22_cases sz). auto. }
    assert (H4 : Forall (wf_mat (2 ^ n) (2 ^ n))
                   (exchange_list (fst (set_electronic_eigensystem self0)))).
    { rewrite Hex. apply List.Forall_forall. intros M HM.
      apply in_map_iff in HM as (ij & <- & _). now apply wf_two_site_operator. }
    split; [exact Hnum|]. split; [exact H1|]. split; [exact H2|]. split; [exact H3|].
    split; [exact H4|].
    split; [rewrite Hmudict, Hup, Hdown; exact Hmd|].
    split.
    { rewrite Hmu, Hmudict. cbn [mu mu_dict self0].
      destruct (Hmd 0 ltac:(lia)) as (m0 & Hlook & _ & Hv0).
      cbn [nth pols] in Hlook. rewrite Hlook. f_equal.
      rewrite Hvx in Hv0. now injection Hv0. }
    split; [rewrite Hket; exists mk; split; [reflexivity|exact Hwfk]|].
    split; [exact Hv|]. split; [exact Hsome|].
    intros l rho Hl Hrho.
    destruct (Lindblad_dissipation_instructions _ (2 ^ n) Hpos H1 H3 H2 H4 Hv l Hl)
      as [HL Hne].
    now apply Lindblad_list_trace.
  - intros Hcols. unfold init. fold n.
    rewrite !make_single_operator_list_value. cbn [mbind result_bind].
    rewrite make_multi_operator_list_exchange. cbn [mbind result_bind].
    now rewrite (make_mu_dict_site_basis_raises n dipoles Hn Hrows Hcols).
  - intros Hcols k Hk Hcomplex.
    destruct (make_mu_dict_site_basis_value n dipoles Hn Hrows Hcols)
      as (mlast & md & Hdict & _).
    assert (Hcol0 : 0 < length (hd [] dipoles)) by lia.
    destruct (make_mu_site_basis_for_value n dipoles Hn Hrows 0 ltac:(lia) Hcol0)
      as (mx & Hmx & _).
    cbn [nth pols] in Hmx.
    assert (Hcol1 : 1 <= length (hd [] dipoles)) by lia.
    destruct (make_mu_up_site_basis_value n dipoles Hn Hrows Hcol1) as (mk & Hmk & _).
    assert (HH := make_electronic_hamiltonian_raises site_energies site_couplings
                    Hn Hc k Hk Hcomplex).
    fold n in HH.
    unfold init. fold n.
    rewrite !make_single_operator_list_value. cbn [mbind result_bind].
    rewrite make_multi_operator_list_exchange. cbn [mbind result_bind].
    rewrite Hdict. cbn [mbind result_bind].
    rewrite Hmx. cbn [mbind result_bind]. rewrite Hmk. cbn [mbind result_bind].
    now rewrite HH.
Qed.
End Constructor.

Lemma init_spec_witness :
  exists self r,
    init diagonal_eigh argsort_in_order [2%R; 1%R] [PyFloat 0]
         [[1%R; 0%R; 0%R]; [0%R; 1%R; 0%R]] = Ok (self, r) /\
    num_sites self = 2 /\
    mu self = mu_dict self !! "x"%string.
Proof.
  destruct (init_spec diagonal_eigh argsort_in_order [2%R; 1%R] [PyFloat 0]
              [[1%R; 0%R; 0%R]; [0%R; 1%R; 0%R]]) as (Hok & _).
  - simpl. lia.
  - simpl. lia.
  - simpl. lia.
  - destruct Hok as (self & r & H1 & H2 & _ & _ & _ & _ & _ & H3 & _).
    + intros [|k] Hk; [reflexivity|]. simpl in Hk. lia.
    + simpl. lia.
    + exists self, r. split; [exact H1|]. split; [exact H2|exact H3].
Defined.

(** ** Decoherence between the eigenstates of a manifold *)





Section EigenstateDecoherence.
Variable kT : R.
Variable rates : list (list R).
Variable E : list R.
Variable m : nat.
Hypothesis Hrows : length rates = m.
Hypothesis Hcols : length (hd [] rates) = m.
Hypothesis HE : m <= length E.

Let step (i : nat) (acc : result (list instruction)) (j : nat)
  : result (list instruction) :=
  ins ← acc;
  if Nat.ltb i j then
    let O := alter (fun r : Vec => <[j := 1%C]> r) i (zeros m m) in
    Ei ← py_getitem E i;
    Ej ← py_getitem E j;
    let '(down_, up_) := boltzmann_factors kT Ei Ej in
    let down_ := (down_ * nth j (nth i rates []) 0)%R in
    let up_ := (up_ * nth j (nth i rates []) 0)%R in
    let ins := ins ++ make_Lindblad_instructions (RtoC down_) O in
    if isclose_real up_ 0 then Ok ins
    else Ok (ins ++ make_Lindblad_instructions (RtoC up_) (mat_T O))
  else Ok ins.









End EigenstateDecoherence.



(** ** The hand-built Liouvillian of one jump between eigenstates *)

(** [M[i,j] = x], [M[i,:] = x], [M[:,j] = x] and [M[row,cols] = vals] on a
    two-dimensional array, for indices in range *)
Definition set_entry (M : Mat) (i j : nat) (x : C) : Mat :=
  alter (fun r : Vec => <[j := x]> r) i M.
Definition set_row (M : Mat) (i : nat) (x : C) : Mat :=
  alter (map (fun _ => x)) i M.
Definition set_col (M : Mat) (j : nat) (x : C) : Mat :=
  map (fun r : Vec => <[j := x]> r) M.
Definition assign_row_at (M : Mat) (row : nat) (cols : list nat) (vals : Vec) : Mat :=
  fold_left (fun M '(c, x) => set_entry M row c x) (zip cols vals) M.

(** [np.arange(size)*(size+1)] *)
Definition pop_inds (size : nat) : list nat :=
  map (fun k => k * (size + 1)) (seq 0 size).

Definition index_out_of_bounds : py_exception :=
  PyExc "IndexError" "index is out of bounds".

(** [make_eigenstate_decoherence_Lindblad(gamma,i,j,manifold_num)], with
    [size = self.H_eigenvalues[manifold_num].size] *)
Definition make_eigenstate_decoherence_Lindblad (size : nat) (gamma : R) (i j : nat)
  : result Mat :=
  let pop_inds := pop_inds size in
  let pop_subspace := zeros (length pop_inds) (length pop_inds) in
  if negb (Nat.ltb j size) || negb (Nat.ltb i size) then Raise index_out_of_bounds
  else
    let pop_subspace := set_entry pop_subspace j j (RtoC (-0.5)) in
    let pop_subspace := set_entry pop_subspace i j (RtoC 0.5) in
    let L_diagonal := zeros size size in
    let L_diagonal := set_row L_diagonal j (RtoC (-0.25)) in
    let L_diagonal := set_col L_diagonal j (RtoC (-0.25)) in
    let L_diagonal := set_entry L_diagonal j j (RtoC (-0.5)) in
    let L_total := diag (flatten L_diagonal) in
    let L_total :=
      fold_left (fun L_total '(i, j) =>
                   assign_row_at L_total i pop_inds (nth j pop_subspace []))
                (zip pop_inds (seq 0 (length pop_inds))) L_total in
    Ok (mat_scale (RtoC gamma) L_total).

Lemma entry_set_entry (r c : nat) (M : Mat) (i j : nat) (x : C) (a b : nat) :
  wf_mat r c M -> i < r -> j < c ->
  wf_mat r c (set_entry M i j x) /\
  entry (set_entry M i j x) a b =
  if Nat.eqb a i && Nat.eqb b j then x else entry M a b.
Proof.
  intros HM Hi Hj. unfold set_entry. split; [now apply wf_alter_insert|].
  destruct (Nat.eqb_spec a i) as [->|Ha]; [destruct (Nat.eqb_spec b j) as [->|Hb]|].
  - now apply (entry_alter_insert_same r c).
  - apply entry_alter_insert_other. now right.
  - apply entry_alter_insert_other. now left.
Qed.

Lemma entry_set_row (r c : nat) (M : Mat) (i : nat) (x : C) (a b : nat) :
  wf_mat r c M -> a < r -> b < c ->
  wf_mat r c (set_row M i x) /\
  entry (set_row M i x) a b = if Nat.eqb a i then x else entry M a b.
Proof.
  intros HM Ha Hb. unfold set_row. split.
  - destruct HM as [Hr Hc]. split; [now rewrite length_alter|].
    rewrite List.Forall_forall in *. intros v Hv.
    apply (In_nth _ _ []) in Hv as (k & Hk & <-). rewrite length_alter in Hk.
    rewrite nth_alter_map. destruct (Nat.eqb i k).
    + rewrite length_map. apply Hc. apply nth_In. lia.
    + apply Hc. apply nth_In. lia.
  - unfold entry. rewrite nth_alter_map.
    destruct (Nat.eqb_spec i a) as [->|Hne].
    + rewrite Nat.eqb_refl.
      rewrite (nth_map_lt (fun _ => x) (nth a M []) b 0%C 0%C); [reflexivity|].
      now rewrite (wf_mat_row r c M a HM Ha).
    + destruct (Nat.eqb_spec a i); [congruence|reflexivity].
Qed.

Lemma entry_set_col (r c : nat) (M : Mat) (j : nat) (x : C) (a b : nat) :
  wf_mat r c M -> a < r -> j < c ->
  wf_mat r c (set_col M j x) /\
  entry (set_col M j x) a b = if Nat.eqb b j then x else entry M a b.
Proof.
  intros HM Ha Hj. unfold set_col. split.
  - destruct HM as [Hr Hc]. split; [now rewrite length_map|].
    rewrite List.Forall_forall in *. intros v Hv.
    apply in_map_iff in Hv as (w & <- & Hw). rewrite length_insert. now apply Hc.
  - unfold entry.
    rewrite (nth_map_lt (fun r0 : Vec => <[j := x]> r0) M a [] []) by (destruct HM; lia).
    rewrite nth_list_insert by (now rewrite (wf_mat_row r c M a HM Ha)).
    rewrite (Nat.eqb_sym j b). reflexivity.
Qed.

(** [M[row,cols] = vals] for distinct columns: the row gets the values at
    the columns; nothing else changes. *)
Lemma entry_assign_row_at (r c : nat) (row : nat) (cols : list nat) :
  row < r -> Forall (fun b => b < c) cols -> List.NoDup cols ->
  forall (vals : Vec) (M : Mat),
    wf_mat r c M -> length vals = length cols ->
    wf_mat r c (assign_row_at M row cols vals) /\
    (forall l, l < length cols ->
               entry (assign_row_at M row cols vals) row (nth l cols 0) = nth l vals 0%C) /\
    (forall a b, ~ (a = row /\ In b cols) ->
                 entry (assign_row_at M row cols vals) a b = entry M a b).
Proof.
  intros Hrow Hbound Hnd. unfold assign_row_at.
  induction cols as [|c0 cols IH]; intros vals M HM Hvals.
  - simpl. split; [assumption|]. split; [intros l Hl; simpl in Hl; lia|reflexivity].
  - destruct vals as [|x vals]; [discriminate|]. cbn [zip zip_with fold_left].
    apply Forall_cons in Hbound as [Hc0 Hbound].
    apply List.NoDup_cons_iff in Hnd as [Hnotin Hnd].
    destruct (entry_set_entry r c M row c0 x 0 0 HM Hrow Hc0) as [HM1 _].
    destruct (IH Hbound Hnd vals (set_entry M row c0 x) HM1) as (Hwf & Hin & Hout);
      [simpl in Hvals; lia|].
    split; [exact Hwf|]. split.
    + intros [|l] Hl; cbn [nth].
      * rewrite Hout by (intros [_ H]; contradiction).
        rewrite (proj2 (entry_set_entry r c M row c0 x row c0 HM Hrow Hc0)).
        now rewrite !Nat.eqb_refl.
      * apply Hin. simpl in Hl. lia.
    + intros a b Hab. rewrite Hout by (intros [-> H]; apply Hab; split; [reflexivity|now right]).
      rewrite (proj2 (entry_set_entry r c M row c0 x a b HM Hrow Hc0)).
      destruct (Nat.eqb_spec a row) as [->|?]; [|reflexivity].
      destruct (Nat.eqb_spec b c0) as [->|?]; [|reflexivity].
      exfalso. apply Hab. split; [reflexivity|now left].
Qed.

(** The loop [for i,j in zip(rows, range(len(rows))): M[i,cols] = P[j,:]]. *)
Lemma entry_assign_rows (r c : nat) (cols : list nat) (P : Mat) :
  Forall (fun b => b < c) cols -> List.NoDup cols ->
  forall (rows : list nat) (start : nat) (M : Mat),
    wf_mat r c M -> Forall (fun a => a < r) rows -> List.NoDup rows ->
    (forall k, k < length rows -> length (nth (start + k) P []) = length cols) ->
    let R := fold_left (fun L_total '(i, j) => assign_row_at L_total i cols (nth j P []))
                       (zip rows (seq start (length rows))) M in
    wf_mat r c R /\
    (forall k l, k < length rows -> l < length cols ->
                 entry R (nth k rows 0) (nth l cols 0) = entry P (start + k) l) /\
    (forall a b, ~ (In a rows /\ In b cols) -> entry R a b = entry M a b).
Proof.
  intros Hcols Hndc.
  induction rows as [|row rows IH]; intros start M HM Hrows Hnd HP; cbv zeta.
  - simpl. split; [assumption|]. split; [intros k l Hk; simpl in Hk; lia|reflexivity].
  - cbn [length seq zip zip_with fold_left].
    apply Forall_cons in Hrows as [Hrow Hrows].
    apply List.NoDup_cons_iff in Hnd as [Hnotin Hnd].
    destruct (entry_assign_row_at r c row cols Hrow Hcols Hndc (nth start P []) M HM)
      as (HM1 & Hin1 & Hout1).
    { specialize (HP 0 ltac:(simpl; lia)). now rewrite Nat.add_0_r in HP. }
    destruct (IH (S start) _ HM1 Hrows Hnd) as (Hwf & Hin & Hout).
    { intros k Hk. replace (S start + k) with (start + S k) by lia.
      apply HP. simpl. lia. }
    cbv zeta in Hwf, Hin, Hout.
    split; [exact Hwf|]. split.
    + intros [|k] l Hk Hl; cbn [nth].
      * rewrite Hout by (intros [H _]; contradiction).
        rewrite Hin1 by assumption. now rewrite Nat.add_0_r.
      * replace (start + S k) with (S start + k) by lia.
        apply Hin; [simpl in Hk; lia|assumption].
    + intros a b Hab. rewrite Hout.
      * apply Hout1. intros [-> Hb]. apply Hab. split; [now left|assumption].
      * intros [Ha Hb]. apply Hab. split; [now right|assumption].
Qed.

Lemma pair_index_inj (n a1 a2 b1 b2 : nat) :
  a2 < n -> b2 < n -> a1 * n + a2 = b1 * n + b2 -> a1 = b1 /\ a2 = b2.
Proof.
  intros Ha Hb H.
  assert (H1 : (a1 * n + a2) / n = a1) by (rewrite Nat.div_add_l by lia;
                                           rewrite Nat.div_small by lia; lia).
  assert (H2 : (b1 * n + b2) / n = b1) by (rewrite Nat.div_add_l by lia;
                                           rewrite Nat.div_small by lia; lia).
  rewrite H in H1. rewrite H1 in H2. subst b1. split; [reflexivity|lia].
Qed.

Lemma length_pop_inds (n : nat) : length (pop_inds n) = n.
Proof. unfold pop_inds. now rewrite length_map, length_seq. Qed.

Lemma nth_pop_inds (n k : nat) : k < n -> nth k (pop_inds n) 0 = k * n + k.
Proof. intros Hk. unfold pop_inds. rewrite nth_map_seq by assumption. lia. Qed.

Lemma in_pop_inds (n a1 a2 : nat) :
  a1 < n -> a2 < n -> In (a1 * n + a2) (pop_inds n) <-> a1 = a2.
Proof.
  intros H1 H2. unfold pop_inds. rewrite in_map_iff. split.
  - intros (k & Hk & Hin). apply in_seq in Hin.
    replace (k * (n + 1)) with (k * n + k) in Hk by lia.
    apply pair_index_inj in Hk; lia.
  - intros ->. exists a2. split; [lia|apply in_seq; lia].
Qed.

Lemma pop_inds_bounds (n : nat) : Forall (fun a => a < n * n) (pop_inds n).
Proof.
  apply List.Forall_forall. intros a Ha. unfold pop_inds in Ha.
  apply in_map_iff in Ha as (k & <- & Hk). apply in_seq in Hk. nia.
Qed.

Lemma NoDup_map_injective {A B : Type} (f : A -> B) (l : list A) :
  (forall x y, In x l -> In y l -> f x = f y -> x = y) ->
  List.NoDup l -> List.NoDup (map f l).
Proof.
  intros Hinj Hnd. induction Hnd as [|x l Hx Hnd IH]; cbn [map]; constructor.
  - intros Hin. apply in_map_iff in Hin as (y & Hy & Hin).
    apply Hx. rewrite <- (Hinj y x); [exact Hin|now right|now left|exact Hy].
  - apply IH. intros y z Hy Hz. apply Hinj; now right.
Qed.

Lemma NoDup_pop_inds (n : nat) : List.NoDup (pop_inds n).
Proof.
  unfold pop_inds. apply NoDup_map_injective; [|apply seq_NoDup].
  intros x y Hx Hy H. nia.
Qed.

Section JumpLiouvillian.
Variable n : nat.
Variable gamma : R.
Variables i j : nat.
Hypothesis Hi : i < n.
Hypothesis Hj : j < n.
Hypothesis Hij : i <> j.

Let ps : Mat := set_entry (set_entry (zeros n n) j j (RtoC (-0.5))) i j (RtoC 0.5).
Let Ld : Mat :=
  set_entry (set_col (set_row (zeros n n) j (RtoC (-0.25))) j (RtoC (-0.25))) j j
            (RtoC (-0.5)).
Let Lt : Mat :=
  fold_left (fun L_total '(i, j) => assign_row_at L_total i (pop_inds n) (nth j ps []))
            (zip (pop_inds n) (seq 0 n)) (diag (flatten Ld)).
Let O : Mat := set_entry (zeros n n) i j 1%C.

Lemma ps_entries :
  wf_mat n n ps /\
  forall k l, entry ps k l =
    if Nat.eqb k i && Nat.eqb l j then RtoC 0.5
    else if Nat.eqb k j && Nat.eqb l j then RtoC (-0.5) else 0%C.
Proof.
  unfold ps.
  destruct (entry_set_entry n n (zeros n n) j j (RtoC (-0.5)) 0 0 (wf_zeros n n) Hj Hj)
    as [H1 _].
  split; [now apply entry_set_entry|].
  intros k l.
  rewrite (proj2 (entry_set_entry n n _ i j (RtoC 0.5) k l H1 Hi Hj)).
  rewrite (proj2 (entry_set_entry n n _ j j (RtoC (-0.5)) k l (wf_zeros n n) Hj Hj)).
  now rewrite entry_zeros.
Qed.

Lemma Ld_entries :
  wf_mat n n Ld /\
  forall a1 a2, a1 < n -> a2 < n ->
    entry Ld a1 a2 =
    if Nat.eqb a1 j && Nat.eqb a2 j then RtoC (-0.5)
    else if Nat.eqb a2 j then RtoC (-0.25)
    else if Nat.eqb a1 j then RtoC (-0.25) else 0%C.
Proof.
  unfold Ld.
  assert (H1 : wf_mat n n (set_row (zeros n n) j (RtoC (-0.25))))
    by (apply (entry_set_row n n _ j _ 0 0 (wf_zeros n n)); lia).
  assert (H2 : wf_mat n n (set_col (set_row (zeros n n) j (RtoC (-0.25))) j (RtoC (-0.25))))
    by (apply (entry_set_col n n _ j _ 0 0 H1); lia).
  split; [now apply entry_set_entry|].
  intros a1 a2 Ha1 Ha2.
  rewrite (proj2 (entry_set_entry n n _ j j (RtoC (-0.5)) a1 a2 H2 Hj Hj)).
  rewrite (proj2 (entry_set_col n n _ j (RtoC (-0.25)) a1 a2 H1 Ha1 Hj)).
  rewrite (proj2 (entry_set_row n n _ j (RtoC (-0.25)) a1 a2 (wf_zeros n n) Ha1 Ha2)).
  now rewrite entry_zeros.
Qed.

Lemma make_eigenstate_decoherence_Lindblad_value :
  make_eigenstate_decoherence_Lindblad n gamma i j = Ok (mat_scale (RtoC gamma) Lt).
Proof.
  unfold make_eigenstate_decoherence_Lindblad. rewrite length_pop_inds.
  rewrite (proj2 (Nat.ltb_lt j n) Hj), (proj2 (Nat.ltb_lt i n) Hi). reflexivity.
Qed.

Lemma Lt_entries :
  wf_mat (n * n) (n * n) Lt /\
  forall a1 a2 b1 b2, a1 < n -> a2 < n -> b1 < n -> b2 < n ->
    entry Lt (a1 * n + a2) (b1 * n + b2) =
    if Nat.eqb a1 a2 && Nat.eqb b1 b2 then entry ps a1 b1
    else if Nat.eqb a1 b1 && Nat.eqb a2 b2 then entry Ld a1 a2 else 0%C.
Proof.
  destruct ps_entries as [Hps _]. destruct Ld_entries as [HLd _].
  assert (Hflat : length (flatten Ld) = n * n) by now apply length_flatten.
  assert (HD : wf_mat (n * n) (n * n) (diag (flatten Ld))).
  { rewrite <- Hflat. apply wf_diag. }
  destruct (entry_assign_rows (n * n) (n * n) (pop_inds n) ps (pop_inds_bounds n)
              (NoDup_pop_inds n) (pop_inds n) 0 (diag (flatten Ld)) HD
              (pop_inds_bounds n) (NoDup_pop_inds n)) as (Hwf & Hin & Hout).
  { intros k Hk. rewrite length_pop_inds in *. apply (wf_mat_row n n ps k Hps Hk). }
  cbv zeta in Hwf, Hin, Hout. rewrite length_pop_inds in Hwf, Hin, Hout.
  fold Lt in Hwf, Hin, Hout.
  split; [exact Hwf|].
  intros a1 a2 b1 b2 Ha1 Ha2 Hb1 Hb2.
  destruct (Nat.eqb_spec a1 a2) as [Ea|Ea]; [destruct (Nat.eqb_spec b1 b2) as [Eb|Eb]|];
    cbn [andb].
  - subst a2 b2. rewrite <- (nth_pop_inds n a1 Ha1), <- (nth_pop_inds n b1 Hb1).
    now rewrite Hin.
  - rewrite Hout by (intros [_ H]; apply in_pop_inds in H; [contradiction|lia..]).
    rewrite entry_diag by (rewrite Hflat; nia).
    destruct (Nat.eqb_spec (a1 * n + a2) (b1 * n + b2)) as [E|E].
    + apply pair_index_inj in E as [-> ->]; [|assumption..].
      rewrite !Nat.eqb_refl. cbn [andb]. now apply (nth_flatten n n).
    + destruct (Nat.eqb_spec a1 b1) as [->|?]; [|reflexivity].
      destruct (Nat.eqb_spec a2 b2) as [->|?]; [contradiction|reflexivity].
  - rewrite Hout by (intros [H _]; apply in_pop_inds in H; [contradiction|lia..]).
    rewrite entry_diag by (rewrite Hflat; nia).
    destruct (Nat.eqb_spec (a1 * n + a2) (b1 * n + b2)) as [E|E].
    + apply pair_index_inj in E as [-> ->]; [|assumption..].
      rewrite !Nat.eqb_refl. cbn [andb]. now apply (nth_flatten n n).
    + destruct (Nat.eqb_spec a1 b1) as [->|?]; [|reflexivity].
      destruct (Nat.eqb_spec a2 b2) as [->|?]; [contradiction|reflexivity].
Qed.

Lemma O_entries :
  wf_mat n n O /\ forall a b, entry O a b = ind (Nat.eqb a i && Nat.eqb b j).
Proof.
  unfold O. split; [now apply entry_set_entry; try apply wf_zeros|].
  intros a b.
  rewrite (proj2 (entry_set_entry n n _ i j 1%C a b (wf_zeros n n) Hi Hj)).
  rewrite entry_zeros. now destruct (Nat.eqb a i && Nat.eqb b j).
Qed.

Lemma jump_leftright_entries (a b : nat) :
  a < n -> b < n ->
  entry (mat_scale (RtoC (gamma / 2))
                   (mat_divr (mat_neg (mat_dot (mat_conj (mat_T O)) O)) 2)) a b =
  (RtoC (gamma / 2) * Cdivr (- ind (Nat.eqb a j && Nat.eqb b j)) 2)%C.
Proof.
  intros Ha Hb. destruct O_entries as [HO HOe].
  rewrite (entry_leftright n (RtoC (gamma / 2)) O ltac:(lia) HO a b Ha Hb).
  do 3 f_equal.
  rewrite (Csum_single _ n i Hi).
  - rewrite entry_conj, (entry_T n n O a i HO), !HOe, Nat.eqb_refl. cbn [andb].
    destruct (Nat.eqb a j), (Nat.eqb b j); simpl; lca.
  - intros k Hk Hne. rewrite !HOe.
    destruct (Nat.eqb_spec k i); [contradiction|]. cbn [andb ind]. ring.
Qed.

Lemma jump_Liouvillian_entries :
  exists L,
    make_Liouvillian (make_Lindblad_instructions (RtoC (gamma / 2)) O) = Ok L /\
    wf_mat (n * n) (n * n) L /\
    forall a1 a2 b1 b2, a1 < n -> a2 < n -> b1 < n -> b2 < n ->
      entry L (a1 * n + a2) (b1 * n + b2) =
      (RtoC (gamma / 2) * ind (Nat.eqb a1 i && Nat.eqb b1 j)
                        * ind (Nat.eqb a2 i && Nat.eqb b2 j)
       + RtoC (gamma / 2) * Cdivr (- ind (Nat.eqb a1 j && Nat.eqb b1 j)) 2
                          * ind (Nat.eqb b2 a2)
       + ind (Nat.eqb a1 b1)
         * (RtoC (gamma / 2) * Cdivr (- ind (Nat.eqb b2 j && Nat.eqb a2 j)) 2))%C.
Proof.
  destruct O_entries as [HO HOe]. assert (Hn : 0 < n) by lia.
  rewrite (Lindblad_Liouvillian_value n (RtoC (gamma / 2)) O HO).
  set (Od := mat_conj (mat_T O)).
  set (lr := mat_scale (RtoC (gamma / 2)) (mat_divr (mat_neg (mat_dot Od O)) 2)).
  assert (HOd : wf_mat n n Od) by (apply wf_Od; assumption).
  assert (Hlr : wf_mat n n lr) by (apply wf_leftright; assumption).
  assert (HsO : wf_mat n n (mat_scale (RtoC (gamma / 2)) O)) by now apply wf_map_map.
  assert (HK1 : wf_mat (n * n) (n * n) (kron (mat_scale (RtoC (gamma / 2)) O) (mat_T Od)))
    by (apply wf_kron; [assumption|now apply wf_mat_T]).
  assert (HK2 : wf_mat (n * n) (n * n) (kron lr (mat_T (eye n))))
    by (apply wf_kron; [assumption|apply wf_mat_T; [apply wf_eye|assumption]]).
  assert (HK3 : wf_mat (n * n) (n * n) (kron (eye n) (mat_T lr)))
    by (apply wf_kron; [apply wf_eye|now apply wf_mat_T]).
  eexists. split; [reflexivity|]. split; [auto using wf_mat_add|].
  intros a1 a2 b1 b2 Ha1 Ha2 Hb1 Hb2.
  rewrite (entry_add (n * n) (n * n)) by (auto using wf_mat_add; nia).
  rewrite (entry_add (n * n) (n * n)) by (auto; nia).
  rewrite !(entry_kron n n n n) by (auto using wf_mat_T, wf_eye).
  rewrite entry_scale, (entry_T n n Od), (entry_T n n (eye n)), (entry_T n n lr)
    by (auto using wf_eye).
  unfold Od at 1. rewrite entry_conj, (entry_T n n O _ _ HO), !HOe.
  rewrite !entry_eye by assumption.
  unfold lr. rewrite !jump_leftright_entries by assumption.
  destruct (Nat.eqb a1 i && Nat.eqb b1 j), (Nat.eqb a2 i && Nat.eqb b2 j),
    (Nat.eqb a1 j && Nat.eqb b1 j), (Nat.eqb b2 j && Nat.eqb a2 j),
    (Nat.eqb b2 a2), (Nat.eqb a1 b1); simpl; lca.
Qed.
End JumpLiouvillian.

(** X26. The Liouvillian that [make_eigenstate_decoherence_Lindblad]
    writes down entry by entry for a jump from eigenstate [j] to a
    different eigenstate [i] is the Liouvillian of
    [make_Lindblad_instructions] for the operator with the single entry
    [O[i,j] = 1] at half the rate; an index out of range raises. *)
Theorem make_eigenstate_decoherence_Lindblad_spec (n : nat) (gamma : R) (i j : nat) :
  (i < n -> j < n -> i <> j ->
   make_eigenstate_decoherence_Lindblad n gamma i j =
   make_Liouvillian (make_Lindblad_instructions (RtoC (gamma / 2))
                                                (set_entry (zeros n n) i j 1%C)) /\
   exists L, make_eigenstate_decoherence_Lindblad n gamma i j = Ok L /\
             wf_mat (n * n) (n * n) L) /\
  (n <= i \/ n <= j ->
   make_eigenstate_decoherence_Lindblad n gamma i j = Raise index_out_of_bounds).
Proof.
  split.
  - intros Hi Hj Hij.
    rewrite (make_eigenstate_decoherence_Lindblad_value n gamma i j Hi Hj).
    destruct (Lt_entries n i j Hi Hj Hij) as [HwfLt HLt].
    destruct (jump_Liouvillian_entries n gamma i j Hi Hj Hij) as (L & HL & HwfL & HentL).
    destruct (ps_entries n i j Hi Hj) as [_ Hps].
    destruct (Ld_entries n i j Hi Hj Hij) as [_ HLd].
    rewrite HL.
    assert (Hwf : wf_mat (n * n) (n * n)
                    (mat_scale (RtoC gamma)
                       (fold_left (fun L_total '(i0, j0) =>
                                     assign_row_at L_total i0 (pop_inds n)
                                       (nth j0 (set_entry (set_entry (zeros n n) j j
                                                             (RtoC (-0.5))) i j (RtoC 0.5))
                                               []))
                                  (zip (pop_inds n) (seq 0 n))
                                  (diag (flatten
                                     (set_entry (set_col (set_row (zeros n n) j
                                                            (RtoC (-0.25))) j (RtoC (-0.25)))
                                                j j (RtoC (-0.5))))))))
      by now apply wf_map_map.
    split; [|eexists; split; [reflexivity|exact Hwf]].
    f_equal. apply (mat_ext (n * n) (n * n)); [exact Hwf|exact HwfL|].
    intros a b Ha Hb.
    assert (Hn : 0 < n) by lia.
    assert (Ha1 : a / n < n) by (apply Nat.Div0.div_lt_upper_bound; nia).
    assert (Hb1 : b / n < n) by (apply Nat.Div0.div_lt_upper_bound; nia).
    assert (Ha2 : a mod n < n) by (apply Nat.mod_upper_bound; lia).
    assert (Hb2 : b mod n < n) by (apply Nat.mod_upper_bound; lia).
    rewrite (index_div_mod a n Hn), (index_div_mod b n Hn).
    generalize dependent (a / n). generalize dependent (a mod n).
    generalize dependent (b / n). generalize dependent (b mod n).
    intros b2 Hb2 b1 Hb1 a2 Ha2 a1 Ha1.
    rewrite entry_scale, HLt, HentL, Hps by assumption.
    rewrite HLd by assumption.
    clear HLt HentL Hps HLd HL Hwf HwfL HwfLt Ha Hb.
    repeat match goal with
           | |- context [Nat.eqb ?x ?y] =>
               destruct (Nat.eqb_spec x y) as [?|?]; [subst|]
           end;
      cbn [andb ind]; try congruence; try lia; lca.
  - intros Hout. unfold make_eigenstate_decoherence_Lindblad.
    destruct (Nat.ltb_spec j n), (Nat.ltb_spec i n); cbn [negb orb];
      try reflexivity; lia.
Qed.

Lemma make_eigenstate_decoherence_Lindblad_witness :
  make_eigenstate_decoherence_Lindblad 2 1 0 1 =
  make_Liouvillian (make_Lindblad_instructions (RtoC (1 / 2))
                                               (set_entry (zeros 2 2) 0 1 1%C)).
Proof.
  apply (proj1 (make_eigenstate_decoherence_Lindblad_spec 2 1 0 1)); lia.
Defined.
